(** * Chart geometry kernel of the React components library

    A shallow embedding of the charting code (AreaChart.jsx, BarChart,
    SparklineChart, the PieChart of RadialChart.jsx and the snap hook of
    ChartUtils.jsx) and the properties of its data-to-geometry pipeline.

    Numbers.  A JavaScript number is modelled by [num]: an exact rational
    ([Fin]), [PInf], [NInf] or [NaN].  The special values follow IEEE-754
    (x/0, 0/0, Infinity - Infinity, 0 * Infinity, NaN propagation, comparisons
    with NaN are false); finite arithmetic is exact, so binary64 rounding and
    overflow are abstracted, and the two zeros are identified (the zero is
    +0).  [Math_PI] is the exact rational value of the binary64 constant.
    Where the code rounds a quotient to an integer ([Math_round] in the snap
    handlers, [Math_floor] in the bar handler) and the exact quotient is a
    half-integer, respectively an integer, the rounded binary64 quotient can
    fall on either side; the properties of these indices are stated for
    both sides: they pin the index off such a tie and give the two
    candidates on it.

    Values.  A field of a data item is [VUndefined], [VNull] or a number;
    a data item is a finite map from field names to values, an absent key
    reads as [VUndefined].

    Paths.  An SVG path string is modelled by the list of its commands; the
    empty string is the empty list.

    Exceptions.  A function that can read a property of [undefined] returns
    an [option]; [None] is the TypeError.  An event handler returns a
    [handled]: [Threw] is the TypeError. *)

From Stdlib Require Import QArith Qcanon Qround ZArith Lia Lqa.
From stdpp Require Import base option list gmap strings.

Local Open Scope Qc_scope.

(** ** JavaScript numbers *)

Module JS.

Inductive num : Type :=
  | Fin (q : Qc)
  | PInf
  | NInf
  | NaN.

Definition qlt (p q : Qc) : bool :=
  match p ?= q with Lt => true | _ => false end.

Definition qle (p q : Qc) : bool :=
  match p ?= q with Gt => false | _ => true end.

Definition qeqb (p q : Qc) : bool :=
  match p ?= q with Eq => true | _ => false end.

Definition of_Z (z : Z) : num := Fin (Q2Qc (inject_Z z)).
Definition of_nat (n : nat) : num := of_Z (Z.of_nat n).

Definition zero : num := Fin 0.
Definition one : num := Fin 1.

Definition isNaN (a : num) : bool :=
  match a with NaN => true | _ => false end.

Definition isFinite (a : num) : bool :=
  match a with Fin _ => true | _ => false end.

Definition neg (a : num) : num :=
  match a with
  | Fin q => Fin (- q)
  | PInf => NInf
  | NInf => PInf
  | NaN => NaN
  end.

Definition add (a b : num) : num :=
  match a, b with
  | NaN, _ | _, NaN => NaN
  | Fin p, Fin q => Fin (p + q)
  | PInf, NInf | NInf, PInf => NaN
  | PInf, _ | _, PInf => PInf
  | NInf, _ | _, NInf => NInf
  end.

Definition sub (a b : num) : num := add a (neg b).

(** Sign of a non-NaN number: -1, 0 or 1. *)
Definition sgn (a : num) : comparison :=
  match a with
  | Fin q => q ?= 0
  | PInf => Gt
  | NInf => Lt
  | NaN => Eq
  end.

Definition inf_of_sign (s : comparison) : num :=
  match s with Gt => PInf | Lt => NInf | Eq => NaN end.

Definition sign_mul (s t : comparison) : comparison :=
  match s, t with
  | Eq, _ | _, Eq => Eq
  | Gt, Gt | Lt, Lt => Gt
  | _, _ => Lt
  end.

Definition mul (a b : num) : num :=
  match a, b with
  | NaN, _ | _, NaN => NaN
  | Fin p, Fin q => Fin (p * q)
  | _, _ => inf_of_sign (sign_mul (sgn a) (sgn b))
  end.

(** Division; the zero divisor is +0. *)
Definition div (a b : num) : num :=
  match a, b with
  | NaN, _ | _, NaN => NaN
  | Fin p, Fin q =>
      if qeqb q 0 then inf_of_sign (p ?= 0) else Fin (p / q)
  | Fin _, _ => Fin 0
  | _, Fin q => if qlt q 0 then neg a else a
  | _, _ => NaN
  end.

Definition lt (a b : num) : bool :=
  match a, b with
  | NaN, _ | _, NaN => false
  | Fin p, Fin q => qlt p q
  | PInf, _ | _, NInf => false
  | NInf, _ | _, PInf => true
  end.

Definition le (a b : num) : bool :=
  match a, b with
  | NaN, _ | _, NaN => false
  | Fin p, Fin q => qle p q
  | NInf, _ | _, PInf => true
  | _, _ => false
  end.

Definition gt (a b : num) : bool := lt b a.

(** [a || b] on numbers: 0 and NaN are falsy. *)
Definition truthy (a : num) : bool :=
  match a with
  | Fin q => negb (qeqb q 0)
  | NaN => false
  | _ => true
  end.

Definition or_else (a b : num) : num := if truthy a then a else b.

Definition max2 (a b : num) : num :=
  match a, b with
  | NaN, _ | _, NaN => NaN
  | _, _ => if lt a b then b else a
  end.

Definition min2 (a b : num) : num :=
  match a, b with
  | NaN, _ | _, NaN => NaN
  | _, _ => if lt b a then b else a
  end.

(** [Math.max(...l)] and [Math.min(...l)]; -Infinity and Infinity on the
    empty spread. *)
Definition Math_max (l : list num) : num := foldl max2 NInf l.
Definition Math_min (l : list num) : num := foldl min2 PInf l.

Definition Math_ceil (a : num) : num :=
  match a with
  | Fin q => of_Z (Qceiling q)
  | _ => a
  end.

Definition Math_floor (a : num) : num :=
  match a with
  | Fin q => of_Z (Qfloor q)
  | _ => a
  end.

(** [Math.round] rounds half up: floor(x + 1/2). *)
Definition Math_round (a : num) : num :=
  match a with
  | Fin q => of_Z (Qfloor (q + Q2Qc (1 # 2))%Qc)
  | _ => a
  end.

(** The binary64 value of [Math.PI]. *)
Definition Math_PI : num := Fin (Q2Qc (884279719003555 # 281474976710656)).

(** [ToIntegerOrInfinity] followed by the clamping of a relative end index
    of [Array.prototype.slice] for an array of length [len]. *)
Definition slice_end (len : nat) (e : num) : nat :=
  match e with
  | NaN => 0%nat
  | PInf => len
  | NInf => 0%nat
  | Fin q =>
      let k := Z.quot (Qnum q) (Zpos (Qden q)) in
      if (k <? 0)%Z then Z.to_nat (Z.max (Z.of_nat len + k) 0)
      else Nat.min (Z.to_nat k) len
  end.

(** [l.slice(0, e)] *)
Definition slice0 {A} (l : list A) (e : num) : list A :=
  take (slice_end (length l) e) l.

End JS.

Export JS.

Declare Scope js_scope.
Delimit Scope js_scope with js.
Bind Scope js_scope with num.
Infix "+" := add : js_scope.
Infix "-" := sub : js_scope.
Infix "*" := mul : js_scope.
Infix "/" := div : js_scope.
Notation "- x" := (neg x) : js_scope.

Local Open Scope js_scope.

Global Instance num_eq_dec : EqDecision num.
Proof. solve_decision. Defined.

(** Numeric literals of the source. *)
Definition lit (n d : positive) : num := Fin (Q2Qc (Zpos n # d)).

(** An array read [a[i]] used in arithmetic: out of range it is
    [undefined], which arithmetic turns into NaN. *)
Definition nth_num (a : list num) (i : nat) : num :=
  match a !! i with Some v => v | None => NaN end.

(** [l.filter((_, i) => f i)] *)
Fixpoint filter_index_from {A} (f : nat -> bool) (i : nat) (l : list A) : list A :=
  match l with
  | [] => []
  | a :: l' =>
      if f i then a :: filter_index_from f (S i) l'
      else filter_index_from f (S i) l'
  end.

Definition filter_index {A} (f : nat -> bool) (l : list A) : list A :=
  filter_index_from f 0 l.

(** [for (let i = 0; i < n; i++) s = body(i, s)], where the body may throw. *)
Definition for_range {St} (n : nat) (body : nat -> St -> option St) (s : St) : option St :=
  foldl (fun acc i => acc ≫= body i) (Some s) (seq 0 n).

(** [a[i]] for a numeric subscript: an element only for an integer in
    range, [undefined] otherwise. *)
Definition index_num {A} (a : list A) (i : num) : option A :=
  match i with
  | Fin q =>
      if ((Zpos (Qden q) =? 1) && (0 <=? Qnum q))%Z then a !! Z.to_nat (Qnum q)
      else None
  | _ => None
  end.

(** [l.map((a, i) => ...)] whose callback also updates a captured
    variable of type [St]. *)
Fixpoint map_state_from {A B St} (f : nat -> A -> St -> B * St)
    (i : nat) (l : list A) (s : St) : list B * St :=
  match l with
  | [] => ([], s)
  | a :: l' =>
      let '(b, s1) := f i a s in
      let '(bs, s2) := map_state_from f (S i) l' s1 in
      (b :: bs, s2)
  end.

Definition map_state {A B St} (f : nat -> A -> St -> B * St) (l : list A) (s : St)
  : list B * St := map_state_from f 0 l s.

(** [l.forEach((a, i) => ...)] whose callback updates captured variables
    of type [St]. *)
Fixpoint forEach_from {A St} (f : St -> nat -> A -> St) (i : nat) (l : list A) (s : St) : St :=
  match l with
  | [] => s
  | a :: l' => forEach_from f (S i) l' (f s i a)
  end.

(** [a === b] on numbers: NaN is strictly equal to nothing. *)
Definition strict_eq (a b : num) : bool :=
  match a, b with
  | NaN, _ | _, NaN => false
  | _, _ => bool_decide (a = b)
  end.

(** [l.indexOf(v)]: the first index whose element is strictly equal to
    [v]; [None] is the -1 of an absent value. *)
Fixpoint indexOf_from (l : list num) (v : num) (i : nat) : option nat :=
  match l with
  | [] => None
  | a :: l' => if strict_eq a v then Some i else indexOf_from l' v (S i)
  end.

Definition indexOf (l : list num) (v : num) : option nat := indexOf_from l v 0.

(** The updater the legend toggles pass to their state setter: a copy of
    the set [prev] from which [index] is deleted when present and to which
    it is added otherwise. *)
Definition toggle (index : nat) (prev : gset nat) : gset nat :=
  if bool_decide (index ∈ prev) then prev ∖ {[ index ]} else prev ∪ {[ index ]}.

(** The frame callback [step(timestamp)] of the animation effects.
    [start] is the captured variable, [None] while it is [undefined];
    the result is the value of [start] after the call, the progress given
    to [setAnimationProgress] and whether another frame is requested. *)
Definition frame_step (duration : num) (start : option num) (timestamp : num)
  : num * num * bool :=
  let start :=
    match start with
    | Some s => if truthy s then s else timestamp
    | None => timestamp
    end in
  let progress := min2 ((timestamp - start) / duration) one in
  (start, progress, lt progress one).

(** What an event handler did: it returned before any state update, it
    raised the TypeError of reading a property of [undefined], or it set
    the state. *)
Inductive handled (A : Type) : Type :=
  | Ignored
  | Threw
  | Updated (a : A).

Arguments Ignored {A}.
Arguments Threw {A}.
Arguments Updated {A} a.

(** ** Data items *)

Inductive val : Type :=
  | VUndefined
  | VNull
  | VNum (n : num).

Global Instance val_eq_dec : EqDecision val.
Proof. solve_decision. Defined.

Abbreviation item := (gmap string val).

(** [d[key]] *)
Definition get (d : item) (key : string) : val :=
  match d !! key with Some v => v | None => VUndefined end.

(** [v || 0] for a field value. *)
Definition or0 (v : val) : num :=
  match v with
  | VNum n => or_else n zero
  | VUndefined | VNull => zero
  end.

(** The [yKey] prop: a string or an array of strings. *)
Inductive ykey : Type :=
  | YString (s : string)
  | YArray (l : list string).

(** ** SVG path strings *)

Inductive cmd : Type :=
  | M (x y : num)
  | L (x y : num)
  | H (x : num)
  | V (y : num)
  | C (x1 y1 x2 y2 x y : num)
  | Close.

Global Instance cmd_eq_dec : EqDecision cmd.
Proof. solve_decision. Defined.

Abbreviation path := (list cmd).

(** The numbers written into a path command. *)
Definition cmd_coords (c : cmd) : list num :=
  match c with
  | M x y | L x y => [x; y]
  | H x => [x]
  | V y => [y]
  | C x1 y1 x2 y2 x y => [x1; y1; x2; y2; x; y]
  | Close => []
  end.

Definition path_coords (p : path) : list num := flat_map cmd_coords p.

(** ** ChartUtils.jsx *)

Module ChartUtils.

Definition multiColors : list string :=
  ["#8b5cf6"; "#3b82f6"; "#10b981"; "#f59e0b"; "#f43f5e"; "#ec4899"; "#06b6d4"; "#84cc16"]%string.

Inductive palette_name : Type :=
  | violet | blue | emerald | rose | amber | slate.

Definition colorPalettes (c : palette_name) : list string :=
  match c with
  | violet => ["#7c3aed"; "#8b5cf6"; "#a78bfa"; "#c4b5fd"; "#ddd6fe"; "#ede9fe"; "#f5f3ff"]
  | blue => ["#2563eb"; "#3b82f6"; "#60a5fa"; "#93c5fd"; "#bfdbfe"; "#dbeafe"; "#eff6ff"]
  | emerald => ["#059669"; "#10b981"; "#34d399"; "#6ee7b7"; "#a7f3d0"; "#d1fae5"; "#ecfdf5"]
  | rose => ["#e11d48"; "#f43f5e"; "#fb7185"; "#fda4af"; "#fecdd3"; "#ffe4e6"; "#fff1f2"]
  | amber => ["#d97706"; "#f59e0b"; "#fbbf24"; "#fcd34d"; "#fde68a"; "#fef3c7"; "#fffbeb"]
  | slate => ["#334155"; "#475569"; "#64748b"; "#94a3b8"; "#cbd5e1"; "#e2e8f0"; "#f1f5f9"]
  end%string.

(** [getColor(palette, index)] for one of the six palette names. *)
Definition getColor (palette : palette_name) (index : nat) : option string :=
  let colors := colorPalettes palette in
  colors !! Nat.min index (length colors - 1)%nat.

(** The state set by the handler of [useCrosshairSnap]. *)
Record crosshair : Type := mkCrosshair {
  ch_x : num;
  ch_index : num;
  ch_points : list (num * option string);
}.

Section useCrosshairSnap.

(** Arguments of the hook; [getPointY] receives [data[nearestIndex]],
    which is [undefined] ([None]) for a subscript out of range. *)
Context (data : list item) (chartX chartWidth : num) (yKeys : list string)
  (getPointY : option item -> string -> num -> num)
  (getColorFn : nat -> option string).

(** [handleChartMouseMove(e)] up to [setCrosshair]; [rect_left] is
    [rect.left] of the container when the ref is attached.  [None] is the
    early return. *)
Definition handleChartMouseMove (rect_left : option num) (clientX : num)
  : option crosshair :=
  match rect_left with
  | None => None
  | Some rleft =>
      if (length data =? 0)%nat then None
      else
        let mouseX := clientX - rleft in
        let stepWidth := chartWidth / max2 (of_nat (length data) - one) one in
        let nearestIndex := Math_round ((mouseX - chartX) / stepWidth) in
        let nearestIndex := max2 zero (min2 nearestIndex (of_nat (length data) - one)) in
        let snapX :=
          chartX + (nearestIndex / max2 (of_nat (length data) - one) one) * chartWidth in
        let item := index_num data nearestIndex in
        let points :=
          imap (fun ki key => (getPointY item key nearestIndex, getColorFn ki)) yKeys in
        Some (mkCrosshair snapX nearestIndex points)
  end.

(** The rest of [handleChartMouseMove(e)], after [setCrosshair]:
    [Ignored] when the handler has returned early or [showTooltip] is
    false (no call of [setTooltip]); [Threw] when the default content
    reads [item[xKey]] of an [item] that is [undefined], which is
    [data[nearestIndex]] for a subscript that is no index of [data];
    otherwise the x and y given to [setTooltip].  [tooltipFormatter] tells
    whether a formatter is given: it then builds the content in place of
    the default one (the content is not modelled, and the formatter is
    taken to return). *)
Definition handleChartMouseMove_tooltip (showTooltip tooltipFormatter : bool)
    (rect_left : option num) (clientX : num) : handled (num * num) :=
  match handleChartMouseMove rect_left clientX with
  | None => Ignored
  | Some ch =>
      if showTooltip then
        match tooltipFormatter, index_num data (ch_index ch) with
        | false, None => Threw
        | _, _ => Updated (ch_x ch, Math_min (map fst (ch_points ch)) - lit 10 1)
        end
      else Ignored
  end.

End useCrosshairSnap.

(** [getShades(palette, count)] for one of the six palette names and an
    integer count; an entry [None] is [undefined]. *)
Definition getShades (palette : palette_name) (count : nat) : list (option string) :=
  let colors := colorPalettes palette in
  foldl (fun shades i =>
           let index :=
             Math_floor ((of_nat i / of_nat count) * of_nat (length colors)) in
           shades ++ [index_num colors (min2 index (of_nat (length colors) - one))])
    [] (seq 0 count).

(** [handleToggle(index)] of [ChartLegend].  The state is the pair of
    the legend's own [hiddenItems] and the state of the chart, which the
    callback [onToggle] (absent when [None]) updates. *)
Definition handleToggle {St} (interactive : bool)
    (onToggle : option (nat -> bool -> St -> St)) (index : nat)
    (st : gset nat * St) : gset nat * St :=
  if interactive then
    (toggle index st.1,
     match onToggle with
     | Some f => f index (bool_decide (index ∈ st.1)) st.2
     | None => st.2
     end)
  else st.

End ChartUtils.

(** ** AreaChart.jsx *)

Module AreaChart.

Inductive variant_t : Type :=
  | curved | straight | stacked | gradient | stepped.

Global Instance variant_eq_dec : EqDecision variant_t.
Proof. solve_decision. Defined.

Record point : Type := mkPoint {
  x : num;
  y : num;
  value : num;
  item_of : item;
  stackedBase : num;
}.

Record series : Type := mkSeries {
  key : string;
  points : list point;
  index : nat;
  hidden : bool;
}.

Record legend_item : Type := mkLegend {
  color : option string;
  label : string;
  inactive : bool;
}.

(** One tick of the y axis: the y of its label and, with [showGrid], the
    y1 = y2 of its grid line. *)
Record ytick : Type := mkTick {
  tick_value : num;
  text_y : num;
  line_y : option num;
}.

Record area_group : Type := mkGroup {
  g_key : string;
  g_index : nat;
  g_fill : path;
  g_stroke : option string;
  g_line : option path;
}.

(** The crosshair state set by [handleChartMouseMove]. *)
Record crosshair_point : Type := mkCPoint {
  cp_y : num;
  cp_color : option string;
  cp_value : num;
  cp_key : string;
}.

Record crosshair : Type := mkCrosshair {
  ch_x : num;
  ch_index : num;
  ch_points : list crosshair_point;
}.

Section Component.

(** Props and state of one render. *)
Context (data : list item) (yKey : ykey) (variant : variant_t)
  (color_name : ChartUtils.palette_name)
  (showGrid showLine showXAxis showYAxis : bool)
  (width height yAxisWidth xAxisHeight : num)
  (animationProgress : num) (hiddenSeries : gset nat).

Definition topPadding : num := of_nat 15.
Definition chartWidth : num := width - (if showYAxis then yAxisWidth else zero).
Definition chartHeight : num :=
  height - (if showXAxis then xAxisHeight else zero) - topPadding.
Definition chartX : num := if showYAxis then yAxisWidth else zero.
Definition chartY : num := topPadding.

Definition yKeys : list string :=
  match yKey with YString s => [s] | YArray l => l end.
Definition isMultiSeries : bool := (1 <? length yKeys)%nat.
Definition isStacked : bool := bool_decide (variant = stacked) && isMultiSeries.
Definition has (i : nat) : bool := bool_decide (i ∈ hiddenSeries).
Definition visibleYKeys : list string :=
  filter_index (fun i => negb (has i)) yKeys.

Definition maxValue : num :=
  let keys := if (0 <? length visibleYKeys)%nat then visibleYKeys else yKeys in
  if isStacked then
    Math_max (map (fun d => foldl (fun sum key => sum + or0 (get d key)) zero keys) data)
    * lit 11 10
  else
    Math_max (flat_map (fun d => map (fun key => or0 (get d key)) keys) data)
    * lit 11 10.

Definition minValue : num := zero.
Definition valueRange : num := maxValue - minValue.

(** [getPoints(key, stackedValues = null)] *)
Definition getPoints (key : string) (stackedValues : option (list num)) : list point :=
  imap (fun i item =>
    let x := chartX + (of_nat i / max2 (of_nat (length data) - one) one) * chartWidth in
    let value := or0 (get item key) in
    let stackedBase :=
      match stackedValues with Some sv => nth_num sv i | None => zero end in
    let y := chartY + chartHeight
             - ((value + stackedBase - minValue) / valueRange) * chartHeight in
    mkPoint x y value item stackedBase) data.

(** [points.slice(0, Math.ceil(points.length * animationProgress) || 1)] *)
Definition visiblePoints {A} (points : list A) : list A :=
  slice0 points (or_else (Math_ceil (of_nat (length points) * animationProgress)) one).

(** The tangent pushed at step [i] of the first loop of the curved
    branch. *)
Definition tangent_at (vp : list point) (n i : nat) : option num :=
  if (i =? 0)%nat then
    p0 ← vp !! 0%nat; p1 ← vp !! 1%nat;
    Some ((y p1 - y p0) / (x p1 - x p0))
  else if (i =? n - 1)%nat then
    pa ← vp !! (n - 2)%nat; pb ← vp !! (n - 1)%nat;
    Some ((y pb - y pa) / (x pb - x pa))
  else
    pl ← vp !! (i - 1)%nat; pi ← vp !! i; pr ← vp !! (i + 1)%nat;
    let slopeLeft := (y pi - y pl) / (x pi - x pl) in
    let slopeRight := (y pr - y pi) / (x pr - x pi) in
    if le (slopeLeft * slopeRight) zero then Some zero
    else Some (lit 2 1 / (one / slopeLeft + one / slopeRight)).

Definition tangents_of (vp : list point) : option (list num) :=
  let n := length vp in
  for_range n (fun i tangents => t ← tangent_at vp n i; Some (tangents ++ [t])) [].

(** The cubic segment appended at step [i] of the second loop. *)
Definition bezier_at (vp : list point) (tangents : list num) (i : nat) : option cmd :=
  p0 ← vp !! i; p1 ← vp !! (i + 1)%nat;
  let dx := (x p1 - x p0) / lit 3 1 in
  let cp1x := x p0 + dx in
  let cp1y := y p0 + nth_num tangents i * dx in
  let cp2x := x p1 - dx in
  let cp2y := y p1 - nth_num tangents (i + 1) * dx in
  Some (C cp1x cp1y cp2x cp2y (x p1) (y p1)).

(** [generateLinePath(points, smooth)] *)
Definition generateLinePath (points : list point) (smooth : bool) : option path :=
  if (length points <? 2)%nat then Some []
  else
    let vp := visiblePoints points in
    if bool_decide (variant = stepped) then
      p0 ← vp !! 0%nat;
      for_range (length vp - 1)
        (fun j path => curr ← vp !! (j + 1)%nat; Some (path ++ [H (x curr); V (y curr)]))
        [M (x p0) (y p0)]
    else if negb smooth then
      Some (imap (fun i p => if (i =? 0)%nat then M (x p) (y p) else L (x p) (y p)) vp)
    else if (length vp <? 2)%nat then Some []
    else if (length vp =? 2)%nat then
      p0 ← vp !! 0%nat; p1 ← vp !! 1%nat;
      Some [M (x p0) (y p0); L (x p1) (y p1)]
    else
      let n := length vp in
      tangents ← tangents_of vp;
      p0 ← vp !! 0%nat;
      for_range (n - 1)
        (fun i path => c ← bezier_at vp tangents i; Some (path ++ [c]))
        [M (x p0) (y p0)].

(** The default of the second parameter: [smooth = variant === 'curved']. *)
Definition smooth_default : bool := bool_decide (variant = curved).

(** [generateAreaPath(points, basePoints = null)].  Inside the stacked
    branch the source tests [variant === 'stepped'] and
    [variant === 'curved'] again; both are false there, so only the
    straight closing edge is reachable and modelled. *)
Definition generateAreaPath (points : list point) (basePoints : option (list point))
  : option path :=
  linePath ← generateLinePath points smooth_default;
  if bool_decide (linePath = []) then Some []
  else
    let vp := visiblePoints points in
    let lastPoint := vp !! (length vp - 1)%nat in
    let firstPoint := vp !! 0%nat in
    match basePoints with
    | Some bp =>
        if bool_decide (variant = stacked) then
          let visibleBase := visiblePoints bp in
          let reversedBase := reverse visibleBase in
          let baseYPoints :=
            map (fun curr =>
              (x curr,
               chartY + chartHeight
               - ((stackedBase curr - minValue) / valueRange) * chartHeight))
              reversedBase in
          lp ← lastPoint; b0 ← baseYPoints !! 0%nat;
          Some (linePath ++ [L (x lp) (b0.2)]
                ++ map (fun b => L (b.1) (b.2)) (drop 1 baseYPoints)
                ++ [Close])
        else
          lp ← lastPoint; fp ← firstPoint;
          Some (linePath ++ [L (x lp) (chartY + chartHeight);
                             L (x fp) (chartY + chartHeight); Close])
    | None =>
        lp ← lastPoint; fp ← firstPoint;
        Some (linePath ++ [L (x lp) (chartY + chartHeight);
                           L (x fp) (chartY + chartHeight); Close])
    end.

Definition getAreaColor (index : nat) : option string :=
  if isMultiSeries then
    ChartUtils.multiColors !! (index mod length ChartUtils.multiColors)%nat
  else ChartUtils.getColor color_name 0.

(** One step of [yKeys.forEach((key, ki) => ...)] in [allPoints]; the
    state is [result] and [stackedValues]. *)
Definition allPoints_step (st : list series * list num) (ki : nat) (key : string)
  : list series * list num :=
  let '(result, stackedValues) := st in
  if has ki then (result ++ [mkSeries key [] ki true], stackedValues)
  else
    let points := getPoints key (if isStacked then Some stackedValues else None) in
    let result := result ++ [mkSeries key points ki false] in
    if isStacked then
      (result, imap (fun i item => nth_num stackedValues i + or0 (get item key)) data)
    else (result, stackedValues).

Definition allPoints : list series :=
  (forEach_from allPoints_step 0 yKeys ([], map (fun _ => zero) data)).1.

Definition legendItems : list legend_item :=
  imap (fun i key => mkLegend (getAreaColor i) key (has i)) yKeys.

(** The series the render pass draws, in drawing order. *)
Definition drawnSeries : list series :=
  filter (fun ap => hidden ap = false)
    (if isStacked then reverse allPoints else allPoints).

(** The [<g>] groups of the render pass: fill path, stroke colour and,
    with [showLine], the line path (the dots are not modelled). *)
Definition renderAreas : option (list area_group) :=
  mapM (fun ap =>
    let areaColor := getAreaColor (index ap) in
    prevPoints ←
      (if isStacked && (0 <? index ap)%nat then
         prev ← allPoints !! (index ap - 1)%nat; Some (Some (points prev))
       else Some None);
    d ← generateAreaPath (points ap) prevPoints;
    line ←
      (if showLine then
         l ← generateLinePath (points ap) smooth_default; Some (Some l)
       else Some None);
    Some (mkGroup (key ap) (index ap) d areaColor line)) drawnSeries.

(** [renderYAxis()]: [None] is the [null] of a hidden axis. *)
Definition tickValues : list num :=
  map (fun i => minValue + (valueRange / (lit 5 1 - one)) * of_nat i) (seq 0 5).

Definition renderYAxis : option (list ytick) :=
  if showYAxis then
    Some (map (fun tick =>
      let ty := chartY + chartHeight - ((tick - minValue) / valueRange) * chartHeight in
      mkTick tick (ty + lit 4 1) (if showGrid then Some ty else None)) tickValues)
  else None.

(** [renderXAxis()]: the x of each label. *)
Definition renderXAxis : option (list num) :=
  if showXAxis then
    let step := Math_ceil (of_nat (length data) / lit 6 1) in
    Some (imap (fun idx _ =>
            let i := of_nat idx * step in
            chartX + (i / max2 (of_nat (length data) - one) one) * chartWidth)
          (filter_index
             (fun i => match step with
                       | Fin q =>
                           negb (Qnum q =? 0)%Z && (Z.of_nat i mod Qnum q =? 0)%Z
                       | _ => false
                       end) data))
  else None.

(** [handleChartMouseMove(e)] up to [setCrosshair]; [rect_left] is
    [rect.left] of the container when the ref is attached.  [None] is the
    early return. *)
Definition handleChartMouseMove (rect_left : option num) (clientX : num)
  : option crosshair :=
  match rect_left with
  | None => None
  | Some rleft =>
      if (length data =? 0)%nat then None
      else
        let mouseX := clientX - rleft in
        let stepWidth := chartWidth / max2 (of_nat (length data) - one) one in
        let nearestIndex := Math_round ((mouseX - chartX) / stepWidth) in
        let nearestIndex := max2 zero (min2 nearestIndex (of_nat (length data) - one)) in
        let snapX :=
          chartX + (nearestIndex / max2 (of_nat (length data) - one) one) * chartWidth in
        let points :=
          omap (fun ap =>
            if hidden ap then None
            else p ← index_num (points ap) nearestIndex;
                 Some (mkCPoint (y p) (getAreaColor (index ap)) (value p) (key ap)))
            allPoints in
        Some (mkCrosshair snapX nearestIndex points)
  end.

(** The rest of [handleChartMouseMove(e)], after [setCrosshair]:
    [Ignored] when the handler has returned early or [showTooltip] is
    false (no call of [setTooltip]); [Threw] when the default content
    reads [item[xKey]] of an [item] that is [undefined], which is
    [data[nearestIndex]] for a subscript that is no index of [data];
    otherwise the x and y given to [setTooltip].  [tooltipFormatter] tells
    whether a formatter is given: it then builds the content in place of
    the default one (the content is not modelled, and the formatter is
    taken to return). *)
Definition handleChartMouseMove_tooltip (showTooltip tooltipFormatter : bool)
    (rect_left : option num) (clientX : num) : handled (num * num) :=
  match handleChartMouseMove rect_left clientX with
  | None => Ignored
  | Some ch =>
      if showTooltip then
        match tooltipFormatter, index_num data (ch_index ch) with
        | false, None => Threw
        | _, _ =>
            Updated (ch_x ch,
                     if (0 <? length (ch_points ch))%nat
                     then Math_min (map cp_y (ch_points ch))
                     else zero)
        end
      else Ignored
  end.

(** The dots of a series:
    [points.slice(0, Math.ceil(points.length * animationProgress))]. *)
Definition dots (points : list point) : list point :=
  slice0 points (Math_ceil (of_nat (length points) * animationProgress)).

End Component.

(** [handleLegendToggle(index)]: the next [hiddenSeries]. *)
Definition handleLegendToggle (legendInteractive : bool) (index : nat)
    (prev : gset nat) : gset nat :=
  if legendInteractive then toggle index prev else prev.

(** The frame callback of the animation effect; the duration is 800. *)
Definition step : option num -> num -> num * num * bool := frame_step (lit 800 1).

End AreaChart.

(** ** BarChart *)

Module BarChart.

Inductive variant_t : Type :=
  | default | grouped | stacked | horizontal | gradient.

Global Instance variant_eq_dec : EqDecision variant_t.
Proof. solve_decision. Defined.

Inductive fill_t : Type :=
  | Solid (c : option string)
  | GradientUrl.

Record rect : Type := mkRect {
  rect_x : num;
  rect_y : num;
  rect_width : num;
  rect_height : num;
  fill : fill_t;
  rx : num;
}.

Record ytick : Type := mkTick {
  tick_value : num;
  text_y : num;
  line_y : option num;
}.

Inductive yaxis : Type :=
  | CategoryLabels (ys : list num)
  | ValueTicks (ticks : list ytick).

Record xtick : Type := mkXTick {
  xtick_value : num;
  xtick_x : num;
  xgrid_x : option num;
}.

Inductive xaxis : Type :=
  | CategoryXs (xs : list num)
  | ValueXTicks (ticks : list xtick).

Record legend_item : Type := mkLegend {
  color : option string;
  label : string;
  inactive : bool;
}.

(** The state set by [handleChartMouseMove]: the hovered index and the
    position of the tooltip. *)
Record hover : Type := mkHover {
  hover_index : num;
  tip_x : num;
  tip_y : num;
}.

Section Component.

Context (data : list item) (yKey : ykey) (variant : variant_t)
  (color_name : ChartUtils.palette_name)
  (rounded showGrid showXAxis showYAxis : bool)
  (barRadius width height barWidth gap yAxisWidth xAxisHeight : num)
  (animationProgress : num) (hiddenSeries : gset nat).

Definition isHorizontal : bool := bool_decide (variant = horizontal).
Definition chartWidth : num :=
  if isHorizontal then width - (if showYAxis then lit 80 1 else zero)
  else width - (if showYAxis then yAxisWidth else zero).
Definition chartHeight : num := height - (if showXAxis then xAxisHeight else zero).
Definition chartX : num :=
  if isHorizontal then (if showYAxis then lit 80 1 else zero)
  else (if showYAxis then yAxisWidth else zero).

Definition yKeys : list string :=
  match yKey with YString s => [s] | YArray l => l end.
Definition isMultiSeries : bool := (1 <? length yKeys)%nat.
Definition has (i : nat) : bool := bool_decide (i ∈ hiddenSeries).
Definition visibleYKeys : list string :=
  filter_index (fun i => negb (has i)) yKeys.

Definition maxValue : num :=
  let keys := if (0 <? length visibleYKeys)%nat then visibleYKeys else yKeys in
  if bool_decide (variant = stacked) then
    Math_max (map (fun d => foldl (fun sum key => sum + or0 (get d key)) zero keys) data)
  else
    Math_max (flat_map (fun d => map (fun key => or0 (get d key)) keys) data).

Definition barGap : num :=
  (if isHorizontal then chartHeight else chartWidth) * gap
  / (of_nat (length data) + one).
Definition totalBarSpace : num := if isHorizontal then chartHeight else chartWidth.
Definition totalBarWidth : num :=
  (totalBarSpace - barGap * (of_nat (length data) + one)) / of_nat (length data).
Definition actualBarWidth : num := totalBarWidth * barWidth.
Definition barOffset : num := (totalBarWidth - actualBarWidth) / lit 2 1.

Definition getBarColor (dataIndex seriesIndex : nat) : option string :=
  if bool_decide (variant = grouped) || bool_decide (variant = stacked) then
    if isMultiSeries then
      ChartUtils.multiColors !! (seriesIndex mod length ChartUtils.multiColors)%nat
    else ChartUtils.getColor color_name 0
  else ChartUtils.getColor color_name 0.

(** [item[yKeys[0]] || 0]; a missing first key reads [undefined]. *)
Definition first_value (item : item) : num :=
  match yKeys !! 0%nat with
  | Some key => or0 (get item key)
  | None => zero
  end.

(** The callback of [yKeys.map] of the stacked branch for the bar group
    at [x]; the state is [currentY]. *)
Definition stacked_step (i : nat) (item : item) (x : num) (lastVisibleKeyIndex : option nat)
    (ki : nat) (key : string) (currentY : num) : option rect * num :=
  if has ki then (None, currentY)
  else
    let value := or0 (get item key) in
    let barHeight := (value / maxValue) * chartHeight * animationProgress in
    let y := chartHeight - currentY - barHeight in
    let isLastVisible := bool_decide (Some ki = lastVisibleKeyIndex) in
    (Some (mkRect x y actualBarWidth barHeight (Solid (getBarColor i ki))
                  (if isLastVisible && rounded then barRadius else zero)),
     currentY + barHeight).

(** The callback of [yKeys.map] of the grouped branch; the state is
    [activeIndex]. *)
Definition grouped_step (i : nat) (item : item) (x groupBarWidth : num)
    (ki : nat) (key : string) (activeIndex : nat) : option rect * nat :=
  if has ki then (None, activeIndex)
  else
    let value := or0 (get item key) in
    let barHeight := (value / maxValue) * chartHeight * animationProgress in
    let barX := x + of_nat activeIndex * groupBarWidth in
    (Some (mkRect barX (chartHeight - barHeight) (groupBarWidth - lit 2 1) barHeight
                  (Solid (getBarColor i ki)) (if rounded then barRadius else zero)),
     S activeIndex).

(** [renderBars()]: the rectangles of each data item ([None] is the
    [null] of a hidden series; the value labels are not modelled). *)
Definition renderBars : list (list (option rect)) :=
  imap (fun i item =>
    if isHorizontal then
      let y := barGap + of_nat i * (totalBarWidth + barGap) + barOffset in
      let value := first_value item in
      let barLength := (value / maxValue) * chartWidth * animationProgress in
      [Some (mkRect chartX y barLength actualBarWidth
                    (if bool_decide (variant = gradient) then GradientUrl
                     else Solid (getBarColor i 0))
                    (if rounded then barRadius else zero))]
    else
      let x := chartX + barGap + of_nat i * (totalBarWidth + barGap) + barOffset in
      if bool_decide (variant = stacked) && isMultiSeries then
        let visibleKeyIndices := filter (fun ki => has ki = false) (seq 0 (length yKeys)) in
        let lastVisibleKeyIndex := last visibleKeyIndices in
        (map_state (stacked_step i item x lastVisibleKeyIndex) yKeys zero).1
      else if bool_decide (variant = grouped) && isMultiSeries then
        let activeKeys := filter_index (fun ki => negb (has ki)) yKeys in
        let groupBarWidth := actualBarWidth / max2 (of_nat (length activeKeys)) one in
        (map_state (grouped_step i item x groupBarWidth) yKeys 0%nat).1
      else
        let value := first_value item in
        let barHeight := (value / maxValue) * chartHeight * animationProgress in
        [Some (mkRect x (chartHeight - barHeight) actualBarWidth barHeight
                      (if bool_decide (variant = gradient) then GradientUrl
                       else Solid (getBarColor i 0))
                      (if rounded then barRadius else zero))]) data.

Definition tickValues : list num :=
  map (fun i => (maxValue / (lit 5 1 - one)) * of_nat i) (seq 0 5).

(** [renderYAxis()]: [None] is the [null] of a hidden axis. *)
Definition renderYAxis : option yaxis :=
  if showYAxis then
    if isHorizontal then
      Some (CategoryLabels (imap (fun i _ =>
        barGap + of_nat i * (totalBarWidth + barGap) + totalBarWidth / lit 2 1 + lit 4 1)
        data))
    else
      Some (ValueTicks (map (fun tick =>
        let ty := chartHeight - (tick / maxValue) * chartHeight in
        mkTick tick (ty + lit 4 1) (if showGrid then Some ty else None)) tickValues))
  else None.

(** [renderXAxis()]: the x of each category label, or the ticks of the
    horizontal variant ([None] is the [null] of a hidden axis; the label
    texts are not modelled). *)
Definition renderXAxis : option xaxis :=
  if showXAxis then
    if isHorizontal then
      Some (ValueXTicks (map (fun tick =>
        let tx := chartX + (tick / maxValue) * chartWidth in
        mkXTick tick tx (if showGrid then Some tx else None)) tickValues))
    else
      Some (CategoryXs (imap (fun i _ =>
        chartX + barGap + of_nat i * (totalBarWidth + barGap) + totalBarWidth / lit 2 1)
        data))
  else None.

(** [legendItems] *)
Definition legendItems : list legend_item :=
  imap (fun i key =>
    mkLegend
      (if isMultiSeries
       then ChartUtils.multiColors !! (i mod length ChartUtils.multiColors)%nat
       else ChartUtils.getColor color_name 0)
      key (has i)) yKeys.

(** [handleChartMouseMove(e)] with the default tooltip content, which
    reads fields of [data[nearestIndex]].  [rect] is the [left] and [top]
    of the bounding rectangle of the container when the ref is attached,
    [hoveredBarIndex] the current state. *)
Definition handleChartMouseMove (showTooltip : bool) (rect : option (num * num))
    (clientX clientY hoveredBarIndex : num) : handled hover :=
  if negb showTooltip then Ignored
  else
    match rect with
    | None => Ignored
    | Some r =>
        if (length data =? 0)%nat then Ignored
        else
          let mouseX := clientX - r.1 in
          let mouseY := clientY - r.2 in
          let nearestIndex :=
            if isHorizontal
            then Math_floor ((mouseY - barGap) / (totalBarWidth + barGap))
            else Math_floor ((mouseX - chartX - barGap) / (totalBarWidth + barGap)) in
          let nearestIndex := max2 zero (min2 nearestIndex (of_nat (length data) - one)) in
          if strict_eq nearestIndex hoveredBarIndex then Ignored
          else
            match index_num data nearestIndex with
            | None => Threw
            | Some item =>
                let activeKeys := filter_index (fun i => negb (has i)) yKeys in
                if isHorizontal then
                  let value := first_value item in
                  Updated (mkHover nearestIndex
                    (chartX + (value / maxValue) * chartWidth)
                    (barGap + nearestIndex * (totalBarWidth + barGap)
                     + totalBarWidth / lit 2 1))
                else
                  let maxBarValue :=
                    Math_max (map (fun key => or0 (get item key)) activeKeys) in
                  Updated (mkHover nearestIndex
                    (chartX + barGap + nearestIndex * (totalBarWidth + barGap)
                     + totalBarWidth / lit 2 1)
                    (chartHeight - (maxBarValue / maxValue) * chartHeight
                                   * animationProgress))
            end
    end.

End Component.

(** [handleLegendToggle(index)]: the next [hiddenSeries]. *)
Definition handleLegendToggle (legendInteractive : bool) (index : nat)
    (prev : gset nat) : gset nat :=
  if legendInteractive then toggle index prev else prev.

End BarChart.

(** ** SparklineChart *)

Module SparklineChart.

Inductive variant_t : Type :=
  | default | area | bar | dots.

Global Instance variant_eq_dec : EqDecision variant_t.
Proof. solve_decision. Defined.

Record point : Type := mkPoint {
  x : num;
  y : num;
  value : num;
}.

Record rect : Type := mkRect {
  rect_x : num;
  rect_y : num;
  rect_width : num;
  rect_height : num;
}.

(** What [renderContent()] draws. *)
Inductive content : Type :=
  | Bars (l : list rect)
  | Dots (l : list (num * num))
  | Lines (areaPath : option path) (linePath : path).

Section Component.

Context (data : list num) (variant : variant_t) (showArea : bool)
  (width height : num) (animationProgress : num).

Definition maxValue : num := Math_max data.
Definition minValue : num := Math_min data.
Definition range : num := or_else (maxValue - minValue) one.
Definition padding : num := height * lit 1 10.

Definition getY (value : num) : num :=
  height - padding - ((value - minValue) / range) * (height - padding * lit 2 1).

Definition points : list point :=
  imap (fun i value =>
    let x := (of_nat i / (of_nat (length data) - one)) * width in
    let y := getY value in
    mkPoint x y value) data.

Definition visiblePoints : list point :=
  slice0 points (or_else (Math_ceil (of_nat (length points) * animationProgress)) one).

Definition linePath : path :=
  imap (fun i p => if (i =? 0)%nat then M (x p) (y p) else L (x p) (y p)) visiblePoints.

(** [visiblePoints[visiblePoints.length - 1]?.x || 0] *)
Definition last_x : num :=
  match visiblePoints !! (length visiblePoints - 1)%nat with
  | Some p => or_else (x p) zero
  | None => zero
  end.

Definition areaPath : path :=
  linePath ++ [L last_x height; L zero height; Close].

Definition renderContent : content :=
  match variant with
  | bar =>
      let barWidth := (width / of_nat (length data)) * lit 8 10 in
      let barGap := (width / of_nat (length data)) * lit 2 10 in
      Bars (imap (fun i value =>
        let barHeight := ((value - minValue) / range) * (height - padding * lit 2 1) in
        mkRect (of_nat i * (barWidth + barGap)) (height - barHeight - padding)
               barWidth barHeight)
        (slice0 data (Math_ceil (of_nat (length data) * animationProgress))))
  | dots => Dots (map (fun p => (x p, y p)) visiblePoints)
  | _ =>
      Lines (if showArea || bool_decide (variant = area) then Some areaPath else None)
            linePath
  end.

(** The component: [None] is the [null] returned for empty data.  The
    reference line and the min/max markers are not modelled. *)
Definition render : option content :=
  if (length data =? 0)%nat then None else Some renderContent.

Definition minIndex : option nat := indexOf data minValue.
Definition maxIndex : option nat := indexOf data maxValue.

(** The centres of the two circles drawn with [showMinMax] outside the
    bar variant: the minimum marker and the maximum marker.  A centre
    [None] is the [undefined] of [points[-1]?.x]. *)
Definition minMaxMarkers (showMinMax : bool) : option (option point * option point) :=
  if showMinMax && negb (bool_decide (variant = bar)) then
    Some (i ← minIndex; points !! i, i ← maxIndex; points !! i)
  else None.

(** The y of the reference line, drawn from x = 0 to x = width when
    [showReference] holds and [referenceValue] is not [null]. *)
Definition referenceLine (showReference : bool) (referenceValue : option num)
  : option num :=
  if showReference then
    match referenceValue with
    | Some v => Some (getY v)
    | None => None
    end
  else None.

End Component.

End SparklineChart.

(** ** PieChart (RadialChart.jsx) *)

Module PieChart.

Inductive variant_t : Type :=
  | default | donut | semi | rose | exploded.

Global Instance variant_eq_dec : EqDecision variant_t.
Proof. solve_decision. Defined.

Inductive position : Type :=
  | pos_top | pos_bottom | pos_left | pos_right.

Global Instance position_eq_dec : EqDecision position.
Proof. solve_decision. Defined.

(** A slice; [offsetX] and [offsetY] ([Math.cos] and [Math.sin] of
    [midAngle] times the explode offset) are not modelled. *)
Record slice : Type := mkSlice {
  item_of : item;
  value : num;
  percentage : num;
  hidden : bool;
  color : option string;
  startAngle : num;
  endAngle : num;
  midAngle : num;
  radius : num;
}.

Record legend_item : Type := mkLegend {
  legend_color : option string;
  inactive : bool;
}.

Section Component.

Context (data : list item) (valueKey : string) (variant : variant_t)
  (color_name : ChartUtils.palette_name)
  (donutWidth width height : num)
  (showLegend : bool) (legendPosition : position)
  (animationProgress : num) (hiddenSlices : gset nat).

Definition has (i : nat) : bool := bool_decide (i ∈ hiddenSlices).

Definition visibleData : list item := filter_index (fun i => negb (has i)) data.

Definition total : num :=
  foldl (fun sum d => sum + or0 (get d valueKey)) zero visibleData.

Definition isSemi : bool := bool_decide (variant = semi).
Definition isDonut : bool := bool_decide (variant = donut).
Definition isRose : bool := bool_decide (variant = rose).
Definition isExploded : bool := bool_decide (variant = exploded).
Definition isLegendSide : bool :=
  showLegend && (bool_decide (legendPosition = pos_left) || bool_decide (legendPosition = pos_right)).

Definition legendSideWidth : num := if isLegendSide then lit 120 1 else zero.
Definition effectiveWidth : num :=
  if isLegendSide then max2 (width - legendSideWidth) (lit 100 1) else width.
Definition effectiveHeight : num :=
  if isLegendSide then min2 height effectiveWidth else height.
Definition legendHeight : num :=
  if showLegend && (bool_decide (legendPosition = pos_bottom) || bool_decide (legendPosition = pos_top))
  then lit 50 1 else zero.
Definition centerX : num := effectiveWidth / lit 2 1.
Definition centerY : num :=
  if isSemi then effectiveHeight - lit 20 1
  else if showLegend && bool_decide (legendPosition = pos_bottom)
       then (effectiveHeight - legendHeight) / lit 2 1
       else effectiveHeight / lit 2 1.
Definition basePadding : num := if isExploded then lit 25 1 else lit 15 1.
Definition baseRadius : num :=
  min2 centerX
    (if isSemi then effectiveHeight - lit 40 1
     else if showLegend && bool_decide (legendPosition = pos_bottom)
          then (effectiveHeight - legendHeight) / lit 2 1
          else centerY)
  - basePadding.
Definition innerRadius : num := if isDonut then baseRadius - donutWidth else zero.

Definition getSliceColor (index : nat) : option string :=
  let palette := ChartUtils.colorPalettes color_name in
  let step := max2 one (Math_floor (of_nat (length palette) / of_nat (length data))) in
  let colorIndex := min2 (of_nat index * step) (of_nat (length palette) - one) in
  index_num palette colorIndex.

Definition totalAngle : num := if isSemi then Math_PI else lit 2 1 * Math_PI.
Definition startAngle0 : num := if isSemi then - Math_PI else (- Math_PI) / lit 2 1.

(** The callback of [data.map] in [slices]; the state is
    [currentAngle]. *)
Definition slice_step (maxValue : num) (i : nat) (item : item) (currentAngle : num)
  : slice * num :=
  if has i then
    (mkSlice item zero zero true (getSliceColor i)
             currentAngle currentAngle currentAngle zero,
     currentAngle)
  else
    let value := or0 (get item valueKey) in
    let angle :=
      if gt total zero then (value / total) * totalAngle * animationProgress else zero in
    let sliceStartAngle := currentAngle in
    let sliceEndAngle := currentAngle + angle in
    let radius :=
      if isRose then
        innerRadius
        + (baseRadius - innerRadius) * (if gt maxValue zero then value / maxValue else zero)
      else baseRadius in
    let midAngle := (sliceStartAngle + sliceEndAngle) / lit 2 1 in
    (mkSlice item value
             (if gt total zero then (value / total) * lit 100 1 else zero)
             false (getSliceColor i) sliceStartAngle sliceEndAngle midAngle radius,
     sliceEndAngle).

Definition slices : list slice :=
  let maxValue :=
    if isRose then Math_max (map (fun d => or0 (get d valueKey)) visibleData) else zero in
  (map_state (slice_step maxValue) data startAngle0).1.

(** The slices the render pass draws. *)
Definition drawnSlices : list slice := filter (fun s => hidden s = false) slices.

(** Colour and inactive flag of the legend entries (the label text is
    not modelled). *)
Definition legendItems : list legend_item :=
  imap (fun i _ => mkLegend (getSliceColor i) (has i)) data.

End Component.

(** [handleLegendToggle(index)]: the next [hiddenSlices]. *)
Definition handleLegendToggle (legendInteractive : bool) (index : nat)
    (prev : gset nat) : gset nat :=
  if legendInteractive then toggle index prev else prev.

(** The frame callback of the animation effect; the duration is 1000. *)
Definition step : option num -> num -> num * num * bool := frame_step (lit 1000 1).

End PieChart.

(** ** RadialChart (RadialChart.jsx) *)

Module RadialChart.

Inductive variant_t : Type :=
  | default | multi | gauge | semi.

Global Instance variant_eq_dec : EqDecision variant_t.
Proof. solve_decision. Defined.

(** A progress circle: its radius, the dash length (the
    [strokeDasharray] is that length twice), the dash offset and the
    stroke. *)
Record ring : Type := mkRing {
  ring_radius : num;
  circumference : num;
  strokeDashoffset : num;
  ring_color : option string;
}.

(** The angles and flags of the gauge (the arc end points and the
    needle tip, which need [Math.cos] and [Math.sin], are not modelled). *)
Record gauge_t : Type := mkGauge {
  gauge_radius : num;
  startAngle : num;
  endAngle : num;
  valueAngle : num;
  largeArcFlag : bool;
  valueLargeArcFlag : bool;
  needleLength : num;
}.

Inductive rendered : Type :=
  | Multi (rings : list (option ring))
  | Gauge (g : gauge_t)
  | Single (r : ring).

Section Component.

Context (value maxValue : num) (data : list item) (valueKey : string)
  (variant : variant_t) (color_name : ChartUtils.palette_name)
  (strokeWidth gap size : num) (animationProgress : num).

Definition isMulti : bool := bool_decide (variant = multi) && (0 <? length data)%nat.
Definition isSemi : bool := bool_decide (variant = semi).
Definition isGauge : bool := bool_decide (variant = gauge).

Definition center : num := size / lit 2 1.

Definition primaryColor : option string := ChartUtils.getColor color_name 0.

Definition getBarColor (index : nat) : option string :=
  let palette := ChartUtils.colorPalettes color_name in
  let step := max2 one (Math_floor (of_nat (length palette) / of_nat (length data))) in
  index_num palette (min2 (of_nat index * step) (of_nat (length palette) - one)).

(** [Math.min((value / maxValue) * 100, 100)], the percentage of the
    single ring and of the gauge. *)
Definition percentage : num := min2 ((value / maxValue) * lit 100 1) (lit 100 1).

(** [renderSingleRadial()]: the progress circle. *)
Definition renderSingleRadial : ring :=
  let radius := (size - strokeWidth) / lit 2 1 in
  let circumference :=
    if isSemi then Math_PI * radius else lit 2 1 * Math_PI * radius in
  let strokeDashoffset :=
    circumference - (percentage / lit 100 1) * circumference * animationProgress in
  mkRing radius circumference strokeDashoffset primaryColor.

Definition totalMax : num :=
  Math_max (maxValue :: map (fun d => or0 (get d valueKey)) data).

(** [renderMultiRadial()]: the progress circle of each data item,
    [None] for the [null] of a ring that no longer fits. *)
Definition renderMultiRadial : list (option ring) :=
  imap (fun i item =>
    let radius :=
      center - strokeWidth / lit 2 1 - of_nat i * (strokeWidth + gap) - lit 10 1 in
    if le radius zero then None
    else
      let circumference := lit 2 1 * Math_PI * radius in
      let itemValue := or0 (get item valueKey) in
      let percentage := min2 ((itemValue / totalMax) * lit 100 1) (lit 100 1) in
      let strokeDashoffset :=
        circumference - (percentage / lit 100 1) * circumference * animationProgress in
      Some (mkRing radius circumference strokeDashoffset (getBarColor i))) data.

(** [renderGauge()]: the angles of the arcs and of the needle. *)
Definition renderGauge : gauge_t :=
  let radius := (size - strokeWidth) / lit 2 1 - lit 10 1 in
  let startAngle := (- lit 225 1) * (Math_PI / lit 180 1) in
  let endAngle := lit 45 1 * (Math_PI / lit 180 1) in
  let totalAngle := endAngle - startAngle in
  let valueAngle :=
    startAngle + (percentage / lit 100 1) * totalAngle * animationProgress in
  mkGauge radius startAngle endAngle valueAngle
    (gt totalAngle Math_PI) (gt (valueAngle - startAngle) Math_PI)
    (radius - lit 20 1).

(** What the component renders. *)
Definition render : list rendered :=
  (if isMulti then [Multi renderMultiRadial] else [])
  ++ (if isGauge then [Gauge renderGauge] else [])
  ++ (if negb isMulti && negb isGauge then [Single renderSingleRadial] else []).

End Component.

(** The frame callback of the animation effect; the duration is 1000. *)
Definition step : option num -> num -> num * num * bool := frame_step (lit 1000 1).

End RadialChart.

(** ** Notions of the specification *)

Module Spec.

(** Secant slope between two points. *)
Definition secant (p q : AreaChart.point) : num :=
  (AreaChart.y q - AreaChart.y p) / (AreaChart.x q - AreaChart.x p).

(** Two slopes have opposite sign when their product is negative. *)
Definition opposite_sign (a b : num) : bool := lt (a * b) zero.

Definition harmonic_mean (a b : num) : num :=
  lit 2 1 / (one / a + one / b).

(** The tangent of an internal point as the specification words it. *)
Definition monotone_tangent (slopeLeft slopeRight : num) : num :=
  if opposite_sign slopeLeft slopeRight then zero
  else harmonic_mean slopeLeft slopeRight.

(** The sum of a list of numbers. *)
Definition sum_nums (l : list num) : num := foldr add zero l.

Definition finite (a : num) : Prop := isFinite a = true.

(** A point with finite coordinates. *)
Definition finite_point (p : AreaChart.point) : Prop :=
  finite (AreaChart.x p) /\ finite (AreaChart.y p).

(** Consecutive points have strictly increasing x. *)
Definition increasing_x (vp : list AreaChart.point) : Prop :=
  forall i p q, vp !! i = Some p -> vp !! S i = Some q ->
    lt (AreaChart.x p) (AreaChart.x q) = true.

(** The rational value of a finite number. *)
Definition qval (a : num) : Qc :=
  match a with Fin q => q | _ => 0%Qc end.

Definition qsum (l : list Qc) : Qc := foldr Qcplus 0%Qc l.

(** The raw value of a series at a data item, a missing field counting
    as 0. *)
Definition raw (d : item) (key : string) : num := or0 (get d key).

(** The keys of the visible series among the first [ki] series. *)
Definition visible_below (hiddenSeries : gset nat) (yKeys : list string) (ki : nat)
  : list string :=
  filter_index (fun i => negb (bool_decide (i ∈ hiddenSeries))) (take ki yKeys).

(** A field that reads [undefined] or [null]. *)
Definition missing (v : val) : bool :=
  match v with VUndefined | VNull => true | VNum _ => false end.

(** The data item with an explicit 0 at every key of [keys] whose field is
    missing. *)
Definition fill_missing (keys : list string) (d : item) : item :=
  foldr (fun k acc => if missing (get d k) then <[k := VNum zero]> acc else acc) d keys.

(** Two data items that read the same through [d[key] || 0]. *)
Definition same_reads (d d' : item) : Prop := forall k, raw d k = raw d' k.

(** Two points with the same coordinates and values. *)
Definition same_coords (p p' : AreaChart.point) : Prop :=
  AreaChart.x p = AreaChart.x p' /\ AreaChart.y p = AreaChart.y p' /\
  AreaChart.value p = AreaChart.value p' /\
  AreaChart.stackedBase p = AreaChart.stackedBase p'.

Definition same_series (s s' : AreaChart.series) : Prop :=
  AreaChart.key s = AreaChart.key s' /\ AreaChart.index s = AreaChart.index s' /\
  AreaChart.hidden s = AreaChart.hidden s' /\
  Forall2 same_coords (AreaChart.points s) (AreaChart.points s').

(** The series of a rendered group is not hidden. *)
Definition g_index_visible (hiddenSeries : gset nat) (g : AreaChart.area_group) : Prop :=
  AreaChart.has hiddenSeries (AreaChart.g_index g) = false.

(** Two data sequences that give every key of [keys] the same value. *)
Definition agree_on (keys : list string) (data data' : list item) : Prop :=
  Forall2 (fun d d' => forall k, k ∈ keys -> get d k = get d' k) data data'.

(** Two data sequences with the same items outside the hidden indices. *)
Definition agree_outside (hidden : gset nat) (data data' : list item) : Prop :=
  length data = length data' /\
  forall i, i ∉ hidden -> data !! i = data' !! i.

(** Rounding to the nearest integer, a tie going up. *)
Definition round_half_up (q : Qc) : Z := Qfloor (q + Q2Qc (1 # 2))%Qc.

(** Clamping of an integer to the indices [0, n-1]. *)
Definition clamp_index (z : Z) (n : nat) : Z :=
  Z.max 0 (Z.min z (Z.of_nat n - 1)).

(** The guarded divisor max(n-1, 1). *)
Definition divisor (n : nat) : Qc := Q2Qc (inject_Z (Z.max (Z.of_nat n - 1) 1)).

(** The x pixel of data index [k] among [n] points spread over a plot
    rectangle starting at [cx] of width [w]. *)
Definition pixel_x (cx w : Qc) (n : nat) (k : Z) : Qc :=
  (cx + (Q2Qc (inject_Z k) / divisor n) * w)%Qc.

(** The nearest data index of a pointer at [mx]: the horizontal offset
    divided by the step width, rounded and clamped. *)
Definition snap_index (cx w : Qc) (n : nat) (mx : Qc) : Z :=
  clamp_index (round_half_up ((mx - cx) / (w / divisor n))%Qc) n.

Section AreaChartSpec.

Import AreaChart.

Context (data : list item) (yKey : ykey) (variant : variant_t)
  (showXAxis showYAxis : bool)
  (width height yAxisWidth xAxisHeight : num)
  (hiddenSeries : gset nat).

(** The cumulative totals of the visible series among [pre], one per
    data item; zeros when the chart is not stacked. *)
Definition stackedValues_after (pre : list string) : list num :=
  if isStacked yKey variant then
    map (fun d =>
           sum_nums (map (raw d)
             (filter_index (fun i => negb (has hiddenSeries i)) pre))) data
  else map (fun _ => zero) data.

(** The entry of [allPoints] for the series [ki]: no points when it is
    hidden, otherwise its points over the totals of the series below. *)
Definition series_entry (ki : nat) (key : string) : series :=
  if has hiddenSeries ki then mkSeries key [] ki true
  else
    mkSeries key
      (getPoints data yKey variant showXAxis showYAxis width height yAxisWidth
         xAxisHeight hiddenSeries key
         (if isStacked yKey variant
          then Some (stackedValues_after (take ki (yKeys yKey)))
          else None))
      ki false.

End AreaChartSpec.

Section BarChartSpec.

Import BarChart.

Context (data : list item) (yKey : ykey) (variant : variant_t)
  (color_name : ChartUtils.palette_name)
  (rounded showXAxis showYAxis : bool)
  (barRadius width height barWidth gap yAxisWidth xAxisHeight : num)
  (animationProgress : num) (hiddenSeries : gset nat).

(** The pixel height of the segment of series [key] at a data item. *)
Definition barHeight_of (item : item) (key : string) : num :=
  (raw item key / maxValue data yKey variant hiddenSeries)
  * chartHeight showXAxis height xAxisHeight * animationProgress.

(** The rectangle of series [ki] in the stack of the data item [i]
    drawn at [x]: none when the series is hidden, otherwise a segment
    standing on the segments of the visible series below. *)
Definition stacked_entry (i : nat) (item : item) (x : num)
    (lastVisibleKeyIndex : option nat) (ki : nat) (key : string) : option rect :=
  if has hiddenSeries ki then None
  else
    Some (mkRect x
            (chartHeight showXAxis height xAxisHeight
             - sum_nums (map (barHeight_of item)
                           (visible_below hiddenSeries (yKeys yKey) ki))
             - barHeight_of item key)
            (actualBarWidth data variant showXAxis showYAxis width height barWidth gap
               yAxisWidth xAxisHeight)
            (barHeight_of item key)
            (Solid (getBarColor yKey variant color_name i ki))
            (if bool_decide (Some ki = lastVisibleKeyIndex) && rounded
             then barRadius else zero)).

End BarChartSpec.

Section PieChartSpec.

Import PieChart.

Context (data : list item) (valueKey : string) (variant : variant_t)
  (animationProgress : num) (hiddenSlices : gset nat).

(** The angle swept by a visible slice of value [v]. *)
Definition slice_angle (v : num) : num :=
  if gt (total data valueKey hiddenSlices) zero then
    (v / total data valueKey hiddenSlices) * totalAngle variant * animationProgress
  else zero.

(** The angle reached once the first [k] data items are laid out. *)
Definition angle_before (k : nat) : num :=
  foldl add (startAngle0 variant)
    (map (fun d => slice_angle (raw d valueKey))
       (filter_index (fun i => negb (has hiddenSlices i)) (take k data))).

(** Radians to degrees. *)
Definition to_degrees (a : num) : num := a * lit 180 1 / Math_PI.

(** The angular span of a slice. *)
Definition span (s : slice) : num := endAngle s - startAngle s.

(** The angle at which a run of slices laid from [a] ends. *)
Definition chain_end (a : num) (l : list slice) : num :=
  match last l with Some s => endAngle s | None => a end.

(** A list of slices laid end to end from the angle [a]. *)
Fixpoint chained (a : num) (l : list slice) : Prop :=
  match l with
  | [] => True
  | s :: l' => startAngle s = a /\ chained (endAngle s) l'
  end.

End PieChartSpec.

End Spec.

(** ** Example inputs *)

Module Examples.

(** The data [[{value: 50}, {value: 50}]] of a pie chart. *)
Definition pie_5050 : list item :=
  [ {[ "value"%string := VNum (of_nat 50) ]};
    {[ "value"%string := VNum (of_nat 50) ]} ].

(** Three months with one series. *)
Definition months : list item :=
  [ {[ "value"%string := VNum (of_nat 10) ]};
    {[ "value"%string := VNum (of_nat 30) ]};
    {[ "value"%string := VNum (of_nat 20) ]} ].

(** Two data items with the series a and b. *)
Definition two_series : list item :=
  [ {[ "a"%string := VNum (of_nat 10); "b"%string := VNum (of_nat 5) ]};
    {[ "a"%string := VNum (of_nat 20); "b"%string := VNum (of_nat 5) ]} ].

(** The points of [months] in an area chart of 300 x 150 with the
    default axes. *)
Definition month_points : list AreaChart.point :=
  AreaChart.getPoints months (YString "value") AreaChart.curved true true
    (of_nat 300) (of_nat 150) (of_nat 50) (of_nat 30) ∅ "value" None.

(** [two_series] with other values for the series b. *)
Definition two_series_b : list item :=
  [ {[ "a"%string := VNum (of_nat 10); "b"%string := VNum (of_nat 500) ]};
    {[ "a"%string := VNum (of_nat 20); "b"%string := VNum (of_nat 700) ]} ].

(** Three data items: a value, no field at all, and a null field. *)
Definition with_missing : list item :=
  [ {[ "value"%string := VNum (of_nat 10) ]};
    ∅;
    {[ "value"%string := VNull ]} ].

(** One data item of value 10 and one of value 99. *)
Definition single_10 : list item := [ {[ "value"%string := VNum (lit 10 1) ]} ].
Definition single_99 : list item := [ {[ "value"%string := VNum (lit 99 1) ]} ].

(** Three data items whose value is 0. *)
Definition zeros : list item :=
  [ {[ "value"%string := VNum zero ]};
    {[ "value"%string := VNum zero ]};
    {[ "value"%string := VNum zero ]} ].

(** A pie with a negative value: the values -1 and 5, of total 4. *)
Definition pie_negative : list item :=
  [ {[ "value"%string := VNum (neg one) ]};
    {[ "value"%string := VNum (of_nat 5) ]} ].

End Examples.

(** ** Notions of the further properties *)

(** The position of the pen after each command of a path whose
    commands are absolute; [start] is the start of the current subpath, to
    which a closing command returns, and [pos] the position before the
    first command. *)
Fixpoint pen_positions (start pos : num * num) (p : path) : list (num * num) :=
  match p with
  | [] => []
  | c :: p' =>
      let pos' :=
        match c with
        | M x y | L x y | C _ _ _ _ x y => (x, y)
        | H x => (x, pos.2)
        | V y => (pos.1, y)
        | Close => start
        end in
      pos' :: pen_positions (match c with M _ _ => pos' | _ => start end) pos' p'
  end.

Definition pen_trace (p : path) : list (num * num) :=
  pen_positions (zero, zero) (zero, zero) p.

(** The points of a series as pen positions. *)
Definition vertices (pts : list AreaChart.point) : list (num * num) :=
  map (fun p => (AreaChart.x p, AreaChart.y p)) pts.

(** The staircase through the points: from each point horizontally to
    the x of the next one, then vertically to its y. *)
Fixpoint stairs_from (prev : AreaChart.point) (pts : list AreaChart.point)
  : list (num * num) :=
  match pts with
  | [] => []
  | p :: r =>
      (AreaChart.x p, AreaChart.y prev) :: (AreaChart.x p, AreaChart.y p)
      :: stairs_from p r
  end.

Definition stairs (pts : list AreaChart.point) : list (num * num) :=
  match pts with
  | [] => []
  | p :: r => (AreaChart.x p, AreaChart.y p) :: stairs_from p r
  end.

(** Every field read through the keys of [keys] is a finite number that
    is not negative. *)
Definition nonneg_reads (keys : list string) (data : list item) : Prop :=
  forall d key, d ∈ data -> key ∈ keys ->
    exists q, Spec.raw d key = Fin q /\ (0 <= q)%Qc.

(** Every field read through the keys of [keys] is a finite number. *)
Definition finite_reads (keys : list string) (data : list item) : Prop :=
  forall d key, d ∈ data -> key ∈ keys -> Spec.finite (Spec.raw d key).

(** In stacked mode, a visible series standing directly on a hidden
    one. *)
Definition stands_on_hidden (hiddenSeries : gset nat) (n : nat) : Prop :=
  exists ki, (0 < ki < n)%nat /\ (ki ∉ hiddenSeries) /\ ((ki - 1)%nat ∈ hiddenSeries).

(** The state of a chart and of its legend after the clicks on the
    legend entries [l]: each click runs [handleToggle] of the legend,
    which calls the [handleLegendToggle] of the chart through [onToggle].
    The state is the [hiddenItems] of the legend and the [hiddenSeries] of
    the chart. *)
Definition legend_clicks (legendInteractive : bool) (l : list nat)
    (st : gset nat * gset nat) : gset nat * gset nat :=
  foldl (fun st index =>
           ChartUtils.handleToggle legendInteractive
             (Some (fun index (_ : bool) prev =>
                      AreaChart.handleLegendToggle legendInteractive index prev))
             index st)
    st l.

(** The progress values set while the browser delivers the frame
    timestamps [ts] to the frame callback [step]: the callback runs on a
    frame only if the previous run requested it. *)
Fixpoint run_frames (step : option num -> num -> num * num * bool)
    (start : option num) (ts : list num) : list num :=
  match ts with
  | [] => []
  | t :: ts' =>
      let r := step start t in
      r.1.2 :: (if r.2 then run_frames step (Some r.1.1) ts' else [])
  end.

(** Timestamps that never go back. *)
Fixpoint ascending (t : Qc) (ts : list Qc) : Prop :=
  match ts with
  | [] => True
  | t' :: ts' => (t <= t')%Qc /\ ascending t' ts'
  end.

(** The rational value of [Math_PI]. *)
Definition pi_value : Qc := Q2Qc (884279719003555 # 281474976710656).

(** The numbers an item contributes to the [Math.max] of [maxValue]: its
    sum over the keys in stacked mode, each of its reads otherwise. *)
Definition max_inputs (keys : list string) (stackedMode : bool) (d : item)
  : list num :=
  if stackedMode then [foldl (fun sum key => sum + Spec.raw d key) zero keys]
  else map (Spec.raw d) keys.

(** A field that is undefined, null or a finite number. *)
Definition missing_or_finite (v : val) : Prop :=
  Spec.missing v = true \/ exists q, v = VNum (Fin q).

(** * Properties *)

(** ** Arithmetic of [num] *)

(** Equations and inequalities over [Qc] are decided over [Q]. *)
Lemma Qc_this_plus (p q : Qc) : (this (p + q)%Qc == this p + this q)%Q.
Proof. apply Qred_correct. Qed.
Lemma Qc_this_mult (p q : Qc) : (this (p * q)%Qc == this p * this q)%Q.
Proof. apply Qred_correct. Qed.
Lemma Qc_this_opp (p : Qc) : (this (- p)%Qc == - this p)%Q.
Proof. apply Qred_correct. Qed.
Lemma Qc_this_minus (p q : Qc) : (this (p - q)%Qc == this p - this q)%Q.
Proof. unfold Qcminus. rewrite Qc_this_plus, Qc_this_opp. reflexivity. Qed.
Lemma Qc_this_inv (p : Qc) : (this (/ p)%Qc == / this p)%Q.
Proof. apply Qred_correct. Qed.
Lemma Qc_this_div (p q : Qc) : (this (p / q)%Qc == this p / this q)%Q.
Proof. unfold Qcdiv. rewrite Qc_this_mult, Qc_this_inv. reflexivity. Qed.
Lemma Qc_this_Q2Qc (q : Q) : (this (Q2Qc q) == q)%Q.
Proof. apply Qred_correct. Qed.

Ltac qc_push :=
  repeat first
    [ rewrite Qc_this_plus | rewrite Qc_this_mult | rewrite Qc_this_minus
    | rewrite Qc_this_div | rewrite Qc_this_opp | rewrite Qc_this_inv
    | rewrite Qc_this_Q2Qc ].

Ltac qc_field := apply Qc_is_canon; qc_push; field.

Section NumFacts.

Lemma qeqb_true p q : qeqb p q = true <-> p = q.
Proof.
  unfold qeqb. rewrite Qceq_alt. destruct (p ?= q)%Qc; split; congruence.
Qed.

Lemma qeqb_false p q : qeqb p q = false <-> p <> q.
Proof.
  rewrite <- qeqb_true. destruct (qeqb p q); split; congruence.
Qed.

Lemma qlt_true p q : qlt p q = true <-> (p < q)%Qc.
Proof.
  unfold qlt. rewrite Qclt_alt. destruct (p ?= q)%Qc; split; congruence.
Qed.

Lemma qle_true p q : qle p q = true <-> (p <= q)%Qc.
Proof.
  unfold qle. rewrite Qcle_alt. destruct (p ?= q)%Qc; split; congruence.
Qed.

Lemma div_fin p q : q <> 0%Qc -> Fin p / Fin q = Fin (p / q).
Proof. intros Hq. simpl. apply qeqb_false in Hq. now rewrite Hq. Qed.

Lemma add_zero_l a : zero + a = a.
Proof. destruct a; simpl; try reflexivity. now rewrite Qcplus_0_l. Qed.

Lemma add_zero_r a : a + zero = a.
Proof. destruct a; simpl; try reflexivity. now rewrite Qcplus_0_r. Qed.

Lemma add_comm a b : a + b = b + a.
Proof. destruct a, b; simpl; try reflexivity. now rewrite Qcplus_comm. Qed.

Lemma add_assoc a b c : a + (b + c) = (a + b) + c.
Proof. destruct a, b, c; simpl; try reflexivity. now rewrite Qcplus_assoc. Qed.

Lemma of_Z_compare a b :
  (Q2Qc (inject_Z a) ?= Q2Qc (inject_Z b))%Qc = (a ?= b)%Z.
Proof.
  unfold Qccompare. rewrite !Qc_this_Q2Qc.
  unfold Qcompare. simpl. now rewrite !Z.mul_1_r.
Qed.

Lemma lt_of_Z a b : lt (of_Z a) (of_Z b) = (a <? b)%Z.
Proof. simpl. unfold qlt. rewrite of_Z_compare. reflexivity. Qed.

Lemma of_Z_inj a b : of_Z a = of_Z b -> a = b.
Proof.
  intros H. assert (H' : Q2Qc (inject_Z a) = Q2Qc (inject_Z b)) by (unfold of_Z in H; congruence).
  apply Q2Qc_eq_iff in H'. unfold Qeq in H'. simpl in H'. lia.
Qed.

Lemma add_of_Z a b : of_Z a + of_Z b = of_Z (a + b).
Proof.
  simpl. unfold of_Z. f_equal. apply Qc_is_canon. qc_push.
  now rewrite inject_Z_plus.
Qed.

Lemma neg_of_Z a : - of_Z a = of_Z (- a).
Proof.
  simpl. unfold of_Z. f_equal. apply Qc_is_canon. qc_push.
  now rewrite inject_Z_opp.
Qed.

Lemma sub_of_Z a b : of_Z a - of_Z b = of_Z (a - b).
Proof. unfold sub. now rewrite neg_of_Z, add_of_Z. Qed.

Lemma max2_of_Z a b : max2 (of_Z a) (of_Z b) = of_Z (Z.max a b).
Proof.
  unfold max2. change (match of_Z a with NaN => NaN | _ => match of_Z b with NaN => NaN | _ => if lt (of_Z a) (of_Z b) then of_Z b else of_Z a end end = of_Z (Z.max a b)).
  rewrite lt_of_Z. simpl.
  destruct (Z.ltb_spec a b); f_equal; f_equal; f_equal; lia.
Qed.

Lemma min2_of_Z a b : min2 (of_Z a) (of_Z b) = of_Z (Z.min a b).
Proof.
  unfold min2. change (match of_Z a with NaN => NaN | _ => match of_Z b with NaN => NaN | _ => if lt (of_Z b) (of_Z a) then of_Z b else of_Z a end end = of_Z (Z.min a b)).
  rewrite lt_of_Z. simpl.
  destruct (Z.ltb_spec b a); f_equal; f_equal; f_equal; lia.
Qed.

Lemma finite_inv a : Spec.finite a -> a = Fin (Spec.qval a).
Proof. destruct a; try discriminate. reflexivity. Qed.

Lemma add_finite_inv a b : Spec.finite (a + b) -> Spec.finite a /\ Spec.finite b.
Proof. destruct a, b; try discriminate; split; reflexivity. Qed.

Lemma foldl_add_inv l : forall a,
  Spec.finite (foldl add a l) -> Spec.finite a /\ Forall Spec.finite l.
Proof.
  induction l as [|b l IH]; intros a H; [split; [exact H | constructor]|].
  cbn [foldl] in H. apply IH in H as [Hab Hl].
  apply add_finite_inv in Hab as [Ha Hb].
  split; [assumption | constructor; assumption].
Qed.

Lemma foldl_add_qval l : forall a,
  Spec.finite a -> Forall Spec.finite l ->
  foldl add a l = Fin (Spec.qval a + Spec.qsum (map Spec.qval l))%Qc.
Proof.
  induction l as [|b l IH]; intros a Ha Hl.
  - cbn. rewrite Qcplus_0_r. now apply finite_inv.
  - inversion Hl as [|? ? Hb Hl']; subst. cbn [foldl map].
    rewrite (finite_inv a Ha), (finite_inv b Hb).
    change (Fin (Spec.qval a) + Fin (Spec.qval b))
      with (Fin (Spec.qval a + Spec.qval b)).
    rewrite IH by (assumption || reflexivity).
    f_equal. cbn [Spec.qval Spec.qsum foldr]. now rewrite Qcplus_assoc.
Qed.

End NumFacts.

(** ** Loops *)

Lemma for_range_S {St} n (body : nat -> St -> option St) s :
  for_range (S n) body s = for_range n body s ≫= body n.
Proof. unfold for_range. now rewrite seq_S, foldl_app. Qed.

(** A loop that pushes one computed element per iteration builds the list
    of these elements. *)
Lemma for_range_push {A} (f : nat -> option A) (g : nat -> A) n init :
  (forall i, (i < n)%nat -> f i = Some (g i)) ->
  for_range n (fun i acc => t ← f i; Some (acc ++ [t])) init
  = Some (init ++ map g (seq 0 n)).
Proof.
  induction n as [|n IH]; intros Hf.
  - simpl. now rewrite app_nil_r.
  - rewrite for_range_S, IH by (intros; apply Hf; lia).
    rewrite seq_S, map_app, app_assoc. simpl.
    now rewrite Hf by lia.
Qed.


(** ** The curved line path (AreaChart.generateLinePath) *)

Section CurvedPath.

Import AreaChart Spec.

(** The test [slopeLeft * slopeRight <= 0] of the source and the
    opposite-sign test of the specification give the same tangent: when
    the product is zero a slope is zero, its inverse is Infinity and the
    harmonic mean is zero. *)
Lemma monotone_tangent_code sl sr :
  (if le (sl * sr) zero then zero else lit 2 1 / (one / sl + one / sr))
  = monotone_tangent sl sr.
Proof.
  unfold monotone_tangent, opposite_sign, harmonic_mean.
  destruct sl as [p| | |], sr as [q| | |]; simpl;
    try reflexivity;
    try (destruct (q ?= 0)%Qc; reflexivity);
    try (destruct (p ?= 0)%Qc; reflexivity).
  unfold qle, qlt.
  destruct (p * q ?= 0)%Qc eqn:E; try reflexivity.
  apply Qceq_alt, Qcmult_integral in E.
  destruct E as [-> | ->].
  - cbn. destruct (qeqb q 0); reflexivity.
  - cbn. destruct (qeqb p 0); [reflexivity|].
    destruct (1 / p)%Qc; reflexivity.
Qed.

Context (variant : variant_t) (animationProgress : num).

Lemma visiblePoints_length {A} (points : list A) :
  (length (visiblePoints animationProgress points) <= length points)%nat.
Proof. unfold visiblePoints, slice0. rewrite length_take. lia. Qed.

Lemma tangent_at_is_Some vp i :
  (3 <= length vp)%nat -> (i < length vp)%nat ->
  is_Some (tangent_at vp (length vp) i).
Proof.
  intros Hn Hi. unfold tangent_at.
  destruct (i =? 0)%nat eqn:E0.
  - destruct (lookup_lt_is_Some_2 vp 0%nat) as [p0 ->]; [lia|].
    destruct (lookup_lt_is_Some_2 vp 1%nat) as [p1 ->]; [lia|]. simpl. eauto.
  - destruct (i =? length vp - 1)%nat eqn:E1.
    + destruct (lookup_lt_is_Some_2 vp (length vp - 2)%nat) as [pa ->]; [lia|].
      destruct (lookup_lt_is_Some_2 vp (length vp - 1)%nat) as [pb ->]; [lia|].
      simpl. eauto.
    + apply Nat.eqb_neq in E0, E1.
      destruct (lookup_lt_is_Some_2 vp (i - 1)%nat) as [pl ->]; [lia|].
      destruct (lookup_lt_is_Some_2 vp i) as [pi ->]; [lia|].
      destruct (lookup_lt_is_Some_2 vp (i + 1)%nat) as [pr ->]; [lia|].
      simpl. destruct (le _ _); eauto.
Qed.

Lemma tangents_of_eq vp :
  (3 <= length vp)%nat ->
  tangents_of vp
  = Some (map (fun i => default NaN (tangent_at vp (length vp) i)) (seq 0 (length vp))).
Proof.
  intros Hn. unfold tangents_of.
  rewrite (for_range_push _ (fun i => default NaN (tangent_at vp (length vp) i))).
  - reflexivity.
  - intros i Hi. destruct (tangent_at_is_Some vp i Hn Hi) as [t ->]. reflexivity.
Qed.

Lemma lookup_map_seq0 {A} (g : nat -> A) n i :
  (i < n)%nat -> map g (seq 0 n) !! i = Some (g i).
Proof.
  intros Hi. rewrite list_lookup_fmap, lookup_seq_lt by lia. reflexivity.
Qed.

(** The second control point, written by the source as [p1.x - dx], sits
    at two-thirds of the span. *)
Lemma two_thirds a b :
  finite a -> finite b ->
  b - (b - a) / lit 3 1 = a + (lit 2 1 * (b - a)) / lit 3 1.
Proof.
  destruct a as [p| | |], b as [q| | |]; try discriminate. intros _ _.
  cbn. f_equal. qc_field.
Qed.

(** The curved branch, run on at least three visible points, returns the
    move to the first point followed by the segments of the second loop
    over the tangents of the first loop. *)
Lemma curved_path_eq (points vp : list point) p0 :
  variant <> stepped ->
  visiblePoints animationProgress points = vp ->
  (3 <= length vp)%nat ->
  vp !! 0%nat = Some p0 ->
  let tangents :=
    map (fun i => default NaN (tangent_at vp (length vp) i)) (seq 0 (length vp)) in
  (forall i, (i < length vp - 1)%nat ->
     bezier_at vp tangents i = Some (default Close (bezier_at vp tangents i))) /\
  generateLinePath variant animationProgress points true
  = Some ([M (x p0) (y p0)]
          ++ map (fun i => default Close (bezier_at vp tangents i))
               (seq 0 (length vp - 1))).
Proof.
  intros Hvar Hvp Hn Hp0 tangents.
  assert (Hbez : forall i, (i < length vp - 1)%nat ->
            bezier_at vp tangents i = Some (default Close (bezier_at vp tangents i))).
  { intros i Hi. unfold bezier_at.
    destruct (lookup_lt_is_Some_2 vp i) as [p ->]; [lia|].
    destruct (lookup_lt_is_Some_2 vp (i + 1)%nat) as [q ->]; [lia|]. reflexivity. }
  split; [exact Hbez|].
  unfold generateLinePath.
  pose proof (visiblePoints_length points) as Hle. rewrite Hvp in Hle.
  replace (length points <? 2)%nat with false by (symmetry; apply Nat.ltb_ge; lia).
  rewrite Hvp, bool_decide_eq_false_2 by assumption. simpl.
  replace (length vp <? 2)%nat with false by (symmetry; apply Nat.ltb_ge; lia).
  replace (length vp =? 2)%nat with false by (symmetry; apply Nat.eqb_neq; lia).
  rewrite tangents_of_eq by assumption. simpl. rewrite Hp0. simpl.
  fold tangents.
  apply (for_range_push _ (fun i => default Close (bezier_at vp tangents i)) _
           [M (x p0) (y p0)]).
  assumption.
Qed.

(** C1.  For at least three visible points with finite x, the curved
    line path starts with a move to the first point and continues with one
    cubic Bezier segment per consecutive pair of points; its control
    points sit at one-third and two-thirds of the horizontal span, offset
    vertically by tangent * (dx/3).  The tangent of an endpoint is its
    adjacent secant slope; the tangent of an internal point is zero when
    its two secant slopes have opposite sign and their harmonic mean
    2 / (1/slopeLeft + 1/slopeRight) otherwise. *)
Theorem curved_path_monotone_cubic (points vp : list point) :
  variant <> stepped ->
  visiblePoints animationProgress points = vp ->
  (3 <= length vp)%nat ->
  (forall p, p ∈ vp -> finite (x p)) ->
  exists tangents path,
    tangents_of vp = Some tangents /\
    generateLinePath variant animationProgress points true = Some path /\
    length tangents = length vp /\
    length path = length vp /\
    (forall p0, vp !! 0%nat = Some p0 -> path !! 0%nat = Some (M (x p0) (y p0))) /\
    (forall p0 p1, vp !! 0%nat = Some p0 -> vp !! 1%nat = Some p1 ->
       tangents !! 0%nat = Some (secant p0 p1)) /\
    (forall pa pb,
       vp !! (length vp - 2)%nat = Some pa -> vp !! (length vp - 1)%nat = Some pb ->
       tangents !! (length vp - 1)%nat = Some (secant pa pb)) /\
    (forall i pl pi pr,
       (0 < i < length vp - 1)%nat ->
       vp !! (i - 1)%nat = Some pl -> vp !! i = Some pi -> vp !! (i + 1)%nat = Some pr ->
       tangents !! i = Some (monotone_tangent (secant pl pi) (secant pi pr))) /\
    (forall i p q ti tj,
       vp !! i = Some p -> vp !! (i + 1)%nat = Some q ->
       tangents !! i = Some ti -> tangents !! (i + 1)%nat = Some tj ->
       let span := x q - x p in
       path !! (i + 1)%nat
       = Some (C (x p + span / lit 3 1) (y p + ti * (span / lit 3 1))
                 (x p + (lit 2 1 * span) / lit 3 1) (y q - tj * (span / lit 3 1))
                 (x q) (y q))).
Proof.
  intros Hvar Hvp Hn Hfin.
  pose (g := fun i => default NaN (tangent_at vp (length vp) i)).
  pose (tangents := map g (seq 0 (length vp))).
  pose (h := fun i => default Close (bezier_at vp tangents i)).
  destruct (lookup_lt_is_Some_2 vp 0%nat) as [p0 Hp0]; [lia|].
  destruct (curved_path_eq points vp p0 Hvar Hvp Hn Hp0) as [Hbez Hpath].
  exists tangents, ([M (x p0) (y p0)] ++ map h (seq 0 (length vp - 1))).
  assert (Hlen : length tangents = length vp).
  { unfold tangents. now rewrite length_map, length_seq. }
  split; [apply tangents_of_eq; assumption|].
  split; [exact Hpath|].
  split; [assumption|].
  split. { rewrite length_app, length_map, length_seq. simpl. lia. }
  split. { intros p0' Hp0'. simpl. congruence. }
  split.
  { intros p0' p1 H0 H1. unfold tangents. rewrite lookup_map_seq0 by lia.
    unfold g, tangent_at. simpl. rewrite H0, H1. reflexivity. }
  split.
  { intros pa pb Ha Hb. unfold tangents. rewrite lookup_map_seq0 by lia.
    unfold g, tangent_at.
    replace (length vp - 1 =? 0)%nat with false by (symmetry; apply Nat.eqb_neq; lia).
    rewrite Nat.eqb_refl, Ha, Hb. reflexivity. }
  split.
  { intros i pl pi pr Hi Hl Hm Hr. unfold tangents. rewrite lookup_map_seq0 by lia.
    unfold g, tangent_at.
    replace (i =? 0)%nat with false by (symmetry; apply Nat.eqb_neq; lia).
    replace (i =? length vp - 1)%nat with false by (symmetry; apply Nat.eqb_neq; lia).
    rewrite Hl, Hm, Hr. simpl.
    rewrite <- monotone_tangent_code. unfold secant.
    destruct (le _ _); reflexivity. }
  intros i p q ti tj Hp Hq Hti Htj span.
  assert (Hi : (i < length vp - 1)%nat).
  { apply lookup_lt_Some in Hq. lia. }
  replace (i + 1)%nat with (S i) by lia. simpl.
  rewrite lookup_map_seq0 by assumption.
  unfold h, bezier_at. rewrite Hp, Hq. simpl.
  unfold nth_num. rewrite Hti, Htj.
  rewrite two_thirds; [reflexivity| |].
  - apply Hfin. eapply list_elem_of_lookup_2; eassumption.
  - apply Hfin. eapply list_elem_of_lookup_2; eassumption.
Qed.

(** The secant of two finite points of distinct x is finite. *)
Lemma secant_finite p q :
  finite_point p -> finite_point q -> lt (x p) (x q) = true ->
  finite (secant p q).
Proof.
  unfold finite_point, secant, finite.
  destruct (x p) as [a| | |], (y p) as [b| | |],
           (x q) as [c| | |], (y q) as [d| | |];
    intros [? ?] [? ?] Hlt; try discriminate.
  cbn in Hlt. apply qlt_true in Hlt.
  cbn [sub add neg]. rewrite div_fin; [reflexivity|].
  intros E.
  assert (Hc : c = a).
  { rewrite <- (Qcplus_0_l a), <- E. ring. }
  subst c. exact (Qcle_not_lt _ _ (Qcle_refl a) Hlt).
Qed.

(** The tangent of an internal point between two finite secants is
    finite: the harmonic mean is taken only when the product of the slopes
    is positive, when the sum of the inverses cannot vanish. *)
Lemma monotone_tangent_finite sl sr :
  finite sl -> finite sr ->
  finite (if le (sl * sr) zero then zero else lit 2 1 / (one / sl + one / sr)).
Proof.
  unfold finite.
  destruct sl as [a| | |], sr as [b| | |]; intros ? ?; try discriminate.
  cbn [mul le zero]. destruct (qle (a * b) 0) eqn:E; [reflexivity|].
  assert (Hab : (0 < a * b)%Qc).
  { apply Qcnot_le_lt. intros H. apply qle_true in H. congruence. }
  assert (Ha : a <> 0%Qc).
  { intros ->. rewrite Qcmult_0_l in Hab. exact (Qcle_not_lt _ _ (Qcle_refl 0) Hab). }
  assert (Hb : b <> 0%Qc).
  { intros ->. rewrite Qcmult_0_r in Hab. exact (Qcle_not_lt _ _ (Qcle_refl 0) Hab). }
  unfold one. rewrite !div_fin by assumption. cbn [add].
  unfold lit. rewrite div_fin; [reflexivity|].
  intros Hz.
  assert (Hs : (a + b = (1 / a + 1 / b) * (a * b))%Qc) by (field; split; assumption).
  rewrite Hz, Qcmult_0_l in Hs.
  assert (Hb' : b = (- a)%Qc).
  { rewrite <- (Qcplus_0_l (- a)), <- Hs. ring. }
  subst b.
  assert (Hsq : (0 <= a * a)%Qc).
  { unfold Qcle. qc_push. change (this 0%Qc) with 0%Q. nra. }
  apply (Qclt_not_le _ _ Hab).
  replace (a * - a)%Qc with (- (a * a))%Qc by ring.
  apply Qcopp_le_compat in Hsq. exact Hsq.
Qed.

(** A further property of the curved branch: on at least three visible
    points with finite coordinates and strictly increasing x, every number
    written into the path is finite. *)
Lemma curved_path_coordinates_finite (points vp : list point) :
  variant <> stepped ->
  visiblePoints animationProgress points = vp ->
  (3 <= length vp)%nat ->
  Forall finite_point vp ->
  increasing_x vp ->
  exists path,
    generateLinePath variant animationProgress points true = Some path /\
    Forall finite (path_coords path).
Proof.
  intros Hvar Hvp Hn Hfin Hinc.
  destruct (lookup_lt_is_Some_2 vp 0%nat) as [p0 Hp0]; [lia|].
  destruct (curved_path_eq points vp p0 Hvar Hvp Hn Hp0) as [_ Hpath].
  eexists. split; [exact Hpath|].
  assert (Hpt : forall i p, vp !! i = Some p -> finite_point p).
  { intros i p Hp. eapply Forall_lookup_1; eassumption. }
  assert (Htan : forall i, (i < length vp)%nat ->
            finite (default NaN (tangent_at vp (length vp) i))).
  { intros i Hi. unfold tangent_at.
    destruct (i =? 0)%nat eqn:E0.
    - destruct (lookup_lt_is_Some_2 vp 0%nat) as [q0 H0]; [lia|].
      destruct (lookup_lt_is_Some_2 vp 1%nat) as [q1 H1]; [lia|].
      rewrite H0, H1. apply (secant_finite q0 q1); eauto.
    - destruct (i =? length vp - 1)%nat eqn:E1.
      + destruct (lookup_lt_is_Some_2 vp (length vp - 2)%nat) as [pa Ha]; [lia|].
        destruct (lookup_lt_is_Some_2 vp (length vp - 1)%nat) as [pb Hb]; [lia|].
        rewrite Ha, Hb. apply (secant_finite pa pb); eauto.
        apply (Hinc (length vp - 2)%nat); [assumption|].
        replace (S (length vp - 2)) with (length vp - 1)%nat by lia. assumption.
      + apply Nat.eqb_neq in E0, E1.
        destruct (lookup_lt_is_Some_2 vp (i - 1)%nat) as [pl Hl]; [lia|].
        destruct (lookup_lt_is_Some_2 vp i) as [pi Hm]; [lia|].
        destruct (lookup_lt_is_Some_2 vp (i + 1)%nat) as [pr Hr]; [lia|].
        rewrite Hl, Hm, Hr. cbn [mbind option_bind].
        pose proof (monotone_tangent_finite (secant pl pi) (secant pi pr)) as Hm'.
        unfold secant in Hm'. destruct (le _ _) eqn:Ele.
        * reflexivity.
        * apply Hm'.
          -- apply (secant_finite pl pi); eauto.
             apply (Hinc (i - 1)%nat); [assumption|].
             replace (S (i - 1)) with i by lia. assumption.
          -- apply (secant_finite pi pr); eauto.
             apply (Hinc i); [assumption|].
             replace (S i) with (i + 1)%nat by lia. assumption. }
  unfold path_coords. cbn [app flat_map cmd_coords].
  destruct (Hpt _ _ Hp0) as [Hx0 Hy0].
  repeat apply Forall_cons_2; try assumption.
  apply Forall_flat_map, Forall_fmap, Forall_seq. intros i Hi. cbn.
  unfold bezier_at.
  destruct (lookup_lt_is_Some_2 vp i) as [p Hp]; [lia|].
  destruct (lookup_lt_is_Some_2 vp (i + 1)%nat) as [q Hq]; [lia|].
  rewrite Hp, Hq. cbn [mbind option_bind default cmd_coords].
  unfold nth_num. rewrite !lookup_map_seq0 by lia.
  pose proof (Htan i ltac:(lia)) as Hti.
  pose proof (Htan (i + 1)%nat ltac:(lia)) as Htj.
  destruct (Hpt _ _ Hp) as [Hxp Hyp]. destruct (Hpt _ _ Hq) as [Hxq Hyq].
  revert Hti Htj Hxp Hyp Hxq Hyq. unfold finite.
  destruct (default NaN (tangent_at vp (length vp) i)) as [ti| | |];
    try discriminate.
  destruct (default NaN (tangent_at vp (length vp) (i + 1))) as [tj| | |];
    try discriminate.
  destruct (x p) as [a| | |], (y p) as [b| | |],
           (x q) as [c| | |], (y q) as [d| | |]; try discriminate.
  intros _ _ _ _ _ _.
  cbn [sub add neg]. unfold lit. rewrite div_fin by (intros E; discriminate E).
  repeat apply Forall_cons_2; try reflexivity. apply Forall_nil_2.
Qed.

End CurvedPath.

(** ** The cartesian snap engine *)

Section Snap.

Import Spec.

Lemma divisor_neq_0 n : divisor n <> 0%Qc.
Proof.
  unfold divisor. intros H. change 0%Qc with (Q2Qc 0) in H.
  apply Q2Qc_eq_iff in H. unfold Qeq in H. simpl in H. lia.
Qed.

Lemma guarded_divisor n : max2 (of_nat n - one) one = Fin (divisor n).
Proof.
  change one with (of_Z 1). unfold of_nat.
  now rewrite sub_of_Z, max2_of_Z.
Qed.

Lemma Qcinv_neq_0 (d : Qc) : d <> 0%Qc -> (/ d)%Qc <> 0%Qc.
Proof.
  intros Hd H. apply (Qcmult_inv_r d) in Hd.
  rewrite H, Qcmult_0_r in Hd. discriminate Hd.
Qed.

Lemma Qcdiv_neq_0 (w d : Qc) : w <> 0%Qc -> d <> 0%Qc -> (w / d)%Qc <> 0%Qc.
Proof.
  intros Hw Hd H. apply Qcmult_integral in H as [H | H]; [tauto|].
  now apply Qcinv_neq_0 in H.
Qed.

(** The index and the x computed by the two handlers, in exact
    arithmetic. *)
Lemma snap_core n cx w mx :
  w <> 0%Qc ->
  let stepWidth := Fin w / max2 (of_nat n - one) one in
  let nearestIndex := Math_round ((Fin mx - Fin cx) / stepWidth) in
  let nearestIndex := max2 zero (min2 nearestIndex (of_nat n - one)) in
  nearestIndex = of_Z (snap_index cx w n mx) /\
  Fin cx + (nearestIndex / max2 (of_nat n - one) one) * Fin w
  = Fin (pixel_x cx w n (snap_index cx w n mx)).
Proof.
  intros Hw. cbv zeta. rewrite guarded_divisor.
  rewrite (div_fin w) by apply divisor_neq_0.
  change (Fin mx - Fin cx) with (Fin (mx - cx)).
  rewrite div_fin by (apply Qcdiv_neq_0; [assumption|apply divisor_neq_0]).
  change (Math_round (Fin ?q)) with (of_Z (round_half_up q)).
  change one with (of_Z 1). change zero with (of_Z 0). unfold of_nat.
  rewrite sub_of_Z, min2_of_Z, max2_of_Z.
  split; [reflexivity|].
  unfold of_Z at 1. rewrite div_fin by apply divisor_neq_0. reflexivity.
Qed.

Lemma Qc_neq_0 (w : Qc) : w <> 0%Qc -> ~ (this w == 0)%Q.
Proof. intros Hw H. apply Hw. now apply Qc_is_canon. Qed.

Lemma snap_index_range cx w n mx :
  (0 < n)%nat -> (0 <= snap_index cx w n mx <= Z.of_nat n - 1)%Z.
Proof. intros Hn. unfold snap_index, clamp_index. lia. Qed.

Lemma getPoints_x data yKey variant showXAxis showYAxis width height yAxisWidth
    xAxisHeight hiddenSeries key sv (i : nat) p cx w :
  AreaChart.chartX showYAxis yAxisWidth = Fin cx ->
  AreaChart.chartWidth showYAxis width yAxisWidth = Fin w ->
  AreaChart.getPoints data yKey variant showXAxis showYAxis width height yAxisWidth
    xAxisHeight hiddenSeries key sv !! i = Some p ->
  AreaChart.x p = Fin (pixel_x cx w (length data) (Z.of_nat i)).
Proof.
  intros Hcx Hw Hp. unfold AreaChart.getPoints in Hp.
  rewrite list_lookup_imap in Hp.
  destruct (data !! i) as [d|]; [|discriminate].
  cbv [fmap option_fmap option_map] in Hp.
  apply (inj Some) in Hp. subst p. cbn [AreaChart.x].
  rewrite Hcx, Hw, guarded_divisor. unfold of_nat, of_Z at 1.
  rewrite div_fin by apply divisor_neq_0. reflexivity.
Qed.

End Snap.

(** ** Stacking (AreaChart.allPoints) *)

Section Stacking.

Import AreaChart Spec.

Lemma filter_index_from_app {A} (f : nat -> bool) i (l1 l2 : list A) :
  filter_index_from f i (l1 ++ l2)
  = filter_index_from f i l1 ++ filter_index_from f (i + length l1) l2.
Proof.
  revert i. induction l1 as [|a l1 IH]; intros i; simpl.
  - now rewrite Nat.add_0_r.
  - rewrite IH. replace (S i + length l1)%nat with (i + S (length l1))%nat by lia.
    now destruct (f i).
Qed.

Lemma filter_index_from_nil {A} (f : nat -> bool) i (l : list A) :
  (forall j, (i <= j < i + length l)%nat -> f j = false) ->
  filter_index_from f i l = [].
Proof.
  revert i. induction l as [|a l IH]; intros i Hf; simpl; [reflexivity|].
  rewrite Hf by (simpl; lia). apply IH. intros j Hj. apply Hf. simpl. lia.
Qed.

Lemma sum_nums_cons a l : sum_nums (a :: l) = a + sum_nums l.
Proof. reflexivity. Qed.

Lemma foldl_add_sum a l : foldl add a l = a + sum_nums l.
Proof.
  revert a. induction l as [|b l IH]; intros a.
  - change (a = a + zero). now rewrite add_zero_r.
  - cbn [foldl]. now rewrite IH, sum_nums_cons, add_assoc.
Qed.

Lemma sum_nums_app l1 l2 : sum_nums (l1 ++ l2) = sum_nums l1 + sum_nums l2.
Proof.
  induction l1 as [|a l1 IH].
  - change (sum_nums l2 = zero + sum_nums l2). now rewrite add_zero_l.
  - cbn [app]. now rewrite !sum_nums_cons, IH, add_assoc.
Qed.

Context (data : list item) (yKey : ykey) (variant : variant_t)
  (showXAxis showYAxis : bool)
  (width height yAxisWidth xAxisHeight : num)
  (hiddenSeries : gset nat).

Local Abbreviation yKeys' := (yKeys yKey).
Local Abbreviation isStacked' := (isStacked yKey variant).
Local Abbreviation has' := (has hiddenSeries).
Local Abbreviation getPoints' :=
  (getPoints data yKey variant showXAxis showYAxis width height yAxisWidth xAxisHeight
     hiddenSeries).
Local Abbreviation allPoints_step' :=
  (allPoints_step data yKey variant showXAxis showYAxis width height yAxisWidth
     xAxisHeight hiddenSeries).
Local Abbreviation allPoints' :=
  (allPoints data yKey variant showXAxis showYAxis width height yAxisWidth xAxisHeight
     hiddenSeries).
Local Abbreviation stackedValues_after' :=
  (stackedValues_after data yKey variant hiddenSeries).
Local Abbreviation series_entry' :=
  (series_entry data yKey variant showXAxis showYAxis width height yAxisWidth
     xAxisHeight hiddenSeries).

Lemma stackedValues_after_hidden pre key :
  has' (length pre) = true ->
  stackedValues_after' (pre ++ [key]) = stackedValues_after' pre.
Proof.
  intros Hh. unfold stackedValues_after, filter_index.
  rewrite filter_index_from_app. cbn [filter_index_from].
  rewrite Nat.add_0_l, Hh. cbn [negb]. now rewrite app_nil_r.
Qed.

Lemma stackedValues_after_visible pre key :
  has' (length pre) = false -> isStacked' = true ->
  imap (fun i item => nth_num (stackedValues_after' pre) i + or0 (get item key)) data
  = stackedValues_after' (pre ++ [key]).
Proof.
  intros Hh Hs. unfold stackedValues_after, filter_index. rewrite Hs.
  rewrite filter_index_from_app. cbn [filter_index_from].
  rewrite Nat.add_0_l, Hh. cbn [negb].
  apply list_eq. intros i.
  rewrite list_lookup_imap, !list_lookup_fmap. unfold nth_num.
  rewrite list_lookup_fmap.
  destruct (data !! i) as [d|]; [|reflexivity].
  cbn [fmap option_fmap option_map]. f_equal.
  rewrite map_app, sum_nums_app. f_equal.
  cbn [map]. rewrite sum_nums_cons. change (sum_nums []) with zero.
  now rewrite add_zero_r.
Qed.

Lemma forEach_allPoints l : forall pre result,
  yKeys' = pre ++ l ->
  (forEach_from allPoints_step' (length pre) l (result, stackedValues_after' pre)).1
  = result ++ imap (fun j key => series_entry' (length pre + j) key) l.
Proof.
  induction l as [|key l IH]; intros pre result Hk.
  - cbn. now rewrite app_nil_r.
  - cbn [forEach_from imap].
    assert (Hk' : yKeys' = (pre ++ [key]) ++ l) by (now rewrite <- app_assoc).
    assert (Htake : take (length pre) yKeys' = pre) by (rewrite Hk; apply take_app_length).
    specialize (IH (pre ++ [key])). rewrite length_app in IH. cbn [length] in IH.
    replace (length pre + 1)%nat with (S (length pre)) in IH by lia.
    unfold allPoints_step at 2, series_entry at 1.
    rewrite Nat.add_0_r, Htake.
    destruct (has' (length pre)) eqn:Hh.
    + rewrite <- (stackedValues_after_hidden pre key Hh).
      rewrite IH by assumption. rewrite <- app_assoc. cbn [app]. f_equal. f_equal.
      apply imap_ext. intros j x _. cbn. f_equal. lia.
    + destruct isStacked' eqn:Hs.
      * rewrite (stackedValues_after_visible pre key Hh Hs).
        rewrite IH by assumption. rewrite <- app_assoc. cbn [app]. f_equal. f_equal.
        apply imap_ext. intros j x _. cbn. f_equal. lia.
      * replace (stackedValues_after' pre) with (stackedValues_after' (pre ++ [key]))
          by (unfold stackedValues_after; now rewrite Hs).
        rewrite IH by assumption. rewrite <- app_assoc. cbn [app]. f_equal. f_equal.
        apply imap_ext. intros j x _. cbn. f_equal. lia.
Qed.

(** [allPoints] holds one entry per series, in order. *)
Lemma allPoints_eq : allPoints' = imap series_entry' yKeys'.
Proof.
  unfold allPoints.
  replace (map (fun _ : item => zero) data) with (stackedValues_after' []).
  - exact (forEach_allPoints yKeys' [] [] eq_refl).
  - unfold stackedValues_after. destruct isStacked'; [|reflexivity].
    apply map_ext. intros d. reflexivity.
Qed.

Lemma getPoints_lookup key sv i p :
  getPoints' key sv !! i = Some p ->
  exists d, data !! i = Some d /\
    value p = raw d key /\
    stackedBase p = match sv with Some l => nth_num l i | None => zero end.
Proof.
  unfold getPoints. rewrite list_lookup_imap.
  destruct (data !! i) as [d|]; [|discriminate].
  cbv [fmap option_fmap option_map]. intros Hp. apply (inj Some) in Hp. subst p.
  exists d. repeat split.
Qed.

Lemma getPoints_length key sv : length (getPoints' key sv) = length data.
Proof. unfold getPoints. apply length_imap. Qed.

Lemma visibleYKeys_split ki :
  (forall kj, (ki < kj < length yKeys')%nat -> has' kj = true) ->
  visibleYKeys yKey hiddenSeries
  = filter_index (fun i => negb (has' i)) (take (S ki) yKeys').
Proof.
  intros Htop. unfold visibleYKeys, filter_index.
  rewrite <- (take_drop (S ki) yKeys') at 1.
  rewrite filter_index_from_app.
  rewrite (filter_index_from_nil _ _ (drop (S ki) yKeys')); [now rewrite app_nil_r|].
  intros j Hj. rewrite length_drop in Hj.
  rewrite length_take in Hj. rewrite Htop; [reflexivity|]. lia.
Qed.

(** In stacked mode the base of a visible series is the sum of the raw
    values of the visible series below it, and on top of the topmost
    visible series lies the sum over all visible series. *)
Lemma area_stacked_base :
  isStacked' = true ->
  length allPoints' = length yKeys' /\
  forall ki s, allPoints' !! ki = Some s ->
    index s = ki /\ hidden s = has' ki /\
    (has' ki = true -> points s = []) /\
    (has' ki = false ->
       length (points s) = length data /\
       forall i p, points s !! i = Some p ->
         exists d key, data !! i = Some d /\ yKeys' !! ki = Some key /\
           value p = raw d key /\
           stackedBase p
           = sum_nums (map (raw d) (visible_below hiddenSeries yKeys' ki)) /\
           ((forall kj, (ki < kj < length yKeys')%nat -> has' kj = true) ->
            stackedBase p + value p
            = sum_nums (map (raw d) (visibleYKeys yKey hiddenSeries)))).
Proof.
  intros Hs. rewrite allPoints_eq. split; [apply length_imap|].
  intros ki s Hlk. rewrite list_lookup_imap in Hlk.
  destruct (yKeys' !! ki) as [key|] eqn:Hkey; [|discriminate].
  cbv [fmap option_fmap option_map] in Hlk. apply (inj Some) in Hlk. subst s.
  unfold series_entry. rewrite Hs.
  destruct (has' ki) eqn:Hh; cbn [index hidden points].
  - split; [reflexivity|]. split; [reflexivity|]. split; [reflexivity|]. discriminate.
  - split; [reflexivity|]. split; [reflexivity|]. split; [discriminate|].
    intros _. split; [apply getPoints_length|].
    intros i p Hp. apply getPoints_lookup in Hp as (d & Hd & Hv & Hb).
    exists d, key. split; [assumption|]. split; [reflexivity|]. split; [assumption|].
    assert (Hbase : stackedBase p
                    = sum_nums (map (raw d) (visible_below hiddenSeries yKeys' ki))).
    { rewrite Hb. unfold nth_num, stackedValues_after. rewrite Hs.
      rewrite list_lookup_fmap, Hd. reflexivity. }
    split; [assumption|].
    intros Htop. rewrite Hbase, Hv, (visibleYKeys_split ki Htop).
    rewrite (take_S_r _ _ key) by assumption.
    unfold visible_below, filter_index.
    rewrite filter_index_from_app. cbn [filter_index_from].
    rewrite Nat.add_0_l, length_take_le by (apply lookup_lt_Some in Hkey; lia).
    rewrite Hh. cbn [negb].
    rewrite map_app, sum_nums_app. f_equal.
    cbn [map]. rewrite sum_nums_cons. change (sum_nums []) with zero.
    now rewrite add_zero_r.
Qed.

Lemma allPoints_entry ki s :
  allPoints' !! ki = Some s ->
  exists key, yKeys' !! ki = Some key /\ s = series_entry' ki key.
Proof.
  rewrite allPoints_eq, list_lookup_imap.
  destruct (yKeys' !! ki) as [key|]; [|discriminate].
  cbv [fmap option_fmap option_map]. intros H. apply (inj Some) in H.
  exists key. split; [reflexivity | now symmetry].
Qed.

(** A hidden series keeps its slot in [allPoints] but has no points; the
    render pass draws the visible series only, each once. *)
Lemma hidden_series_not_drawn :
  (forall ki s, allPoints' !! ki = Some s ->
     index s = ki /\ hidden s = has' ki /\ (has' ki = true -> points s = [])) /\
  (forall s, s ∈ drawnSeries data yKey variant showXAxis showYAxis width height yAxisWidth
                  xAxisHeight hiddenSeries ->
     has' (index s) = false) /\
  (forall ki key, yKeys' !! ki = Some key -> has' ki = false ->
     exists s, s ∈ drawnSeries data yKey variant showXAxis showYAxis width height
                     yAxisWidth xAxisHeight hiddenSeries /\
       index s = ki /\ AreaChart.key s = key /\ length (points s) = length data).
Proof.
  assert (Hentry : forall ki s, allPoints' !! ki = Some s ->
            index s = ki /\ hidden s = has' ki /\ (has' ki = true -> points s = [])).
  { intros ki s H. apply allPoints_entry in H as (key & _ & ->).
    unfold series_entry. destruct (has' ki); cbn; repeat split; congruence. }
  split; [exact Hentry|]. split.
  - intros s Hs. unfold drawnSeries in Hs. apply list_elem_of_filter in Hs as [Hh Hs].
    assert (Hin : s ∈ allPoints').
    { revert Hs. destruct (isStacked yKey variant); intros Hs.
      - exact (proj1 (elem_of_reverse _ _) Hs).
      - exact Hs. }
    apply list_elem_of_lookup in Hin as [ki Hki].
    destruct (Hentry ki s Hki) as (Hi & Hhid & _). rewrite Hi, <- Hhid. exact Hh.
  - intros ki key Hkey Hvis. exists (series_entry' ki key).
    assert (Hlk : allPoints' !! ki = Some (series_entry' ki key)).
    { rewrite allPoints_eq, list_lookup_imap, Hkey. reflexivity. }
    assert (Hin : series_entry' ki key ∈ allPoints').
    { eapply list_elem_of_lookup_2. exact Hlk. }
    unfold series_entry in *. rewrite Hvis in *. cbn [index AreaChart.key points].
    split; [|split; [reflexivity | split; [reflexivity | apply getPoints_length]]].
    unfold drawnSeries. apply list_elem_of_filter. split; [reflexivity|].
    destruct (isStacked yKey variant); [exact (elem_of_reverse_2 _ _ Hin) | exact Hin].
Qed.

End Stacking.

(** ** Stacking (BarChart.renderBars) *)

Section BarStacking.

Import BarChart Spec.

Context (data : list item) (yKey : ykey) (variant : variant_t)
  (color_name : ChartUtils.palette_name)
  (rounded showXAxis showYAxis : bool)
  (barRadius width height barWidth gap yAxisWidth xAxisHeight : num)
  (animationProgress : num) (hiddenSeries : gset nat).

Local Abbreviation yKeys' := (yKeys yKey).
Local Abbreviation has' := (has hiddenSeries).
Local Abbreviation stacked_step' :=
  (stacked_step data yKey variant color_name rounded showXAxis showYAxis barRadius width
     height barWidth gap yAxisWidth xAxisHeight animationProgress hiddenSeries).
Local Abbreviation stacked_entry' :=
  (stacked_entry data yKey variant color_name rounded showXAxis showYAxis barRadius width
     height barWidth gap yAxisWidth xAxisHeight animationProgress hiddenSeries).
Local Abbreviation barHeight_of' :=
  (barHeight_of data yKey variant showXAxis height xAxisHeight animationProgress
     hiddenSeries).

Lemma map_state_stacked i item x lv l : forall pre,
  yKeys' = pre ++ l ->
  (map_state_from (stacked_step' i item x lv) (length pre) l
     (sum_nums (map (barHeight_of' item)
                  (filter_index (fun k => negb (has' k)) pre)))).1
  = imap (fun j key => stacked_entry' i item x lv (length pre + j) key) l.
Proof.
  induction l as [|key l IH]; intros pre Hk; [reflexivity|].
  cbn [map_state_from imap].
  assert (Hk' : yKeys' = (pre ++ [key]) ++ l) by (now rewrite <- app_assoc).
  assert (Htake : take (length pre) yKeys' = pre) by (rewrite Hk; apply take_app_length).
  specialize (IH (pre ++ [key]) Hk'). rewrite length_app in IH. cbn [length] in IH.
  replace (length pre + 1)%nat with (S (length pre)) in IH by lia.
  unfold filter_index in IH. rewrite filter_index_from_app in IH.
  cbn [filter_index_from] in IH. rewrite Nat.add_0_l in IH.
  unfold stacked_step at 1, stacked_entry at 1, visible_below.
  rewrite Nat.add_0_r, Htake.
  destruct (has' (length pre)) eqn:Hh; cbn [negb] in IH.
  - rewrite app_nil_r in IH. unfold filter_index.
    destruct (map_state_from _ _ _ _) as [bs s2] eqn:E.
    cbn [fst] in *. f_equal. rewrite IH.
    apply imap_ext. intros j k _. cbn. f_equal. lia.
  - rewrite map_app, sum_nums_app in IH. cbn [map] in IH.
    rewrite sum_nums_cons in IH. change (sum_nums []) with zero in IH.
    rewrite add_zero_r in IH. unfold filter_index. fold (barHeight_of' item key).
    destruct (map_state_from _ _ _ _) as [bs s2] eqn:E.
    cbn [fst] in *. f_equal. rewrite IH.
    apply imap_ext. intros j k _. cbn. f_equal. lia.
Qed.

(** A stacked bar accumulates bottom-up: the segment of a visible series
    stands on the heights of the visible series below it; a hidden series
    draws nothing and adds nothing. *)
Lemma bar_stacked_offset :
  variant = stacked -> isMultiSeries yKey = true ->
  forall i item, data !! i = Some item ->
    exists rects,
      renderBars data yKey variant color_name rounded showXAxis showYAxis barRadius width
        height barWidth gap yAxisWidth xAxisHeight animationProgress hiddenSeries !! i
      = Some rects /\
      length rects = length yKeys' /\
      forall ki key, yKeys' !! ki = Some key ->
        (has' ki = true -> rects !! ki = Some None) /\
        (has' ki = false ->
           exists r, rects !! ki = Some (Some r) /\
             rect_height r = barHeight_of' item key /\
             rect_y r
             = chartHeight showXAxis height xAxisHeight
               - sum_nums (map (barHeight_of' item)
                             (visible_below hiddenSeries yKeys' ki))
               - barHeight_of' item key).
Proof.
  intros Hv Hm i item Hi. unfold renderBars.
  rewrite list_lookup_imap, Hi. cbv [fmap option_fmap option_map].
  unfold isHorizontal. rewrite Hm.
  rewrite (bool_decide_eq_false_2 (variant = horizontal)) by (rewrite Hv; discriminate).
  rewrite (bool_decide_eq_true_2 (variant = stacked)) by assumption.
  cbn [andb]. unfold map_state.
  match goal with
  | |- context [map_state_from (stacked_step _ _ _ _ _ _ _ _ _ _ _ _ _ _ _ _ ?i ?it ?x ?lv)] =>
      pose proof (map_state_stacked i it x lv yKeys' [] eq_refl) as Heq
  end.
  cbn [length app] in Heq.
  change (sum_nums (map (barHeight_of' item) (filter_index (fun k => negb (has' k)) [])))
    with zero in Heq.
  eexists. split; [reflexivity|]. rewrite Heq.
  split; [apply length_imap|].
  intros ki key Hkey. rewrite list_lookup_imap, Hkey.
  cbv [fmap option_fmap option_map]. unfold stacked_entry.
  rewrite !Nat.add_0_l.
  destruct (has' ki); split; intros; try discriminate; [reflexivity|].
  eexists. split; [reflexivity|]. split; reflexivity.
Qed.

End BarStacking.

(** C5.  In stacked mode (variant stacked and more than one series), at
    every data index, the stackedBase of each visible series of the area
    chart is the sum of the raw values of the visible series below it, and
    at the topmost visible series stackedBase + value is the sum of the raw
    values of all visible series; a hidden series has no points and enters no
    sum.  The stacked bar chart accumulates in the same way, in pixels: each
    visible segment stands on the heights of the visible segments below it
    and a hidden series draws nothing. *)
Theorem stacked_base_is_sum_of_visible_below
    (data : list item) (yKey : ykey) (hiddenSeries : gset nat)
    (color_name : ChartUtils.palette_name) (rounded showXAxis showYAxis : bool)
    (width height yAxisWidth xAxisHeight barRadius barWidth gap animationProgress : num) :
  let yKeys := AreaChart.yKeys yKey in
  let has i := bool_decide (i ∈ hiddenSeries) in
  let allPoints :=
    AreaChart.allPoints data yKey AreaChart.stacked showXAxis showYAxis width height
      yAxisWidth xAxisHeight hiddenSeries in
  let renderBars :=
    BarChart.renderBars data yKey BarChart.stacked color_name rounded showXAxis showYAxis
      barRadius width height barWidth gap yAxisWidth xAxisHeight animationProgress
      hiddenSeries in
  let barHeight_of :=
    Spec.barHeight_of data yKey BarChart.stacked showXAxis height xAxisHeight
      animationProgress hiddenSeries in
  (1 < length yKeys)%nat ->
  (length allPoints = length yKeys /\
   forall ki s, allPoints !! ki = Some s ->
     AreaChart.index s = ki /\ AreaChart.hidden s = has ki /\
     (has ki = true -> AreaChart.points s = []) /\
     (has ki = false ->
        length (AreaChart.points s) = length data /\
        forall i p, AreaChart.points s !! i = Some p ->
          exists d key, data !! i = Some d /\ yKeys !! ki = Some key /\
            AreaChart.value p = Spec.raw d key /\
            AreaChart.stackedBase p
            = Spec.sum_nums (map (Spec.raw d) (Spec.visible_below hiddenSeries yKeys ki)) /\
            ((forall kj, (ki < kj < length yKeys)%nat -> has kj = true) ->
             AreaChart.stackedBase p + AreaChart.value p
             = Spec.sum_nums (map (Spec.raw d) (AreaChart.visibleYKeys yKey hiddenSeries)))))
  /\
  (forall i item, data !! i = Some item ->
     exists rects,
       renderBars !! i = Some rects /\
       length rects = length yKeys /\
       forall ki key, yKeys !! ki = Some key ->
         (has ki = true -> rects !! ki = Some None) /\
         (has ki = false ->
            exists r, rects !! ki = Some (Some r) /\
              BarChart.rect_height r = barHeight_of item key /\
              BarChart.rect_y r
              = BarChart.chartHeight showXAxis height xAxisHeight
                - Spec.sum_nums (map (barHeight_of item)
                                   (Spec.visible_below hiddenSeries yKeys ki))
                - barHeight_of item key)).
Proof.
  intros yKeys has allPoints renderBars barHeight_of Hmulti.
  assert (Hm : (1 <? length yKeys)%nat = true) by (apply Nat.ltb_lt; exact Hmulti).
  split.
  - apply area_stacked_base. unfold AreaChart.isStacked, AreaChart.isMultiSeries.
    fold yKeys. rewrite Hm. now rewrite bool_decide_eq_true_2.
  - apply bar_stacked_offset; [reflexivity | exact Hm].
Qed.

(** ** Pie slices *)

Section MapState.

Context {A B St : Type} (f : nat -> A -> St -> B * St).

Lemma map_state_from_length l : forall i s,
  length (map_state_from f i l s).1 = length l.
Proof.
  induction l as [|a l IH]; intros i s; [reflexivity|].
  cbn [map_state_from]. destruct (f i a s) as [b s1].
  specialize (IH (S i) s1). destruct (map_state_from f (S i) l s1) as [bs s2].
  cbn [fst length] in *. now rewrite IH.
Qed.

(** The element produced at position [j] is the callback applied to the
    state left by the first [j] elements. *)
Lemma map_state_from_lookup l : forall i s j a,
  l !! j = Some a ->
  (map_state_from f i l s).1 !! j
  = Some (f (i + j)%nat a (map_state_from f i (take j l) s).2).1.
Proof.
  induction l as [|a0 l IH]; intros i s j a Hj; [discriminate|].
  destruct j as [|j].
  - cbn in Hj. apply (inj Some) in Hj. subst a0.
    cbn [map_state_from take snd]. rewrite Nat.add_0_r.
    destruct (f i a s) as [b s1]. destruct (map_state_from f (S i) l s1) as [bs s2].
    reflexivity.
  - cbn in Hj. cbn [map_state_from take].
    destruct (f i a0 s) as [b s1].
    specialize (IH (S i) s1 j a Hj).
    destruct (map_state_from f (S i) l s1) as [bs s2].
    destruct (map_state_from f (S i) (take j l) s1) as [bs' s2'].
    cbn [fst snd] in *. rewrite lookup_cons. rewrite IH.
    replace (S i + j)%nat with (i + S j)%nat by lia. reflexivity.
Qed.

End MapState.

Section PieSlices.

Import PieChart Spec.

Context (data : list item) (valueKey : string) (variant : variant_t)
  (color_name : ChartUtils.palette_name)
  (donutWidth width height : num)
  (showLegend : bool) (legendPosition : position)
  (animationProgress : num) (hiddenSlices : gset nat).

Local Abbreviation has' := (has hiddenSlices).
Local Abbreviation total' := (total data valueKey hiddenSlices).
Local Abbreviation slice_step' :=
  (slice_step data valueKey variant color_name donutWidth width height showLegend
     legendPosition animationProgress hiddenSlices).
Local Abbreviation slices' :=
  (slices data valueKey variant color_name donutWidth width height showLegend
     legendPosition animationProgress hiddenSlices).
Local Abbreviation drawnSlices' :=
  (drawnSlices data valueKey variant color_name donutWidth width height showLegend
     legendPosition animationProgress hiddenSlices).
Local Abbreviation slice_angle' :=
  (slice_angle data valueKey variant animationProgress hiddenSlices).
Local Abbreviation angle_before' :=
  (angle_before data valueKey variant animationProgress hiddenSlices).

(** [currentAngle] after a run of the callback over [l]. *)
Lemma slice_state mv l : forall i a,
  (map_state_from (slice_step' mv) i l a).2
  = foldl add a
      (map (fun d => slice_angle' (raw d valueKey))
         (filter_index_from (fun k => negb (has' k)) i l)).
Proof.
  induction l as [|d l IH]; intros i a; [reflexivity|].
  cbn [map_state_from filter_index_from].
  unfold slice_step at 1.
  destruct (has' i) eqn:Hh; cbn [negb].
  - specialize (IH (S i) a).
    destruct (map_state_from (slice_step' mv) (S i) l a) as [bs s2]. exact IH.
  - match goal with
    | |- context [map_state_from _ (S i) l ?a'] => specialize (IH (S i) a')
    end.
    destruct (map_state_from (slice_step' mv) (S i) l _) as [bs s2].
    cbn [snd map foldl] in *. rewrite IH. reflexivity.
Qed.

Lemma slices_lookup k sl :
  slices' !! k = Some sl ->
  exists d mv, data !! k = Some d /\ sl = (slice_step' mv k d (angle_before' k)).1.
Proof.
  unfold slices, map_state. intros H.
  destruct (data !! k) as [d|] eqn:Hd.
  - rewrite (map_state_from_lookup _ _ _ _ _ d Hd) in H.
    apply (inj Some) in H. subst sl. rewrite slice_state.
    eexists d, _. split; [reflexivity|]. reflexivity.
  - apply lookup_ge_None in Hd. apply lookup_lt_Some in H.
    rewrite map_state_from_length in H. lia.
Qed.

Lemma angle_before_S k d :
  data !! k = Some d ->
  angle_before' (S k)
  = if has' k then angle_before' k
    else angle_before' k + slice_angle' (raw d valueKey).
Proof.
  intros Hd. unfold angle_before, filter_index.
  rewrite (take_S_r _ _ d) by assumption.
  rewrite filter_index_from_app. cbn [filter_index_from].
  rewrite Nat.add_0_l, length_take_le by (apply lookup_lt_Some in Hd; lia).
  destruct (has' k); cbn [negb].
  - now rewrite app_nil_r.
  - now rewrite map_app, foldl_app.
Qed.

(** Every slice starts at the angle reached before it and ends at the
    angle reached after it; a hidden slice has a zero span. *)
Lemma slice_angles k sl :
  slices' !! k = Some sl ->
  hidden sl = has' k /\
  startAngle sl = angle_before' k /\
  endAngle sl = angle_before' (S k) /\
  (hidden sl = true -> endAngle sl = startAngle sl) /\
  (hidden sl = false ->
     exists d, data !! k = Some d /\ value sl = raw d valueKey /\
        endAngle sl = startAngle sl + slice_angle' (value sl)).
Proof.
  intros H. apply slices_lookup in H as (d & mv & Hd & ->).
  rewrite (angle_before_S k d Hd). unfold slice_step.
  destruct (has' k); cbn [fst hidden startAngle endAngle value].
  - repeat split; try reflexivity. discriminate.
  - repeat split; try reflexivity; try discriminate.
    intros _. exists d. repeat split; try assumption.
Qed.

(** The colour of a slice depends on its index in the data only; a
    hidden slice has value 0, percentage 0 and is not drawn. *)
Lemma hidden_slices_not_drawn :
  (forall i s, slices' !! i = Some s ->
     hidden s = has' i /\
     color s = getSliceColor data color_name i /\
     (has' i = true -> value s = zero /\ percentage s = zero /\ endAngle s = startAngle s)) /\
  (forall s, s ∈ drawnSlices' -> hidden s = false).
Proof.
  split.
  - intros i s H. apply slices_lookup in H as (d & mv & Hd & ->).
    unfold slice_step. destruct (has' i); cbn; repeat split; congruence.
  - intros s Hs. unfold drawnSlices in Hs. now apply list_elem_of_filter in Hs as [Hh _].
Qed.

Lemma chained_of_lookup (A : nat -> num) (l : list slice) : forall i,
  (forall j s, l !! j = Some s ->
     startAngle s = A (i + j)%nat /\ endAngle s = A (i + S j)%nat) ->
  chained (A i) l.
Proof.
  induction l as [|s l IH]; intros i H; [exact I|].
  destruct (H 0%nat s eq_refl) as [Hs He]. rewrite Nat.add_0_r in Hs.
  split; [assumption|]. rewrite He. replace (i + 1)%nat with (S i) by lia.
  apply IH. intros j s' Hj. specialize (H (S j) s' Hj).
  replace (S i + j)%nat with (i + S j)%nat by lia.
  replace (S i + S j)%nat with (i + S (S j))%nat by lia. exact H.
Qed.

Lemma chain_end_cons a s l : chain_end a (s :: l) = chain_end (endAngle s) l.
Proof.
  unfold chain_end. destruct l as [|s' l]; [reflexivity|].
  rewrite last_cons_cons.
  destruct (last (s' :: l)) eqn:E; [reflexivity|].
  apply last_None in E. discriminate E.
Qed.

(** Dropping the zero-span slices of a chain leaves a chain with the
    same ends. *)
Lemma chained_filter (l : list slice) : forall a,
  chained a l ->
  (forall s, s ∈ l -> hidden s = true -> endAngle s = startAngle s) ->
  chained a (filter (fun s => hidden s = false) l) /\
  chain_end a (filter (fun s => hidden s = false) l) = chain_end a l.
Proof.
  induction l as [|s l IH]; intros a Hc Hz; [split; [exact I | reflexivity]|].
  destruct Hc as [Hs Hc].
  assert (Hz' : forall s', s' ∈ l -> hidden s' = true -> endAngle s' = startAngle s').
  { intros s' Hin. apply Hz. now apply list_elem_of_further. }
  destruct (IH _ Hc Hz') as [IHc IHe].
  rewrite chain_end_cons.
  destruct (hidden s) eqn:Hh.
  - rewrite filter_cons_False by (rewrite Hh; discriminate).
    assert (He : endAngle s = a).
    { rewrite <- Hs. apply Hz; [apply list_elem_of_here | assumption]. }
    rewrite He in *. split; assumption.
  - rewrite filter_cons_True by assumption.
    rewrite chain_end_cons. split; [split; assumption | assumption].
Qed.

Lemma chained_lookup (l : list slice) : forall a,
  chained a l ->
  (forall s, l !! 0%nat = Some s -> startAngle s = a) /\
  (forall j s s', l !! j = Some s -> l !! S j = Some s' -> startAngle s' = endAngle s).
Proof.
  induction l as [|s0 l IH]; intros a Hc; [split; intros; discriminate|].
  destruct Hc as [Hs Hc]. destruct (IH _ Hc) as [IH0 IHS].
  split.
  - intros s H. cbn in H. apply (inj Some) in H. now subst s.
  - intros [|j] s s' Hj HSj; cbn in Hj, HSj.
    + apply (inj Some) in Hj. subst s. now apply IH0.
    + eapply IHS; eassumption.
Qed.

Lemma slices_chained : chained (startAngle0 variant) slices'.
Proof.
  change (startAngle0 variant) with (angle_before' 0).
  apply chained_of_lookup. intros j s Hj.
  apply slice_angles in Hj as (_ & Hs & He & _). now split.
Qed.

Lemma slices_length : length slices' = length data.
Proof. unfold slices, map_state. apply map_state_from_length. Qed.

Lemma slices_chain_end : chain_end (startAngle0 variant) slices' = angle_before' (length data).
Proof.
  unfold chain_end. rewrite last_lookup, slices_length.
  destruct (slices' !! Nat.pred (length data)) as [s|] eqn:Hs.
  - pose proof (lookup_lt_Some _ _ _ Hs) as Hlt. rewrite slices_length in Hlt.
    apply slice_angles in Hs as (_ & _ & He & _). rewrite He. f_equal. lia.
  - apply lookup_ge_None in Hs. rewrite slices_length in Hs.
    assert (Hd : length data = 0%nat) by lia. rewrite Hd.
    unfold angle_before. rewrite take_0. reflexivity.
Qed.

End PieSlices.

Section PieNumeric.

Import PieChart Spec.

Context (data : list item) (valueKey : string) (variant : variant_t)
  (color_name : ChartUtils.palette_name)
  (donutWidth width height : num)
  (showLegend : bool) (legendPosition : position)
  (hiddenSlices : gset nat) (t : Qc).

Hypothesis Htotal : total data valueKey hiddenSlices = Fin t.
Hypothesis Ht : (0 < t)%Qc.

Local Abbreviation has' := (has hiddenSlices).
Local Abbreviation slices' :=
  (slices data valueKey variant color_name donutWidth width height showLegend
     legendPosition one hiddenSlices).
Local Abbreviation drawnSlices' :=
  (drawnSlices data valueKey variant color_name donutWidth width height showLegend
     legendPosition one hiddenSlices).
Local Abbreviation slice_angle' := (slice_angle data valueKey variant one hiddenSlices).
Local Abbreviation angle_before' := (angle_before data valueKey variant one hiddenSlices).

Lemma totalAngle_finite : finite (totalAngle variant).
Proof. destruct variant; reflexivity. Qed.

Lemma startAngle0_finite : finite (startAngle0 variant).
Proof. destruct variant; reflexivity. Qed.

Lemma t_neq_0 : t <> 0%Qc.
Proof. intros ->. now apply Qclt_not_eq in Ht. Qed.

Lemma slice_angle_fin q :
  slice_angle' (Fin q) = Fin (q / t * qval (totalAngle variant) * 1)%Qc.
Proof.
  unfold slice_angle. rewrite Htotal.
  replace (gt (Fin t) zero) with true
    by (symmetry; apply qlt_true; exact Ht).
  rewrite div_fin by apply t_neq_0.
  rewrite (finite_inv _ totalAngle_finite). reflexivity.
Qed.

Lemma total_as_foldl :
  total data valueKey hiddenSlices
  = foldl add zero (map (fun d => raw d valueKey) (visibleData data hiddenSlices)).
Proof.
  unfold total. symmetry.
  exact (foldl_fmap add zero (visibleData data hiddenSlices)
           (fun d => or0 (get d valueKey))).
Qed.

Lemma visible_values_finite :
  Forall finite (map (fun d => raw d valueKey) (visibleData data hiddenSlices)).
Proof.
  assert (Hf : finite (foldl add zero
              (map (fun d => raw d valueKey) (visibleData data hiddenSlices))))
    by (rewrite <- total_as_foldl, Htotal; reflexivity).
  now apply foldl_add_inv in Hf as [_ Hf].
Qed.

Lemma visible_values_sum :
  qsum (map qval (map (fun d => raw d valueKey) (visibleData data hiddenSlices))) = t.
Proof.
  pose proof Htotal as H. rewrite total_as_foldl in H.
  rewrite (foldl_add_qval _ zero eq_refl visible_values_finite) in H.
  assert (H' : qval (Fin (qval zero + qsum (map qval
                 (map (fun d => raw d valueKey) (visibleData data hiddenSlices))))%Qc)
               = qval (Fin t)) by (now rewrite H).
  cbn [qval] in H'. unfold zero in H'. cbn [qval] in H'.
  now rewrite Qcplus_0_l in H'.
Qed.

Lemma slice_angle_finite v : finite v -> finite (slice_angle' v).
Proof. intros Hv. rewrite (finite_inv v Hv), slice_angle_fin. reflexivity. Qed.

Lemma qsum_slice_angles l :
  Forall finite l ->
  qsum (map qval (map slice_angle' l))
  = (qsum (map qval l) / t * qval (totalAngle variant))%Qc.
Proof.
  pose proof t_neq_0 as Hne. apply Qc_neq_0 in Hne.
  induction 1 as [|v l Hv Hl IH]; cbn [map qsum foldr].
  - apply Qc_is_canon. qc_push. field. assumption.
  - fold (qsum (map qval (map slice_angle' l))). fold (qsum (map qval l)).
    rewrite IH. rewrite (finite_inv v Hv) at 1. rewrite slice_angle_fin.
    cbn [qval]. apply Qc_is_canon. qc_push. field. assumption.
Qed.

Lemma visible_prefix_finite k :
  Forall finite
    (map (fun d => raw d valueKey)
       (filter_index (fun i => negb (has' i)) (take k data))).
Proof.
  pose proof visible_values_finite as H. unfold visibleData, filter_index in H.
  rewrite <- (take_drop k data) in H at 1.
  rewrite filter_index_from_app, map_app in H.
  now apply Forall_app in H as [H _].
Qed.

Lemma angle_before_finite k : finite (angle_before' k).
Proof.
  unfold angle_before.
  rewrite foldl_add_qval; [reflexivity | apply startAngle0_finite |].
  rewrite <- (map_map (fun d => raw d valueKey) slice_angle').
  apply Forall_map. eapply Forall_impl; [apply visible_prefix_finite|].
  intros v Hv. now apply slice_angle_finite.
Qed.

(** With the animation complete the angles reach the full sweep. *)
Lemma angle_before_all :
  angle_before' (length data) = startAngle0 variant + totalAngle variant.
Proof.
  unfold angle_before. rewrite firstn_all.
  change (filter_index (fun i => negb (has' i)) data)
    with (visibleData data hiddenSlices).
  rewrite <- (map_map (fun d => raw d valueKey) slice_angle').
  rewrite foldl_add_qval.
  - rewrite (qsum_slice_angles _ visible_values_finite), visible_values_sum.
    rewrite (finite_inv _ startAngle0_finite) at 2.
    rewrite (finite_inv _ totalAngle_finite) at 2.
    change (Fin ?a + Fin ?b) with (Fin (a + b)). f_equal. f_equal.
    pose proof t_neq_0 as Hne. apply Qc_neq_0 in Hne.
    apply Qc_is_canon. qc_push. field. assumption.
  - apply startAngle0_finite.
  - apply Forall_map. eapply Forall_impl; [apply visible_values_finite|].
    intros v Hv. now apply slice_angle_finite.
Qed.

Lemma chained_span_sum (l : list slice) : forall a,
  finite a -> chained a l -> Forall (fun s => finite (endAngle s)) l ->
  sum_nums (map span l) = chain_end a l - a /\ finite (chain_end a l).
Proof.
  induction l as [|s l IH]; intros a Ha Hc Hf.
  - split; [|exact Ha]. rewrite (finite_inv a Ha). cbn. f_equal.
    now rewrite Qcplus_opp_r.
  - destruct Hc as [Hs Hc]. apply Forall_cons in Hf as [He Hl].
    destruct (IH _ He Hc Hl) as [IHs IHf].
    rewrite chain_end_cons. split; [|assumption].
    cbn [map]. rewrite sum_nums_cons, IHs. unfold span. rewrite Hs.
    destruct (chain_end (endAngle s) l) as [f| | |]; try discriminate.
    destruct (endAngle s) as [e| | |]; try discriminate.
    destruct a as [c| | |]; try discriminate.
    cbn. f_equal. ring.
Qed.

Lemma drawn_chained :
  chained (startAngle0 variant) drawnSlices' /\
  chain_end (startAngle0 variant) drawnSlices'
  = startAngle0 variant + totalAngle variant.
Proof.
  unfold drawnSlices.
  destruct (chained_filter slices' (startAngle0 variant)) as [Hc He].
  - apply slices_chained.
  - intros s Hin Hh. apply list_elem_of_lookup in Hin as [k Hk].
    apply slice_angles in Hk as (_ & _ & _ & Hz & _). now apply Hz.
  - split; [exact Hc|]. rewrite He, slices_chain_end. apply angle_before_all.
Qed.

Lemma drawn_ends_finite : Forall (fun s => finite (endAngle s)) drawnSlices'.
Proof.
  apply Forall_forall. intros s Hin. unfold drawnSlices in Hin.
  apply list_elem_of_filter in Hin as [_ Hin].
  apply list_elem_of_lookup in Hin as [k Hk].
  apply slice_angles in Hk as (_ & _ & He & _). rewrite He.
  apply angle_before_finite.
Qed.

Lemma totalAngle_pos : (0 < qval (totalAngle variant))%Qc.
Proof. destruct variant; vm_compute; reflexivity. Qed.

Lemma slice_angle_finite_inv v : finite (slice_angle' v) -> finite v.
Proof.
  destruct v as [q| | |]; [reflexivity| | |]; unfold slice_angle; rewrite Htotal;
    replace (gt (Fin t) zero) with true by (symmetry; apply qlt_true; exact Ht);
    rewrite (finite_inv _ totalAngle_finite); cbn;
    try discriminate.
  - destruct (qlt t 0); cbn; destruct (qval (totalAngle variant) ?= 0)%Qc; discriminate.
  - destruct (qlt t 0); cbn; destruct (qval (totalAngle variant) ?= 0)%Qc; discriminate.
Qed.

(** A drawn slice of non-negative value does not end before it starts. *)
Lemma span_nonneg k s :
  slices' !! k = Some s -> hidden s = false -> le zero (value s) = true ->
  le (startAngle s) (endAngle s) = true.
Proof.
  intros Hk Hv Hpos.
  pose proof (slice_angles _ _ _ _ _ _ _ _ _ _ _ _ _ Hk) as (_ & Hs & He & _ & Hvis).
  destruct (Hvis Hv) as (d & _ & _ & Hend).
  pose proof (angle_before_finite k) as Hfs. rewrite <- Hs in Hfs.
  pose proof (angle_before_finite (S k)) as Hfe. rewrite <- He, Hend in Hfe.
  apply add_finite_inv in Hfe as [_ Hfa]. apply slice_angle_finite_inv in Hfa.
  rewrite Hend, (finite_inv _ Hfs). rewrite (finite_inv _ Hfa) in Hpos |- *.
  rewrite slice_angle_fin. cbn in Hpos |- *.
  apply qle_true in Hpos. apply qle_true.
  pose proof totalAngle_pos as HT. pose proof Ht as Ht'.
  unfold Qcle, Qclt in *. revert Hpos HT Ht'. qc_push.
  generalize (this (qval (startAngle s))) (this (qval (value s)))
             (this (qval (totalAngle variant))) (this t).
  intros c q T t0 Hq HT Ht0.
  assert (Ha : (0 <= q / t0 * T * 1)%Q).
  { repeat apply Qmult_le_0_compat; try lra.
    apply Qinv_le_0_compat. lra. }
  lra.
Qed.

End PieNumeric.

(** C8.  The pie chart of two equal values 50 and 50, nothing hidden,
    animation complete, default variant: slice 0 spans from -90 to 90
    degrees (-pi/2 to pi/2), slice 1 from 90 to 270 degrees (pi/2 to 3*pi/2),
    and each slice is 50 percent; this holds for every palette, size and
    legend layout. *)
Theorem pie_two_equal_slices
    (color_name : ChartUtils.palette_name) (donutWidth width height : num)
    (showLegend : bool) (legendPosition : PieChart.position) :
  let slices :=
    PieChart.slices Examples.pie_5050 "value" PieChart.default color_name donutWidth
      width height showLegend legendPosition one ∅ in
  map PieChart.hidden slices = [false; false] /\
  map PieChart.startAngle slices
  = [(- Math_PI) / lit 2 1; Math_PI / lit 2 1] /\
  map PieChart.endAngle slices
  = [Math_PI / lit 2 1; lit 3 1 * Math_PI / lit 2 1] /\
  map (fun s => Spec.to_degrees (PieChart.startAngle s)) slices
  = [- lit 90 1; lit 90 1] /\
  map (fun s => Spec.to_degrees (PieChart.endAngle s)) slices
  = [lit 90 1; lit 270 1] /\
  map PieChart.percentage slices = [lit 50 1; lit 50 1].
Proof.
  cbv zeta. repeat split; compute_done.
Qed.

(** Witness of C1: the curve through the three points of [months]. *)
Lemma curved_path_witness :
  AreaChart.curved <> AreaChart.stepped /\
  AreaChart.visiblePoints one Examples.month_points = Examples.month_points /\
  (3 <= length Examples.month_points)%nat /\
  (forall p, p ∈ Examples.month_points -> Spec.finite (AreaChart.x p)) /\
  exists tangents path,
    AreaChart.tangents_of Examples.month_points = Some tangents /\
    AreaChart.generateLinePath AreaChart.curved one Examples.month_points true
    = Some path /\
    length path = 3%nat.
Proof.
  assert (H1 : AreaChart.curved <> AreaChart.stepped) by discriminate.
  assert (H2 : AreaChart.visiblePoints one Examples.month_points = Examples.month_points)
    by (vm_compute; reflexivity).
  assert (H3 : (3 <= length Examples.month_points)%nat) by (vm_compute; lia).
  assert (H4 : forall p, p ∈ Examples.month_points -> Spec.finite (AreaChart.x p)).
  { apply Forall_forall. repeat constructor. }
  repeat (split; [assumption|]).
  destruct (curved_path_monotone_cubic AreaChart.curved one Examples.month_points
              Examples.month_points H1 H2 H3 H4)
    as (tangents & path & Ht & Hp & _ & Hl & _).
  exists tangents, path. repeat split; assumption.
Defined.

(** Witness of C4: a pointer at x = 180 over [months] in a chart of width
    300 with a y axis of width 50. *)

(** Witness of C5: two stacked series. *)
Lemma stacked_base_witness :
  (1 < length (AreaChart.yKeys (YArray ["a"; "b"]%string)))%nat /\
  length (AreaChart.allPoints Examples.two_series (YArray ["a"; "b"]%string)
            AreaChart.stacked true true (lit 300 1) (lit 150 1) (lit 50 1) (lit 30 1) ∅)
  = 2%nat.
Proof.
  assert (H1 : (1 < length (AreaChart.yKeys (YArray ["a"; "b"]%string)))%nat)
    by (simpl; lia).
  split; [exact H1|].
  apply (stacked_base_is_sum_of_visible_below Examples.two_series
           (YArray ["a"; "b"]%string) ∅ ChartUtils.violet true true true
           (lit 300 1) (lit 150 1) (lit 50 1) (lit 30 1) (lit 4 1) (lit 7 10) (lit 1 10)
           one H1).
Defined.

(** ** Degenerate inputs *)

(** C2.  SparklineChart maps the index to x by dividing by
    [data.length - 1], without the guard max(n-1, 1) of AreaChart.getPoints:
    for every one-element data array, whatever the value and the size, the
    x of the single point is (0 / 0) * width = NaN, and the line path of the
    default sparkline of width 100 and height 30 on the data [5] moves to a
    NaN x.  AreaChart.getPoints, which has the guard, puts the single point
    of a one-item data array at chartX. *)
Theorem sparkline_single_point_x_is_NaN (v width height : num) :
  map SparklineChart.x (SparklineChart.points [v] width height) = [NaN] /\
  SparklineChart.render [lit 5 1] SparklineChart.default false (lit 100 1) (lit 30 1) one
  = Some (SparklineChart.Lines None [M NaN (lit 27 1)]) /\
  map AreaChart.x
    (AreaChart.getPoints [ {[ "value"%string := VNum (lit 5 1) ]} ] (YString "value")
       AreaChart.curved true true (lit 400 1) (lit 300 1) (lit 50 1) (lit 30 1) ∅
       "value" None)
  = [lit 50 1].
Proof.
  split; [|split].
  - reflexivity.
  - compute_done.
  - compute_done.
Qed.

(** C3.  AreaChart has no guard for a zero value range: on all-zero data
    (default size 400 x 300, one series) maxValue is 0 * 1.1 = 0, so
    valueRange is 0 and every y is chartY + chartHeight - (0 / 0) *
    chartHeight = NaN, which the line path then carries; the bar heights
    of BarChart on the same data are NaN as well.  SparklineChart, whose
    range is guarded by [|| 1], maps the same values to the finite y 27. *)
Theorem area_all_zero_y_is_NaN :
  let points :=
    AreaChart.getPoints Examples.zeros (YString "value") AreaChart.curved true true
      (lit 400 1) (lit 300 1) (lit 50 1) (lit 30 1) ∅ "value" None in
  AreaChart.maxValue Examples.zeros (YString "value") AreaChart.curved ∅ = zero /\
  AreaChart.valueRange Examples.zeros (YString "value") AreaChart.curved ∅ = zero /\
  map AreaChart.y points = [NaN; NaN; NaN] /\
  AreaChart.generateLinePath AreaChart.straight one points false
  = Some [M (lit 50 1) NaN; L (lit 225 1) NaN; L (lit 400 1) NaN] /\
  map (map (fun r => BarChart.rect_height <$> r))
    (BarChart.renderBars Examples.zeros (YString "value") BarChart.default
       ChartUtils.violet true true true (lit 4 1) (lit 400 1) (lit 300 1) (lit 7 10)
       (lit 1 10) (lit 50 1) (lit 30 1) one ∅)
  = [[Some NaN]; [Some NaN]; [Some NaN]] /\
  map SparklineChart.y (SparklineChart.points [zero; zero; zero] (lit 100 1) (lit 30 1))
  = [lit 27 1; lit 27 1; lit 27 1].
Proof.
  cbv zeta. repeat split; compute_done.
Qed.

(** C7.  On an empty data array the charts do not throw and plot nothing:
    AreaChart has no points, an empty line path and an empty area path,
    SparklineChart returns null.  But AreaChart and BarChart still draw
    their y axis (shown by default), and with no data maxValue is
    [Math.max()] = -Infinity, so every tick position is NaN. *)
Theorem empty_data_axis_ticks_are_NaN
    (yKey : ykey) (variant : AreaChart.variant_t) (showGrid showXAxis showYAxis : bool)
    (width height yAxisWidth xAxisHeight animationProgress : num)
    (hiddenSeries : gset nat) (key : string) (smooth : bool) :
  AreaChart.getPoints [] yKey variant showXAxis showYAxis width height yAxisWidth
    xAxisHeight hiddenSeries key None = [] /\
  AreaChart.generateLinePath variant animationProgress [] smooth = Some [] /\
  AreaChart.generateAreaPath [] yKey variant showXAxis height xAxisHeight animationProgress
    hiddenSeries [] None = Some [] /\
  (forall sparkVariant showArea,
     SparklineChart.render [] sparkVariant showArea width height animationProgress = None) /\
  AreaChart.maxValue [] yKey variant hiddenSeries = NInf /\
  (exists ticks,
     AreaChart.renderYAxis [] yKey variant showGrid showXAxis true height xAxisHeight
       hiddenSeries = Some ticks /\
     map AreaChart.text_y ticks = [NaN; NaN; NaN; NaN; NaN] /\
     map AreaChart.line_y ticks
     = if showGrid then [Some NaN; Some NaN; Some NaN; Some NaN; Some NaN]
       else [None; None; None; None; None]) /\
  (exists ticks,
     BarChart.renderYAxis [] yKey BarChart.default showGrid showXAxis true width height
       (lit 1 10) yAxisWidth xAxisHeight hiddenSeries
     = Some (BarChart.ValueTicks ticks) /\
     map BarChart.text_y ticks = [NaN; NaN; NaN; NaN; NaN]).
Proof.
  assert (Hmax : AreaChart.maxValue [] yKey variant hiddenSeries = NInf).
  { unfold AreaChart.maxValue. destruct (AreaChart.isStacked yKey variant); reflexivity. }
  split; [reflexivity|]. split; [reflexivity|]. split; [reflexivity|].
  split; [reflexivity|]. split; [exact Hmax|].
  split.
  - eexists. split; [reflexivity|].
    unfold AreaChart.tickValues, AreaChart.valueRange. rewrite Hmax.
    generalize (AreaChart.chartHeight showXAxis height xAxisHeight). intros ch.
    split.
    + destruct ch; reflexivity.
    + destruct showGrid, ch; reflexivity.
  - eexists. split; [reflexivity|].
    assert (Hb : BarChart.maxValue [] yKey BarChart.default hiddenSeries = NInf)
      by reflexivity.
    unfold BarChart.tickValues. rewrite Hb.
    generalize (BarChart.chartHeight showXAxis height xAxisHeight). intros ch.
    destruct ch; reflexivity.
Qed.

(** ** Hidden series and slices *)

Section Hidden.

Import Spec.

Lemma map_Forall2_eq {A B} (f g : A -> B) l l' :
  Forall2 (fun a b => f a = g b) l l' -> map f l = map g l'.
Proof. induction 1 as [|a b l l' Hab _ IH]; [reflexivity|]. cbn. now rewrite Hab, IH. Qed.

Lemma flat_map_Forall2_eq {A B} (f g : A -> list B) l l' :
  Forall2 (fun a b => f a = g b) l l' -> flat_map f l = flat_map g l'.
Proof. induction 1 as [|a b l l' Hab _ IH]; [reflexivity|]. cbn. now rewrite Hab, IH. Qed.

Lemma foldl_add_ext_in (h h' : string -> num) keys : forall a,
  (forall k, k ∈ keys -> h k = h' k) ->
  foldl (fun sum k => sum + h k) a keys = foldl (fun sum k => sum + h' k) a keys.
Proof.
  induction keys as [|k keys IH]; intros a H; [reflexivity|].
  cbn [foldl]. rewrite (H k) by apply list_elem_of_here.
  apply IH. intros k' Hk'. apply H. now apply list_elem_of_further.
Qed.

Lemma map_ext_elem_of {A B} (h h' : A -> B) l :
  (forall k, k ∈ l -> h k = h' k) -> map h l = map h' l.
Proof.
  intros H. apply map_ext_in. intros k Hk. apply H. now apply list_elem_of_In.
Qed.

(** The maximum over the series of [keys] reads the data through
    [d[key] || 0] at these keys only. *)
Lemma max_over_keys_reads keys (stackedMode : bool) data data' :
  Forall2 (fun d d' => forall k, k ∈ keys -> raw d k = raw d' k) data data' ->
  (if stackedMode then
     Math_max (map (fun d => foldl (fun sum key => sum + or0 (get d key)) zero keys) data)
   else Math_max (flat_map (fun d => map (fun key => or0 (get d key)) keys) data))
  = (if stackedMode then
       Math_max (map (fun d => foldl (fun sum key => sum + or0 (get d key)) zero keys) data')
     else Math_max (flat_map (fun d => map (fun key => or0 (get d key)) keys) data')).
Proof.
  intros H. destruct stackedMode; f_equal.
  - apply map_Forall2_eq. eapply Forall2_impl; [exact H|].
    intros d d' Hd. cbn beta. apply foldl_add_ext_in. exact Hd.
  - apply flat_map_Forall2_eq. eapply Forall2_impl; [exact H|].
    intros d d' Hd. cbn beta. apply map_ext_elem_of. exact Hd.
Qed.

Lemma max_over_keys_agree keys (stackedMode : bool) data data' :
  agree_on keys data data' ->
  (if stackedMode then
     Math_max (map (fun d => foldl (fun sum key => sum + or0 (get d key)) zero keys) data)
   else Math_max (flat_map (fun d => map (fun key => or0 (get d key)) keys) data))
  = (if stackedMode then
       Math_max (map (fun d => foldl (fun sum key => sum + or0 (get d key)) zero keys) data')
     else Math_max (flat_map (fun d => map (fun key => or0 (get d key)) keys) data')).
Proof.
  intros H. apply max_over_keys_reads. eapply Forall2_impl; [exact H|].
  intros d d' Hd k Hk. unfold raw. now rewrite Hd.
Qed.

Lemma area_maxValue_agree data data' yKey variant hiddenSeries :
  AreaChart.visibleYKeys yKey hiddenSeries <> [] ->
  agree_on (AreaChart.visibleYKeys yKey hiddenSeries) data data' ->
  AreaChart.maxValue data yKey variant hiddenSeries
  = AreaChart.maxValue data' yKey variant hiddenSeries.
Proof.
  intros Hne H. unfold AreaChart.maxValue.
  destruct (AreaChart.visibleYKeys yKey hiddenSeries) as [|k ks] eqn:E; [congruence|].
  cbn [length Nat.ltb Nat.leb].
  pose proof (max_over_keys_agree (k :: ks) (AreaChart.isStacked yKey variant) _ _ H) as Hm.
  destruct (AreaChart.isStacked yKey variant); now rewrite Hm.
Qed.

Lemma bar_maxValue_agree data data' yKey variant hiddenSeries :
  BarChart.visibleYKeys yKey hiddenSeries <> [] ->
  agree_on (BarChart.visibleYKeys yKey hiddenSeries) data data' ->
  BarChart.maxValue data yKey variant hiddenSeries
  = BarChart.maxValue data' yKey variant hiddenSeries.
Proof.
  intros Hne H. unfold BarChart.maxValue.
  destruct (BarChart.visibleYKeys yKey hiddenSeries) as [|k ks] eqn:E; [congruence|].
  cbn [length Nat.ltb Nat.leb].
  exact (max_over_keys_agree (k :: ks) (bool_decide (variant = BarChart.stacked)) _ _ H).
Qed.

Lemma filter_index_from_agree {A} (f : nat -> bool) (l : list A) : forall l' i,
  length l = length l' ->
  (forall j, f (i + j)%nat = true -> l !! j = l' !! j) ->
  filter_index_from f i l = filter_index_from f i l'.
Proof.
  induction l as [|a l IH]; intros [|a' l'] i Hlen H; try discriminate; [reflexivity|].
  cbn [filter_index_from].
  assert (IH' : filter_index_from f (S i) l = filter_index_from f (S i) l').
  { apply IH; [cbn in Hlen; lia|]. intros j Hj.
    apply (H (S j)). now replace (i + S j)%nat with (S i + j)%nat by lia. }
  rewrite IH'. destruct (f i) eqn:Hf; [|reflexivity].
  f_equal. specialize (H 0%nat). rewrite Nat.add_0_r in H.
  specialize (H Hf). cbn in H. congruence.
Qed.

Lemma pie_total_agree data data' valueKey hiddenSlices :
  agree_outside hiddenSlices data data' ->
  PieChart.total data valueKey hiddenSlices = PieChart.total data' valueKey hiddenSlices.
Proof.
  intros [Hlen H]. unfold PieChart.total, PieChart.visibleData, filter_index.
  rewrite (filter_index_from_agree _ data data' 0 Hlen); [reflexivity|].
  intros j Hj. apply H. cbn in Hj. unfold PieChart.has in Hj.
  apply negb_true_iff, bool_decide_eq_false in Hj. exact Hj.
Qed.

End Hidden.

Section HiddenGeometry.

Import Spec.

Lemma area_legend_lookup yKey color_name hiddenSeries i key :
  AreaChart.yKeys yKey !! i = Some key ->
  AreaChart.legendItems yKey color_name hiddenSeries !! i
  = Some (AreaChart.mkLegend (AreaChart.getAreaColor yKey color_name i) key
            (bool_decide (i ∈ hiddenSeries))).
Proof.
  intros H. unfold AreaChart.legendItems. now rewrite list_lookup_imap, H.
Qed.

Lemma pie_legend_lookup data color_name hiddenSlices i d :
  data !! i = Some d ->
  PieChart.legendItems data color_name hiddenSlices !! i
  = Some (PieChart.mkLegend (PieChart.getSliceColor data color_name i)
            (bool_decide (i ∈ hiddenSlices))).
Proof.
  intros H. unfold PieChart.legendItems. now rewrite list_lookup_imap, H.
Qed.

(** Every group the render pass emits belongs to a visible series and is
    stroked with the colour of the original index of that series. *)
Lemma area_groups_colors data yKey variant color_name showLine showXAxis showYAxis
    width height yAxisWidth xAxisHeight animationProgress hiddenSeries groups :
  AreaChart.renderAreas data yKey variant color_name showLine showXAxis showYAxis width
    height yAxisWidth xAxisHeight animationProgress hiddenSeries = Some groups ->
  forall g, g ∈ groups ->
    g_index_visible hiddenSeries g /\
    AreaChart.g_stroke g = AreaChart.getAreaColor yKey color_name (AreaChart.g_index g).
Proof.
  unfold AreaChart.renderAreas. intros H g Hg.
  apply mapM_Some_1 in H.
  apply list_elem_of_lookup in Hg as [j Hj].
  destruct (Forall2_lookup_r _ _ _ _ _ H Hj) as (ap & Hap & Hbody).
  apply list_elem_of_lookup_2 in Hap.
  destruct (hidden_series_not_drawn data yKey variant showXAxis showYAxis width height
              yAxisWidth xAxisHeight hiddenSeries) as (_ & Hvis & _).
  specialize (Hvis ap Hap).
  cbv beta in Hbody.
  repeat match type of Hbody with
         | (?m ≫= _) = Some _ =>
             let E := fresh "E" in
             destruct m eqn:E; cbn [mbind option_bind] in Hbody; [|discriminate Hbody]
         end.
  apply (inj Some) in Hbody. subst g.
  split; [exact Hvis | reflexivity].
Qed.

End HiddenGeometry.


(** In a stacked area chart, hiding a series makes the fill of the series
    above it read the first base point of an empty list: the render pass
    throws. *)
Lemma stacked_area_with_hidden_series_throws :
  AreaChart.renderAreas Examples.two_series (YArray ["a"; "b"]%string) AreaChart.stacked
    ChartUtils.violet true true true (lit 400 1) (lit 300 1) (lit 50 1) (lit 30 1) one
    {[0%nat]}
  = None.
Proof. vm_compute. reflexivity. Qed.

(** ** Missing fields *)

Section MissingFields.

Import Spec.

Lemma raw_missing d k : missing (get d k) = true -> raw d k = zero.
Proof. unfold raw. destruct (get d k); [reflexivity | reflexivity | discriminate]. Qed.

Lemma get_insert d k v k' :
  get (<[k := v]> d) k' = if decide (k = k') then v else get d k'.
Proof.
  unfold get. rewrite lookup_insert. now destruct (decide (k = k')).
Qed.

Lemma raw_fill_missing keys d : same_reads d (fill_missing keys d).
Proof.
  intros k'. induction keys as [|k keys IH]; [reflexivity|].
  cbn [fill_missing foldr]. fold (fill_missing keys d).
  destruct (missing (get d k)) eqn:Hm; [|exact IH].
  unfold raw at 2. rewrite get_insert.
  destruct (decide (k = k')) as [<-|]; [|exact IH].
  now rewrite (raw_missing d k Hm).
Qed.

Lemma fill_missing_filled keys d k :
  k ∈ keys -> missing (get (fill_missing keys d) k) = false.
Proof.
  induction keys as [|k0 keys IH]; intros Hk; [inversion Hk|].
  cbn [fill_missing foldr]. fold (fill_missing keys d).
  destruct (decide (k0 = k)) as [->|Hne].
  - destruct (missing (get d k)) eqn:Hm.
    + rewrite get_insert. now rewrite decide_True.
    + destruct (decide (k ∈ keys)) as [Hin|Hnin]; [now apply IH|].
      clear IH Hk. induction keys as [|k1 keys IH']; [exact Hm|].
      cbn [fill_missing foldr]. fold (fill_missing keys d).
      apply not_elem_of_cons in Hnin as [Hne Hnin].
      destruct (missing (get d k1)); [|now apply IH'].
      rewrite get_insert, decide_False by congruence. now apply IH'.
  - apply elem_of_cons in Hk as [->|Hk]; [congruence|].
    destruct (missing (get d k0)); [|now apply IH].
    rewrite get_insert, decide_False by assumption. now apply IH.
Qed.

Lemma for_range_ext {St} n (body body' : nat -> St -> option St) s :
  (forall i st, body i st = body' i st) ->
  for_range n body s = for_range n body' s.
Proof.
  intros H. induction n as [|n IH]; [reflexivity|].
  rewrite !for_range_S, IH. destruct (for_range n body' s); [apply H | reflexivity].
Qed.

Lemma imap_Forall2_eq {A B} (R : A -> A -> Prop) (f g : nat -> A -> B) l l' :
  Forall2 R l l' -> (forall i a b, R a b -> f i a = g i b) -> imap f l = imap g l'.
Proof.
  intros H. revert f g. induction H as [|a b l l' Hab _ IH]; intros f g Hfg; [reflexivity|].
  cbn [imap]. rewrite (Hfg 0%nat a b Hab). f_equal.
  apply IH. intros i a' b' Hr. now apply Hfg.
Qed.

(** Reading the same index of two lists of like points. *)
Lemma bind_lookup_same {B} (vp vp' : list AreaChart.point) i
    (k k' : AreaChart.point -> option B) :
  Forall2 same_coords vp vp' ->
  (forall p p', same_coords p p' -> k p = k' p') ->
  (vp !! i ≫= k) = (vp' !! i ≫= k').
Proof.
  intros H Hk. pose proof (proj1 (Forall2_lookup _ _ _) H i) as Hi.
  destruct Hi as [p p' Hp|]; [now apply Hk | reflexivity].
Qed.

Lemma tangent_at_same vp vp' n i :
  Forall2 same_coords vp vp' ->
  AreaChart.tangent_at vp n i = AreaChart.tangent_at vp' n i.
Proof.
  intros H. unfold AreaChart.tangent_at.
  destruct (i =? 0)%nat; [|destruct (i =? n - 1)%nat].
  - apply bind_lookup_same; [exact H|]. intros p0 p0' (Hx0 & Hy0 & _).
    apply bind_lookup_same; [exact H|]. intros p1 p1' (Hx1 & Hy1 & _).
    now rewrite Hx0, Hy0, Hx1, Hy1.
  - apply bind_lookup_same; [exact H|]. intros p0 p0' (Hx0 & Hy0 & _).
    apply bind_lookup_same; [exact H|]. intros p1 p1' (Hx1 & Hy1 & _).
    now rewrite Hx0, Hy0, Hx1, Hy1.
  - apply bind_lookup_same; [exact H|]. intros p0 p0' (Hx0 & Hy0 & _).
    apply bind_lookup_same; [exact H|]. intros p1 p1' (Hx1 & Hy1 & _).
    apply bind_lookup_same; [exact H|]. intros p2 p2' (Hx2 & Hy2 & _).
    now rewrite Hx0, Hy0, Hx1, Hy1, Hx2, Hy2.
Qed.

Lemma visiblePoints_same animationProgress (l l' : list AreaChart.point) :
  Forall2 same_coords l l' ->
  Forall2 same_coords (AreaChart.visiblePoints animationProgress l)
    (AreaChart.visiblePoints animationProgress l').
Proof.
  intros H. unfold AreaChart.visiblePoints, slice0.
  rewrite <- (Forall2_length _ _ _ H). now apply Forall2_take.
Qed.

(** The line path reads only the x and y of the points. *)
Lemma generateLinePath_same variant animationProgress l l' smooth :
  Forall2 same_coords l l' ->
  AreaChart.generateLinePath variant animationProgress l smooth
  = AreaChart.generateLinePath variant animationProgress l' smooth.
Proof.
  intros H. pose proof (visiblePoints_same animationProgress l l' H) as Hvp.
  pose proof (Forall2_length _ _ _ H) as Hlen.
  pose proof (Forall2_length _ _ _ Hvp) as Hvlen.
  unfold AreaChart.generateLinePath, AreaChart.tangents_of.
  rewrite <- Hlen, <- Hvlen.
  destruct (length l <? 2)%nat; [reflexivity|].
  destruct (bool_decide (variant = AreaChart.stepped)).
  { apply bind_lookup_same; [exact Hvp|]. intros p0 p0' (Hx0 & Hy0 & _).
    rewrite Hx0, Hy0. apply for_range_ext. intros j st.
    apply bind_lookup_same; [exact Hvp|]. intros p p' (Hx & Hy & _).
    now rewrite Hx, Hy. }
  destruct (negb smooth).
  { f_equal. apply (imap_Forall2_eq same_coords); [exact Hvp|].
    intros i p p' (Hx & Hy & _). now rewrite Hx, Hy. }
  destruct (length (AreaChart.visiblePoints animationProgress l) <? 2)%nat; [reflexivity|].
  destruct (length (AreaChart.visiblePoints animationProgress l) =? 2)%nat.
  { apply bind_lookup_same; [exact Hvp|]. intros p0 p0' (Hx0 & Hy0 & _).
    apply bind_lookup_same; [exact Hvp|]. intros p1 p1' (Hx1 & Hy1 & _).
    now rewrite Hx0, Hy0, Hx1, Hy1. }
  rewrite (for_range_ext _ _
             (fun i tangents =>
                t ← AreaChart.tangent_at (AreaChart.visiblePoints animationProgress l')
                      (length (AreaChart.visiblePoints animationProgress l)) i;
                Some (tangents ++ [t]))).
  2: { intros i st. now rewrite (tangent_at_same _ _ _ i Hvp). }
  destruct (for_range _ _ []) as [tangents|]; [|reflexivity].
  cbn [mbind option_bind].
  apply bind_lookup_same; [exact Hvp|]. intros p0 p0' (Hx0 & Hy0 & _).
  rewrite Hx0, Hy0. apply for_range_ext. intros i st.
  unfold AreaChart.bezier_at.
  rewrite (bind_lookup_same _ _ i _
             (fun p0 => p1 ← AreaChart.visiblePoints animationProgress l' !! (i + 1)%nat;
                let dx := (AreaChart.x p1 - AreaChart.x p0) / lit 3 1 in
                Some (C (AreaChart.x p0 + dx)
                        (AreaChart.y p0 + nth_num tangents i * dx)
                        (AreaChart.x p1 - dx)
                        (AreaChart.y p1 - nth_num tangents (i + 1) * dx)
                        (AreaChart.x p1) (AreaChart.y p1))) Hvp); [reflexivity|].
  intros pa pa' (Hxa & Hya & _).
  apply bind_lookup_same; [exact Hvp|]. intros pb pb' (Hxb & Hyb & _).
  now rewrite Hxa, Hya, Hxb, Hyb.
Qed.

Lemma Forall2_imap_gen {A B} (R : A -> A -> Prop) (P : B -> B -> Prop)
    (f g : nat -> A -> B) l l' :
  Forall2 R l l' -> (forall i a b, R a b -> P (f i a) (g i b)) ->
  Forall2 P (imap f l) (imap g l').
Proof.
  intros H. revert f g. induction H as [|a b l l' Hab _ IH]; intros f g Hfg;
    [constructor|].
  cbn [imap]. constructor; [now apply Hfg|].
  apply IH. intros i a' b' Hr. now apply Hfg.
Qed.

Lemma area_maxValue_reads data data' yKey variant hiddenSeries :
  Forall2 same_reads data data' ->
  AreaChart.maxValue data yKey variant hiddenSeries
  = AreaChart.maxValue data' yKey variant hiddenSeries.
Proof.
  intros H. unfold AreaChart.maxValue.
  match goal with
  | |- context [if AreaChart.isStacked _ _ then Math_max (map _ data) * _ else _] =>
      match goal with
      | |- context [foldl _ zero ?keys] =>
          pose proof (max_over_keys_reads keys (AreaChart.isStacked yKey variant)
                        data data') as Hm
      end
  end.
  cbv zeta. destruct (AreaChart.isStacked yKey variant); rewrite Hm; try reflexivity;
    (eapply Forall2_impl; [exact H|]; intros d d' Hd k _; apply Hd).
Qed.

Lemma bar_maxValue_reads data data' yKey variant hiddenSeries :
  Forall2 same_reads data data' ->
  BarChart.maxValue data yKey variant hiddenSeries
  = BarChart.maxValue data' yKey variant hiddenSeries.
Proof.
  intros H. unfold BarChart.maxValue. cbv zeta.
  apply max_over_keys_reads.
  eapply Forall2_impl; [exact H|]. intros d d' Hd k _. apply Hd.
Qed.

Section AreaReads.

Import AreaChart.

Context (data data' : list item) (yKey : ykey) (variant : variant_t)
  (showXAxis showYAxis : bool)
  (width height yAxisWidth xAxisHeight : num)
  (hiddenSeries : gset nat).

Hypothesis Hreads : Forall2 same_reads data data'.

Lemma getPoints_same key sv :
  Forall2 same_coords
    (getPoints data yKey variant showXAxis showYAxis width height yAxisWidth xAxisHeight
       hiddenSeries key sv)
    (getPoints data' yKey variant showXAxis showYAxis width height yAxisWidth xAxisHeight
       hiddenSeries key sv).
Proof.
  unfold getPoints, valueRange.
  rewrite <- (area_maxValue_reads data data' yKey variant hiddenSeries Hreads).
  rewrite <- (Forall2_length _ _ _ Hreads).
  apply (Forall2_imap_gen same_reads); [exact Hreads|].
  intros i d d' Hd. unfold same_coords. cbn [x y value stackedBase].
  change (or0 (get d key)) with (raw d key).
  change (or0 (get d' key)) with (raw d' key).
  rewrite (Hd key). repeat split.
Qed.

Lemma stackedValues_after_same pre :
  stackedValues_after data yKey variant hiddenSeries pre
  = stackedValues_after data' yKey variant hiddenSeries pre.
Proof.
  unfold stackedValues_after. destruct (isStacked yKey variant).
  - apply map_Forall2_eq. eapply Forall2_impl; [exact Hreads|].
    intros d d' Hd. cbn beta. f_equal. apply map_ext. intros k. apply Hd.
  - apply map_Forall2_eq. eapply Forall2_impl; [exact Hreads|]. reflexivity.
Qed.

Lemma allPoints_same :
  Forall2 same_series
    (allPoints data yKey variant showXAxis showYAxis width height yAxisWidth xAxisHeight
       hiddenSeries)
    (allPoints data' yKey variant showXAxis showYAxis width height yAxisWidth xAxisHeight
       hiddenSeries).
Proof.
  rewrite !allPoints_eq.
  apply (Forall2_imap_gen eq);
    [apply Forall_Forall2_diag, Forall_forall; reflexivity|].
  intros ki key ? <-. unfold series_entry, same_series.
  destruct (has hiddenSeries ki); cbn [AreaChart.key index hidden points].
  - repeat split. constructor.
  - repeat split. rewrite stackedValues_after_same. apply getPoints_same.
Qed.

End AreaReads.

Lemma map_state_from_ext {A B St} (f g : nat -> A -> St -> B * St) l :
  (forall i a s, f i a s = g i a s) ->
  forall i s, map_state_from f i l s = map_state_from g i l s.
Proof.
  intros H. induction l as [|a l IH]; intros i s; [reflexivity|].
  cbn [map_state_from]. rewrite H. destruct (g i a s) as [b s1]. now rewrite IH.
Qed.

Section BarReads.

Import BarChart.

Context (data data' : list item) (yKey : ykey) (variant : variant_t)
  (color_name : ChartUtils.palette_name)
  (rounded showXAxis showYAxis : bool)
  (barRadius width height barWidth gap yAxisWidth xAxisHeight : num)
  (animationProgress : num) (hiddenSeries : gset nat).

Hypothesis Hreads : Forall2 same_reads data data'.

Lemma barGap_reads :
  barGap data variant showXAxis showYAxis width height gap yAxisWidth xAxisHeight
  = barGap data' variant showXAxis showYAxis width height gap yAxisWidth xAxisHeight.
Proof. unfold barGap. now rewrite (Forall2_length _ _ _ Hreads). Qed.

Lemma totalBarWidth_reads :
  totalBarWidth data variant showXAxis showYAxis width height gap yAxisWidth xAxisHeight
  = totalBarWidth data' variant showXAxis showYAxis width height gap yAxisWidth xAxisHeight.
Proof.
  unfold totalBarWidth. now rewrite barGap_reads, (Forall2_length _ _ _ Hreads).
Qed.

Lemma actualBarWidth_reads :
  actualBarWidth data variant showXAxis showYAxis width height barWidth gap yAxisWidth
    xAxisHeight
  = actualBarWidth data' variant showXAxis showYAxis width height barWidth gap yAxisWidth
      xAxisHeight.
Proof. unfold actualBarWidth. now rewrite totalBarWidth_reads. Qed.

Lemma barOffset_reads :
  barOffset data variant showXAxis showYAxis width height barWidth gap yAxisWidth
    xAxisHeight
  = barOffset data' variant showXAxis showYAxis width height barWidth gap yAxisWidth
      xAxisHeight.
Proof. unfold barOffset. now rewrite totalBarWidth_reads, actualBarWidth_reads. Qed.

(** The bars read the data through [item[key] || 0] only. *)
Lemma renderBars_reads :
  renderBars data yKey variant color_name rounded showXAxis showYAxis barRadius width
    height barWidth gap yAxisWidth xAxisHeight animationProgress hiddenSeries
  = renderBars data' yKey variant color_name rounded showXAxis showYAxis barRadius width
      height barWidth gap yAxisWidth xAxisHeight animationProgress hiddenSeries.
Proof.
  unfold renderBars.
  rewrite barGap_reads, totalBarWidth_reads, actualBarWidth_reads, barOffset_reads.
  rewrite (bar_maxValue_reads data data' yKey variant hiddenSeries Hreads).
  apply (imap_Forall2_eq same_reads); [exact Hreads|].
  intros i d d' Hd.
  assert (Hfirst : first_value yKey d = first_value yKey d').
  { unfold first_value. destruct (yKeys yKey !! 0%nat); [apply Hd | reflexivity]. }
  rewrite Hfirst.
  destruct (isHorizontal variant); [reflexivity|].
  destruct (bool_decide (variant = stacked) && isMultiSeries yKey).
  { unfold map_state. erewrite map_state_from_ext; [reflexivity|].
    intros ki key cur. unfold stacked_step.
    rewrite actualBarWidth_reads.
    rewrite (bar_maxValue_reads data data' yKey variant hiddenSeries Hreads).
    change (or0 (get d key)) with (raw d key).
    change (or0 (get d' key)) with (raw d' key). now rewrite (Hd key). }
  destruct (bool_decide (variant = grouped) && isMultiSeries yKey); [|reflexivity].
  unfold map_state. erewrite map_state_from_ext; [reflexivity|].
  intros ki key cur. unfold grouped_step.
  rewrite (bar_maxValue_reads data data' yKey variant hiddenSeries Hreads).
  change (or0 (get d key)) with (raw d key).
  change (or0 (get d' key)) with (raw d' key). now rewrite (Hd key).
Qed.

End BarReads.

End MissingFields.

(** The straight line path over [with_missing] (300 x 150, default axes):
    the two missing values are plotted as 0, on the baseline y = 120, and
    every coordinate is finite. *)
Lemma missing_fields_path_is_finite :
  AreaChart.generateLinePath AreaChart.straight one
    (AreaChart.getPoints Examples.with_missing (YString "value") AreaChart.straight true
       true (lit 300 1) (lit 150 1) (lit 50 1) (lit 30 1) ∅ "value" None) false
  = Some [M (lit 50 1) (lit 270 11); L (lit 175 1) (lit 120 1); L (lit 300 1) (lit 120 1)].
Proof. compute_done. Qed.

(** ** Order on [num] *)

Lemma Qc_eq_this (p q : Qc) : p = q -> (this p == this q)%Q.
Proof. now intros ->. Qed.

(** Hypotheses and goal over [Qc] are moved to [Q], where [lra] and
    [nra] decide them. *)
Ltac qc_hyps :=
  repeat match goal with
  | H : @eq Qc _ _ |- _ => apply Qc_eq_this in H
  | H : Qcle _ _ |- _ => unfold Qcle in H
  | H : Qclt _ _ |- _ => unfold Qclt in H
  | H : ~ @eq Qc _ _ |- _ =>
      let H' := fresh in
      assert (H' := fun E => H (Qc_is_canon _ _ E)); clear H
  end;
  repeat match goal with
  | H : context [this (_ + _)%Qc] |- _ => rewrite Qc_this_plus in H
  | H : context [this (_ * _)%Qc] |- _ => rewrite Qc_this_mult in H
  | H : context [this (_ - _)%Qc] |- _ => rewrite Qc_this_minus in H
  | H : context [this (- _)%Qc] |- _ => rewrite Qc_this_opp in H
  | H : context [this (_ / _)%Qc] |- _ => rewrite Qc_this_div in H
  | H : context [this (/ _)%Qc] |- _ => rewrite Qc_this_inv in H
  | H : context [this (Q2Qc _)] |- _ => rewrite Qc_this_Q2Qc in H
  end;
  cbn [this] in *.

Ltac qc_goal :=
  try match goal with
  | |- @eq Qc _ _ => apply Qc_is_canon
  | |- ~ @eq Qc _ _ => let E := fresh in intros E; apply Qc_eq_this in E; revert E
  end;
  unfold Qcle, Qclt; qc_push; cbn [this].

Ltac qc_lra := qc_hyps; qc_goal; lra.
Ltac qc_nra := qc_hyps; qc_goal; nra.

Lemma le_fin p q : le (Fin p) (Fin q) = true <-> (p <= q)%Qc.
Proof. apply qle_true. Qed.

Lemma lt_fin p q : lt (Fin p) (Fin q) = true <-> (p < q)%Qc.
Proof. apply qlt_true. Qed.

Lemma lt_fin_false p q : lt (Fin p) (Fin q) = false <-> (q <= p)%Qc.
Proof.
  cbn [lt]. split.
  - intros H. apply Qcnot_lt_le. intros Hlt. apply qlt_true in Hlt. congruence.
  - intros H. destruct (qlt p q) eqn:E; [|reflexivity].
    apply qlt_true in E. now apply Qcle_not_lt in H.
Qed.

Lemma le_fin_false p q : le (Fin p) (Fin q) = false <-> (q < p)%Qc.
Proof.
  cbn [le]. split.
  - intros H. apply Qcnot_le_lt. intros Hle. apply qle_true in Hle. congruence.
  - intros H. destruct (qle p q) eqn:E; [|reflexivity].
    apply qle_true in E. now apply Qcle_not_lt in E.
Qed.


Lemma le_refl_fin p : le (Fin p) (Fin p) = true.
Proof. apply le_fin, Qcle_refl. Qed.

(** [Math.max] and [Math.min]: a finite result bounds every argument and
    is one of them. *)
Lemma max2_le_inv a x m :
  le (max2 a x) (Fin m) = true -> le a (Fin m) = true /\ le x (Fin m) = true.
Proof.
  destruct a as [p| | |], x as [q| | |]; cbn; try discriminate; try tauto.
  destruct (qlt p q) eqn:E; cbn; intros H; split; try assumption.
  - apply qlt_true in E. apply qle_true in H. apply qle_true. qc_lra.
  - apply lt_fin_false in E. apply qle_true in H. apply qle_true. qc_lra.
Qed.

Lemma foldl_max2_ub l : forall a m,
  foldl max2 a l = Fin m ->
  le a (Fin m) = true /\ Forall (fun x => le x (Fin m) = true) l.
Proof.
  induction l as [|x l IH]; intros a m H; cbn in H.
  - subst a. split; [apply le_refl_fin | constructor].
  - apply IH in H as [H1 H2]. apply max2_le_inv in H1 as [Ha Hx].
    split; [assumption | now constructor].
Qed.

Lemma Math_max_ub l m x : Math_max l = Fin m -> x ∈ l -> le x (Fin m) = true.
Proof.
  intros H Hx. apply foldl_max2_ub in H as [_ H].
  rewrite Forall_forall in H. now apply H.
Qed.

Lemma max2_cases a x : max2 a x = a \/ max2 a x = x \/ max2 a x = NaN.
Proof.
  destruct a, x; cbn; try tauto. destruct (qlt _ _); tauto.
Qed.

Lemma foldl_max2_NaN l : foldl max2 NaN l = NaN.
Proof. induction l; [reflexivity | assumption]. Qed.

Lemma foldl_max2_attained l : forall a m,
  foldl max2 a l = Fin m -> a = Fin m \/ Fin m ∈ l.
Proof.
  induction l as [|x l IH]; intros a m H; cbn in H; [now left|].
  apply IH in H as [H | H]; [|right; now constructor].
  destruct (max2_cases a x) as [E | [E | E]]; rewrite E in H.
  - now left.
  - right. subst x. constructor.
  - discriminate.
Qed.

Lemma Math_max_attained l m : Math_max l = Fin m -> Fin m ∈ l.
Proof. intros H. apply foldl_max2_attained in H as [H | H]; [discriminate | assumption]. Qed.

Lemma foldl_max2_finite l : forall a,
  Spec.finite a -> Forall Spec.finite l -> Spec.finite (foldl max2 a l).
Proof.
  induction l as [|x l IH]; intros a Ha Hl; [assumption|].
  apply Forall_cons in Hl as [Hx Hl]. cbn. apply IH; [|assumption].
  destruct a, x; try discriminate. cbn. now destruct (qlt _ _).
Qed.

Lemma Math_max_finite l :
  l <> [] -> Forall Spec.finite l -> Spec.finite (Math_max l).
Proof.
  destruct l as [|x l]; [congruence|]. intros _ Hl.
  apply Forall_cons in Hl as [Hx Hl]. unfold Math_max. cbn [foldl].
  apply foldl_max2_finite; [|assumption]. now destruct x.
Qed.

Lemma min2_ge_inv a x m :
  le (Fin m) (min2 a x) = true -> le (Fin m) a = true /\ le (Fin m) x = true.
Proof.
  destruct a as [p| | |], x as [q| | |]; cbn; try discriminate; try tauto.
  destruct (qlt q p) eqn:E; cbn; intros H; split; try assumption.
  - apply qlt_true in E. apply qle_true in H. apply qle_true. qc_lra.
  - apply lt_fin_false in E. apply qle_true in H. apply qle_true. qc_lra.
Qed.

Lemma foldl_min2_lb l : forall a m,
  foldl min2 a l = Fin m ->
  le (Fin m) a = true /\ Forall (fun x => le (Fin m) x = true) l.
Proof.
  induction l as [|x l IH]; intros a m H; cbn in H.
  - subst a. split; [apply le_refl_fin | constructor].
  - apply IH in H as [H1 H2]. apply min2_ge_inv in H1 as [Ha Hx].
    split; [assumption | now constructor].
Qed.

Lemma Math_min_lb l m x : Math_min l = Fin m -> x ∈ l -> le (Fin m) x = true.
Proof.
  intros H Hx. apply foldl_min2_lb in H as [_ H].
  rewrite Forall_forall in H. now apply H.
Qed.

Lemma min2_cases a x : min2 a x = a \/ min2 a x = x \/ min2 a x = NaN.
Proof.
  destruct a, x; cbn; try tauto. destruct (qlt _ _); tauto.
Qed.

Lemma foldl_min2_attained l : forall a m,
  foldl min2 a l = Fin m -> a = Fin m \/ Fin m ∈ l.
Proof.
  induction l as [|x l IH]; intros a m H; cbn in H; [now left|].
  apply IH in H as [H | H]; [|right; now constructor].
  destruct (min2_cases a x) as [E | [E | E]]; rewrite E in H.
  - now left.
  - right. subst x. constructor.
  - discriminate.
Qed.

Lemma Math_min_attained l m : Math_min l = Fin m -> Fin m ∈ l.
Proof. intros H. apply foldl_min2_attained in H as [H | H]; [discriminate | assumption]. Qed.

Lemma foldl_min2_finite l : forall a,
  Spec.finite a -> Forall Spec.finite l -> Spec.finite (foldl min2 a l).
Proof.
  induction l as [|x l IH]; intros a Ha Hl; [assumption|].
  apply Forall_cons in Hl as [Hx Hl]. cbn. apply IH; [|assumption].
  destruct a, x; try discriminate. cbn. now destruct (qlt _ _).
Qed.

Lemma Math_min_finite l :
  l <> [] -> Forall Spec.finite l -> Spec.finite (Math_min l).
Proof.
  destruct l as [|x l]; [congruence|]. intros _ Hl.
  apply Forall_cons in Hl as [Hx Hl]. unfold Math_min. cbn [foldl].
  apply foldl_min2_finite; [|assumption]. now destruct x.
Qed.

(** A quotient of a non-negative number by a larger positive one lies
    in [0, 1]. *)
Lemma Qcdiv_unit (v m : Qc) :
  (0 <= v)%Qc -> (v <= m)%Qc -> (0 < m)%Qc -> (0 <= v / m)%Qc /\ (v / m <= 1)%Qc.
Proof.
  intros Hv Hvm Hm.
  assert (Hm' : (0 < this m)%Q) by (revert Hm; unfold Qclt; now qc_push).
  unfold Qcle. qc_push. split.
  - apply Qle_shift_div_l; [assumption|]. qc_lra.
  - apply Qle_shift_div_r; [assumption|]. qc_lra.
Qed.

Lemma Qcdiv_pos_nonneg (v m : Qc) : (0 <= v)%Qc -> (0 < m)%Qc -> (0 <= v / m)%Qc.
Proof.
  intros Hv Hm.
  assert (Hm' : (0 < this m)%Q) by (revert Hm; unfold Qclt; now qc_push).
  unfold Qcle. qc_push. apply Qle_shift_div_l; [assumption|]. qc_lra.
Qed.

(** ** The x of the points (AreaChart.getPoints) *)

Section AreaLayout.

Import AreaChart Spec.

Lemma divisor_ge_2 n : (2 <= n)%nat -> divisor n = Q2Qc (inject_Z (Z.of_nat n - 1)).
Proof. intros Hn. unfold divisor. now rewrite Z.max_l by lia. Qed.

Lemma pixel_x_first cx w n : pixel_x cx w n 0 = cx.
Proof.
  unfold pixel_x. pose proof (divisor_neq_0 n) as Hd.
  apply Qc_neq_0 in Hd. apply Qc_is_canon. qc_push. field. assumption.
Qed.

Lemma pixel_x_last cx w n :
  (2 <= n)%nat -> pixel_x cx w n (Z.of_nat (n - 1)) = (cx + w)%Qc.
Proof.
  intros Hn. unfold pixel_x. pose proof (divisor_neq_0 n) as Hd.
  rewrite divisor_ge_2 in * by assumption.
  replace (Z.of_nat (n - 1)) with (Z.of_nat n - 1)%Z by lia.
  apply Qc_neq_0 in Hd. apply Qc_is_canon. qc_push. rewrite Qc_this_Q2Qc in Hd.
  field. assumption.
Qed.

Lemma pixel_x_step cx w n (i : nat) :
  (pixel_x cx w n (Z.of_nat (S i)) - pixel_x cx w n (Z.of_nat i) = w / divisor n)%Qc.
Proof.
  unfold pixel_x. pose proof (divisor_neq_0 n) as Hd.
  apply Qc_neq_0 in Hd. apply Qc_is_canon. qc_push.
  rewrite Nat2Z.inj_succ. unfold Z.succ. rewrite inject_Z_plus.
  field. assumption.
Qed.

Lemma divisor_pos n : (0 < divisor n)%Qc.
Proof.
  unfold divisor, Qclt. qc_push. change 0%Q with (inject_Z 0).
  rewrite <- Zlt_Qlt. lia.
Qed.

(** With at least two data items and a plot rectangle of finite
    position and width, the points of a series span the rectangle: the
    first sits on its left edge, the last on its right edge, consecutive
    points are one step [chartWidth / (n - 1)] apart and, for a positive
    width, x increases strictly. *)
Theorem area_points_evenly_spaced
    (data : list item) (yKey : ykey) (variant : variant_t)
    (showXAxis showYAxis : bool) (width height yAxisWidth xAxisHeight : num)
    (hiddenSeries : gset nat) (key : string) (sv : option (list num)) (cx w : Qc) :
  let pts :=
    getPoints data yKey variant showXAxis showYAxis width height yAxisWidth xAxisHeight
      hiddenSeries key sv in
  let n := length data in
  chartX showYAxis yAxisWidth = Fin cx ->
  chartWidth showYAxis width yAxisWidth = Fin w ->
  (2 <= n)%nat ->
  length pts = n /\
  (forall p, pts !! 0%nat = Some p -> x p = Fin cx) /\
  (forall p, pts !! (n - 1)%nat = Some p -> x p = Fin (cx + w)) /\
  (forall i p q, pts !! i = Some p -> pts !! S i = Some q ->
     x q - x p = Fin (w / Q2Qc (inject_Z (Z.of_nat n - 1)))) /\
  ((0 < w)%Qc -> increasing_x pts).
Proof.
  intros pts n Hcx Hw Hn.
  assert (Hx : forall i p, pts !! i = Some p -> x p = Fin (pixel_x cx w n (Z.of_nat i))).
  { intros i p Hp. eapply getPoints_x; eassumption. }
  split; [apply length_imap|].
  split. { intros p Hp. rewrite (Hx _ _ Hp). f_equal. apply pixel_x_first. }
  split. { intros p Hp. rewrite (Hx _ _ Hp). f_equal. now apply pixel_x_last. }
  split.
  { intros i p q Hp Hq. rewrite (Hx _ _ Hp), (Hx _ _ Hq).
    cbn [sub add neg]. f_equal.
    rewrite <- divisor_ge_2 by assumption. apply pixel_x_step. }
  intros Hpos i p q Hp Hq. rewrite (Hx _ _ Hp), (Hx _ _ Hq).
  apply lt_fin. pose proof (pixel_x_step cx w n i) as Hs.
  pose proof (Qcdiv_pos_nonneg w (divisor n)) as Hq0.
  assert (Hd : (0 < w / divisor n)%Qc).
  { pose proof (divisor_pos n) as Hdp.
    assert (Hdp' : (0 < this (divisor n))%Q) by (revert Hdp; unfold Qclt; now qc_push).
    unfold Qclt. qc_push. apply Qlt_shift_div_l; [assumption|]. qc_lra. }
  clear Hq0. revert Hs Hd. generalize (w / divisor n)%Qc.
  generalize (pixel_x cx w n (Z.of_nat (S i))), (pixel_x cx w n (Z.of_nat i)).
  intros a b c Hs Hd. qc_lra.
Qed.

Lemma area_points_evenly_spaced_witness :
  let pts := Examples.month_points in
  length pts = 3%nat /\
  (forall p, pts !! 0%nat = Some p -> x p = Fin (Q2Qc 50)) /\
  (forall p, pts !! 2%nat = Some p -> x p = Fin (Q2Qc 50 + Q2Qc 250)) /\
  (forall i p q, pts !! i = Some p -> pts !! S i = Some q ->
     x q - x p = Fin (Q2Qc 250 / Q2Qc (inject_Z 2))) /\
  ((0 < Q2Qc 250)%Qc -> increasing_x pts).
Proof.
  apply (area_points_evenly_spaced Examples.months (YString "value") curved true true
           (of_nat 300) (of_nat 150) (of_nat 50) (of_nat 30) ∅ "value" None
           (Q2Qc 50) (Q2Qc 250)).
  - vm_compute. reflexivity.
  - compute_done.
  - simpl. lia.
Defined.

End AreaLayout.

(** ** The animated prefix (visiblePoints) *)

Section VisiblePoints.

Import AreaChart Spec.

Lemma Qred_inject_Z z : Qred (inject_Z z) = inject_Z z.
Proof.
  unfold Qred, inject_Z.
  pose proof (Z.ggcd_gcd z 1) as Hg.
  pose proof (Z.ggcd_correct_divisors z 1) as Hd.
  destruct (Z.ggcd z 1) as [g [aa bb]]. cbn [fst snd] in *.
  rewrite Z.gcd_1_r in Hg. subst g. destruct Hd as [Ha Hb].
  rewrite !Z.mul_1_l in *. subst aa. rewrite <- Hb. reflexivity.
Qed.

Lemma this_of_Z z : this (Q2Qc (inject_Z z)) = inject_Z z.
Proof. apply Qred_inject_Z. Qed.

Lemma slice_end_of_Z len z :
  (0 <= z)%Z -> slice_end len (of_Z z) = Nat.min (Z.to_nat z) len.
Proof.
  intros Hz. unfold slice_end, of_Z. rewrite this_of_Z. cbn [Qnum Qden inject_Z].
  rewrite Z.quot_1_r. destruct (z <? 0)%Z eqn:E; [lia | reflexivity].
Qed.

Lemma truthy_of_Z z : truthy (of_Z z) = negb (z =? 0)%Z.
Proof.
  unfold truthy, of_Z. f_equal.
  destruct (z =? 0)%Z eqn:E.
  - apply Z.eqb_eq in E. subst z. now apply qeqb_true.
  - apply qeqb_false. intros H. apply Z.eqb_neq in E. apply E.
    apply (f_equal this) in H. rewrite this_of_Z in H. now injection H.
Qed.

Lemma Qceiling_nonneg (q : Q) : (0 <= q)%Q -> (0 <= Qceiling q)%Z.
Proof.
  intros Hq. pose proof (Qle_ceiling q) as H.
  apply (Qle_trans _ _ _ Hq) in H. change 0%Q with (inject_Z 0) in H.
  now rewrite <- Zle_Qle in H.
Qed.

(** The number of points kept by the slice for a finite progress. *)
Lemma visiblePoints_fin {A} (a : Qc) (points : list A) :
  (0 <= a)%Qc ->
  let c := Qceiling (Q2Qc (inject_Z (Z.of_nat (length points))) * a)%Qc in
  visiblePoints (Fin a) points
  = take (if (c =? 0)%Z then 1%nat else Z.to_nat c) points.
Proof.
  intros Ha c. unfold visiblePoints, slice0.
  cbn [mul of_nat of_Z Math_ceil]. fold c.
  assert (Hc : (0 <= c)%Z).
  { apply Qceiling_nonneg. qc_push.
    apply Qmult_le_0_compat; [|exact Ha].
    change 0%Q with (inject_Z 0). rewrite <- Zle_Qle. lia. }
  unfold or_else. rewrite truthy_of_Z.
  destruct (c =? 0)%Z eqn:E; cbn [negb].
  - change one with (of_Z 1). rewrite slice_end_of_Z by lia.
    change (Z.to_nat 1) with 1%nat.
    destruct points; [reflexivity|]. cbn [length]. reflexivity.
  - rewrite slice_end_of_Z by assumption.
    destruct (Nat.le_ge_cases (Z.to_nat c) (length points)) as [Hle | Hge].
    + now rewrite Nat.min_l.
    + rewrite Nat.min_r by assumption. now rewrite !firstn_all2 by lia.
Qed.

(** For a progress that is not negative, the slice keeps a prefix with
    at least the first point. *)
Lemma visiblePoints_ge1 {A} ap (points : list A) :
  le zero ap = true ->
  exists k, (1 <= k)%nat /\ visiblePoints ap points = take k points.
Proof.
  intros Hap. destruct ap as [a| | |]; try discriminate.
  - apply le_fin in Hap. rewrite (visiblePoints_fin a points Hap). cbv zeta.
    destruct (_ =? 0)%Z eqn:E.
    + exists 1%nat. split; [lia | reflexivity].
    + eexists. split; [|reflexivity]. apply Z.eqb_neq in E.
      assert (0 <= Qceiling (Q2Qc (inject_Z (Z.of_nat (length points))) * a)%Qc)%Z; [|lia].
      apply Qceiling_nonneg. qc_push.
      apply Qmult_le_0_compat; [|exact Hap].
      change 0%Q with (inject_Z 0). rewrite <- Zle_Qle. lia.
  - destruct points as [|p points].
    + exists 1%nat. split; [lia | reflexivity].
    + exists (length (p :: points)). split; [cbn; lia|].
      unfold visiblePoints, slice0.
      replace (of_nat (length (p :: points)) * PInf) with PInf; [reflexivity|].
      cbn [mul sgn of_nat of_Z].
      replace (Q2Qc (inject_Z (Z.of_nat (length (p :: points)))) ?= 0)%Qc with Gt;
        [reflexivity|].
      symmetry. apply Qcgt_alt. unfold Qclt. qc_push.
      change 0%Q with (inject_Z 0). rewrite <- Zlt_Qlt. cbn [length]. lia.
Qed.

(** Once the progress has reached 1 every point is kept. *)
Lemma visiblePoints_all {A} ap (points : list A) :
  le one ap = true -> visiblePoints ap points = points.
Proof.
  intros Hap.
  assert (Hap0 : le zero ap = true).
  { destruct ap; try discriminate; [|reflexivity].
    apply le_fin in Hap. apply le_fin. qc_lra. }
  destruct (visiblePoints_ge1 ap points Hap0) as (k & Hk & Heq).
  destruct points as [|p points]; [now rewrite Heq, take_nil|].
  destruct ap as [a| | |]; try discriminate.
  - apply le_fin in Hap. apply le_fin in Hap0.
    rewrite (visiblePoints_fin a _ Hap0). cbv zeta.
    set (n := length (p :: points)).
    assert (Hc : (Z.of_nat n <= Qceiling (Q2Qc (inject_Z (Z.of_nat n)) * a)%Qc)%Z).
    { rewrite <- (Qceiling_Z (Z.of_nat n)) at 1. apply Qceiling_resp_le.
      qc_push.
      assert (0 <= inject_Z (Z.of_nat n))%Q.
      { change 0%Q with (inject_Z 0). rewrite <- Zle_Qle. lia. }
      assert (1 <= this a)%Q by (revert Hap; unfold Qcle; now qc_push).
      nra. }
    assert (Hn : (0 < n)%nat) by (unfold n; cbn; lia).
    destruct (_ =? 0)%Z eqn:E; [apply Z.eqb_eq in E; lia|].
    apply firstn_all2. fold n. lia.
  - unfold visiblePoints, slice0.
    replace (of_nat (length (p :: points)) * PInf) with PInf;
      [cbn [Math_ceil or_else truthy slice_end]; apply firstn_all|].
    cbn [mul sgn of_nat of_Z].
    replace (Q2Qc (inject_Z (Z.of_nat (length (p :: points)))) ?= 0)%Qc with Gt;
      [reflexivity|].
    symmetry. apply Qcgt_alt. unfold Qclt. qc_push.
    change 0%Q with (inject_Z 0). rewrite <- Zlt_Qlt. cbn [length]. lia.
Qed.

Lemma visible_count_nonneg (n : nat) (a : Qc) :
  (0 <= a)%Qc -> (0 <= Qceiling (Q2Qc (inject_Z (Z.of_nat n)) * a)%Qc)%Z.
Proof.
  intros Ha. apply Qceiling_nonneg. qc_push.
  apply Qmult_le_0_compat; [|exact Ha].
  change 0%Q with (inject_Z 0). rewrite <- Zle_Qle. lia.
Qed.

Lemma dots_fin (a : Qc) (points : list point) :
  (0 <= a)%Qc ->
  dots (Fin a) points
  = take (Z.to_nat (Qceiling (Q2Qc (inject_Z (Z.of_nat (length points))) * a)%Qc)) points.
Proof.
  intros Ha. unfold dots, slice0. cbn [mul of_nat of_Z Math_ceil].
  rewrite slice_end_of_Z by now apply visible_count_nonneg.
  destruct (Nat.le_ge_cases
              (Z.to_nat (Qceiling (Q2Qc (inject_Z (Z.of_nat (length points))) * a)%Qc))
              (length points)) as [Hle | Hge].
  - now rewrite Nat.min_l.
  - rewrite Nat.min_r by assumption. now rewrite !firstn_all2 by lia.
Qed.

(** During the entrance animation (a finite progress that is not
    negative) the line is drawn over a prefix of the points that always
    holds the first point, that only grows with the progress and that is
    the whole series once the progress has reached 1.  The dots are drawn
    on the same prefix, except that there is no dot at all while the
    rounded count is 0. *)
Theorem animation_shows_growing_prefix (a b : Qc) (points : list point) :
  (0 <= a)%Qc -> (a <= b)%Qc ->
  (exists k, (1 <= k)%nat /\ visiblePoints (Fin a) points = take k points) /\
  visiblePoints (Fin a) points `prefix_of` visiblePoints (Fin b) points /\
  ((1 <= a)%Qc -> visiblePoints (Fin a) points = points) /\
  (dots (Fin a) points = visiblePoints (Fin a) points \/ dots (Fin a) points = []).
Proof.
  intros Ha Hab.
  assert (Hb : (0 <= b)%Qc) by qc_lra.
  split; [apply visiblePoints_ge1; now apply le_fin|].
  split.
  { rewrite !visiblePoints_fin by assumption. cbv zeta.
    set (n := Q2Qc (inject_Z (Z.of_nat (length points)))).
    assert (Hc : (Qceiling (n * a)%Qc <= Qceiling (n * b)%Qc)%Z).
    { apply Qceiling_resp_le. unfold n. qc_push.
      assert (0 <= inject_Z (Z.of_nat (length points)))%Q.
      { change 0%Q with (inject_Z 0). rewrite <- Zle_Qle. lia. }
      revert Hab. unfold Qcle. intros Hab. nra. }
    pose proof (visible_count_nonneg (length points) a Ha) as Hca.
    fold n in Hca.
    match goal with
    | |- take ?ka _ `prefix_of` take ?kb _ =>
        assert (Hk : (ka <= kb)%nat)
    end.
    { revert Hc Hca. generalize (Qceiling (n * a)%Qc), (Qceiling (n * b)%Qc).
      intros ca cb Hc Hca.
      destruct (Z.eqb_spec ca 0), (Z.eqb_spec cb 0); lia. }
    match goal with
    | |- take ?ka _ `prefix_of` take ?kb _ =>
        replace ka with (Nat.min ka kb) by lia
    end.
    rewrite <- take_take. apply prefix_take. }
  split.
  { intros H1. apply visiblePoints_all. apply le_fin. exact H1. }
  rewrite dots_fin, visiblePoints_fin by assumption. cbv zeta.
  destruct (_ =? 0)%Z eqn:E.
  - right. apply Z.eqb_eq in E. rewrite E. reflexivity.
  - now left.
Qed.

Lemma animation_shows_growing_prefix_witness :
  (exists k, (1 <= k)%nat /\
     visiblePoints (Fin (Q2Qc (1 # 2))) Examples.month_points
     = take k Examples.month_points) /\
  visiblePoints (Fin (Q2Qc (1 # 2))) Examples.month_points
    `prefix_of` visiblePoints (Fin 1) Examples.month_points /\
  ((1 <= Q2Qc (1 # 2))%Qc ->
   visiblePoints (Fin (Q2Qc (1 # 2))) Examples.month_points = Examples.month_points) /\
  (dots (Fin (Q2Qc (1 # 2))) Examples.month_points
   = visiblePoints (Fin (Q2Qc (1 # 2))) Examples.month_points
   \/ dots (Fin (Q2Qc (1 # 2))) Examples.month_points = []).
Proof.
  apply (animation_shows_growing_prefix (Q2Qc (1 # 2)) 1 Examples.month_points).
  - vm_compute. discriminate.
  - vm_compute. discriminate.
Defined.

End VisiblePoints.

(** ** The shape of the line path (AreaChart.generateLinePath) *)

Section LinePath.

Import AreaChart Spec.

Context (variant : variant_t) (animationProgress : num).

Lemma for_range_push_list {A B} (f : nat -> option B) (g : B -> list A) (h : nat -> B)
    n init :
  (forall i, (i < n)%nat -> f i = Some (h i)) ->
  for_range n (fun i acc => t ← f i; Some (acc ++ g t)) init
  = Some (init ++ flat_map (fun i => g (h i)) (seq 0 n)).
Proof.
  induction n as [|n IH]; intros Hf.
  - simpl. now rewrite app_nil_r.
  - rewrite for_range_S, IH by (intros; apply Hf; lia).
    rewrite seq_S, flat_map_app, app_assoc. simpl.
    rewrite Hf by lia. simpl. now rewrite app_nil_r.
Qed.

Lemma flat_map_seq_lookup {A B} (g : A -> list B) (d : A) (l : list A) : forall k,
  flat_map (fun i => g (default d (l !! (i + k)%nat))) (seq 0 (length l - k))
  = flat_map g (drop k l).
Proof.
  induction l as [|a l IH]; intros k; [now rewrite drop_nil|].
  destruct k as [|k].
  - cbn [length drop]. rewrite Nat.sub_0_r. cbn [seq flat_map]. f_equal.
    rewrite <- seq_shift, flat_map_concat_map, map_map, <- flat_map_concat_map.
    specialize (IH 0%nat). rewrite Nat.sub_0_r, drop_0 in IH. rewrite <- IH.
    apply flat_map_ext. intros i. now rewrite !Nat.add_0_r.
  - cbn [length drop]. rewrite Nat.sub_succ, <- IH.
    apply flat_map_ext. intros i. now rewrite Nat.add_succ_r.
Qed.

(** The pen follows the end points of absolute moves, lines and
    curves. *)
Lemma pen_positions_endpoints (cmds : list cmd) (es : list (num * num)) : forall s pos,
  Forall2 (fun c e => exists x1 y1 x2 y2,
             c = L e.1 e.2 \/ c = M e.1 e.2 \/ c = C x1 y1 x2 y2 e.1 e.2) cmds es ->
  pen_positions s pos cmds = es.
Proof.
  intros s pos H. revert s pos.
  induction H as [|c e cmds es (x1 & y1 & x2 & y2 & Hc) _ IH]; intros s pos;
    [reflexivity|].
  destruct e as [ex ey].
  destruct Hc as [-> | [-> | ->]]; cbn [pen_positions fst snd]; now rewrite IH.
Qed.

Lemma pen_positions_stairs prev r : forall s,
  pen_positions s (x prev, y prev) (flat_map (fun p => [H (x p); V (y p)]) r)
  = stairs_from prev r.
Proof.
  revert prev. induction r as [|p r IH]; intros prev s; [reflexivity|].
  cbn [flat_map app pen_positions stairs_from fst snd]. now rewrite IH.
Qed.

Lemma pen_positions_curved vp tangents s pos :
  pen_positions s pos
    (map (fun i => default Close (bezier_at vp tangents i)) (seq 0 (length vp - 1)))
  = map (fun p => (x p, y p)) (drop 1 vp).
Proof.
  apply pen_positions_endpoints, Forall2_same_length_lookup_2.
  - now rewrite !length_map, length_seq, length_drop.
  - intros i c e Hc He. rewrite list_lookup_fmap in Hc. rewrite list_lookup_fmap in He.
    rewrite lookup_drop in He.
    destruct (vp !! (1 + i)%nat) as [q|] eqn:Hq; [|discriminate].
    assert (Hi : (i < length vp - 1)%nat) by (apply lookup_lt_Some in Hq; lia).
    rewrite lookup_seq_lt in Hc by assumption.
    cbv [fmap option_fmap option_map] in Hc, He.
    apply (inj Some) in Hc, He. subst c e. cbn [fst snd].
    unfold bezier_at.
    destruct (lookup_lt_is_Some_2 vp i) as [p Hp]; [lia|].
    rewrite !Nat.add_0_l, Hp. replace (i + 1)%nat with (1 + i)%nat by lia. rewrite Hq.
    cbn [mbind option_bind default].
    do 4 eexists. right. right. reflexivity.
Qed.

Lemma generateLinePath_short points smooth :
  (length points < 2)%nat ->
  generateLinePath variant animationProgress points smooth = Some [].
Proof.
  intros H. unfold generateLinePath.
  now replace (length points <? 2)%nat with true by (symmetry; apply Nat.ltb_lt; lia).
Qed.

Lemma generateLinePath_stepped points smooth p0 rest :
  variant = stepped -> (2 <= length points)%nat ->
  visiblePoints animationProgress points = p0 :: rest ->
  generateLinePath variant animationProgress points smooth
  = Some (M (x p0) (y p0) :: flat_map (fun p => [H (x p); V (y p)]) rest).
Proof.
  intros Hv Hn Hvp. unfold generateLinePath.
  replace (length points <? 2)%nat with false by (symmetry; apply Nat.ltb_ge; lia).
  rewrite Hvp, bool_decide_eq_true_2 by assumption.
  cbn [lookup list_lookup mbind option_bind length].
  rewrite Nat.sub_succ, Nat.sub_0_r.
  rewrite (for_range_push_list (fun j => (p0 :: rest) !! (j + 1)%nat)
             (fun curr => [H (x curr); V (y curr)])
             (fun j => default p0 ((p0 :: rest) !! (j + 1)%nat))).
  - f_equal. cbn [app]. f_equal.
    pose proof (flat_map_seq_lookup (fun curr => [H (x curr); V (y curr)]) p0
                  (p0 :: rest) 1) as E.
    cbn [length drop] in E. rewrite Nat.sub_succ, Nat.sub_0_r, drop_0 in E. exact E.
  - intros i Hi.
    destruct (lookup_lt_is_Some_2 (p0 :: rest) (i + 1)%nat) as [q ->]; [cbn; lia|].
    reflexivity.
Qed.

Lemma generateLinePath_straight points :
  variant <> stepped -> (2 <= length points)%nat ->
  generateLinePath variant animationProgress points false
  = Some (imap (fun i p => if (i =? 0)%nat then M (x p) (y p) else L (x p) (y p))
            (visiblePoints animationProgress points)).
Proof.
  intros Hv Hn. unfold generateLinePath.
  replace (length points <? 2)%nat with false by (symmetry; apply Nat.ltb_ge; lia).
  now rewrite bool_decide_eq_false_2 by assumption.
Qed.

(** For a progress that is not negative [generateLinePath] returns a
    path, empty for fewer than two points.  Otherwise the pen visits the
    visible points in order: directly in the straight and curved shapes
    (nothing is drawn by the curved shape while a single point is
    visible), and in the stepped shape by a horizontal move to the x of the
    next point followed by a vertical move to its y. *)
Theorem line_path_visits_visible_points (points : list point) (smooth : bool) :
  le zero animationProgress = true ->
  let vp := visiblePoints animationProgress points in
  ((length points < 2)%nat ->
   generateLinePath variant animationProgress points smooth = Some []) /\
  ((2 <= length points)%nat ->
   exists path,
     generateLinePath variant animationProgress points smooth = Some path /\
     pen_trace path
     = if bool_decide (variant = stepped) then stairs vp
       else if smooth && (length vp <? 2)%nat then []
       else vertices vp).
Proof.
  intros Hap vp. split; [apply generateLinePath_short|]. intros Hn.
  destruct (visiblePoints_ge1 animationProgress points Hap) as (k & Hk & Hvp).
  fold vp in Hvp.
  destruct vp as [|p0 rest] eqn:Evp.
  { destruct points as [|p points]; [cbn in Hn; lia|].
    destruct k; [lia|]. discriminate Hvp. }
  destruct (decide (variant = stepped)) as [Hs | Hs].
  - rewrite bool_decide_eq_true_2 by assumption.
    eexists. split; [exact (generateLinePath_stepped points smooth p0 rest Hs Hn Evp)|].
    unfold pen_trace. cbn [pen_positions stairs]. f_equal.
    apply pen_positions_stairs.
  - rewrite bool_decide_eq_false_2 by assumption.
    destruct smooth.
    + cbn [andb]. destruct rest as [|p1 rest].
      * eexists. split.
        -- unfold generateLinePath.
           replace (length points <? 2)%nat with false
             by (symmetry; apply Nat.ltb_ge; lia).
           fold vp. rewrite Evp, bool_decide_eq_false_2 by assumption. reflexivity.
        -- reflexivity.
      * destruct rest as [|p2 rest].
        -- eexists. split.
           ++ unfold generateLinePath.
              replace (length points <? 2)%nat with false
                by (symmetry; apply Nat.ltb_ge; lia).
              fold vp. rewrite Evp, bool_decide_eq_false_2 by assumption. reflexivity.
           ++ reflexivity.
        -- remember (p0 :: p1 :: p2 :: rest) as l eqn:El.
           assert (Hl : (3 <= length l)%nat) by (subst l; cbn; lia).
           assert (Hl0 : l !! 0%nat = Some p0) by now subst l.
           assert (Hd : l = p0 :: drop 1 l) by now subst l.
           destruct (curved_path_eq variant animationProgress points l p0 Hs Evp Hl Hl0)
             as [_ Hpath].
           eexists. split; [exact Hpath|].
           replace (length l <? 2)%nat with false by (symmetry; apply Nat.ltb_ge; lia).
           transitivity (vertices (p0 :: drop 1 l)); [|now rewrite <- Hd].
           unfold pen_trace, vertices.
           cbn [app pen_positions map]. f_equal. apply pen_positions_curved.
    + cbn [andb]. eexists. split; [exact (generateLinePath_straight points Hs Hn)|].
      fold vp. rewrite Evp. unfold pen_trace.
      apply pen_positions_endpoints.
      unfold vertices. generalize (p0 :: rest). intros l.
      apply Forall2_same_length_lookup_2.
      * now rewrite length_imap, length_map.
      * intros i c e Hc He. rewrite list_lookup_imap in Hc. rewrite list_lookup_fmap in He.
        destruct (l !! i) as [p|]; [|discriminate].
        cbv [fmap option_fmap option_map] in Hc, He.
        apply (inj Some) in Hc, He. subst c e. cbn [fst snd].
        exists zero, zero, zero, zero. destruct (i =? 0)%nat; tauto.
Qed.

End LinePath.

Lemma line_path_visits_witness :
  let vp := AreaChart.visiblePoints one Examples.month_points in
  ((length Examples.month_points < 2)%nat ->
   AreaChart.generateLinePath AreaChart.stepped one Examples.month_points false = Some []) /\
  ((2 <= length Examples.month_points)%nat ->
   exists path,
     AreaChart.generateLinePath AreaChart.stepped one Examples.month_points false = Some path /\
     pen_trace path
     = if bool_decide (AreaChart.stepped = AreaChart.stepped) then stairs vp
       else if false && (length vp <? 2)%nat then []
       else vertices vp).
Proof.
  apply (line_path_visits_visible_points AreaChart.stepped one Examples.month_points false).
  reflexivity.
Defined.

(** ** The y of the points (AreaChart.getPoints, AreaChart.maxValue) *)

Section AreaPlot.

Import AreaChart Spec.

Lemma sum_nums_nonneg l :
  Forall (fun a => exists q, a = Fin q /\ (0 <= q)%Qc) l ->
  exists s, sum_nums l = Fin s /\ (0 <= s)%Qc.
Proof.
  induction 1 as [|a l (q & -> & Hq) _ (s & Hs & Hs0)].
  - exists 0%Qc. split; [reflexivity | apply Qcle_refl].
  - exists (q + s)%Qc. rewrite sum_nums_cons, Hs. split; [reflexivity | qc_lra].
Qed.

Lemma elem_of_filter_index_from {A} (f : nat -> bool) (l : list A) : forall k a,
  a ∈ filter_index_from f k l <-> exists i, l !! i = Some a /\ f (k + i)%nat = true.
Proof.
  induction l as [|b l IH]; intros k a; cbn [filter_index_from].
  - split; [intros H; inversion H | intros (i & H & _); discriminate].
  - assert (Hstep : a ∈ filter_index_from f (S k) l <->
                    exists i, (b :: l) !! S i = Some a /\ f (k + S i)%nat = true).
    { rewrite IH. split; intros (i & H1 & H2); exists i; split; try assumption.
      - now replace (k + S i)%nat with (S k + i)%nat by lia.
      - now replace (S k + i)%nat with (k + S i)%nat by lia. }
    destruct (f k) eqn:Ek.
    + rewrite elem_of_cons, Hstep. split.
      * intros [-> | (i & H1 & H2)].
        -- exists 0%nat. split; [reflexivity | now rewrite Nat.add_0_r].
        -- exists (S i). now split.
      * intros ([|i] & H1 & H2).
        -- left. cbn in H1. congruence.
        -- right. exists i. now split.
    + rewrite Hstep. split.
      * intros (i & H1 & H2). exists (S i). now split.
      * intros ([|i] & H1 & H2).
        -- rewrite Nat.add_0_r in H2. congruence.
        -- exists i. now split.
Qed.

Lemma elem_of_filter_index {A} (f : nat -> bool) (l : list A) a :
  a ∈ filter_index f l <-> exists i, l !! i = Some a /\ f i = true.
Proof. unfold filter_index. now rewrite elem_of_filter_index_from. Qed.

Lemma filter_index_from_subseteq {A} (f : nat -> bool) (l : list A) k :
  filter_index_from f k l ⊆ l.
Proof.
  intros a Ha. apply elem_of_filter_index_from in Ha as (i & Hi & _).
  eapply list_elem_of_lookup_2; eassumption.
Qed.

Context (data : list item) (yKey : ykey) (variant : variant_t)
  (showXAxis showYAxis : bool)
  (width height yAxisWidth xAxisHeight : num)
  (hiddenSeries : gset nat).

Local Abbreviation yKeys' := (yKeys yKey).
Local Abbreviation isStacked' := (isStacked yKey variant).
Local Abbreviation has' := (has hiddenSeries).
Local Abbreviation maxValue' := (maxValue data yKey variant hiddenSeries).
Local Abbreviation chartHeight' := (chartHeight showXAxis height xAxisHeight).
Local Abbreviation getPoints' :=
  (getPoints data yKey variant showXAxis showYAxis width height yAxisWidth xAxisHeight
     hiddenSeries).
Local Abbreviation allPoints' :=
  (allPoints data yKey variant showXAxis showYAxis width height yAxisWidth xAxisHeight
     hiddenSeries).

Lemma getPoints_y key sv i p :
  getPoints' key sv !! i = Some p ->
  y p = chartY + chartHeight'
        - ((value p + stackedBase p - minValue)
           / valueRange data yKey variant hiddenSeries) * chartHeight'.
Proof.
  unfold getPoints. rewrite list_lookup_imap.
  destruct (data !! i) as [d|]; [|discriminate].
  cbv [fmap option_fmap option_map]. intros Hp. apply (inj Some) in Hp. now subst p.
Qed.

Lemma visible_key_elem ki key :
  yKeys' !! ki = Some key -> has' ki = false ->
  key ∈ visibleYKeys yKey hiddenSeries.
Proof.
  intros Hk Hh. apply elem_of_filter_index. exists ki. now rewrite Hh.
Qed.

Lemma maxValue_keys ki key :
  yKeys' !! ki = Some key -> has' ki = false ->
  (if (0 <? length (visibleYKeys yKey hiddenSeries))%nat
   then visibleYKeys yKey hiddenSeries else yKeys')
  = visibleYKeys yKey hiddenSeries.
Proof.
  intros Hk Hh. pose proof (visible_key_elem ki key Hk Hh) as He.
  destruct (visibleYKeys yKey hiddenSeries); [inversion He | reflexivity].
Qed.

Lemma mul_fin_inv a q m : a * Fin q = Fin m -> exists M, a = Fin M /\ m = (M * q)%Qc.
Proof.
  destruct a as [M| | |]; cbn.
  - intros H. exists M. split; [reflexivity | congruence].
  - destruct (q ?= 0)%Qc; discriminate.
  - destruct (q ?= 0)%Qc; discriminate.
  - discriminate.
Qed.

(** The largest value (the largest total in stacked mode) bounds the
    top of every visible series at every data item. *)
Lemma top_le_max (m : Qc) ki key d :
  nonneg_reads yKeys' data ->
  yKeys' !! ki = Some key -> has' ki = false -> d ∈ data ->
  maxValue' = Fin m ->
  exists qv qb M,
    raw d key = Fin qv /\
    (if isStacked'
     then sum_nums (map (raw d) (visible_below hiddenSeries yKeys' ki))
     else zero) = Fin qb /\
    (0 <= qv)%Qc /\ (0 <= qb)%Qc /\ (qv + qb <= M)%Qc /\
    m = (M * Q2Qc (11 # 10))%Qc.
Proof.
  intros Hnn Hk Hh Hd Hmax.
  destruct (Hnn d key Hd (list_elem_of_lookup_2 _ _ _ Hk)) as (qv & Hqv & Hqv0).
  assert (Hbelow : Forall (fun a => exists q, a = Fin q /\ (0 <= q)%Qc)
                     (map (raw d) (visible_below hiddenSeries yKeys' ki))).
  { apply Forall_fmap, Forall_forall. intros k Hkin. apply Hnn; [assumption|].
    apply filter_index_from_subseteq in Hkin.
    eapply subseteq_take; eassumption. }
  apply sum_nums_nonneg in Hbelow as (sb & Hsb & Hsb0).
  unfold maxValue in Hmax. rewrite (maxValue_keys ki key Hk Hh) in Hmax.
  destruct isStacked' eqn:Hst.
  - apply mul_fin_inv in Hmax as (M & HM & Hm).
    exists qv, sb, M. repeat split; try assumption.
    assert (Hle : le (sum_nums (map (raw d) (visibleYKeys yKey hiddenSeries))) (Fin M)
                  = true).
    { apply (Math_max_ub _ _ _ HM). apply list_elem_of_fmap. exists d.
      split; [|assumption].
      change (fun sum key0 => sum + or0 (get d key0))
        with (fun sum key0 => sum + raw d key0).
      rewrite <- (foldl_fmap add zero (visibleYKeys yKey hiddenSeries) (raw d)).
      now rewrite foldl_add_sum, add_zero_l. }
    revert Hle. unfold visibleYKeys, filter_index.
    rewrite <- (take_drop (S ki) yKeys') at 1.
    rewrite filter_index_from_app, (take_S_r _ _ key) by assumption.
    rewrite filter_index_from_app. cbn [filter_index_from].
    rewrite !Nat.add_0_l, length_take_le by (apply lookup_lt_Some in Hk; lia).
    rewrite Hh. cbn [negb].
    rewrite !map_app, !sum_nums_app. cbn [map]. rewrite sum_nums_cons.
    change (sum_nums []) with zero. rewrite add_zero_r.
    unfold visible_below, filter_index in Hsb. unfold has. rewrite Hsb, Hqv.
    match goal with
    | |- context [sum_nums (map (raw d) ?rest)] =>
        assert (Hrest : Forall (fun a => exists q, a = Fin q /\ (0 <= q)%Qc)
                          (map (raw d) rest))
    end.
    { apply Forall_fmap, Forall_forall. intros k Hkin. apply Hnn; [assumption|].
      apply filter_index_from_subseteq in Hkin.
      eapply subseteq_drop; eassumption. }
    apply sum_nums_nonneg in Hrest as (sr & -> & Hsr0).
    cbn [add]. intros Hle. apply le_fin in Hle. qc_lra.
  - apply mul_fin_inv in Hmax as (M & HM & Hm).
    exists qv, 0%Qc, M. repeat split; try assumption; try apply Qcle_refl.
    assert (Hle : le (raw d key) (Fin M) = true).
    { apply (Math_max_ub _ _ _ HM). apply list_elem_of_In, in_flat_map.
      exists d. split; [now apply list_elem_of_In|].
      apply list_elem_of_In, list_elem_of_fmap. exists key.
      split; [reflexivity | now apply (visible_key_elem ki)]. }
    rewrite Hqv in Hle. apply le_fin in Hle. qc_lra.
Qed.

(** With data that are not negative, a positive finite [maxValue] and a
    plot of finite height that is not negative, every point of every
    series lies between the top edge and the bottom edge of the plot
    rectangle. *)
Theorem area_points_inside_plot (h m : Qc) :
  chartHeight' = Fin h -> (0 <= h)%Qc ->
  maxValue' = Fin m -> (0 < m)%Qc ->
  nonneg_reads yKeys' data ->
  forall ki s i p, allPoints' !! ki = Some s -> points s !! i = Some p ->
    finite (y p) /\
    le chartY (y p) = true /\ le (y p) (chartY + chartHeight') = true.
Proof.
  intros Hh Hh0 Hm Hm0 Hnn ki s i p Hs Hp.
  apply allPoints_entry in Hs as (key & Hk & ->).
  unfold series_entry in Hp. destruct (has' ki) eqn:Hhid; [discriminate Hp|].
  cbn [points] in Hp.
  pose proof (getPoints_y _ _ _ _ Hp) as Hy.
  apply getPoints_lookup in Hp as (d & Hd & Hv & Hb).
  apply list_elem_of_lookup_2 in Hd as Hdin.
  destruct (top_le_max m ki key d Hnn Hk Hhid Hdin Hm)
    as (qv & qb & M & Hqv & Hqb & Hqv0 & Hqb0 & Hle & HmM).
  assert (Hbase : stackedBase p = Fin qb).
  { rewrite Hb, <- Hqb. destruct isStacked' eqn:Hst; [|reflexivity].
    unfold nth_num, stackedValues_after. rewrite Hst.
    rewrite list_lookup_fmap, Hd. reflexivity. }
  rewrite Hy, Hv, Hqv, Hbase, Hh. unfold valueRange. rewrite Hm.
  unfold minValue, chartY, topPadding, zero, of_nat, of_Z.
  cbn [sub add neg]. rewrite div_fin by (intros E; qc_lra).
  cbn [mul add neg].
  assert (Hr : (0 <= (qv + qb + - 0) / (m + - 0))%Qc /\
               ((qv + qb + - 0) / (m + - 0) <= 1)%Qc).
  { replace (m + - 0)%Qc with m by (apply Qc_is_canon; qc_push; ring).
    replace (qv + qb + - 0)%Qc with (qv + qb)%Qc by (apply Qc_is_canon; qc_push; ring).
    apply Qcdiv_unit; [qc_lra | | assumption].
    subst m. qc_lra. }
  destruct Hr as [Hr0 Hr1]. revert Hr0 Hr1.
  generalize ((qv + qb + - 0) / (m + - 0))%Qc. intros r Hr0 Hr1.
  split; [reflexivity|]. split; apply le_fin; qc_nra.
Qed.

Lemma pixel_x_increasing cx w n (i : nat) :
  (0 < w)%Qc -> (pixel_x cx w n (Z.of_nat i) < pixel_x cx w n (Z.of_nat (S i)))%Qc.
Proof.
  intros Hw. pose proof (pixel_x_step cx w n i) as Hs.
  assert (Hd : (0 < w / divisor n)%Qc).
  { pose proof (divisor_pos n) as Hdp.
    assert (Hdp' : (0 < this (divisor n))%Q) by (revert Hdp; unfold Qclt; now qc_push).
    unfold Qclt. qc_push. apply Qlt_shift_div_l; [assumption|]. qc_lra. }
  revert Hs Hd. generalize (w / divisor n)%Qc.
  generalize (pixel_x cx w n (Z.of_nat (S i))), (pixel_x cx w n (Z.of_nat i)).
  intros a b c Hs Hd. qc_lra.
Qed.

Lemma sum_nums_finite l : Forall finite l -> finite (sum_nums l).
Proof.
  induction 1 as [|a l Ha _ IH]; [reflexivity|].
  rewrite sum_nums_cons. destruct a, (sum_nums l); try discriminate. reflexivity.
Qed.

(** With finite data, a finite [maxValue] other than 0 and a plot
    rectangle of finite position and size, every point of every series has
    finite coordinates, and x increases strictly along a series when the
    width is positive. *)
Lemma allPoints_finite (cx w h m : Qc) ki s :
  chartX showYAxis yAxisWidth = Fin cx ->
  chartWidth showYAxis width yAxisWidth = Fin w ->
  chartHeight' = Fin h ->
  maxValue' = Fin m -> m <> 0%Qc ->
  finite_reads yKeys' data ->
  allPoints' !! ki = Some s ->
  Forall finite_point (points s) /\ ((0 < w)%Qc -> increasing_x (points s)).
Proof.
  intros Hcx Hw Hh Hm Hm0 Hfin Hs.
  apply allPoints_entry in Hs as (key & Hk & ->).
  unfold series_entry. destruct (has' ki) eqn:Hhid; cbn [points].
  { split; [constructor|]. intros _ i p q Hp. discriminate Hp. }
  split.
  - apply Forall_lookup. intros i p Hp. split.
    + erewrite getPoints_x by eassumption. reflexivity.
    + pose proof (getPoints_y _ _ _ _ Hp) as Hy.
      apply getPoints_lookup in Hp as (d & Hd & Hv & Hb).
      apply list_elem_of_lookup_2 in Hd as Hdin.
      assert (Hfv : finite (value p)).
      { rewrite Hv. apply Hfin; [assumption|].
        eapply list_elem_of_lookup_2; eassumption. }
      assert (Hfb : finite (stackedBase p)).
      { rewrite Hb. destruct isStacked' eqn:Hst; [|reflexivity].
        unfold nth_num, stackedValues_after. rewrite Hst.
        rewrite list_lookup_fmap, Hd. cbn [fmap option_fmap option_map].
        apply sum_nums_finite, Forall_fmap, Forall_forall. intros k Hkin.
        apply Hfin; [assumption|].
        apply filter_index_from_subseteq in Hkin.
        eapply subseteq_take; eassumption. }
      rewrite Hy, Hh. unfold valueRange. rewrite Hm.
      destruct (value p), (stackedBase p); try discriminate.
      unfold minValue, chartY, topPadding, zero, of_nat, of_Z.
      cbn [sub add neg]. rewrite div_fin by (intros E; qc_lra). reflexivity.
  - intros Hw0 i p q Hp Hq.
    erewrite (getPoints_x _ _ _ _ _ _ _ _ _ _ _ _ i p) by eassumption.
    erewrite (getPoints_x _ _ _ _ _ _ _ _ _ _ _ _ (S i) q) by eassumption.
    apply lt_fin. now apply pixel_x_increasing.
Qed.

End AreaPlot.

Lemma area_points_inside_plot_witness :
  (0 <= Q2Qc 105)%Qc /\
  forall ki s i p,
    AreaChart.allPoints Examples.months (YString "value") AreaChart.curved true true
      (of_nat 300) (of_nat 150) (of_nat 50) (of_nat 30) ∅ !! ki = Some s ->
    AreaChart.points s !! i = Some p ->
    Spec.finite (AreaChart.y p) /\
    le AreaChart.chartY (AreaChart.y p) = true /\
    le (AreaChart.y p)
       (AreaChart.chartY + AreaChart.chartHeight true (of_nat 150) (of_nat 30)) = true.
Proof.
  split; [vm_compute; discriminate|].
  apply (area_points_inside_plot Examples.months (YString "value") AreaChart.curved
           true true (of_nat 300) (of_nat 150) (of_nat 50) (of_nat 30) ∅
           (Q2Qc 105) (Q2Qc 33)).
  - compute_done.
  - vm_compute. discriminate.
  - compute_done.
  - vm_compute. reflexivity.
  - intros d key Hd Hk. apply list_elem_of_singleton in Hk. subst key.
    unfold Examples.months in Hd.
    repeat (apply elem_of_cons in Hd as [-> | Hd]);
      [ exists (Q2Qc 10) | exists (Q2Qc 30) | exists (Q2Qc 20) | inversion Hd ];
      (split; [compute_done | vm_compute; discriminate]).
Defined.

(** ** The rendered areas (AreaChart.generateAreaPath and the render pass) *)

Section RenderAreas.

Import AreaChart Spec.

Lemma visiblePoints_nil ap : visiblePoints ap (@nil point) = [].
Proof. unfold visiblePoints, slice0. apply take_nil. Qed.

Lemma visiblePoints_cons ap (points : list point) :
  le zero ap = true -> points <> [] ->
  exists p0 rest k, (1 <= k)%nat /\ visiblePoints ap points = p0 :: rest /\
                    p0 :: rest = take k points /\ points !! 0%nat = Some p0.
Proof.
  intros Hap Hne. destruct (visiblePoints_ge1 ap points Hap) as (k & Hk & Hvp).
  destruct points as [|p points]; [congruence|].
  destruct k as [|k]; [lia|].
  exists p, (take k points), (S k). rewrite Hvp. repeat split; assumption.
Qed.

Lemma generateLinePath_is_Some variant ap points smooth :
  le zero ap = true -> is_Some (generateLinePath variant ap points smooth).
Proof.
  intros Hap.
  destruct (Nat.lt_ge_cases (length points) 2) as [Hlt | Hge].
  { rewrite generateLinePath_short by assumption. eauto. }
  destruct (visiblePoints_cons ap points Hap) as (p0 & rest & k & Hk & Hvp & _ & _).
  { destruct points; [cbn in Hge; lia | discriminate]. }
  destruct (decide (variant = stepped)) as [Hs | Hs].
  { erewrite generateLinePath_stepped by eassumption. eauto. }
  destruct smooth; [|rewrite generateLinePath_straight by assumption; eauto].
  destruct rest as [|p1 [|p2 rest]].
  - unfold generateLinePath.
    replace (length points <? 2)%nat with false by (symmetry; apply Nat.ltb_ge; lia).
    rewrite Hvp, bool_decide_eq_false_2 by assumption. cbn. eauto.
  - unfold generateLinePath.
    replace (length points <? 2)%nat with false by (symmetry; apply Nat.ltb_ge; lia).
    rewrite Hvp, bool_decide_eq_false_2 by assumption. cbn. eauto.
  - destruct (curved_path_eq variant ap points _ p0 Hs Hvp) as [_ ->];
      [cbn; lia | reflexivity | eauto].
Qed.

Lemma Forall_finite_flat_map {A} (f : A -> list num) l :
  Forall (fun a => Forall finite (f a)) l -> Forall finite (flat_map f l).
Proof.
  induction 1 as [|a l Ha _ IH]; [constructor|].
  cbn [flat_map]. apply Forall_app. now split.
Qed.

Lemma increasing_x_take k vp : increasing_x vp -> increasing_x (take k vp).
Proof.
  intros H i p q Hp Hq. apply lookup_take_Some in Hp as [Hp _].
  apply lookup_take_Some in Hq as [Hq _]. eapply H; eassumption.
Qed.

(** Over points of finite coordinates whose x increases strictly, every
    number written into the line path is finite. *)
Lemma line_path_finite variant ap points smooth :
  le zero ap = true -> Forall finite_point points -> increasing_x points ->
  exists path,
    generateLinePath variant ap points smooth = Some path /\
    Forall finite (path_coords path).
Proof.
  intros Hap Hfin Hinc.
  destruct (Nat.lt_ge_cases (length points) 2) as [Hlt | Hge].
  { rewrite generateLinePath_short by assumption. eexists. split; [reflexivity|constructor]. }
  destruct (visiblePoints_cons ap points Hap) as (p0 & rest & k & Hk & Hvp & Htake & _).
  { destruct points; [cbn in Hge; lia | discriminate]. }
  assert (Hfvp : Forall finite_point (p0 :: rest)).
  { rewrite Htake. now apply Forall_take. }
  assert (Hivp : increasing_x (p0 :: rest)).
  { rewrite Htake. now apply increasing_x_take. }
  assert (Hcmd : forall p, finite_point p ->
            Forall finite [x p; y p]).
  { intros p [Hx Hy]. repeat constructor; assumption. }
  destruct (decide (variant = stepped)) as [Hs | Hs].
  { erewrite generateLinePath_stepped by eassumption.
    eexists. split; [reflexivity|].
    apply Forall_cons in Hfvp as [H0 Hrest].
    unfold path_coords. cbn [flat_map cmd_coords]. apply Forall_app. split; [now apply Hcmd|].
    clear -Hrest. induction Hrest as [|p rest [Hx Hy] _ IH]; [constructor|].
    cbn [flat_map app cmd_coords]. now repeat constructor. }
  destruct smooth.
  - destruct rest as [|p1 [|p2 rest]].
    + unfold generateLinePath.
      replace (length points <? 2)%nat with false by (symmetry; apply Nat.ltb_ge; lia).
      rewrite Hvp, bool_decide_eq_false_2 by assumption. cbn.
      eexists. split; [reflexivity | constructor].
    + unfold generateLinePath.
      replace (length points <? 2)%nat with false by (symmetry; apply Nat.ltb_ge; lia).
      rewrite Hvp, bool_decide_eq_false_2 by assumption. cbn.
      eexists. split; [reflexivity|].
      apply Forall_cons in Hfvp as [[? ?] Hrest].
      apply Forall_cons in Hrest as [[? ?] _].
      repeat constructor; assumption.
    + apply (curved_path_coordinates_finite variant ap points _ Hs Hvp);
        [cbn; lia | assumption | assumption].
  - rewrite generateLinePath_straight, Hvp by assumption.
    eexists. split; [reflexivity|].
    unfold path_coords. apply Forall_finite_flat_map, Forall_lookup.
    intros i c Hc. rewrite list_lookup_imap in Hc.
    destruct ((p0 :: rest) !! i) as [p|] eqn:Hp; [|discriminate].
    cbv [fmap option_fmap option_map] in Hc. apply (inj Some) in Hc. subst c.
    pose proof (Forall_lookup_1 _ _ _ _ Hfvp Hp) as Hfp.
    destruct (i =? 0)%nat; now apply Hcmd.
Qed.

Context (data : list item) (yKey : ykey) (variant : variant_t)
  (color_name : ChartUtils.palette_name)
  (showLine showXAxis showYAxis : bool)
  (width height yAxisWidth xAxisHeight : num)
  (animationProgress : num) (hiddenSeries : gset nat).

Local Abbreviation yKeys' := (yKeys yKey).
Local Abbreviation isStacked' := (isStacked yKey variant).
Local Abbreviation has' := (has hiddenSeries).
Local Abbreviation chartHeight' := (chartHeight showXAxis height xAxisHeight).
Local Abbreviation valueRange' := (valueRange data yKey variant hiddenSeries).
Local Abbreviation allPoints' :=
  (allPoints data yKey variant showXAxis showYAxis width height yAxisWidth xAxisHeight
     hiddenSeries).
Local Abbreviation drawnSeries' :=
  (drawnSeries data yKey variant showXAxis showYAxis width height yAxisWidth xAxisHeight
     hiddenSeries).
Local Abbreviation series_entry' :=
  (series_entry data yKey variant showXAxis showYAxis width height yAxisWidth xAxisHeight
     hiddenSeries).
Local Abbreviation generateAreaPath' :=
  (generateAreaPath data yKey variant showXAxis height xAxisHeight animationProgress
     hiddenSeries).
Local Abbreviation generateLinePath' := (generateLinePath variant animationProgress).
Local Abbreviation renderAreas' :=
  (renderAreas data yKey variant color_name showLine showXAxis showYAxis width height
     yAxisWidth xAxisHeight animationProgress hiddenSeries).

Hypothesis Hap : le zero animationProgress = true.

Lemma generateAreaPath_short points base :
  (length points < 2)%nat -> generateAreaPath' points base = Some [].
Proof.
  intros H. unfold generateAreaPath. now rewrite generateLinePath_short by assumption.
Qed.

Lemma last_visible_is_Some (points : list point) :
  points <> [] ->
  is_Some (visiblePoints animationProgress points
             !! (length (visiblePoints animationProgress points) - 1)%nat) /\
  is_Some (visiblePoints animationProgress points !! 0%nat).
Proof.
  intros Hne.
  destruct (visiblePoints_cons animationProgress points Hap Hne)
    as (p0 & rest & k & _ & -> & _ & _).
  split; [apply lookup_lt_is_Some_2; cbn; lia | cbn; eauto].
Qed.

(** Without base points, and outside the stacked variant, the fill
    path is always produced. *)
Lemma generateAreaPath_baseline points base :
  base = None \/ variant <> stacked ->
  is_Some (generateAreaPath' points base).
Proof.
  intros Hbase.
  destruct (Nat.lt_ge_cases (length points) 2) as [Hlt | Hge].
  { rewrite generateAreaPath_short by assumption. eauto. }
  unfold generateAreaPath.
  destruct (generateLinePath_is_Some variant animationProgress points
              (smooth_default variant) Hap) as [lp ->].
  cbn [mbind option_bind]. destruct (bool_decide (lp = [])); [eauto|].
  destruct (last_visible_is_Some points) as [[lastp ->] [firstp ->]].
  { destruct points; [cbn in Hge; lia | discriminate]. }
  destruct base as [bp|]; [|cbn; eauto].
  destruct Hbase as [Hb | Hv]; [discriminate|].
  rewrite bool_decide_eq_false_2 by assumption. cbn. eauto.
Qed.

(** In the stacked variant the fill path of a series of at least two
    points is produced exactly when the base series has a point: the
    closing edge starts with a read of the first base point. *)
Lemma generateAreaPath_stacked points bp :
  variant = stacked -> (2 <= length points)%nat ->
  (is_Some (generateAreaPath' points (Some bp)) <-> bp <> []).
Proof.
  intros Hv Hge. unfold generateAreaPath.
  assert (Hns : variant <> stepped) by (rewrite Hv; discriminate).
  assert (Hsm : smooth_default variant = false).
  { unfold smooth_default. apply bool_decide_eq_false_2. rewrite Hv. discriminate. }
  rewrite Hsm, generateLinePath_straight by assumption.
  cbn [mbind option_bind].
  assert (Hne : points <> []) by (destruct points; [cbn in Hge; lia | discriminate]).
  destruct (visiblePoints_cons animationProgress points Hap Hne)
    as (p0 & rest & k & _ & Hvp & _ & _).
  rewrite Hvp. cbn [imap]. rewrite bool_decide_eq_false_2 by discriminate.
  destruct (lookup_lt_is_Some_2 (p0 :: rest) (length (p0 :: rest) - 1)%nat) as [lastp ->];
    [cbn; lia|].
  rewrite bool_decide_eq_true_2 by assumption. cbn [mbind option_bind].
  destruct (decide (bp = [])) as [-> | Hbp].
  - rewrite visiblePoints_nil. cbn. split; [intros [? H]; discriminate H | congruence].
  - destruct (visiblePoints_cons animationProgress bp Hap Hbp)
      as (b0 & brest & kb & _ & Hvb & _ & _).
    rewrite Hvb. split; [intros _; assumption|]. intros _.
    destruct (lookup_lt_is_Some_2
                (map (fun curr =>
                        (x curr,
                         chartY + chartHeight'
                         - ((stackedBase curr - minValue) / valueRange') * chartHeight'))
                   (reverse (b0 :: brest))) 0%nat) as [b Hb].
    { rewrite length_map, length_reverse. cbn. lia. }
    rewrite Hb. cbn. eauto.
Qed.

Lemma drawn_series_entry s :
  s ∈ drawnSeries' <->
  exists ki key, yKeys' !! ki = Some key /\ has' ki = false /\ s = series_entry' ki key.
Proof.
  unfold drawnSeries. rewrite list_elem_of_filter.
  assert (Hin : s ∈ (if isStacked' then reverse allPoints' else allPoints')
                <-> s ∈ allPoints').
  { destruct isStacked'; [apply elem_of_reverse | reflexivity]. }
  rewrite Hin, list_elem_of_lookup. split.
  - intros [Hh [ki Hki]]. apply allPoints_entry in Hki as (key & Hk & ->).
    exists ki, key. repeat split; try assumption.
    unfold series_entry in Hh. destruct (has' ki); [discriminate | reflexivity].
  - intros (ki & key & Hk & Hh & ->). split.
    + unfold series_entry. now rewrite Hh.
    + exists ki. rewrite allPoints_eq, list_lookup_imap, Hk. reflexivity.
Qed.

Lemma prev_series ki key :
  yKeys' !! ki = Some key -> (0 < ki)%nat ->
  exists pkey, yKeys' !! (ki - 1)%nat = Some pkey /\
    allPoints' !! (ki - 1)%nat = Some (series_entry' (ki - 1) pkey).
Proof.
  intros Hk Hki. destruct (lookup_lt_is_Some_2 yKeys' (ki - 1)%nat) as [pkey Hp].
  { apply lookup_lt_Some in Hk. lia. }
  exists pkey. split; [assumption|].
  rewrite allPoints_eq, list_lookup_imap, Hp. reflexivity.
Qed.

Lemma series_entry_points ki key :
  has' ki = false -> length (points (series_entry' ki key)) = length data.
Proof.
  intros Hh. unfold series_entry. rewrite Hh. cbn [points]. apply length_imap.
Qed.

Lemma series_entry_hidden ki key : has' ki = true -> points (series_entry' ki key) = [].
Proof. intros Hh. unfold series_entry. now rewrite Hh. Qed.

Lemma series_entry_index ki key : index (series_entry' ki key) = ki.
Proof. unfold series_entry. now destruct (has' ki). Qed.

(** The group of a drawn series is produced unless, in stacked mode
    over at least two data items, the series just below it is hidden. *)
Lemma render_group_is_Some ki key :
  yKeys' !! ki = Some key -> has' ki = false ->
  let ap := series_entry' ki key in
  is_Some
    (prevPoints ←
       (if isStacked' && (0 <? index ap)%nat
        then prev ← allPoints' !! (index ap - 1)%nat; Some (Some (points prev))
        else Some None);
     d ← generateAreaPath' (points ap) prevPoints;
     line ←
       (if showLine
        then l ← generateLinePath' (points ap) (smooth_default variant); Some (Some l)
        else Some None);
     Some (mkGroup (AreaChart.key ap) (index ap) d (getAreaColor yKey color_name (index ap))
             line))
  <-> ~ (isStacked' = true /\ (2 <= length data)%nat /\ (0 < ki)%nat
         /\ has' (ki - 1) = true).
Proof.
  intros Hk Hh ap.
  assert (Hline : is_Some
            (if showLine
             then l ← generateLinePath' (points ap) (smooth_default variant); Some (Some l)
             else Some None)).
  { destruct showLine; [|eauto].
    destruct (generateLinePath_is_Some variant animationProgress (points ap)
                (smooth_default variant) Hap) as [l ->]. cbn. eauto. }
  destruct Hline as [line Hline]. rewrite Hline.
  assert (Hidx : index ap = ki) by apply series_entry_index.
  rewrite !Hidx.
  assert (Hlen : length (points ap) = length data) by now apply series_entry_points.
  destruct isStacked' eqn:Hst; cbn [andb].
  2:{ cbn [mbind option_bind].
      destruct (generateAreaPath_baseline (points ap) None) as [d ->]; [now left|].
      cbn. split; [intros _ (H & _); discriminate H | eauto]. }
  assert (Hv : variant = stacked).
  { unfold isStacked in Hst. apply andb_true_iff in Hst as [Hst _].
    now apply bool_decide_eq_true in Hst. }
  destruct (0 <? ki)%nat eqn:Hpos.
  2:{ apply Nat.ltb_ge in Hpos. cbn [mbind option_bind].
      destruct (generateAreaPath_baseline (points ap) None) as [d ->]; [now left|].
      cbn. split; [intros _ (_ & _ & H & _); lia | eauto]. }
  apply Nat.ltb_lt in Hpos.
  destruct (prev_series ki key Hk Hpos) as (pkey & Hpk & ->).
  cbn [mbind option_bind].
  destruct (Nat.lt_ge_cases (length data) 2) as [Hlt | Hge].
  { rewrite generateAreaPath_short by lia. cbn.
    split; [intros _ (_ & H & _); lia | eauto]. }
  pose proof (generateAreaPath_stacked (points ap)
                (points (series_entry' (ki - 1) pkey)) Hv) as Hiff.
  rewrite Hlen in Hiff. specialize (Hiff Hge).
  destruct (has' (ki - 1)) eqn:Hprev.
  - rewrite series_entry_hidden in * by assumption.
    destruct (generateAreaPath' (points ap) (Some [])) as [d|] eqn:Hd.
    + exfalso. apply Hiff; eauto.
    + cbn. split; [intros [? H]; discriminate H | intros H; exfalso; apply H; tauto].
  - assert (Hne : points (series_entry' (ki - 1) pkey) <> []).
    { intros E. apply (f_equal length) in E.
      rewrite series_entry_points in E by assumption. cbn in E. lia. }
    apply Hiff in Hne as [d ->]. cbn.
    split; [intros _ (_ & _ & _ & H); discriminate H | eauto].
Qed.

(** The render pass of the areas returns its groups unless a visible
    series of a stacked chart of at least two data items stands directly on
    a hidden one. *)
Lemma render_areas_is_Some_iff :
  is_Some renderAreas' <->
  ~ (isStacked' = true /\ (2 <= length data)%nat /\
     stands_on_hidden hiddenSeries (length yKeys')).
Proof.
  unfold renderAreas. rewrite mapM_is_Some, Forall_forall. split.
  - intros Hall (Hst & Hn & ki & Hki & Hvis & Hprev).
    destruct (lookup_lt_is_Some_2 yKeys' ki) as [key Hk]; [lia|].
    assert (Hh : has' ki = false) by now apply bool_decide_eq_false_2.
    specialize (Hall (series_entry' ki key)).
    cbn [compose] in Hall.
    apply (render_group_is_Some ki key Hk Hh) in Hall.
    + apply Hall. repeat split; try assumption; try lia.
      now apply bool_decide_eq_true_2.
    + apply drawn_series_entry. eauto.
  - intros Hno s Hs. apply drawn_series_entry in Hs as (ki & key & Hk & Hh & ->).
    cbn [compose]. apply (render_group_is_Some ki key Hk Hh).
    intros (Hst & Hn & Hpos & Hprev). apply Hno. repeat split; try assumption.
    exists ki. apply lookup_lt_Some in Hk.
    repeat split; try lia.
    + now apply bool_decide_eq_false in Hh.
    + now apply bool_decide_eq_true in Hprev.
Qed.

(** For a progress that is not negative the render pass of the areas
    throws exactly when the chart is stacked, has at least two data items
    and a visible series stands directly on a hidden one: the fill path of
    that series reads the first point of the empty base series. *)
Theorem render_areas_throws_iff :
  renderAreas' = None <->
  isStacked' = true /\ (2 <= length data)%nat /\
  stands_on_hidden hiddenSeries (length yKeys').
Proof.
  pose proof render_areas_is_Some_iff as Hsome.
  destruct renderAreas' as [groups|] eqn:E.
  - split; [discriminate|]. intros H. exfalso. apply Hsome; eauto.
  - split; [|reflexivity]. intros _.
    destruct (decide (isStacked' = true)) as [Hst | Hst]; [|exfalso; apply (is_Some_None (A:=list area_group)), Hsome; tauto].
    destruct (decide (2 <= length data)%nat) as [Hn | Hn]; [|exfalso; apply (is_Some_None (A:=list area_group)), Hsome; tauto].
    split; [assumption|]. split; [assumption|].
    destruct (decide (Exists (fun ki => (0 < ki < length yKeys')%nat /\
                                (ki ∉ hiddenSeries) /\ ((ki - 1)%nat ∈ hiddenSeries))
                        (seq 0 (length yKeys')))) as [Hex | Hno].
    + apply Exists_exists in Hex as (ki & _ & Hki). now exists ki.
    + exfalso. apply (is_Some_None (A:=list area_group)), Hsome.
      intros (_ & _ & ki & Hki). apply Hno, Exists_exists. exists ki.
      split; [apply elem_of_seq; lia | exact Hki].
Qed.

Lemma drawnSeries_length :
  length drawnSeries' = length (visibleYKeys yKey hiddenSeries).
Proof.
  unfold drawnSeries.
  assert (Hlen : length (filter (fun ap => hidden ap = false) allPoints')
                 = length (visibleYKeys yKey hiddenSeries)).
  { rewrite allPoints_eq. unfold visibleYKeys, filter_index.
    change series_entry' with (fun i key => series_entry' (0 + i) key).
    generalize 0%nat. induction yKeys' as [|key l IH]; intros k; [reflexivity|].
    rewrite imap_cons. cbn [filter_index_from]. rewrite filter_cons.
    specialize (IH (S k)). rewrite Nat.add_0_r.
    assert (Himap : imap ((fun i key0 => series_entry' (k + i) key0) ∘ S) l
                    = imap (fun i key0 => series_entry' (S k + i) key0) l).
    { apply imap_ext. intros i key0 _. cbn [compose]. f_equal. lia. }
    rewrite Himap.
    assert (Hhid : hidden (series_entry' k key) = has' k).
    { unfold series_entry. now destruct (has' k). }
    case_decide as Hd; rewrite Hhid in Hd.
    - rewrite Hd. cbn [negb length]. now rewrite IH.
    - destruct (has' k); [exact IH | congruence]. }
  destruct isStacked'; [|exact Hlen].
  now rewrite filter_reverse, length_reverse.
Qed.

Section FiniteRender.

Context (cx w h m : Qc).
Hypothesis Hcx : chartX showYAxis yAxisWidth = Fin cx.
Hypothesis Hw : chartWidth showYAxis width yAxisWidth = Fin w.
Hypothesis Hw0 : (0 < w)%Qc.
Hypothesis Hh : chartHeight' = Fin h.
Hypothesis Hm : maxValue data yKey variant hiddenSeries = Fin m.
Hypothesis Hm0 : m <> 0%Qc.
Hypothesis Hfin : finite_reads yKeys' data.

Lemma series_entry_finite ki key :
  yKeys' !! ki = Some key ->
  Forall finite_point (points (series_entry' ki key)) /\
  increasing_x (points (series_entry' ki key)).
Proof.
  intros Hk.
  assert (Hlk : allPoints' !! ki = Some (series_entry' ki key)).
  { rewrite allPoints_eq, list_lookup_imap, Hk. reflexivity. }
  destruct (allPoints_finite data yKey variant showXAxis showYAxis width height
              yAxisWidth xAxisHeight hiddenSeries cx w h m ki _
              Hcx Hw Hh Hm Hm0 Hfin Hlk) as [H1 H2].
  split; [assumption | now apply H2].
Qed.

(** The y of the base of a point is finite. *)
Lemma series_entry_base_finite ki key :
  yKeys' !! ki = Some key ->
  Forall (fun curr =>
            finite (chartY + chartHeight'
                    - ((stackedBase curr - minValue) / valueRange') * chartHeight'))
    (points (series_entry' ki key)).
Proof.
  intros Hk. unfold series_entry. destruct (has' ki); cbn [points]; [constructor|].
  apply Forall_lookup. intros i p Hp.
  apply getPoints_lookup in Hp as (d & Hd & _ & Hb).
  apply list_elem_of_lookup_2 in Hd as Hdin.
  assert (Hfb : finite (stackedBase p)).
  { rewrite Hb. destruct isStacked' eqn:Hst; [|reflexivity].
    unfold nth_num, stackedValues_after. rewrite Hst.
    rewrite list_lookup_fmap, Hd. cbn [fmap option_fmap option_map].
    apply sum_nums_finite, Forall_fmap, Forall_forall. intros k Hkin.
    apply Hfin; [assumption|].
    apply filter_index_from_subseteq in Hkin.
    eapply subseteq_take; eassumption. }
  rewrite Hh. unfold valueRange. rewrite Hm.
  destruct (stackedBase p); try discriminate.
  unfold minValue, chartY, topPadding, zero, of_nat, of_Z.
  cbn [sub add neg]. rewrite div_fin by (intros E; qc_lra). reflexivity.
Qed.

Lemma baseline_finite : finite (chartY + chartHeight').
Proof. now rewrite Hh. Qed.

(** The fill path of a series of finite points over a base series of
    finite points has finite coordinates. *)
Lemma generateAreaPath_finite points base d :
  generateAreaPath' points base = Some d ->
  Forall finite_point points -> increasing_x points ->
  (forall bp, base = Some bp ->
     Forall (fun curr =>
               finite (x curr) /\
               finite (chartY + chartHeight'
                       - ((stackedBase curr - minValue) / valueRange') * chartHeight'))
       bp) ->
  Forall finite (path_coords d).
Proof.
  intros Hd Hpts Hinc Hbase. unfold generateAreaPath in Hd.
  destruct (line_path_finite variant animationProgress points (smooth_default variant)
              Hap Hpts Hinc) as (lp & Hlp & Hlpfin).
  rewrite Hlp in Hd. cbn [mbind option_bind] in Hd.
  destruct (bool_decide (lp = [])).
  { apply (inj Some) in Hd. subst d. constructor. }
  assert (Hvis : Forall finite_point (visiblePoints animationProgress points)).
  { unfold visiblePoints, slice0. now apply Forall_take. }
  assert (Hclose : forall lastp firstp,
            visiblePoints animationProgress points
              !! (length (visiblePoints animationProgress points) - 1)%nat = Some lastp ->
            visiblePoints animationProgress points !! 0%nat = Some firstp ->
            Forall finite
              (path_coords (lp ++ [L (x lastp) (chartY + chartHeight');
                                   L (x firstp) (chartY + chartHeight'); Close]))).
  { intros lastp firstp Hl Hf. unfold path_coords. rewrite flat_map_app.
    apply Forall_app. split; [exact Hlpfin|].
    destruct (Forall_lookup_1 _ _ _ _ Hvis Hl) as [Hxl _].
    destruct (Forall_lookup_1 _ _ _ _ Hvis Hf) as [Hxf _].
    pose proof baseline_finite. cbn. repeat constructor; assumption. }
  destruct (visiblePoints animationProgress points
              !! (length (visiblePoints animationProgress points) - 1)%nat)
    as [lastp|] eqn:Hlast.
  2:{ destruct base as [bp|]; [destruct (bool_decide (variant = stacked))|];
        discriminate Hd. }
  assert (Hbaseline :
            (firstp ← visiblePoints animationProgress points !! 0%nat;
             Some (lp ++ [L (x lastp) (chartY + chartHeight');
                          L (x firstp) (chartY + chartHeight'); Close])) = Some d ->
            Forall finite (path_coords d)).
  { destruct (visiblePoints animationProgress points !! 0%nat) as [firstp|] eqn:Hfirst;
      [|discriminate].
    cbn. intros E. apply (inj Some) in E. subst d. now apply Hclose. }
  destruct base as [bp|]; [|exact (Hbaseline Hd)].
  destruct (bool_decide (variant = stacked)); [|exact (Hbaseline Hd)].
  cbn [mbind option_bind] in Hd.
  match type of Hd with
  | context [map ?f (reverse ?vb)] =>
      assert (Hbfin : Forall (fun b => finite b.1 /\ finite b.2) (map f (reverse vb)))
  end.
  { apply Forall_fmap, Forall_reverse. unfold visiblePoints, slice0.
    apply Forall_take. eapply Forall_impl; [exact (Hbase bp eq_refl)|].
    intros curr [? ?]. now split. }
  revert Hd Hbfin.
  match goal with
  | |- context [map ?f (reverse ?vb)] => generalize (map f (reverse vb))
  end.
  intros bys Hd Hbfin.
  destruct bys as [|b0 bys]; [discriminate Hd|].
  cbn in Hd. apply (inj Some) in Hd. subst d.
  apply Forall_cons in Hbfin as [[_ Hb0] Hbys].
  unfold path_coords. rewrite flat_map_app.
  destruct (Forall_lookup_1 _ _ _ _ Hvis Hlast) as [Hxl _].
  apply Forall_app. split; [exact Hlpfin|].
  cbn [flat_map cmd_coords app]. do 2 (constructor; [assumption|]).
  rewrite flat_map_app. apply Forall_app. split; [|constructor].
  rewrite drop_0. clear -Hbys.
  induction Hbys as [|b bys [? ?] _ IH]; [constructor|].
  cbn. now repeat constructor.
Qed.

(** The paths of the groups the render pass returns hold finite numbers
    only. *)
Lemma render_groups_finite groups :
  renderAreas' = Some groups ->
  Forall (fun g =>
            Forall finite (path_coords (g_fill g)) /\
            forall l, g_line g = Some l -> Forall finite (path_coords l)) groups.
Proof.
  intros E. unfold renderAreas in E. apply mapM_Some_1 in E.
  apply Forall_forall. intros g Hg.
  apply list_elem_of_lookup in Hg as [j Hj].
  destruct (Forall2_lookup_r _ _ _ _ _ E Hj) as (s & Hs & Hbody).
  apply list_elem_of_lookup_2, drawn_series_entry in Hs as (ki & key & Hk & Hhid & ->).
  destruct (series_entry_finite ki key Hk) as [Hpf Hpi].
  rewrite series_entry_index in Hbody.
  match type of Hbody with
  | (?mm ≫= _) = Some _ => destruct mm as [prevPoints|] eqn:Eprev; [|discriminate Hbody]
  end.
  cbn [mbind option_bind] in Hbody.
  match type of Hbody with
  | (?mm ≫= _) = Some _ => destruct mm as [d|] eqn:Ed; [|discriminate Hbody]
  end.
  cbn [mbind option_bind] in Hbody.
  match type of Hbody with
  | (?mm ≫= _) = Some _ => destruct mm as [line|] eqn:Eline; [|discriminate Hbody]
  end.
  cbn [mbind option_bind] in Hbody.
  apply (inj Some) in Hbody. subst g. cbn [g_fill g_line].
  split.
  - eapply generateAreaPath_finite; [eassumption | assumption | assumption |].
    intros bp ->.
    destruct (isStacked' && (0 <? ki)%nat) eqn:Hcond; [|discriminate].
    destruct (allPoints' !! (ki - 1)%nat) as [prev|] eqn:Hprev; [|discriminate].
    cbn in Eprev. injection Eprev as <-.
    apply allPoints_entry in Hprev as (pkey & Hpk & ->).
    destruct (series_entry_finite (ki - 1) pkey Hpk) as [Hbf _].
    pose proof (series_entry_base_finite (ki - 1) pkey Hpk) as Hbb.
    apply Forall_lookup. intros i p Hp.
    destruct (Forall_lookup_1 _ _ _ _ Hbf Hp) as [Hx _].
    split; [assumption | exact (Forall_lookup_1 _ _ _ _ Hbb Hp)].
  - intros ln Hln. subst line. destruct showLine; [|discriminate].
    destruct (line_path_finite variant animationProgress (points (series_entry' ki key))
                (smooth_default variant) Hap Hpf Hpi) as (lp & Hlp & Hlpfin).
    rewrite Hlp in Eline. cbn in Eline. congruence.
Qed.

(** With finite data, a finite [maxValue] other than 0, a plot
    rectangle of finite size and positive width and a progress that is not
    negative, and unless a visible series stands on a hidden one in stacked
    mode, the render pass produces the groups of the visible series and
    every number written into their fill paths and line paths is finite. *)
Theorem rendered_areas_are_finite :
  ~ (isStacked' = true /\ (2 <= length data)%nat /\
     stands_on_hidden hiddenSeries (length yKeys')) ->
  exists groups,
    renderAreas' = Some groups /\
    length groups = length (visibleYKeys yKey hiddenSeries) /\
    Forall (fun g =>
              Forall finite (path_coords (g_fill g)) /\
              forall l, g_line g = Some l -> Forall finite (path_coords l)) groups.
Proof.
  intros Hno.
  destruct renderAreas' as [groups|] eqn:E.
  2:{ apply render_areas_is_Some_iff in Hno. rewrite E in Hno.
      now apply is_Some_None in Hno. }
  exists groups. split; [reflexivity|].
  split; [|now apply render_groups_finite].
  unfold renderAreas in E. apply mapM_Some_1 in E.
  apply Forall2_length in E. rewrite <- E. apply drawnSeries_length.
Qed.

End FiniteRender.

End RenderAreas.

Lemma render_areas_throws_witness :
  AreaChart.renderAreas Examples.two_series (YArray ["a"; "b"]%string) AreaChart.stacked
    ChartUtils.violet true true true (of_nat 400) (of_nat 300) (of_nat 50) (of_nat 30)
    one {[ 0%nat ]} = None <->
  AreaChart.isStacked (YArray ["a"; "b"]%string) AreaChart.stacked = true /\
  (2 <= length Examples.two_series)%nat /\
  stands_on_hidden {[ 0%nat ]} (length (AreaChart.yKeys (YArray ["a"; "b"]%string))).
Proof.
  apply (render_areas_throws_iff Examples.two_series (YArray ["a"; "b"]%string)
           AreaChart.stacked ChartUtils.violet true true true (of_nat 400) (of_nat 300)
           (of_nat 50) (of_nat 30) one {[ 0%nat ]}).
  reflexivity.
Defined.

Lemma rendered_areas_are_finite_witness :
  exists groups,
    AreaChart.renderAreas Examples.months (YString "value") AreaChart.curved
      ChartUtils.violet true true true (of_nat 300) (of_nat 150) (of_nat 50) (of_nat 30)
      one ∅ = Some groups /\
    length groups = length (AreaChart.visibleYKeys (YString "value") ∅) /\
    Forall (fun g =>
              Forall Spec.finite (path_coords (AreaChart.g_fill g)) /\
              forall l, AreaChart.g_line g = Some l -> Forall Spec.finite (path_coords l))
      groups.
Proof.
  apply (rendered_areas_are_finite Examples.months (YString "value") AreaChart.curved
           ChartUtils.violet true true true (of_nat 300) (of_nat 150) (of_nat 50)
           (of_nat 30) one ∅ eq_refl (Q2Qc 50) (Q2Qc 250) (Q2Qc 105) (Q2Qc 33)).
  - compute_done.
  - compute_done.
  - vm_compute. reflexivity.
  - compute_done.
  - compute_done.
  - intros E. vm_compute in E. discriminate E.
  - intros d key Hd Hk. apply list_elem_of_singleton in Hk. subst key.
    unfold Examples.months in Hd.
    repeat (apply elem_of_cons in Hd as [-> | Hd]); [| | |inversion Hd]; reflexivity.
  - intros [H _]. vm_compute in H. discriminate H.
Defined.

(** ** The legend toggles (ChartLegend.handleToggle, handleLegendToggle) *)

Section LegendToggle.

Lemma elem_of_toggle (i j : nat) (s : gset nat) :
  j ∈ toggle i s <-> (j ∈ s /\ j <> i) \/ ((j ∉ s) /\ j = i).
Proof.
  unfold toggle. case_bool_decide as Hi.
  - rewrite elem_of_difference, elem_of_singleton. split.
    + intros [Hj Hne]. now left.
    + intros [[Hj Hne] | [Hj ->]]; [now split | contradiction].
  - rewrite elem_of_union, elem_of_singleton. split.
    + intros [Hj | ->]; [left; split; [assumption | congruence] | now right].
    + intros [[Hj _] | [_ ->]]; [now left | now right].
Qed.

(** Toggling an index twice gives the set back. *)
Lemma toggle_twice (i : nat) (s : gset nat) : toggle i (toggle i s) = s.
Proof.
  apply set_eq. intros j. rewrite !elem_of_toggle.
  destruct (decide (j ∈ s)), (decide (j = i)); tauto.
Qed.

Lemma legend_clicks_snoc b l i st :
  legend_clicks b (l ++ [i]) st
  = (if b then (toggle i (legend_clicks b l st).1, toggle i (legend_clicks b l st).2)
     else legend_clicks b l st).
Proof.
  unfold legend_clicks. rewrite foldl_app. cbn [foldl].
  unfold ChartUtils.handleToggle, AreaChart.handleLegendToggle. now destruct b.
Qed.

(** Starting with nothing hidden, after any sequence of clicks on the
    legend the legend and the chart hide the same indices, namely those
    clicked an odd number of times; with [legendInteractive] off no click
    hides anything.  The three charts share the toggle. *)
Theorem legend_clicks_hide_odd_counts (legendInteractive : bool) (l : list nat) :
  let st := legend_clicks legendInteractive l (∅, ∅) in
  st.1 = st.2 /\
  (forall i, i ∈ st.2 <->
     legendInteractive = true /\ Nat.odd (count_occ Nat.eq_dec l i) = true) /\
  (forall i prev,
     BarChart.handleLegendToggle legendInteractive i prev
     = AreaChart.handleLegendToggle legendInteractive i prev /\
     PieChart.handleLegendToggle legendInteractive i prev
     = AreaChart.handleLegendToggle legendInteractive i prev /\
     AreaChart.handleLegendToggle true i
       (AreaChart.handleLegendToggle true i prev) = prev).
Proof.
  cbv zeta. split; [|split].
  - induction l as [|i l IH] using rev_ind; [reflexivity|].
    rewrite legend_clicks_snoc. destruct legendInteractive; [|exact IH].
    cbn [fst snd]. now rewrite IH.
  - induction l as [|i l IH] using rev_ind; intros j.
    + cbn. rewrite elem_of_empty. split; [tauto | intros [_ H]; discriminate H].
    + rewrite legend_clicks_snoc, count_occ_app. cbn [count_occ].
      destruct legendInteractive.
      * cbn [fst snd]. rewrite elem_of_toggle, IH.
        destruct (Nat.eq_dec i j) as [-> | Hne].
        -- replace (count_occ Nat.eq_dec l j + 1)%nat
             with (S (count_occ Nat.eq_dec l j)) by lia.
           rewrite Nat.odd_succ, <- Nat.negb_odd.
           destruct (Nat.odd (count_occ Nat.eq_dec l j)); cbn; split.
           ++ intros [[_ H] | [H _]]; [congruence | exfalso; apply H; tauto].
           ++ intros [_ H]. discriminate H.
           ++ intros _. tauto.
           ++ intros _. right. split; [|reflexivity]. intros [_ H]. discriminate H.
        -- rewrite Nat.add_0_r. split.
           ++ intros [[H _] | [_ H]]; [exact H | congruence].
           ++ intros H. left. split; [exact H | congruence].
      * rewrite IH. split; intros [H _]; discriminate H.
  - intros i prev. repeat split. apply toggle_twice.
Qed.

End LegendToggle.

(** ** The minimum of a list of numbers *)

Section SnapTooltip.

(** The minimum of finite numbers is one of them and is at most each of
    them. *)
Lemma Math_min_spec (l : list num) :
  l <> [] -> Forall Spec.finite l ->
  Math_min l ∈ l /\ forall a, a ∈ l -> le (Math_min l) a = true.
Proof.
  intros Hne Hfin.
  pose proof (Math_min_finite l Hne Hfin) as Hf.
  destruct (Math_min l) as [m| | |] eqn:E; try discriminate.
  split; [now apply Math_min_attained|].
  intros a Ha. now apply (Math_min_lb l m).
Qed.

End SnapTooltip.

(** ** The entrance animation (the frame callback of the effects) *)

Section Animation.

Context (d t0 : Qc).
Hypothesis Hd : (0 < d)%Qc.
Hypothesis Ht0 : (0 < t0)%Qc.

(** A frame after the first one: the captured start is kept and the
    progress is the elapsed share of the duration, capped at 1. *)
Lemma frame_step_started (t : Qc) :
  (t0 <= t)%Qc ->
  exists p,
    frame_step (Fin d) (Some (Fin t0)) (Fin t) = (Fin t0, Fin p, lt (Fin p) one) /\
    (0 <= p)%Qc /\ (p <= 1)%Qc /\ (p * d <= t - t0)%Qc /\
    (p = 1%Qc \/ (p * d = t - t0)%Qc) /\
    (lt (Fin p) one = false <-> (t0 + d <= t)%Qc).
Proof.
  intros Ht. unfold frame_step.
  assert (Htr : truthy (Fin t0) = true).
  { cbn. apply negb_true_iff, qeqb_false. intros E. qc_lra. }
  rewrite Htr. cbn [sub add neg].
  rewrite div_fin by (intros E; qc_lra).
  change (t + - t0)%Qc with (t - t0)%Qc.
  assert (Hqd : ((t - t0) / d * d = t - t0)%Qc) by (field; intros E; qc_lra).
  revert Hqd. generalize ((t - t0) / d)%Qc. intros q Hqd.
  cbn [min2 lt one]. destruct (qlt 1 q) eqn:E.
  - apply qlt_true in E. exists 1%Qc. split; [reflexivity|].
    split; [qc_nra|]. split; [qc_nra|]. split; [qc_nra|]. split; [now left|].
    split; [intros _; qc_nra | intros _; reflexivity].
  - apply lt_fin_false in E. exists q. split; [reflexivity|].
    split; [qc_nra|]. split; [qc_nra|]. split; [qc_nra|]. split; [now right|].
    split.
    + intros H. apply lt_fin_false in H. qc_nra.
    + intros H. apply lt_fin_false. qc_nra.
Qed.

Lemma run_frames_started (ts : list Qc) : forall (prev lo : Qc),
  (t0 <= prev)%Qc -> ascending prev ts ->
  (lo <= 1)%Qc -> (lo * d <= prev - t0)%Qc ->
  let ps := run_frames (frame_step (Fin d)) (Some (Fin t0)) (map Fin ts) in
  Forall (fun p => exists q, p = Fin q /\ (lo <= q)%Qc /\ (q <= 1)%Qc) ps /\
  (forall i p q, ps !! i = Some p -> ps !! S i = Some q ->
     lt p one = true /\ le p q = true) /\
  (Exists (fun t => (t0 + d <= t)%Qc) ts -> last ps = Some one).
Proof.
  induction ts as [|t ts IH]; intros prev lo Hprev Hasc Hlo1 Hlo; cbv zeta.
  { cbn. split; [constructor|]. split; [intros i p q H; discriminate H|].
    intros H. inversion H. }
  destruct Hasc as [Hpt Hasc].
  assert (Ht : (t0 <= t)%Qc) by qc_lra.
  destruct (frame_step_started t Ht) as (p & Hstep & Hp0 & Hp1 & Hpd & Hpc & Hstop).
  cbn [map run_frames]. rewrite Hstep. cbn [fst snd].
  assert (Hlop : (lo <= p)%Qc).
  { destruct Hpc as [-> | Hpc]; [assumption | qc_nra]. }
  destruct (lt (Fin p) one) eqn:Hlt.
  - destruct (IH t p Ht Hasc Hp1 Hpd) as (Hall & Hchain & Hlast).
    split; [|split].
    + constructor; [eauto|].
      eapply Forall_impl; [exact Hall|].
      intros a (q & -> & Hq & Hq1). exists q. repeat split; try assumption. qc_lra.
    + intros [|i] a b Ha Hb.
      * cbn in Ha. apply (inj Some) in Ha. subst a. split; [assumption|].
        cbn in Hb. apply (Forall_lookup_1 _ _ _ _ Hall) in Hb as (q & -> & Hq & _).
        now apply le_fin.
      * exact (Hchain i a b Ha Hb).
    + intros Hex. apply Exists_cons in Hex as [Hex | Hex].
      * apply Hstop in Hex. discriminate Hex.
      * specialize (Hlast Hex).
        destruct (run_frames (frame_step (Fin d)) (Some (Fin t0)) (map Fin ts));
          [discriminate Hlast | exact Hlast].
  - split; [|split].
    + constructor; [eauto | constructor].
    + intros [|i] a b Ha Hb; discriminate Hb.
    + intros _. cbn. f_equal.
      destruct Hpc as [-> | Hpc]; [reflexivity|].
      pose proof (proj1 Hstop eq_refl) as Hend. f_equal. qc_nra.
Qed.

(** The frame callback run on frame timestamps that are positive and
    never go back sets a progress that starts at 0, stays between 0 and 1
    and never decreases; the callback stops requesting frames at the first
    frame that comes a full duration after the first one, and the progress
    set there, the last one, is exactly 1. *)
Theorem animation_progress_ends_at_one (rest : list Qc) :
  ascending t0 rest ->
  let ps := run_frames (frame_step (Fin d)) None (map Fin (t0 :: rest)) in
  ps !! 0%nat = Some zero /\
  Forall (fun p => le zero p = true /\ le p one = true) ps /\
  (forall i p q, ps !! i = Some p -> ps !! S i = Some q ->
     lt p one = true /\ le p q = true) /\
  (Exists (fun t => (t0 + d <= t)%Qc) rest -> last ps = Some one).
Proof.
  intros Hasc. cbv zeta. cbn [map run_frames].
  assert (Hfirst : frame_step (Fin d) None (Fin t0) = (Fin t0, zero, true)).
  { unfold frame_step. cbn [sub add neg]. rewrite div_fin by (intros E; qc_lra).
    replace ((t0 + - t0) / d)%Qc with 0%Qc by (field; intros E; qc_lra).
    reflexivity. }
  rewrite Hfirst. cbn [fst snd].
  destruct (run_frames_started rest t0 0%Qc) as (Hall & Hchain & Hlast);
    [apply Qcle_refl | assumption | qc_lra | qc_lra |].
  split; [reflexivity|]. split; [|split].
  - constructor; [split; reflexivity|].
    eapply Forall_impl; [exact Hall|].
    intros a (q & -> & Hq & Hq1). split; now apply le_fin.
  - intros [|i] a b Ha Hb.
    + cbn in Ha. apply (inj Some) in Ha. subst a. split; [reflexivity|].
      cbn in Hb. apply (Forall_lookup_1 _ _ _ _ Hall) in Hb as (q & -> & Hq & _).
      now apply le_fin.
    + exact (Hchain i a b Ha Hb).
  - intros Hex. specialize (Hlast Hex).
    destruct (run_frames (frame_step (Fin d)) (Some (Fin t0)) (map Fin rest));
      [discriminate Hlast | exact Hlast].
Qed.

End Animation.

Lemma animation_progress_witness :
  let ps :=
    run_frames AreaChart.step None
      (map Fin [Q2Qc 100; Q2Qc 500; Q2Qc 900; Q2Qc 1000]) in
  ps !! 0%nat = Some zero /\
  Forall (fun p => le zero p = true /\ le p one = true) ps /\
  (forall i p q, ps !! i = Some p -> ps !! S i = Some q ->
     lt p one = true /\ le p q = true) /\
  (Exists (fun t => (Q2Qc 100 + Q2Qc 800 <= t)%Qc) [Q2Qc 500; Q2Qc 900; Q2Qc 1000] ->
   last ps = Some one).
Proof.
  apply (animation_progress_ends_at_one (Q2Qc 800) (Q2Qc 100)).
  - vm_compute. reflexivity.
  - vm_compute. reflexivity.
  - cbn. repeat split; vm_compute; discriminate.
Defined.

(** ** The layout of the bars (BarChart) *)

Section BarLayout.

Import BarChart Spec.

Lemma of_nat_pos (n : nat) : (0 < n)%nat -> (1 <= Q2Qc (inject_Z (Z.of_nat n)))%Qc.
Proof.
  intros Hn. unfold Qcle. qc_push. change 1%Q with (inject_Z 1).
  rewrite <- Zle_Qle. lia.
Qed.

Context (data : list item) (yKey : ykey) (variant : variant_t)
  (color_name : ChartUtils.palette_name)
  (rounded showGrid showXAxis showYAxis : bool)
  (barRadius width height barWidth gap yAxisWidth xAxisHeight : num)
  (animationProgress : num) (hiddenSeries : gset nat).

Local Abbreviation barGap' :=
  (barGap data variant showXAxis showYAxis width height gap yAxisWidth xAxisHeight).
Local Abbreviation totalBarWidth' :=
  (totalBarWidth data variant showXAxis showYAxis width height gap yAxisWidth xAxisHeight).
Local Abbreviation actualBarWidth' :=
  (actualBarWidth data variant showXAxis showYAxis width height barWidth gap yAxisWidth
     xAxisHeight).
Local Abbreviation barOffset' :=
  (barOffset data variant showXAxis showYAxis width height barWidth gap yAxisWidth
     xAxisHeight).
Local Abbreviation renderBars' :=
  (renderBars data yKey variant color_name rounded showXAxis showYAxis barRadius width
     height barWidth gap yAxisWidth xAxisHeight animationProgress hiddenSeries).
Local Abbreviation renderXAxis' :=
  (renderXAxis data yKey variant showGrid showXAxis showYAxis width height gap yAxisWidth
     xAxisHeight hiddenSeries).

Context (cx W g bw : Qc).
Hypothesis Hvert : variant <> horizontal.
Hypothesis Hcx : chartX variant showYAxis yAxisWidth = Fin cx.
Hypothesis HW : chartWidth variant showYAxis width yAxisWidth = Fin W.
Hypothesis Hg : gap = Fin g.
Hypothesis Hbw : barWidth = Fin bw.
Hypothesis Hdata : data <> [].

Local Abbreviation N := (Q2Qc (inject_Z (Z.of_nat (length data)))).

Lemma N_ge_1 : (1 <= N)%Qc.
Proof. apply of_nat_pos. destruct data; [congruence | cbn; lia]. Qed.

Lemma isHorizontal_false : isHorizontal variant = false.
Proof. unfold isHorizontal. now apply bool_decide_eq_false_2. Qed.

Lemma barGap_fin : barGap' = Fin (W * g / (N + 1)).
Proof.
  unfold barGap. rewrite isHorizontal_false, HW, Hg. cbn [mul add of_nat of_Z one].
  apply div_fin. pose proof N_ge_1. intros E. qc_lra.
Qed.

Lemma totalBarWidth_fin :
  totalBarWidth' = Fin ((W - W * g / (N + 1) * (N + 1)) / N).
Proof.
  unfold totalBarWidth, totalBarSpace. fold barGap'.
  rewrite isHorizontal_false, HW, barGap_fin. cbn [mul add sub neg of_nat of_Z one].
  apply div_fin. pose proof N_ge_1. intros E. qc_lra.
Qed.

Hypothesis Hsingle :
  variant = stacked \/ variant = grouped -> isMultiSeries yKey = false.

(** In the vertical variants that draw one bar per data item, over a
    plot rectangle of finite position and width and for finite [gap] and
    [barWidth]: the slots of the bars and the gaps around them fill the
    plot width exactly, each bar is centred in its slot, and the label of
    the x axis is centred under the bar. *)
Theorem bars_are_centred_in_their_slots :
  exists slot bg : Qc,
    totalBarWidth' = Fin slot /\ barGap' = Fin bg /\
    (N * slot + (N + 1) * bg = W)%Qc /\
    forall (i : nat) item, data !! i = Some item ->
      let centre :=
        Fin (cx + bg + Q2Qc (inject_Z (Z.of_nat i)) * (slot + bg) + slot / Q2Qc 2) in
      exists r,
        renderBars' !! i = Some [Some r] /\
        rect_width r = Fin (slot * bw) /\
        rect_x r + rect_width r / lit 2 1 = centre /\
        exists xs,
          renderXAxis' = (if showXAxis then Some (CategoryXs xs) else None) /\
          xs !! i = Some centre.
Proof.
  pose proof N_ge_1 as HN.
  eexists _, _. split; [apply totalBarWidth_fin|]. split; [apply barGap_fin|].
  split.
  { field; repeat split; intros E; qc_lra. }
  intros i item Hi centre. unfold renderBars.
  rewrite list_lookup_imap, Hi. cbn [fmap option_fmap option_map].
  rewrite isHorizontal_false.
  assert (Hst : bool_decide (variant = stacked) && isMultiSeries yKey = false).
  { destruct (decide (variant = stacked)) as [Hv | Hv].
    - rewrite bool_decide_eq_true_2 by assumption. cbn. apply Hsingle. now left.
    - now rewrite bool_decide_eq_false_2 by assumption. }
  assert (Hgr : bool_decide (variant = grouped) && isMultiSeries yKey = false).
  { destruct (decide (variant = grouped)) as [Hv | Hv].
    - rewrite bool_decide_eq_true_2 by assumption. cbn. apply Hsingle. now right.
    - now rewrite bool_decide_eq_false_2 by assumption. }
  rewrite Hst, Hgr. eexists. split; [reflexivity|]. cbn [rect_x rect_width].
  assert (Hab : actualBarWidth' = Fin ((W - W * g / (N + 1) * (N + 1)) / N * bw)).
  { unfold actualBarWidth. fold totalBarWidth'. now rewrite totalBarWidth_fin, Hbw. }
  assert (Hoff : barOffset'
                 = Fin (((W - W * g / (N + 1) * (N + 1)) / N
                         - (W - W * g / (N + 1) * (N + 1)) / N * bw) / Q2Qc 2)).
  { unfold barOffset. fold totalBarWidth' actualBarWidth'.
    rewrite totalBarWidth_fin, Hab. cbn [sub add neg]. unfold lit.
    now rewrite div_fin by (intros E; discriminate E). }
  split; [exact Hab|]. split.
  - fold barGap' totalBarWidth' actualBarWidth' barOffset'.
    rewrite Hcx, barGap_fin, totalBarWidth_fin, Hab, Hoff. unfold lit.
    cbn [mul add of_nat of_Z]. rewrite div_fin by (intros E; discriminate E).
    cbn [add]. unfold centre. f_equal.
    field; repeat split; intros E; qc_lra.
  - unfold renderXAxis. rewrite isHorizontal_false.
    eexists. split; [reflexivity|].
    rewrite list_lookup_imap, Hi. cbn [fmap option_fmap option_map]. f_equal.
    fold barGap' totalBarWidth'.
    rewrite Hcx, barGap_fin, totalBarWidth_fin. unfold lit.
    cbn [mul add of_nat of_Z]. rewrite div_fin by (intros E; discriminate E).
    reflexivity.
Qed.

End BarLayout.

(** ** The height of the bars (BarChart) *)

Section BarHeights.

Import BarChart Spec.

Context (data : list item) (key : string) (variant : variant_t)
  (color_name : ChartUtils.palette_name)
  (rounded showXAxis showYAxis : bool)
  (barRadius width height barWidth gap yAxisWidth xAxisHeight : num)
  (hiddenSeries : gset nat).

Lemma single_maxValue :
  maxValue data (YString key) variant hiddenSeries = Math_max (map (fun d => raw d key) data).
Proof.
  unfold maxValue.
  assert (Hkeys : (if (0 <? length (visibleYKeys (YString key) hiddenSeries))%nat
                   then visibleYKeys (YString key) hiddenSeries
                   else yKeys (YString key)) = [key]).
  { unfold visibleYKeys, filter_index, yKeys. cbn [filter_index_from].
    destruct (negb (has hiddenSeries 0)); reflexivity. }
  rewrite Hkeys.
  assert (Hflat : flat_map (fun d => map (fun k => or0 (get d k)) [key]) data
                  = map (fun d => raw d key) data).
  { induction data as [|d l IH]; [reflexivity|]. cbn. unfold raw. now f_equal. }
  assert (Hsum : map (fun d => foldl (fun sum k => sum + or0 (get d k)) zero [key]) data
                 = map (fun d => raw d key) data).
  { apply map_ext. intros d. cbn. apply add_zero_l. }
  rewrite Hflat, Hsum. now destruct (bool_decide (variant = stacked)).
Qed.

Context (h a m : Qc).
Hypothesis Hvert : variant <> horizontal.
Hypothesis Hh : chartHeight showXAxis height xAxisHeight = Fin h.
Hypothesis Hh0 : (0 <= h)%Qc.
Hypothesis Ha0 : (0 <= a)%Qc.
Hypothesis Ha1 : (a <= 1)%Qc.
Hypothesis Hm : maxValue data (YString key) variant hiddenSeries = Fin m.
Hypothesis Hm0 : (0 < m)%Qc.
Hypothesis Hnn : nonneg_reads [key] data.

(** For a single series of values that are not negative, a positive
    largest value and a progress between 0 and 1, every bar of the
    vertical variants stands on the baseline, its height is the share of
    its value in the largest value times the plot height times the
    progress, which never exceeds the plot height, and some bar has the
    largest value: once the animation is over that bar spans the whole
    plot height. *)
Theorem bar_heights_are_proportional :
  (forall (i : nat) item, data !! i = Some item ->
     exists r v,
       renderBars data (YString key) variant color_name rounded showXAxis showYAxis
         barRadius width height barWidth gap yAxisWidth xAxisHeight (Fin a) hiddenSeries
         !! i = Some [Some r] /\
       raw item key = Fin v /\
       rect_height r = Fin (v / m * h * a) /\
       (0 <= v / m * h * a)%Qc /\ (v / m * h * a <= h)%Qc /\
       rect_y r + rect_height r = Fin h /\
       (v = m -> a = 1%Qc -> rect_y r = zero /\ rect_height r = Fin h)) /\
  (exists (i : nat) item, data !! i = Some item /\ raw item key = Fin m).
Proof.
  rewrite single_maxValue in Hm. split.
  - intros i item Hi.
    destruct (Hnn item key) as (v & Hv & Hv0);
      [eapply list_elem_of_lookup_2; eassumption | constructor |].
    assert (Hle : (v <= m)%Qc).
    { apply le_fin. rewrite <- Hv. apply (Math_max_ub _ _ _ Hm).
      apply list_elem_of_fmap. exists item. split; [reflexivity|].
      eapply list_elem_of_lookup_2; eassumption. }
    destruct (Qcdiv_unit v m Hv0 Hle Hm0) as [Hr0 Hr1].
    unfold renderBars. rewrite list_lookup_imap, Hi. cbn [fmap option_fmap option_map].
    unfold isHorizontal. rewrite (bool_decide_eq_false_2 (variant = horizontal)) by assumption.
    unfold isMultiSeries. cbn [yKeys length Nat.ltb Nat.leb]. rewrite !andb_false_r.
    eexists _, v. split; [reflexivity|]. cbn [rect_height rect_y].
    unfold first_value. cbn [yKeys lookup list_lookup]. fold (raw item key).
    rewrite Hv, single_maxValue, Hm, Hh.
    rewrite div_fin by (intros E; qc_lra). cbn [mul sub add neg].
    assert (Hrm : (v / m * m = v)%Qc) by (field; intros E; qc_lra).
    revert Hr0 Hr1 Hrm. generalize (v / m)%Qc. intros r Hr0 Hr1 Hrm.
    split; [reflexivity|]. split; [reflexivity|].
    assert (Hrh0 : (0 <= r * h)%Qc) by qc_nra.
    assert (Hrh1 : (r * h <= h)%Qc) by qc_nra.
    split; [revert Hrh0 Hrh1; generalize (r * h)%Qc; intros rh ? ?; qc_nra|].
    split; [revert Hrh0 Hrh1; generalize (r * h)%Qc; intros rh ? ?; qc_nra|].
    split; [f_equal; ring|].
    intros -> ->. assert (Hr : r = 1%Qc) by qc_nra. subst r.
    split; f_equal; ring.
  - apply Math_max_attained in Hm. apply list_elem_of_fmap in Hm as (item & Hraw & Hin).
    apply list_elem_of_lookup in Hin as [i Hi]. eauto.
Qed.

End BarHeights.

Lemma bars_are_centred_witness :
  let N := Q2Qc (inject_Z (Z.of_nat (length Examples.months))) in
  exists slot bg : Qc,
    BarChart.totalBarWidth Examples.months BarChart.default true true (of_nat 400)
      (of_nat 300) (lit 1 10) (of_nat 50) (of_nat 30) = Fin slot /\
    BarChart.barGap Examples.months BarChart.default true true (of_nat 400) (of_nat 300)
      (lit 1 10) (of_nat 50) (of_nat 30) = Fin bg /\
    (N * slot + (N + 1) * bg = Q2Qc 350)%Qc /\
    forall (i : nat) item, Examples.months !! i = Some item ->
      let centre :=
        Fin (Q2Qc 50 + bg + Q2Qc (inject_Z (Z.of_nat i)) * (slot + bg) + slot / Q2Qc 2) in
      exists r,
        BarChart.renderBars Examples.months (YString "value") BarChart.default
          ChartUtils.violet true true true (of_nat 4) (of_nat 400) (of_nat 300)
          (lit 7 10) (lit 1 10) (of_nat 50) (of_nat 30) one ∅ !! i = Some [Some r] /\
        BarChart.rect_width r = Fin (slot * Q2Qc (7 # 10)) /\
        BarChart.rect_x r + BarChart.rect_width r / lit 2 1 = centre /\
        exists xs,
          BarChart.renderXAxis Examples.months (YString "value") BarChart.default true
            true true (of_nat 400) (of_nat 300) (lit 1 10) (of_nat 50) (of_nat 30) ∅
          = (if true then Some (BarChart.CategoryXs xs) else None) /\
          xs !! i = Some centre.
Proof.
  apply (bars_are_centred_in_their_slots Examples.months (YString "value")
           BarChart.default ChartUtils.violet true true true true (of_nat 4) (of_nat 400)
           (of_nat 300) (lit 7 10) (lit 1 10) (of_nat 50) (of_nat 30) one ∅
           (Q2Qc 50) (Q2Qc 350) (Q2Qc (1 # 10)) (Q2Qc (7 # 10))).
  - discriminate.
  - compute_done.
  - compute_done.
  - reflexivity.
  - reflexivity.
  - discriminate.
  - intros [Hv | Hv]; discriminate Hv.
Defined.

Lemma bar_heights_witness :
  (forall (i : nat) item, Examples.months !! i = Some item ->
     exists r v,
       BarChart.renderBars Examples.months (YString "value") BarChart.default
         ChartUtils.violet true true true (of_nat 4) (of_nat 400) (of_nat 300)
         (lit 7 10) (lit 1 10) (of_nat 50) (of_nat 30) (Fin 1) ∅ !! i = Some [Some r] /\
       Spec.raw item "value" = Fin v /\
       BarChart.rect_height r = Fin (v / Q2Qc 30 * Q2Qc 270 * 1) /\
       (0 <= v / Q2Qc 30 * Q2Qc 270 * 1)%Qc /\
       (v / Q2Qc 30 * Q2Qc 270 * 1 <= Q2Qc 270)%Qc /\
       BarChart.rect_y r + BarChart.rect_height r = Fin (Q2Qc 270) /\
       (v = Q2Qc 30 -> 1%Qc = 1%Qc ->
        BarChart.rect_y r = zero /\ BarChart.rect_height r = Fin (Q2Qc 270))) /\
  (exists (i : nat) item,
     Examples.months !! i = Some item /\ Spec.raw item "value" = Fin (Q2Qc 30)).
Proof.
  apply (bar_heights_are_proportional Examples.months "value" BarChart.default
           ChartUtils.violet true true true (of_nat 4) (of_nat 400) (of_nat 300)
           (lit 7 10) (lit 1 10) (of_nat 50) (of_nat 30) ∅ (Q2Qc 270) 1 (Q2Qc 30)).
  - discriminate.
  - compute_done.
  - vm_compute. discriminate.
  - vm_compute. discriminate.
  - vm_compute. discriminate.
  - compute_done.
  - vm_compute. reflexivity.
  - intros d key Hd Hk. apply list_elem_of_singleton in Hk. subst key.
    unfold Examples.months in Hd.
    repeat (apply elem_of_cons in Hd as [-> | Hd]);
      [ exists (Q2Qc 10) | exists (Q2Qc 30) | exists (Q2Qc 20) | inversion Hd ];
      (split; [compute_done | vm_compute; discriminate]).
Defined.

(** ** Stacked and grouped bars (BarChart.renderBars) *)

Section BarSegments.

Import BarChart Spec.

Lemma last_visible_index (hidden : nat -> bool) (n ki : nat) :
  last (filter (fun k => hidden k = false) (seq 0 n)) = Some ki <->
  (ki < n)%nat /\ hidden ki = false /\
  forall kj, (ki < kj < n)%nat -> hidden kj = true.
Proof.
  induction n as [|n IH].
  - cbn. split; [discriminate | intros [Hlt _]; lia].
  - rewrite seq_S, filter_app, filter_cons, filter_nil. cbn [plus].
    destruct (decide (hidden n = false)) as [Hn | Hn].
    + rewrite last_snoc. split.
      * intros E. apply (inj Some) in E. subst ki.
        split; [lia|]. split; [assumption|]. intros kj Hkj. lia.
      * intros (Hlt & Hvis & Hall).
        destruct (decide (ki = n)) as [-> | Hne]; [reflexivity|].
        rewrite (Hall n) in Hn by lia. discriminate Hn.
    + rewrite app_nil_r, IH. apply not_false_is_true in Hn. split.
      * intros (Hlt & Hvis & Hall). split; [lia|]. split; [assumption|].
        intros kj Hkj. destruct (decide (kj = n)) as [-> | Hne]; [assumption|].
        apply Hall. lia.
      * intros (Hlt & Hvis & Hall).
        assert (ki <> n) by (intros ->; congruence).
        split; [lia|]. split; [assumption|]. intros kj Hkj. apply Hall. lia.
Qed.

Context (data : list item) (yKey : ykey) (variant : variant_t)
  (color_name : ChartUtils.palette_name)
  (rounded showXAxis showYAxis : bool)
  (barRadius width height barWidth gap yAxisWidth xAxisHeight : num)
  (animationProgress : num) (hiddenSeries : gset nat).

Local Abbreviation yKeys' := (yKeys yKey).
Local Abbreviation has' := (has hiddenSeries).
Local Abbreviation renderBars' :=
  (renderBars data yKey variant color_name rounded showXAxis showYAxis barRadius width
     height barWidth gap yAxisWidth xAxisHeight animationProgress hiddenSeries).

(** In a stack only the segment of the topmost visible series has
    rounded corners. *)
Theorem only_topmost_segment_is_rounded :
  variant = stacked -> isMultiSeries yKey = true ->
  forall i item, data !! i = Some item ->
    exists rects,
      renderBars' !! i = Some rects /\
      forall ki r, rects !! ki = Some (Some r) ->
        has' ki = false /\
        (rounded = true ->
         (forall kj, (ki < kj < length yKeys')%nat -> has' kj = true) ->
         rx r = barRadius) /\
        (rounded = false \/
         (exists kj, (ki < kj < length yKeys')%nat /\ has' kj = false) ->
         rx r = zero).
Proof.
  intros Hv Hm i item Hi. unfold renderBars.
  rewrite list_lookup_imap, Hi. cbv [fmap option_fmap option_map].
  unfold isHorizontal. rewrite Hm.
  rewrite (bool_decide_eq_false_2 (variant = horizontal)) by (rewrite Hv; discriminate).
  rewrite (bool_decide_eq_true_2 (variant = stacked)) by assumption.
  cbn [andb]. unfold map_state.
  match goal with
  | |- context [map_state_from
                  (stacked_step _ _ _ _ _ _ _ _ _ _ _ _ _ _ _ _ ?i ?it ?x ?lv)] =>
      pose proof (map_state_stacked data yKey variant color_name rounded showXAxis
                    showYAxis barRadius width height barWidth gap yAxisWidth xAxisHeight
                    animationProgress hiddenSeries i it x lv yKeys' [] eq_refl) as Heq;
      set (lastVisible := lv) in *
  end.
  cbn [length app] in Heq.
  change (sum_nums (map _ (filter_index (fun k => negb (has' k)) []))) with zero in Heq.
  eexists. split; [reflexivity|]. rewrite Heq.
  intros ki r Hr. rewrite list_lookup_imap in Hr.
  destruct (yKeys' !! ki) as [key|] eqn:Hk; [|discriminate].
  cbv [fmap option_fmap option_map] in Hr. apply (inj Some) in Hr.
  unfold stacked_entry in Hr. rewrite Nat.add_0_l in Hr.
  destruct (has' ki) eqn:Hh; [discriminate|].
  apply (inj Some) in Hr. subst r. cbn [rx].
  split; [reflexivity|].
  pose proof (last_visible_index has' (length yKeys') ki) as Hlast.
  split.
  - intros -> Htop. rewrite bool_decide_eq_true_2; [reflexivity|].
    symmetry. apply Hlast. apply lookup_lt_Some in Hk. auto.
  - intros [-> | (kj & Hkj & Hvis)]; [now rewrite andb_false_r|].
    rewrite bool_decide_eq_false_2; [reflexivity|].
    intros E. symmetry in E. apply Hlast in E as (_ & _ & Hall).
    rewrite (Hall kj Hkj) in Hvis. discriminate Hvis.
Qed.

Local Abbreviation barHeight_of' :=
  (barHeight_of data yKey variant showXAxis height xAxisHeight animationProgress
     hiddenSeries).
Local Abbreviation grouped_step' :=
  (grouped_step data yKey variant color_name rounded showXAxis barRadius height
     xAxisHeight animationProgress hiddenSeries).

(** The grouped loop resolved: the counter [activeIndex] at a series is
    the number of visible series before it. *)
Lemma map_state_grouped i item x gbw l : forall pre,
  yKeys' = pre ++ l ->
  (map_state_from (grouped_step' i item x gbw) (length pre) l
     (length (filter_index (fun k => negb (has' k)) pre))).1
  = imap (fun j key =>
            if has' (length pre + j) then None
            else Some (mkRect
                   (x + of_nat (length (visible_below hiddenSeries yKeys'
                                          (length pre + j))) * gbw)
                   (chartHeight showXAxis height xAxisHeight - barHeight_of' item key)
                   (gbw - lit 2 1) (barHeight_of' item key)
                   (Solid (getBarColor yKey variant color_name i (length pre + j)))
                   (if rounded then barRadius else zero))) l.
Proof.
  induction l as [|key l IH]; intros pre Hk; [reflexivity|].
  cbn [map_state_from imap].
  assert (Hk' : yKeys' = (pre ++ [key]) ++ l) by (now rewrite <- app_assoc).
  assert (Htake : take (length pre) yKeys' = pre) by (rewrite Hk; apply take_app_length).
  specialize (IH (pre ++ [key]) Hk'). rewrite length_app in IH. cbn [length] in IH.
  replace (length pre + 1)%nat with (S (length pre)) in IH by lia.
  unfold filter_index in IH. rewrite filter_index_from_app in IH.
  cbn [filter_index_from] in IH. rewrite Nat.add_0_l in IH.
  unfold grouped_step at 1, visible_below at 1.
  rewrite Nat.add_0_r, Htake.
  destruct (has' (length pre)) eqn:Hh; cbn [negb] in IH.
  - rewrite app_nil_r in IH. unfold filter_index.
    destruct (map_state_from _ _ _ _) as [bs s2] eqn:E.
    cbn [fst] in *. f_equal. rewrite IH.
    apply imap_ext. intros j k _. cbv beta.
    now replace (S (length pre) + j)%nat with (length pre + S j)%nat by lia.
  - rewrite length_app in IH. cbn [length] in IH.
    replace (length (filter_index_from (fun k => negb (has' k)) 0 pre) + 1)%nat
      with (S (length (filter_index_from (fun k => negb (has' k)) 0 pre))) in IH by lia.
    unfold filter_index.
    destruct (map_state_from _ _ _ _) as [bs s2] eqn:E.
    cbn [fst] in *. f_equal. rewrite IH.
    apply imap_ext. intros j k _. cbv beta.
    now replace (S (length pre) + j)%nat with (length pre + S j)%nat by lia.
Qed.

(** In grouped mode the visible series of a group stay packed: the
    bar of a visible series is drawn in the cell whose rank is the number
    of visible series before it, a hidden series takes no cell, and every
    bar is 2 pixels narrower than its cell. *)
Theorem grouped_bars_are_packed :
  variant = grouped -> isMultiSeries yKey = true ->
  forall (i : nat) item, data !! i = Some item ->
    let x :=
      chartX variant showYAxis yAxisWidth
      + barGap data variant showXAxis showYAxis width height gap yAxisWidth xAxisHeight
      + of_nat i
        * (totalBarWidth data variant showXAxis showYAxis width height gap yAxisWidth
             xAxisHeight
           + barGap data variant showXAxis showYAxis width height gap yAxisWidth
               xAxisHeight)
      + barOffset data variant showXAxis showYAxis width height barWidth gap yAxisWidth
          xAxisHeight in
    let groupBarWidth :=
      actualBarWidth data variant showXAxis showYAxis width height barWidth gap
        yAxisWidth xAxisHeight
      / max2 (of_nat (length (visibleYKeys yKey hiddenSeries))) one in
    exists rects,
      renderBars' !! i = Some rects /\
      length rects = length yKeys' /\
      forall ki key, yKeys' !! ki = Some key ->
        (has' ki = true -> rects !! ki = Some None) /\
        (has' ki = false ->
           exists r, rects !! ki = Some (Some r) /\
             rect_x r
             = x + of_nat (length (visible_below hiddenSeries yKeys' ki)) * groupBarWidth /\
             rect_width r = groupBarWidth - lit 2 1 /\
             rect_height r = barHeight_of' item key /\
             rect_y r = chartHeight showXAxis height xAxisHeight - barHeight_of' item key).
Proof.
  intros Hv Hm i item Hi x gbw. unfold renderBars.
  rewrite list_lookup_imap, Hi. cbv [fmap option_fmap option_map].
  unfold isHorizontal. rewrite Hm.
  rewrite (bool_decide_eq_false_2 (variant = horizontal)) by (rewrite Hv; discriminate).
  rewrite (bool_decide_eq_false_2 (variant = stacked)) by (rewrite Hv; discriminate).
  rewrite (bool_decide_eq_true_2 (variant = grouped)) by assumption.
  cbn [andb]. unfold map_state.
  pose proof (map_state_grouped i item x gbw yKeys' [] eq_refl) as Heq.
  cbn [length app filter_index filter_index_from] in Heq.
  eexists. split; [reflexivity|].
  fold x. unfold visibleYKeys in gbw. fold gbw. rewrite Heq.
  split; [apply length_imap|].
  intros ki key Hk. rewrite list_lookup_imap, Hk.
  cbv [fmap option_fmap option_map]. rewrite !Nat.add_0_l.
  destruct (has' ki); split; intros; try discriminate; [reflexivity|].
  eexists. split; [reflexivity|]. repeat split.
Qed.

(** In the grouped and stacked variants of a chart of several series the
    legend matches the bars: it has one entry per series, in every group
    the bar or segment of a series has the colour of its legend entry, and
    a series whose entry is inactive is not drawn. *)
Theorem bar_legend_matches_bars :
  variant = grouped \/ variant = stacked -> isMultiSeries yKey = true ->
  forall i rects, renderBars' !! i = Some rects ->
    length rects = length (legendItems yKey color_name hiddenSeries) /\
    forall ki entry, legendItems yKey color_name hiddenSeries !! ki = Some entry ->
      (inactive entry = true -> rects !! ki = Some None) /\
      (inactive entry = false ->
         exists r, rects !! ki = Some (Some r) /\ fill r = Solid (color entry)).
Proof.
  intros Hv Hm i rects. unfold renderBars, legendItems.
  rewrite list_lookup_imap. destruct (data !! i) as [item|]; [|discriminate].
  cbv [fmap option_fmap option_map]. rewrite length_imap.
  unfold isHorizontal. rewrite Hm.
  rewrite (bool_decide_eq_false_2 (variant = horizontal))
    by (destruct Hv as [-> | ->]; discriminate).
  assert (Hcol : forall ki,
            getBarColor yKey variant color_name i ki
            = ChartUtils.multiColors !! (ki mod length ChartUtils.multiColors)%nat).
  { intros ki. unfold getBarColor. rewrite Hm.
    destruct Hv as [-> | ->]; reflexivity. }
  assert (Hcells : forall ki entry,
            imap (fun i0 key =>
                    mkLegend
                      (ChartUtils.multiColors !! (i0 mod length ChartUtils.multiColors)%nat)
                      key (has' i0)) yKeys' !! ki = Some entry ->
            exists key, yKeys' !! ki = Some key /\
              inactive entry = has' ki /\
              color entry = getBarColor yKey variant color_name i ki).
  { intros ki entry. rewrite list_lookup_imap.
    destruct (yKeys' !! ki) as [key|]; [|discriminate].
    cbv [fmap option_fmap option_map]. intros E. apply (inj Some) in E. subst entry.
    exists key. rewrite Hcol. auto. }
  destruct Hv as [Hv | Hv].
  - rewrite (bool_decide_eq_false_2 (variant = stacked)) by (rewrite Hv; discriminate).
    rewrite (bool_decide_eq_true_2 (variant = grouped)) by assumption.
    cbn [andb]. unfold map_state.
    match goal with
    | |- context [map_state_from (grouped_step _ _ _ _ _ _ _ _ _ _ _ _ _ ?x ?w)] =>
        pose proof (map_state_grouped i item x w yKeys' [] eq_refl) as Heq
    end.
    cbn [length app] in Heq. change (filter_index _ []) with (@nil string) in Heq.
    cbn [length] in Heq.
    rewrite Heq. intros E. apply (inj Some) in E. subst rects.
    split; [apply length_imap|].
    intros ki entry Hentry. apply Hcells in Hentry as (key & Hk & Hin & Hc).
    rewrite list_lookup_imap, Hk, Hin, Hc, !Nat.add_0_l.
    cbv [fmap option_fmap option_map].
    destruct (has' ki); split; intros ?; try discriminate; [reflexivity|].
    eexists. split; reflexivity.
  - rewrite (bool_decide_eq_true_2 (variant = stacked)) by assumption.
    cbn [andb]. unfold map_state.
    match goal with
    | |- context [map_state_from (stacked_step _ _ _ _ _ _ _ _ _ _ _ _ _ _ _ _ _ _ ?x ?lv)] =>
        pose proof (map_state_stacked data yKey variant color_name rounded showXAxis
                      showYAxis barRadius width height barWidth gap yAxisWidth
                      xAxisHeight animationProgress hiddenSeries i item x lv yKeys' []
                      eq_refl) as Heq
    end.
    cbn [length app] in Heq. change (filter_index _ []) with (@nil string) in Heq.
    change (sum_nums (map _ [])) with zero in Heq.
    rewrite Heq. intros E. apply (inj Some) in E. subst rects.
    split; [apply length_imap|].
    intros ki entry Hentry. apply Hcells in Hentry as (key & Hk & Hin & Hc).
    rewrite list_lookup_imap, Hk, Hin, Hc, !Nat.add_0_l.
    cbv [fmap option_fmap option_map]. unfold stacked_entry.
    destruct (has' ki); split; intros ?; try discriminate; [reflexivity|].
    eexists. split; reflexivity.
Qed.

End BarSegments.

Lemma only_topmost_segment_witness :
  exists rects,
    BarChart.renderBars Examples.two_series (YArray ["a"; "b"]%string) BarChart.stacked
      ChartUtils.violet true true true (of_nat 4) (of_nat 400) (of_nat 300) (lit 7 10)
      (lit 1 10) (of_nat 50) (of_nat 30) one {[ 1%nat ]} !! 0%nat = Some rects /\
    forall ki r, rects !! ki = Some (Some r) ->
      BarChart.has {[ 1%nat ]} ki = false /\
      (true = true ->
       (forall kj, (ki < kj < length (BarChart.yKeys (YArray ["a"; "b"]%string)))%nat ->
                   BarChart.has {[ 1%nat ]} kj = true) ->
       BarChart.rx r = of_nat 4) /\
      (true = false \/
       (exists kj, (ki < kj < length (BarChart.yKeys (YArray ["a"; "b"]%string)))%nat /\
                   BarChart.has {[ 1%nat ]} kj = false) ->
       BarChart.rx r = zero).
Proof.
  apply (only_topmost_segment_is_rounded Examples.two_series (YArray ["a"; "b"]%string)
           BarChart.stacked ChartUtils.violet true true true (of_nat 4) (of_nat 400)
           (of_nat 300) (lit 7 10) (lit 1 10) (of_nat 50) (of_nat 30) one {[ 1%nat ]}
           eq_refl eq_refl 0%nat
           {[ "a"%string := VNum (of_nat 10); "b"%string := VNum (of_nat 5) ]}).
  reflexivity.
Defined.

Lemma grouped_bars_witness :
  exists rects r,
    BarChart.renderBars Examples.two_series (YArray ["a"; "b"]%string) BarChart.grouped
      ChartUtils.violet true true true (of_nat 4) (of_nat 400) (of_nat 300) (lit 7 10)
      (lit 1 10) (of_nat 50) (of_nat 30) one {[ 0%nat ]} !! 1%nat = Some rects /\
    length rects = 2%nat /\
    rects !! 0%nat = Some None /\
    rects !! 1%nat = Some (Some r).
Proof.
  destruct (grouped_bars_are_packed Examples.two_series (YArray ["a"; "b"]%string)
              BarChart.grouped ChartUtils.violet true true true (of_nat 4) (of_nat 400)
              (of_nat 300) (lit 7 10) (lit 1 10) (of_nat 50) (of_nat 30) one {[ 0%nat ]}
              eq_refl eq_refl 1%nat
              {[ "a"%string := VNum (of_nat 20); "b"%string := VNum (of_nat 5) ]}
              eq_refl) as (rects & Hr & Hlen & Hcells).
  destruct (Hcells 0%nat "a"%string eq_refl) as [Hhid _].
  destruct (Hcells 1%nat "b"%string eq_refl) as [_ Hvis].
  destruct (Hvis eq_refl) as (r & Hr1 & _).
  exists rects, r.
  split; [exact Hr|]. split; [exact Hlen|]. split; [exact (Hhid eq_refl) | exact Hr1].
Defined.

Lemma bar_legend_witness :
  BarChart.isMultiSeries (YArray ["a"; "b"]%string) = true /\
  forall i rects,
    BarChart.renderBars Examples.two_series (YArray ["a"; "b"]%string) BarChart.grouped
      ChartUtils.violet true true true (of_nat 4) (of_nat 400) (of_nat 300) (lit 7 10)
      (lit 1 10) (of_nat 50) (of_nat 30) one {[ 0%nat ]} !! i = Some rects ->
    length rects
    = length (BarChart.legendItems (YArray ["a"; "b"]%string) ChartUtils.violet
                {[ 0%nat ]}) /\
    forall ki entry,
      BarChart.legendItems (YArray ["a"; "b"]%string) ChartUtils.violet {[ 0%nat ]} !! ki
      = Some entry ->
      (BarChart.inactive entry = true -> rects !! ki = Some None) /\
      (BarChart.inactive entry = false ->
         exists r, rects !! ki = Some (Some r) /\
                   BarChart.fill r = BarChart.Solid (BarChart.color entry)).
Proof.
  split; [reflexivity|].
  apply (bar_legend_matches_bars Examples.two_series (YArray ["a"; "b"]%string)
           BarChart.grouped ChartUtils.violet true true true (of_nat 4) (of_nat 400)
           (of_nat 300) (lit 7 10) (lit 1 10) (of_nat 50) (of_nat 30) one {[ 0%nat ]}).
  - left. reflexivity.
  - reflexivity.
Defined.

(** ** The hovered bar (BarChart.handleChartMouseMove) *)

Section BarHover.

Import BarChart Spec.

Lemma of_Z_sub a b : of_Z a - of_Z b = of_Z (a - b).
Proof.
  unfold of_Z. cbn [sub add neg]. f_equal. apply Qc_is_canon. qc_push.
  unfold Z.sub. rewrite inject_Z_plus, inject_Z_opp. ring.
Qed.

Lemma index_num_of_Z {A} (l : list A) z :
  (0 <= z)%Z -> index_num l (of_Z z) = l !! Z.to_nat z.
Proof.
  intros Hz. unfold index_num, of_Z. rewrite this_of_Z. cbn.
  now rewrite (proj2 (Z.leb_le 0 z) Hz).
Qed.

Lemma Qmul_le_cancel (a b p : Q) : (0 < p -> a * p <= b * p -> a <= b)%Q.
Proof. intros Hp Hab. nra. Qed.

Lemma Qmul_lt_cancel (a b p : Q) : (0 < p -> a * p < b * p -> a < b)%Q.
Proof. intros Hp Hab. nra. Qed.

(** The floor of a quotient by a positive number, by the multiples of
    the divisor around the dividend. *)
Lemma Qfloor_div_between (m p : Qc) (i : Z) :
  (0 < p)%Qc ->
  (Q2Qc (inject_Z i) * p <= m)%Qc -> (m < (Q2Qc (inject_Z i) + 1) * p)%Qc ->
  Qfloor (m / p)%Qc = i.
Proof.
  intros Hp Hlo Hhi.
  assert (Hq : (m / p * p = m)%Qc) by (field; intros E; qc_lra).
  pose proof (Qfloor_le (m / p)%Qc) as Hfl.
  pose proof (Qlt_floor (m / p)%Qc) as Hfu.
  rewrite inject_Z_plus in Hfu. change (inject_Z 1) with 1%Q in Hfu.
  revert Hq Hfl Hfu. generalize (m / p)%Qc as q. intros q Hq Hfl Hfu.
  qc_hyps.
  assert (Hiq : (inject_Z i <= q)%Q).
  { apply (Qmul_le_cancel _ _ p Hp). lra. }
  assert (Hqi : (q < inject_Z i + 1)%Q).
  { apply (Qmul_lt_cancel _ _ p Hp). lra. }
  assert (Hi1 : (inject_Z i < inject_Z (Qfloor q) + 1)%Q) by lra.
  assert (Hi2 : (inject_Z (Qfloor q) < inject_Z i + 1)%Q) by lra.
  change 1%Q with (inject_Z 1) in Hi1, Hi2.
  rewrite <- inject_Z_plus, <- Zlt_Qlt in Hi1, Hi2. lia.
Qed.

Lemma Qfloor_div_neg (m p : Qc) :
  (0 < p)%Qc -> (m < 0)%Qc -> (Qfloor (m / p)%Qc < 0)%Z.
Proof.
  intros Hp Hm.
  assert (Hq : (m / p * p = m)%Qc) by (field; intros E; qc_lra).
  pose proof (Qfloor_le (m / p)%Qc) as Hfl.
  revert Hq Hfl. generalize (m / p)%Qc as q. intros q Hq Hfl.
  qc_hyps.
  assert (Hq0 : (q < 0)%Q).
  { apply (Qmul_lt_cancel _ _ p Hp). lra. }
  assert (Hi : (inject_Z (Qfloor q) < inject_Z 0)%Q) by (change (inject_Z 0) with 0%Q; lra).
  now rewrite <- Zlt_Qlt in Hi.
Qed.

Lemma Qfloor_div_nonpos (m p : Qc) :
  (0 < p)%Qc -> (m <= 0)%Qc -> (Qfloor (m / p)%Qc <= 0)%Z.
Proof.
  intros Hp Hm.
  assert (Hq : (m / p * p = m)%Qc) by (field; intros E; qc_lra).
  pose proof (Qfloor_le (m / p)%Qc) as Hfl.
  revert Hq Hfl. generalize (m / p)%Qc as q. intros q Hq Hfl.
  qc_hyps.
  assert (Hq0 : (q <= 0)%Q).
  { apply (Qmul_le_cancel _ _ p Hp). lra. }
  assert (Hi : (inject_Z (Qfloor q) <= inject_Z 0)%Q) by (change (inject_Z 0) with 0%Q; lra).
  now rewrite <- Zle_Qle in Hi.
Qed.

Lemma Qfloor_div_ge (m p : Qc) (n : Z) :
  (0 < p)%Qc -> (Q2Qc (inject_Z n) * p <= m)%Qc -> (n <= Qfloor (m / p)%Qc)%Z.
Proof.
  intros Hp Hm.
  assert (Hq : (m / p * p = m)%Qc) by (field; intros E; qc_lra).
  pose proof (Qlt_floor (m / p)%Qc) as Hfu.
  rewrite inject_Z_plus in Hfu. change (inject_Z 1) with 1%Q in Hfu.
  revert Hq Hfu. generalize (m / p)%Qc as q. intros q Hq Hfu.
  qc_hyps.
  assert (Hnq : (inject_Z n <= q)%Q).
  { apply (Qmul_le_cancel _ _ p Hp). lra. }
  assert (Hi : (inject_Z n < inject_Z (Qfloor q) + 1)%Q) by lra.
  change 1%Q with (inject_Z 1) in Hi.
  rewrite <- inject_Z_plus, <- Zlt_Qlt in Hi. lia.
Qed.

Context (data : list item) (yKey : ykey) (variant : variant_t)
  (showXAxis showYAxis : bool)
  (width height gap yAxisWidth xAxisHeight : num)
  (animationProgress : num) (hiddenSeries : gset nat).

Local Abbreviation barGap' :=
  (barGap data variant showXAxis showYAxis width height gap yAxisWidth xAxisHeight).
Local Abbreviation totalBarWidth' :=
  (totalBarWidth data variant showXAxis showYAxis width height gap yAxisWidth xAxisHeight).
Local Abbreviation handleChartMouseMove' :=
  (handleChartMouseMove data yKey variant showXAxis showYAxis width height gap
     yAxisWidth xAxisHeight animationProgress hiddenSeries).

Context (cx W g : Qc).
Hypothesis Hvert : variant <> horizontal.
Hypothesis Hcx : chartX variant showYAxis yAxisWidth = Fin cx.
Hypothesis HW : chartWidth variant showYAxis width yAxisWidth = Fin W.
Hypothesis Hg : gap = Fin g.
Hypothesis Hdata : data <> [].
Hypothesis HWpos : (0 < W)%Qc.
Hypothesis Hgle : (g <= 1)%Qc.

Local Abbreviation N := (Q2Qc (inject_Z (Z.of_nat (length data)))).


End BarHover.


(** ** The sparkline (SparklineChart) *)

Section Sparkline.

Import SparklineChart.

Lemma Forall_finite_lookup (l : list num) i v :
  Forall Spec.finite l -> l !! i = Some v -> exists q, v = Fin q.
Proof.
  intros Hl Hi. rewrite Forall_lookup in Hl. specialize (Hl i v Hi).
  destruct v; try discriminate. eauto.
Qed.

(** [l.indexOf(v)] of a finite value of the list is its first index. *)
Lemma indexOf_from_first (l : list num) (q : Qc) : forall k,
  Fin q ∈ l ->
  exists i, indexOf_from l (Fin q) k = Some (k + i)%nat /\ l !! i = Some (Fin q) /\
            forall j, (j < i)%nat -> l !! j <> Some (Fin q).
Proof.
  induction l as [|a l IH]; intros k Hin; [now apply elem_of_nil in Hin|].
  cbn [indexOf_from].
  destruct (strict_eq a (Fin q)) eqn:E.
  - exists 0%nat. rewrite Nat.add_0_r. split; [reflexivity|].
    assert (a = Fin q) as ->.
    { destruct a; cbn in E; try discriminate; now apply bool_decide_eq_true_1 in E. }
    split; [reflexivity|]. intros j Hj. lia.
  - assert (Hne : a <> Fin q).
    { intros ->. cbn in E. now rewrite bool_decide_eq_true_2 in E. }
    apply elem_of_cons in Hin as [Heq | Hin]; [congruence|].
    destruct (IH (S k) Hin) as (i & Hi & Hl & Hfirst).
    exists (S i). replace (k + S i)%nat with (S k + i)%nat by lia.
    split; [exact Hi|]. split; [exact Hl|].
    intros [|j] Hj; cbn; [congruence | apply Hfirst; lia].
Qed.

Context (data : list num) (variant : variant_t) (width height : num)
  (animationProgress : num).

Context (w h : Qc).
Hypothesis Hfin : Forall Spec.finite data.
Hypothesis Hw : width = Fin w.
Hypothesis Hh : height = Fin h.
Hypothesis Hh0 : (0 <= h)%Qc.

(** The share of a value in the range of the data. *)
Lemma range_share (v : Qc) :
  Fin v ∈ data ->
  exists mn mx t : Qc,
    minValue data = Fin mn /\ maxValue data = Fin mx /\
    (mn <= v)%Qc /\ (v <= mx)%Qc /\
    (Fin v - minValue data) / range data = Fin t /\
    (0 <= t)%Qc /\ (t <= 1)%Qc /\
    (v = mn -> t = 0%Qc) /\ (v = mx -> mn <> mx -> t = 1%Qc).
Proof.
  intros Hv.
  assert (Hne : data <> []) by (intros E; rewrite E in Hv; now apply elem_of_nil in Hv).
  pose proof (Math_min_finite data Hne Hfin) as Hmn.
  pose proof (Math_max_finite data Hne Hfin) as Hmx.
  unfold range, minValue, maxValue.
  destruct (Math_min data) as [mn| | |] eqn:Emn; try discriminate.
  destruct (Math_max data) as [mx| | |] eqn:Emx; try discriminate.
  pose proof (Math_min_lb data mn (Fin v) Emn Hv) as Hlo. apply le_fin in Hlo.
  pose proof (Math_max_ub data mx (Fin v) Emx Hv) as Hhi. apply le_fin in Hhi.
  exists mn, mx. cbn [sub add neg]. unfold or_else. cbn [truthy].
  destruct (qeqb (mx + - mn) 0) eqn:E; cbn [negb].
  - apply qeqb_true in E.
    assert (v = mn) by qc_lra. assert (mx = mn) by qc_lra. subst v mx.
    exists 0%Qc. repeat split; try apply Qcle_refl; try discriminate.
    + unfold one. rewrite div_fin by discriminate. f_equal. field. discriminate.
    + congruence.
  - apply qeqb_false in E.
    assert (Hpos : (0 < mx + - mn)%Qc).
    { apply Qcnot_le_lt. intros Hle. apply E. qc_lra. }
    exists ((v + - mn) / (mx + - mn))%Qc.
    rewrite div_fin by exact E.
    destruct (Qcdiv_unit (v + - mn) (mx + - mn)) as [Ht0 Ht1]; [qc_lra | qc_lra | exact Hpos |].
    repeat split; try assumption.
    + intros ->. field. exact E.
    + intros -> _. field. exact E.
Qed.

(** The points of a sparkline of at least two finite values stay inside
    the band between the paddings of a tenth of the height: x runs evenly
    from 0 to the width, y lies between the top and the bottom of the band,
    a minimum of the data is drawn on the bottom of the band and, unless
    all values are equal, a maximum on its top. *)
Theorem sparkline_points_stay_in_band :
  (2 <= length data)%nat ->
  exists mn mx : Qc,
    minValue data = Fin mn /\ maxValue data = Fin mx /\
    forall i v, data !! i = Some v ->
      exists (vq xq yq : Qc),
        v = Fin vq /\
        points data width height !! i = Some (mkPoint (Fin xq) (Fin yq) v) /\
        (xq = Q2Qc (inject_Z (Z.of_nat i))
              / (Q2Qc (inject_Z (Z.of_nat (length data))) - 1) * w)%Qc /\
        (i = 0%nat -> xq = 0%Qc) /\
        (i = (length data - 1)%nat -> xq = w) /\
        (h * Q2Qc (1 # 10) <= yq)%Qc /\ (yq <= h - h * Q2Qc (1 # 10))%Qc /\
        (vq = mn -> yq = h - h * Q2Qc (1 # 10))%Qc /\
        (vq = mx -> mn <> mx -> yq = h * Q2Qc (1 # 10))%Qc.
Proof.
  intros Hlen.
  assert (Hne : data <> []) by (destruct data; [cbn in Hlen; lia | discriminate]).
  pose proof (Math_min_finite data Hne Hfin) as Hmn.
  pose proof (Math_max_finite data Hne Hfin) as Hmx.
  change (Math_min data) with (minValue data) in Hmn.
  change (Math_max data) with (maxValue data) in Hmx.
  destruct (minValue data) as [mn| | |] eqn:Emn; try discriminate.
  destruct (maxValue data) as [mx| | |] eqn:Emx; try discriminate.
  exists mn, mx. split; [reflexivity|]. split; [reflexivity|].
  intros i v Hi.
  destruct (Forall_finite_lookup data i v Hfin Hi) as [vq ->].
  destruct (range_share vq) as (mn' & mx' & t & Hmn' & Hmx' & _ & _ & Ht & Ht0 & Ht1 & Hbot & Htop).
  { now apply list_elem_of_lookup_2 in Hi. }
  rewrite Emn in Hmn', Ht. rewrite Emx in Hmx'.
  injection Hmn' as <-. injection Hmx' as <-.
  assert (HN : (2 <= Q2Qc (inject_Z (Z.of_nat (length data))))%Qc).
  { unfold Qcle. qc_push. change (1 + 1)%Q with (inject_Z 2).
    rewrite <- Zle_Qle. lia. }
  set (N := Q2Qc (inject_Z (Z.of_nat (length data)))) in *.
  exists vq, (Q2Qc (inject_Z (Z.of_nat i)) / (N - 1) * w)%Qc,
         (h - h * Q2Qc (1 # 10) - t * (h - h * Q2Qc (1 # 10) * Q2Qc (2 # 1)))%Qc.
  split; [reflexivity|]. split.
  { unfold points. rewrite list_lookup_imap, Hi. cbn [fmap option_fmap option_map].
    unfold getY, padding. rewrite Emn, Ht, Hh, Hw. unfold lit, of_nat, of_Z, one.
    cbn [sub add neg mul]. fold N.
    rewrite div_fin by (intros E; qc_lra). reflexivity. }
  split; [reflexivity|].
  assert (Hth0 : (0 <= t * h)%Qc) by qc_nra.
  assert (Hth1 : (t * h <= h)%Qc) by qc_nra.
  split; [|split; [|split; [|split; [|split]]]].
  - intros ->. change (inject_Z (Z.of_nat 0)) with 0%Q. field. intros E. qc_lra.
  - intros ->.
    assert (Hi1 : Q2Qc (inject_Z (Z.of_nat (length data - 1))) = (N - 1)%Qc).
    { apply Qc_is_canon. unfold N. qc_push. rewrite Nat2Z.inj_sub by lia.
      unfold Z.sub. rewrite inject_Z_plus, inject_Z_opp. cbn. ring. }
    rewrite Hi1. field. intros E. qc_lra.
  - qc_nra.
  - qc_nra.
  - intros ->%Hbot. ring.
  - intros Hv Hneq. rewrite (Htop Hv Hneq). qc_field.
Qed.

(** With [showMinMax] outside the bar variant the two markers are drawn
    on the points of the first minimum and of the first maximum of the
    data; when all values are equal both markers lie on the first point. *)
Theorem sparkline_markers_on_first_extrema :
  data <> [] -> variant <> bar ->
  exists imin imax pmin pmax,
    minMaxMarkers data variant width height true = Some (Some pmin, Some pmax) /\
    points data width height !! imin = Some pmin /\
    points data width height !! imax = Some pmax /\
    value pmin = minValue data /\ value pmax = maxValue data /\
    (forall j, (j < imin)%nat -> data !! j <> Some (minValue data)) /\
    (forall j, (j < imax)%nat -> data !! j <> Some (maxValue data)) /\
    (minValue data = maxValue data -> imin = 0%nat /\ imax = 0%nat).
Proof.
  clear Hw Hh Hh0. intros Hne Hvar.
  pose proof (Math_min_finite data Hne Hfin) as Hmn.
  pose proof (Math_max_finite data Hne Hfin) as Hmx.
  change (Math_min data) with (minValue data) in Hmn.
  change (Math_max data) with (maxValue data) in Hmx.
  destruct (minValue data) as [mn| | |] eqn:Emn; try discriminate.
  destruct (maxValue data) as [mx| | |] eqn:Emx; try discriminate.
  pose proof (Math_min_attained data mn Emn) as Hinmn.
  pose proof (Math_max_attained data mx Emx) as Hinmx.
  destruct (indexOf_from_first data mn 0 Hinmn) as (imin & Himin & Hdmin & Hfmin).
  destruct (indexOf_from_first data mx 0 Hinmx) as (imax & Himax & Hdmax & Hfmax).
  assert (Hpt : forall i v, data !! i = Some v ->
            exists p, points data width height !! i = Some p /\ value p = v).
  { intros i v Hi. unfold points. rewrite list_lookup_imap, Hi.
    cbn [fmap option_fmap option_map]. eexists. split; reflexivity. }
  destruct (Hpt imin _ Hdmin) as (pmin & Hpmin & Hvmin).
  destruct (Hpt imax _ Hdmax) as (pmax & Hpmax & Hvmax).
  exists imin, imax, pmin, pmax.
  split.
  { unfold minMaxMarkers, minIndex, maxIndex, indexOf.
    rewrite (bool_decide_eq_false_2 (variant = bar)) by assumption. cbn [andb negb].
    rewrite Emn, Emx, Himin, Himax. cbn [mbind option_bind Nat.add].
    now rewrite Hpmin, Hpmax. }
  split; [exact Hpmin|]. split; [exact Hpmax|].
  split; [exact Hvmin|]. split; [exact Hvmax|].
  split; [exact Hfmin|]. split; [exact Hfmax|].
  intros Heq. injection Heq as ->.
  assert (Hall : forall v, Fin v ∈ data -> v = mx).
  { intros v Hv.
    pose proof (Math_min_lb data mx (Fin v) Emn Hv) as Hlo. apply le_fin in Hlo.
    pose proof (Math_max_ub data mx (Fin v) Emx Hv) as Hhi. apply le_fin in Hhi.
    qc_lra. }
  assert (H0 : data !! 0%nat = Some (Fin mx)).
  { destruct data as [|a l]; [congruence|]. cbn.
    destruct (Forall_finite_lookup (a :: l) 0 a Hfin eq_refl) as [q ->].
    rewrite (Hall q) by (apply elem_of_cons; now left). reflexivity. }
  split.
  - destruct imin as [|k]; [reflexivity|]. now destruct (Hfmin 0%nat ltac:(lia)).
  - destruct imax as [|k]; [reflexivity|]. now destruct (Hfmax 0%nat ltac:(lia)).
Qed.

(** The bars of the bar variant: the cells divide the width evenly, a
    bar fills eight tenths of its cell, stands on the bottom padding line and
    is at most as high as the band between the paddings; the bar of a
    minimum of the data has height 0.  Only bars of data values are
    drawn, and all of them at full progress. *)
Theorem sparkline_bars_stand_on_padding (showArea : bool) :
  variant = bar -> data <> [] ->
  exists l,
    renderContent data variant showArea width height animationProgress = Bars l /\
    (animationProgress = one -> length l = length data) /\
    forall i r, l !! i = Some r ->
      exists v hq : Qc,
        data !! i = Some (Fin v) /\
        rect_x r
        = Fin (Q2Qc (inject_Z (Z.of_nat i))
               * (w / Q2Qc (inject_Z (Z.of_nat (length data))))) /\
        rect_width r
        = Fin (w / Q2Qc (inject_Z (Z.of_nat (length data))) * Q2Qc (8 # 10)) /\
        rect_height r = Fin hq /\
        (0 <= hq)%Qc /\ (hq <= h * Q2Qc (8 # 10))%Qc /\
        rect_y r + rect_height r = Fin (h - h * Q2Qc (1 # 10)) /\
        (minValue data = Fin v -> hq = 0%Qc).
Proof.
  intros Hv Hne. unfold renderContent. rewrite Hv.
  eexists. split; [reflexivity|].
  assert (HN : (1 <= Q2Qc (inject_Z (Z.of_nat (length data))))%Qc).
  { apply of_nat_pos. destruct data; [congruence | cbn; lia]. }
  set (N := Q2Qc (inject_Z (Z.of_nat (length data)))) in *.
  split.
  { intros ->. rewrite length_imap. unfold slice0, of_nat, one.
    change (of_Z (Z.of_nat (length data)) * Fin 1)
      with (Fin (Q2Qc (inject_Z (Z.of_nat (length data))) * 1)).
    cbn [Math_ceil].
    assert (Hc : Qceiling (Q2Qc (inject_Z (Z.of_nat (length data))) * 1)%Qc
                 = Z.of_nat (length data)).
    { rewrite <- (Qceiling_Z (Z.of_nat (length data))) at 2.
      apply Qceiling_comp. qc_push. cbn [this]. ring. }
    rewrite Hc, slice_end_of_Z by lia. rewrite Nat2Z.id, Nat.min_id.
    now rewrite firstn_all. }
  intros i r. rewrite list_lookup_imap.
  destruct (slice0 data _ !! i) as [v|] eqn:Hi; [|discriminate].
  cbn [fmap option_fmap option_map]. intros E. apply (inj Some) in E. subst r.
  unfold slice0 in Hi. apply lookup_take_Some in Hi as [Hi _].
  destruct (Forall_finite_lookup data i v Hfin Hi) as [vq ->].
  destruct (range_share vq) as (mn & mx & t & Hmn & Hmx & _ & _ & Ht & Ht0 & Ht1 & Hbot & _).
  { now apply list_elem_of_lookup_2 in Hi. }
  exists vq, (t * (h - h * Q2Qc (1 # 10) * Q2Qc (2 # 1)))%Qc.
  split; [exact Hi|]. cbn [rect_x rect_y rect_width rect_height].
  unfold padding. rewrite Ht, Hh, Hw. unfold lit, of_nat, of_Z. fold N.
  rewrite div_fin by (intros E; qc_lra). cbn [mul add sub neg].
  assert (Hth0 : (0 <= t * h)%Qc) by qc_nra.
  assert (Hth1 : (t * h <= h)%Qc) by qc_nra.
  split.
  { f_equal. apply Qc_is_canon. qc_push. field. intros E. qc_hyps. lra. }
  split; [reflexivity|]. split; [reflexivity|].
  split; [qc_nra|]. split; [qc_nra|].
  split; [f_equal; ring|].
  intros E. rewrite Hmn in E. injection E as <-. rewrite (Hbot eq_refl). ring.
Qed.

End Sparkline.

Lemma sparkline_points_witness :
  exists mn mx : Qc,
    SparklineChart.minValue [of_nat 3; of_nat 1; of_nat 2] = Fin mn /\
    SparklineChart.maxValue [of_nat 3; of_nat 1; of_nat 2] = Fin mx /\
    forall i v, [of_nat 3; of_nat 1; of_nat 2] !! i = Some v ->
      exists (vq xq yq : Qc),
        v = Fin vq /\
        SparklineChart.points [of_nat 3; of_nat 1; of_nat 2] (of_nat 100) (of_nat 30) !! i
        = Some (SparklineChart.mkPoint (Fin xq) (Fin yq) v) /\
        (xq = Q2Qc (inject_Z (Z.of_nat i))
              / (Q2Qc (inject_Z (Z.of_nat (length [of_nat 3; of_nat 1; of_nat 2]))) - 1)
              * Q2Qc (inject_Z 100))%Qc /\
        (i = 0%nat -> xq = 0%Qc) /\
        (i = (length [of_nat 3; of_nat 1; of_nat 2] - 1)%nat -> xq = Q2Qc (inject_Z 100)) /\
        (Q2Qc (inject_Z 30) * Q2Qc (1 # 10) <= yq)%Qc /\
        (yq <= Q2Qc (inject_Z 30) - Q2Qc (inject_Z 30) * Q2Qc (1 # 10))%Qc /\
        (vq = mn -> yq = Q2Qc (inject_Z 30) - Q2Qc (inject_Z 30) * Q2Qc (1 # 10))%Qc /\
        (vq = mx -> mn <> mx -> yq = Q2Qc (inject_Z 30) * Q2Qc (1 # 10))%Qc.
Proof.
  apply (sparkline_points_stay_in_band [of_nat 3; of_nat 1; of_nat 2] (of_nat 100)
           (of_nat 30) (Q2Qc (inject_Z 100)) (Q2Qc (inject_Z 30))).
  - repeat constructor.
  - reflexivity.
  - reflexivity.
  - vm_compute. discriminate.
  - cbn. lia.
Defined.

Lemma sparkline_markers_witness :
  exists imin imax pmin pmax,
    SparklineChart.minMaxMarkers [of_nat 3; of_nat 1; of_nat 2] SparklineChart.default
      (of_nat 100) (of_nat 30) true = Some (Some pmin, Some pmax) /\
    SparklineChart.points [of_nat 3; of_nat 1; of_nat 2] (of_nat 100) (of_nat 30) !! imin
    = Some pmin /\
    SparklineChart.points [of_nat 3; of_nat 1; of_nat 2] (of_nat 100) (of_nat 30) !! imax
    = Some pmax /\
    SparklineChart.value pmin = SparklineChart.minValue [of_nat 3; of_nat 1; of_nat 2] /\
    SparklineChart.value pmax = SparklineChart.maxValue [of_nat 3; of_nat 1; of_nat 2] /\
    (forall j, (j < imin)%nat ->
       [of_nat 3; of_nat 1; of_nat 2] !! j
       <> Some (SparklineChart.minValue [of_nat 3; of_nat 1; of_nat 2])) /\
    (forall j, (j < imax)%nat ->
       [of_nat 3; of_nat 1; of_nat 2] !! j
       <> Some (SparklineChart.maxValue [of_nat 3; of_nat 1; of_nat 2])) /\
    (SparklineChart.minValue [of_nat 3; of_nat 1; of_nat 2]
     = SparklineChart.maxValue [of_nat 3; of_nat 1; of_nat 2] ->
     imin = 0%nat /\ imax = 0%nat).
Proof.
  apply (sparkline_markers_on_first_extrema [of_nat 3; of_nat 1; of_nat 2]
           SparklineChart.default (of_nat 100) (of_nat 30)).
  - repeat constructor.
  - discriminate.
  - discriminate.
Defined.

Lemma sparkline_bars_witness :
  exists l,
    SparklineChart.renderContent [of_nat 3; of_nat 1; of_nat 2] SparklineChart.bar false
      (of_nat 100) (of_nat 30) one = SparklineChart.Bars l /\
    (one = one -> length l = length [of_nat 3; of_nat 1; of_nat 2]) /\
    forall i r, l !! i = Some r ->
      exists v hq : Qc,
        [of_nat 3; of_nat 1; of_nat 2] !! i = Some (Fin v) /\
        SparklineChart.rect_x r
        = Fin (Q2Qc (inject_Z (Z.of_nat i))
               * (Q2Qc (inject_Z 100)
                  / Q2Qc (inject_Z (Z.of_nat (length [of_nat 3; of_nat 1; of_nat 2]))))) /\
        SparklineChart.rect_width r
        = Fin (Q2Qc (inject_Z 100)
               / Q2Qc (inject_Z (Z.of_nat (length [of_nat 3; of_nat 1; of_nat 2])))
               * Q2Qc (8 # 10)) /\
        SparklineChart.rect_height r = Fin hq /\
        (0 <= hq)%Qc /\ (hq <= Q2Qc (inject_Z 30) * Q2Qc (8 # 10))%Qc /\
        SparklineChart.rect_y r + SparklineChart.rect_height r
        = Fin (Q2Qc (inject_Z 30) - Q2Qc (inject_Z 30) * Q2Qc (1 # 10)) /\
        (SparklineChart.minValue [of_nat 3; of_nat 1; of_nat 2] = Fin v -> hq = 0%Qc).
Proof.
  apply (sparkline_bars_stand_on_padding [of_nat 3; of_nat 1; of_nat 2]
           SparklineChart.bar (of_nat 100) (of_nat 30) one
           (Q2Qc (inject_Z 100)) (Q2Qc (inject_Z 30))).
  - repeat constructor.
  - reflexivity.
  - reflexivity.
  - vm_compute. discriminate.
  - reflexivity.
  - discriminate.
Defined.

(** ** The colours of slices, rings and shades *)

Section Palette.

Lemma of_Z_mul a b : of_Z a * of_Z b = of_Z (a * b).
Proof.
  unfold of_Z. cbn [mul]. f_equal. apply Qc_is_canon. qc_push.
  now rewrite inject_Z_mult.
Qed.

(** The floor of a quotient of integers is the integer quotient. *)
Lemma Qfloor_div_Z (a b : Z) :
  (0 < b)%Z -> Qfloor (Q2Qc (inject_Z a) / Q2Qc (inject_Z b))%Qc = (a / b)%Z.
Proof.
  intros Hb. pose proof (Z.mul_div_le a b Hb) as Hlo.
  pose proof (Z.mul_succ_div_gt a b Hb) as Hhi.
  apply Qfloor_div_between.
  - unfold Qclt. qc_push. change 0%Q with (inject_Z 0). now rewrite <- Zlt_Qlt.
  - unfold Qcle. qc_push. rewrite <- inject_Z_mult, <- Zle_Qle. lia.
  - unfold Qclt. qc_push. change 1%Q with (inject_Z 1).
    rewrite <- inject_Z_plus, <- inject_Z_mult, <- Zlt_Qlt. lia.
Qed.

(** The palette position of the colour of the item of index [i] among
    [n] items. *)
Lemma spread_index (palette : list string) (n i : nat) :
  (0 < n)%nat -> (0 < length palette)%nat ->
  index_num palette
    (min2 (of_nat i * max2 one (Math_floor (of_nat (length palette) / of_nat n)))
          (of_nat (length palette) - one))
  = palette !! Nat.min (i * Nat.max 1 (length palette / n)) (length palette - 1).
Proof.
  intros Hn Hp. unfold of_nat at 2 3. unfold of_Z at 1 2.
  rewrite div_fin.
  2:{ intros E. apply (f_equal this) in E. rewrite this_of_Z in E.
      injection E as E. lia. }
  cbn [Math_floor]. rewrite Qfloor_div_Z by lia.
  change one with (of_Z 1). rewrite max2_of_Z. unfold of_nat.
  rewrite of_Z_mul, of_Z_sub, min2_of_Z, index_num_of_Z by lia.
  f_equal. rewrite <- (Nat2Z.inj_div (length palette) n).
  lia.
Qed.

Lemma palettes_have_7 c : length (ChartUtils.colorPalettes c) = 7%nat.
Proof. now destruct c. Qed.

Lemma palettes_NoDup c : NoDup (ChartUtils.colorPalettes c).
Proof. destruct c; compute_done. Qed.

Lemma spread_distinct (n i j : nat) :
  (n <= 7)%nat -> (i < n)%nat -> (j < n)%nat ->
  Nat.min (i * Nat.max 1 (7 / n)) 6 = Nat.min (j * Nat.max 1 (7 / n)) 6 -> i = j.
Proof.
  intros Hn Hi Hj.
  assert (Hcases : (n = 1 \/ n = 2 \/ n = 3 \/ n = 4 \/ n = 5 \/ n = 6 \/ n = 7)%nat) by lia.
  destruct Hcases as [-> | [-> | [-> | [-> | [-> | [-> | ->]]]]]];
    cbn [Nat.div Nat.divmod fst Nat.max]; lia.
Qed.

Lemma spread_saturates (n i : nat) :
  (7 < n)%nat -> Nat.min (i * Nat.max 1 (7 / n)) 6 = Nat.min i 6.
Proof. intros Hn. rewrite Nat.div_small by lia. cbn [Nat.max]. lia. Qed.

(** The slices of a pie chart and the rings of a multi radial chart of
    at most seven items have pairwise different colours of the palette; with
    more than seven items every item from the seventh on has the last colour
    of the palette.  No item is left without a colour. *)
Theorem slice_colours_are_spread (data : list item) (c : ChartUtils.palette_name) :
  let palette := ChartUtils.colorPalettes c in
  (forall i, (i < length data)%nat ->
     RadialChart.getBarColor data c i = PieChart.getSliceColor data c i /\
     exists s, PieChart.getSliceColor data c i = Some s /\ s ∈ palette) /\
  ((length data <= 7)%nat ->
   forall i j, (i < length data)%nat -> (j < length data)%nat -> i <> j ->
     PieChart.getSliceColor data c i <> PieChart.getSliceColor data c j) /\
  ((7 < length data)%nat ->
   forall i, (6 <= i)%nat -> PieChart.getSliceColor data c i = palette !! 6%nat).
Proof.
  intros palette.
  assert (Hidx : forall i, (0 < length data)%nat ->
            PieChart.getSliceColor data c i
            = palette !! Nat.min (i * Nat.max 1 (7 / length data)) 6).
  { intros i Hlen. unfold PieChart.getSliceColor.
    rewrite spread_index by (rewrite ?palettes_have_7; lia).
    now rewrite palettes_have_7. }
  split; [|split].
  - intros i Hi. split; [reflexivity|].
    rewrite Hidx by lia.
    destruct (lookup_lt_is_Some_2 palette (Nat.min (i * Nat.max 1 (7 / length data)) 6))
      as [s Hs].
    { unfold palette. rewrite palettes_have_7. lia. }
    exists s. split; [exact Hs|]. now apply list_elem_of_lookup_2 in Hs.
  - intros Hn i j Hi Hj Hij. rewrite !Hidx by lia. intros E.
    destruct (lookup_lt_is_Some_2 palette (Nat.min (i * Nat.max 1 (7 / length data)) 6))
      as [s Hs].
    { unfold palette. rewrite palettes_have_7. lia. }
    rewrite Hs in E. symmetry in E.
    pose proof (NoDup_lookup palette _ _ s (palettes_NoDup c) Hs E) as Heq.
    apply Hij. now apply (spread_distinct (length data)).
  - intros Hn i Hi. rewrite Hidx by lia. rewrite spread_saturates by lia.
    f_equal. lia.
Qed.

Lemma foldl_snoc_map {A B} (f : A -> B) (l : list A) : forall acc,
  foldl (fun shades i => shades ++ [f i]) acc l = acc ++ map f l.
Proof.
  induction l as [|a l IH]; intros acc; cbn.
  - now rewrite app_nil_r.
  - now rewrite IH, <- app_assoc.
Qed.

(** [getShades] returns exactly [count] shades, each of them a colour of
    the palette (no entry is [undefined]), the first one the first colour of
    the palette; for a count of 0 it returns the empty list. *)
Theorem shades_are_palette_colours (c : ChartUtils.palette_name) (count : nat) :
  let palette := ChartUtils.colorPalettes c in
  length (ChartUtils.getShades c count) = count /\
  (forall i, (i < count)%nat ->
     exists s, ChartUtils.getShades c count !! i = Some (Some s) /\ s ∈ palette) /\
  ((0 < count)%nat -> ChartUtils.getShades c count !! 0%nat = Some (palette !! 0%nat)).
Proof.
  intros palette. unfold ChartUtils.getShades. fold palette.
  rewrite foldl_snoc_map, app_nil_l.
  assert (Hlen : length palette = 7%nat) by apply palettes_have_7.
  split; [now rewrite length_map, length_seq|].
  assert (Hentry : forall i, (i < count)%nat ->
            exists z,
              (0 <= z <= 6)%Z /\ (i = 0%nat -> z = 0%Z) /\
              index_num palette
                (min2 (Math_floor ((of_nat i / of_nat count) * of_nat (length palette)))
                      (of_nat (length palette) - one))
              = palette !! Z.to_nat z).
  { intros i Hi. rewrite Hlen.
    assert (HC : (1 <= Q2Qc (inject_Z (Z.of_nat count)))%Qc) by (apply of_nat_pos; lia).
    assert (HI0 : (0 <= Q2Qc (inject_Z (Z.of_nat i)))%Qc).
    { unfold Qcle. qc_push. change 0%Q with (inject_Z 0). rewrite <- Zle_Qle. lia. }
    assert (HIC : (Q2Qc (inject_Z (Z.of_nat i)) < Q2Qc (inject_Z (Z.of_nat count)))%Qc).
    { unfold Qclt. qc_push. rewrite <- Zlt_Qlt. lia. }
    unfold of_nat, of_Z. rewrite div_fin by (intros E; qc_lra). cbn [mul Math_floor].
    set (q := (Q2Qc (inject_Z (Z.of_nat i)) / Q2Qc (inject_Z (Z.of_nat count))
               * Q2Qc (inject_Z (Z.of_nat 7)))%Qc).
    assert (Hq : (0 <= q)%Qc /\ (q < Q2Qc (inject_Z 7))%Qc).
    { assert (Hd : (Q2Qc (inject_Z (Z.of_nat i)) / Q2Qc (inject_Z (Z.of_nat count))
                    * Q2Qc (inject_Z (Z.of_nat count)) = Q2Qc (inject_Z (Z.of_nat i)))%Qc).
      { field. intros E. qc_lra. }
      unfold q. revert Hd.
      generalize (Q2Qc (inject_Z (Z.of_nat i)) / Q2Qc (inject_Z (Z.of_nat count)))%Qc as r.
      intros r Hd. change (inject_Z (Z.of_nat 7)) with (inject_Z 7).
      assert (Hr0 : (0 <= this r)%Q).
      { apply (Qmul_le_cancel _ _ (this (Q2Qc (inject_Z (Z.of_nat count))))); qc_lra. }
      assert (Hr1 : (this r < 1)%Q).
      { apply (Qmul_lt_cancel _ _ (this (Q2Qc (inject_Z (Z.of_nat count))))); qc_lra. }
      split; [unfold Qcle | unfold Qclt]; qc_push; change (inject_Z 7) with (7 # 1)%Q; lra. }
    destruct Hq as [Hq0 Hq7].
    pose proof (Qfloor_le q) as Hfl. pose proof (Qlt_floor q) as Hfu.
    assert (Hz0 : (0 <= Qfloor q)%Z).
    { change 0%Z with (Qfloor 0). apply Qfloor_resp_le. exact Hq0. }
    assert (Hz6 : (Qfloor q < 7)%Z).
    { rewrite Zlt_Qlt. unfold Qclt in Hq7. rewrite this_of_Z in Hq7. lra. }
    exists (Qfloor q). split; [lia|]. split.
    - intros ->. unfold q. change (Q2Qc (inject_Z (Z.of_nat 0))) with (Q2Qc 0).
      replace (Q2Qc 0 / Q2Qc (inject_Z (Z.of_nat count)) * Q2Qc (inject_Z (Z.of_nat 7)))%Qc
        with (Q2Qc 0) by (field; intros E; qc_lra).
      reflexivity.
    - change (Fin (Q2Qc (inject_Z (Qfloor q)))) with (of_Z (Qfloor q)).
      change (Fin (Q2Qc (inject_Z (Z.of_nat 7)))) with (of_Z 7).
      change one with (of_Z 1).
      rewrite of_Z_sub, min2_of_Z, index_num_of_Z by lia. f_equal. lia. }
  split.
  - intros i Hi. rewrite list_lookup_fmap, lookup_seq_lt by lia.
    cbn [fmap option_fmap option_map Nat.add].
    destruct (Hentry i Hi) as (z & Hz & _ & ->).
    destruct (lookup_lt_is_Some_2 palette (Z.to_nat z)) as [s Hs]; [lia|].
    exists s. rewrite Hs. split; [reflexivity|]. now apply list_elem_of_lookup_2 in Hs.
  - intros Hc. rewrite list_lookup_fmap, lookup_seq_lt by lia.
    cbn [fmap option_fmap option_map Nat.add].
    destruct (Hentry 0%nat Hc) as (z & _ & Hz & ->). now rewrite (Hz eq_refl).
Qed.

End Palette.

(** ** The shares of the slices (PieChart) *)

Section PieShares.

Import PieChart Spec.

Context (data : list item) (valueKey : string) (variant : variant_t)
  (color_name : ChartUtils.palette_name)
  (donutWidth width height : num)
  (showLegend : bool) (legendPosition : position)
  (animationProgress : num) (hiddenSlices : gset nat).

Local Abbreviation has' := (has hiddenSlices).
Local Abbreviation total' := (total data valueKey hiddenSlices).
Local Abbreviation slice_step' :=
  (slice_step data valueKey variant color_name donutWidth width height showLegend
     legendPosition animationProgress hiddenSlices).
Local Abbreviation slices' :=
  (slices data valueKey variant color_name donutWidth width height showLegend
     legendPosition animationProgress hiddenSlices).
Local Abbreviation slice_angle' :=
  (slice_angle data valueKey variant animationProgress hiddenSlices).
Local Abbreviation angle_before' :=
  (angle_before data valueKey variant animationProgress hiddenSlices).

(** The percentage of a visible slice of value [v]. *)
Local Abbreviation pct v :=
  (if gt total' zero then (v / total') * lit 100 1 else zero).

Lemma percentages_sum mv l : forall i a,
  sum_nums (map percentage (map_state_from (slice_step' mv) i l a).1)
  = sum_nums (map (fun d => pct (raw d valueKey))
                (filter_index_from (fun k => negb (has' k)) i l)).
Proof.
  induction l as [|d l IH]; intros i a; [reflexivity|].
  cbn [map_state_from filter_index_from].
  unfold slice_step at 1.
  destruct (has' i) eqn:Hh; cbn [negb].
  - specialize (IH (S i) a).
    destruct (map_state_from (slice_step' mv) (S i) l a) as [bs s2].
    cbn [fst map percentage] in *. now rewrite sum_nums_cons, add_zero_l.
  - match goal with
    | |- context [map_state_from _ (S i) l ?a'] => specialize (IH (S i) a')
    end.
    destruct (map_state_from (slice_step' mv) (S i) l _) as [bs s2].
    cbn [fst map percentage] in *. now rewrite !sum_nums_cons, IH.
Qed.

Lemma slice_percentage k sl :
  slices' !! k = Some sl ->
  exists d, data !! k = Some d /\
    percentage sl = (if has' k then zero else pct (raw d valueKey)) /\
    value sl = (if has' k then zero else raw d valueKey).
Proof.
  intros Hk.
  apply (slices_lookup data valueKey variant color_name donutWidth width height
           showLegend legendPosition animationProgress hiddenSlices) in Hk
    as (d & mv & Hd & ->).
  exists d. split; [exact Hd|]. unfold slice_step.
  destruct (has' k); split; reflexivity.
Qed.

(** Without a positive total (no data, every slice hidden, only zero
    values, or a total that is not a number) no slice sweeps any angle: all
    slices start and end at the start angle and have percentage 0, so no
    division by the total reaches the geometry. *)
Theorem pie_without_total_is_flat :
  gt total' zero = false ->
  forall k sl, slices' !! k = Some sl ->
    percentage sl = zero /\
    startAngle sl = startAngle0 variant /\
    endAngle sl = startAngle0 variant /\
    Spec.finite (startAngle0 variant).
Proof.
  intros Hgt.
  assert (Hflat : forall l, foldl add (startAngle0 variant)
                    (map (fun d => slice_angle' (raw d valueKey)) l)
                  = startAngle0 variant).
  { induction l as [|d l IH]; [reflexivity|]. cbn [map foldl].
    replace (slice_angle' (raw d valueKey)) with zero
      by (unfold slice_angle; now rewrite Hgt).
    rewrite add_zero_r. exact IH. }
  intros k sl Hk.
  destruct (slice_percentage k sl Hk) as (d & _ & Hp & _).
  apply (slice_angles data valueKey variant color_name donutWidth width height
           showLegend legendPosition animationProgress hiddenSlices) in Hk
    as (_ & Hs & He & _).
  split.
  { rewrite Hp, Hgt. now destruct (has' k). }
  unfold angle_before in Hs, He. rewrite Hflat in Hs, He.
  split; [exact Hs|]. split; [exact He|].
  unfold startAngle0. now destruct (isSemi variant).
Qed.

(** The radius of the slices: every visible slice has the base radius,
    except in the rose variant, where the radius of a visible slice is the
    base radius times the share of its value in the largest visible value,
    baseRadius * value / largest: it lies between 0 and the base radius, a
    slice of the largest value reaches the base radius, and when no visible
    value is positive all radii are 0. *)
Theorem rose_radius_follows_value (R : Qc) :
  baseRadius variant width height showLegend legendPosition = Fin R ->
  (0 <= R)%Qc ->
  (forall d, d ∈ visibleData data hiddenSlices ->
     exists q, raw d valueKey = Fin q /\ (0 <= q)%Qc) ->
  forall k sl, slices' !! k = Some sl -> has' k = false ->
    (variant <> rose -> radius sl = Fin R) /\
    (variant = rose ->
       exists v m r : Qc,
         value sl = Fin v /\
         Math_max (map (fun d => raw d valueKey) (visibleData data hiddenSlices)) = Fin m /\
         radius sl = Fin r /\ (0 <= r)%Qc /\ (r <= R)%Qc /\
         ((0 < m)%Qc -> r = (R * v / m)%Qc) /\
         (v = m -> (0 < m)%Qc -> r = R) /\
         (m = 0%Qc -> r = 0%Qc)).
Proof.
  intros HR HR0 Hvals k sl Hk Hh.
  unfold slices, map_state in Hk.
  destruct (data !! k) as [d|] eqn:Hd.
  2:{ apply lookup_ge_None in Hd. apply lookup_lt_Some in Hk.
      rewrite map_state_from_length in Hk. lia. }
  rewrite (map_state_from_lookup _ _ _ _ _ d Hd) in Hk.
  apply (inj Some) in Hk. subst sl. rewrite Nat.add_0_l.
  match goal with
  | |- context [slice_step' _ k d ?st] => generalize st; intros a
  end.
  unfold slice_step. rewrite Hh. cbn [fst radius value].
  assert (Hin : d ∈ visibleData data hiddenSlices).
  { apply elem_of_filter_index. exists k. now rewrite Hh. }
  destruct (Hvals d Hin) as (q & Hq & Hq0).
  change (or0 (get d valueKey)) with (raw d valueKey). rewrite Hq.
  split.
  - intros Hv. unfold isRose. rewrite bool_decide_eq_false_2 by assumption. exact HR.
  - intros Hv. unfold isRose, innerRadius, isDonut. rewrite HR, Hv.
    rewrite (bool_decide_eq_true_2 (rose = rose)) by reflexivity.
    rewrite (bool_decide_eq_false_2 (rose = donut)) by discriminate.
    set (vals := map (fun d => raw d valueKey) (visibleData data hiddenSlices)).
    assert (Hvin : Fin q ∈ vals).
    { apply list_elem_of_fmap. exists d. split; [now rewrite Hq | exact Hin]. }
    assert (Hfin : Forall Spec.finite vals).
    { apply Forall_forall. intros x Hx. apply list_elem_of_fmap in Hx as (d' & -> & Hd').
      destruct (Hvals d' Hd') as (q' & -> & _). reflexivity. }
    assert (Hne : vals <> []) by (intros E; rewrite E in Hvin; now apply elem_of_nil in Hvin).
    pose proof (Math_max_finite vals Hne Hfin) as Hm.
    change (Math_max (map (fun d0 => or0 (get d0 valueKey)) (visibleData data hiddenSlices)))
      with (Math_max vals).
    destruct (Math_max vals) as [m| | |] eqn:Em; try discriminate.
    pose proof (Math_max_ub vals m (Fin q) Em Hvin) as Hqm. apply le_fin in Hqm.
    exists q, m. unfold gt. destruct (lt zero (Fin m)) eqn:Hpos.
    + apply lt_fin in Hpos.
      rewrite div_fin by (intros E; rewrite E in Hpos; discriminate Hpos).
      destruct (Qcdiv_unit q m Hq0 Hqm Hpos) as [Hu0 Hu1].
      exists (0 + (R + - 0) * (q / m))%Qc.
      split; [reflexivity|]. split; [reflexivity|]. split; [reflexivity|].
      assert (Hqm1 : q = m -> (q / m = 1)%Qc).
      { intros ->. field. intros E. rewrite E in Hpos. discriminate Hpos. }
      assert (Hform : (0 + (R + - 0) * (q / m) = R * q * / m)%Qc).
      { field. intros E. rewrite E in Hpos. discriminate Hpos. }
      revert Hu0 Hu1 Hqm1 Hform. generalize (q / m)%Qc as u.
      intros u Hu0 Hu1 Hqm1 Hform.
      split; [qc_nra|]. split; [qc_nra|]. split; [intros _; exact Hform|]. split.
      * intros E _. rewrite (Hqm1 E). ring.
      * intros E. rewrite E in Hpos. discriminate Hpos.
    + apply lt_fin_false in Hpos.
      exists 0%Qc.
      split; [reflexivity|]. split; [reflexivity|].
      split. { unfold zero. cbn [sub add neg mul]. f_equal. ring. }
      split; [apply Qcle_refl|]. split; [exact HR0|].
      split; [intros Hm0; exfalso; qc_lra|]. split.
      * intros _ Hm0. exfalso. qc_lra.
      * reflexivity.
Qed.

Context (t : Qc).
Hypothesis Htotal : total' = Fin t.
Hypothesis Ht : (0 < t)%Qc.

Lemma pct_sum l :
  Forall Spec.finite l ->
  sum_nums (map (fun v => pct v) l)
  = Fin (qsum (map qval l) / t * Q2Qc (100 # 1))%Qc.
Proof.
  assert (Hne : t <> 0%Qc) by (intros E; rewrite E in Ht; discriminate Ht).
  rewrite Htotal.
  replace (gt (Fin t) zero) with true by (symmetry; apply qlt_true; exact Ht).
  induction 1 as [|v l Hv Hl IH]; cbn [map qsum foldr].
  - change (sum_nums []) with zero. unfold zero. f_equal; field; exact Hne.
  - rewrite sum_nums_cons, IH. rewrite (finite_inv v Hv) at 1.
    rewrite div_fin by exact Hne. unfold lit. cbn [mul add qval]. f_equal.
    fold (qsum (map qval l)). field. exact Hne.
Qed.

(** With a positive total the percentages of the slices add up to 100:
    a hidden slice has percentage 0 and a visible slice the share of its
    value in the total of the visible values. *)
Theorem pie_percentages_sum_to_100 :
  sum_nums (map percentage slices') = lit 100 1 /\
  forall k sl, slices' !! k = Some sl ->
    (has' k = true -> percentage sl = zero) /\
    (has' k = false ->
       exists v, value sl = Fin v /\ percentage sl = Fin (v / t * Q2Qc (100 # 1))).
Proof.
  assert (Hne : t <> 0%Qc) by (intros E; rewrite E in Ht; discriminate Ht).
  pose proof (visible_values_finite data valueKey hiddenSlices t Htotal) as Hfin.
  pose proof (visible_values_sum data valueKey hiddenSlices t Htotal) as Hsum.
  split.
  - unfold slices, map_state. rewrite percentages_sum.
    fold (filter_index (fun k => negb (has' k)) data).
    fold (visibleData data hiddenSlices).
    rewrite <- (map_map (fun d => raw d valueKey) (fun v => pct v)).
    rewrite (pct_sum _ Hfin), Hsum. unfold lit. f_equal. field. exact Hne.
  - intros k sl Hk.
    destruct (slice_percentage k sl Hk) as (d & Hd & Hp & Hv).
    split; intros Hh; rewrite Hh in Hp, Hv; [exact Hp|].
    assert (Hin : raw d valueKey ∈ map (fun d => raw d valueKey) (visibleData data hiddenSlices)).
    { apply list_elem_of_fmap. exists d. split; [reflexivity|].
      apply elem_of_filter_index. exists k. now rewrite Hh. }
    rewrite Forall_forall in Hfin. specialize (Hfin _ Hin).
    rewrite Hp, Hv. destruct (raw d valueKey) as [q| | |]; try discriminate Hfin.
    exists q. split; [reflexivity|]. rewrite Htotal.
    replace (gt (Fin t) zero) with true by (symmetry; apply qlt_true; exact Ht).
    rewrite div_fin by exact Hne. reflexivity.
Qed.

End PieShares.

Lemma pie_without_total_witness :
  gt (PieChart.total Examples.zeros "value" ∅) zero = false /\
  forall k sl,
    PieChart.slices Examples.zeros "value" PieChart.default ChartUtils.violet (of_nat 60)
      (of_nat 300) (of_nat 300) false PieChart.pos_bottom one ∅ !! k = Some sl ->
    PieChart.percentage sl = zero /\
    PieChart.startAngle sl = PieChart.startAngle0 PieChart.default /\
    PieChart.endAngle sl = PieChart.startAngle0 PieChart.default /\
    Spec.finite (PieChart.startAngle0 PieChart.default).
Proof.
  split; [vm_compute; reflexivity|].
  apply (pie_without_total_is_flat Examples.zeros "value" PieChart.default
           ChartUtils.violet (of_nat 60) (of_nat 300) (of_nat 300) false
           PieChart.pos_bottom one ∅).
  vm_compute. reflexivity.
Defined.

Lemma pie_percentages_witness :
  Spec.sum_nums
    (map PieChart.percentage
       (PieChart.slices Examples.pie_5050 "value" PieChart.default ChartUtils.violet
          (of_nat 60) (of_nat 300) (of_nat 300) false PieChart.pos_bottom one ∅))
  = lit 100 1 /\
  forall k sl,
    PieChart.slices Examples.pie_5050 "value" PieChart.default ChartUtils.violet
      (of_nat 60) (of_nat 300) (of_nat 300) false PieChart.pos_bottom one ∅ !! k
    = Some sl ->
    (PieChart.has ∅ k = true -> PieChart.percentage sl = zero) /\
    (PieChart.has ∅ k = false ->
       exists v, PieChart.value sl = Fin v /\
                 PieChart.percentage sl = Fin (v / Q2Qc (inject_Z 100) * Q2Qc (100 # 1))).
Proof.
  apply (pie_percentages_sum_to_100 Examples.pie_5050 "value" PieChart.default
           ChartUtils.violet (of_nat 60) (of_nat 300) (of_nat 300) false
           PieChart.pos_bottom one ∅ (Q2Qc (inject_Z 100))).
  - vm_compute. reflexivity.
  - vm_compute. reflexivity.
Defined.

Lemma rose_radius_witness :
  PieChart.baseRadius PieChart.rose (of_nat 300) (of_nat 300) false PieChart.pos_bottom
  = Fin (Q2Qc (inject_Z 135)) /\
  forall k sl,
    PieChart.slices Examples.pie_5050 "value" PieChart.rose ChartUtils.violet (of_nat 60)
      (of_nat 300) (of_nat 300) false PieChart.pos_bottom one ∅ !! k = Some sl ->
    PieChart.has ∅ k = false ->
    (PieChart.rose <> PieChart.rose -> PieChart.radius sl = Fin (Q2Qc (inject_Z 135))) /\
    (PieChart.rose = PieChart.rose ->
       exists v m r : Qc,
         PieChart.value sl = Fin v /\
         Math_max (map (fun d => Spec.raw d "value")
                     (PieChart.visibleData Examples.pie_5050 ∅)) = Fin m /\
         PieChart.radius sl = Fin r /\ (0 <= r)%Qc /\ (r <= Q2Qc (inject_Z 135))%Qc /\
         ((0 < m)%Qc -> r = (Q2Qc (inject_Z 135) * v / m)%Qc) /\
         (v = m -> (0 < m)%Qc -> r = Q2Qc (inject_Z 135)) /\
         (m = 0%Qc -> r = 0%Qc)).
Proof.
  split; [vm_compute; reflexivity|].
  apply (rose_radius_follows_value Examples.pie_5050 "value" PieChart.rose
           ChartUtils.violet (of_nat 60) (of_nat 300) (of_nat 300) false
           PieChart.pos_bottom one ∅ (Q2Qc (inject_Z 135))).
  - vm_compute. reflexivity.
  - vm_compute. discriminate.
  - intros d Hd. apply list_elem_of_In in Hd. cbn in Hd.
    destruct Hd as [<- | [<- | []]]; exists (Q2Qc (inject_Z 50));
      (split; [vm_compute; reflexivity | vm_compute; discriminate]).
Defined.

(** ** Rings and gauge (RadialChart) *)

Section Radial.

Import RadialChart.

Lemma min2_fin (x y : Qc) :
  exists p, min2 (Fin x) (Fin y) = Fin p /\ (p <= x)%Qc /\ (p <= y)%Qc /\
            ((x <= y)%Qc -> p = x) /\ ((y <= x)%Qc -> p = y).
Proof.
  change (min2 (Fin x) (Fin y)) with (if lt (Fin y) (Fin x) then Fin y else Fin x).
  destruct (lt (Fin y) (Fin x)) eqn:E.
  - apply lt_fin in E. exists y. split; [reflexivity|].
    split; [qc_lra|]. split; [apply Qcle_refl|]. split; [|reflexivity].
    intros Hxy. exfalso. qc_lra.
  - apply lt_fin_false in E. exists x. split; [reflexivity|].
    split; [apply Qcle_refl|]. split; [exact E|]. split; [reflexivity|].
    intros Hyx. apply Qcle_antisym; assumption.
Qed.

Lemma Math_PI_fin : Math_PI = Fin pi_value.
Proof. reflexivity. Qed.

Lemma pi_pos : (0 < pi_value)%Qc.
Proof. vm_compute. reflexivity. Qed.

(** The filled share of a ring or of the gauge: the ratio of a value to
    a positive maximum, capped at 100 percent. *)
Lemma share_capped (v mv : Qc) :
  (0 <= v)%Qc -> (0 < mv)%Qc ->
  exists f : Qc,
    min2 ((Fin v / Fin mv) * lit 100 1) (lit 100 1) / lit 100 1 = Fin f /\
    (0 <= f)%Qc /\ (f <= 1)%Qc /\
    ((mv <= v)%Qc -> f = 1%Qc) /\ ((v <= mv)%Qc -> f = (v / mv)%Qc).
Proof.
  intros Hv Hmv.
  rewrite div_fin by (intros E; rewrite E in Hmv; discriminate Hmv).
  unfold lit. cbn [mul].
  destruct (min2_fin (v / mv * Q2Qc (100 # 1)) (Q2Qc (100 # 1)))
    as (p & -> & Hp1 & Hp2 & Hx & Hy).
  rewrite div_fin by discriminate.
  exists (p / Q2Qc (100 # 1))%Qc. split; [reflexivity|].
  assert (Hq : (v / mv * mv = v)%Qc) by (field; intros E; qc_lra).
  assert (Hq0 : (0 <= v / mv)%Qc) by (apply Qcdiv_pos_nonneg; assumption).
  assert (Hd : (p / Q2Qc (100 # 1) * Q2Qc (100 # 1) = p)%Qc) by (field; discriminate).
  revert Hq Hq0 Hp1 Hx Hy. generalize (v / mv)%Qc as u. intros u Hq Hq0 Hp1 Hx Hy.
  revert Hd. generalize (p / Q2Qc (100 # 1))%Qc as f. intros f Hd.
  assert (Hp0 : (0 <= p)%Qc).
  { destruct (Qclt_le_dec (Q2Qc (100 # 1)) (u * Q2Qc (100 # 1))) as [Hlt | Hle].
    - rewrite Hy by qc_lra. discriminate.
    - rewrite Hx by exact Hle. qc_lra. }
  split; [qc_lra|]. split; [qc_lra|]. split.
  - intros Hle. assert (Hu : (1 <= u)%Qc).
    { unfold Qcle. apply (Qmul_le_cancel _ _ (this mv)); qc_lra. }
    assert (Hp : p = Q2Qc (100 # 1)) by (apply Hy; qc_lra).
    qc_lra.
  - intros Hle. assert (Hu : (u <= 1)%Qc).
    { unfold Qcle. apply (Qmul_le_cancel _ _ (this mv)); qc_lra. }
    assert (Hp : p = (u * Q2Qc (100 # 1))%Qc) by (apply Hx; qc_lra).
    qc_lra.
Qed.

Context (value maxValue : num) (data : list item) (valueKey : string)
  (variant : variant_t) (color_name : ChartUtils.palette_name)
  (strokeWidth gap size : num) (animationProgress : num).

Context (v mv a s sw : Qc).
Hypothesis Hv : value = Fin v.
Hypothesis Hv0 : (0 <= v)%Qc.
Hypothesis Hmv : maxValue = Fin mv.
Hypothesis Hmv0 : (0 < mv)%Qc.
Hypothesis Ha : animationProgress = Fin a.
Hypothesis Ha0 : (0 <= a)%Qc.
Hypothesis Ha1 : (a <= 1)%Qc.
Hypothesis Hs : size = Fin s.
Hypothesis Hsw : strokeWidth = Fin sw.

(** The progress ring of a non-negative value with a positive maximum:
    the dash offset stays between 0 (the full ring) and the circumference
    (the empty ring); the ring is empty for the value 0 and at progress 0,
    and full at progress 1 once the value reaches the maximum, beyond which
    it is capped. *)
Theorem ring_offset_within_circumference :
  (sw <= s)%Qc ->
  exists c off : Qc,
    circumference (renderSingleRadial value maxValue variant color_name strokeWidth size
                     animationProgress) = Fin c /\
    strokeDashoffset (renderSingleRadial value maxValue variant color_name strokeWidth
                        size animationProgress) = Fin off /\
    (0 <= off)%Qc /\ (off <= c)%Qc /\
    (v = 0%Qc -> off = c) /\ (a = 0%Qc -> off = c) /\
    ((mv <= v)%Qc -> a = 1%Qc -> off = 0%Qc).
Proof.
  intros Hr.
  destruct (share_capped v mv Hv0 Hmv0) as (f & Hf & Hf0 & Hf1 & Hfull & Hpart).
  unfold renderSingleRadial, percentage. cbn [circumference strokeDashoffset].
  rewrite Hv, Hmv, Hf, Ha, Hs, Hsw, Math_PI_fin. unfold lit. cbn [sub add neg].
  rewrite div_fin by discriminate.
  pose proof pi_pos as Hpi.
  set (r := ((s + - sw) / Q2Qc (2 # 1))%Qc).
  assert (Hr0 : (0 <= r)%Qc).
  { unfold r. apply Qcdiv_pos_nonneg; [qc_lra | vm_compute; reflexivity]. }
  assert (Hc : exists c, (if isSemi variant then Fin pi_value * Fin r
                          else Fin (Q2Qc (2 # 1)) * Fin pi_value * Fin r) = Fin c /\ (0 <= c)%Qc).
  { destruct (isSemi variant); cbn [mul]; eexists; (split; [reflexivity|]).
    - clearbody r. qc_nra.
    - clearbody r. qc_nra. }
  destruct Hc as (c & -> & Hc0). cbn [mul add neg].
  exists c, (c + - (f * c * a))%Qc.
  split; [reflexivity|]. split; [reflexivity|].
  assert (Hfa0 : (0 <= f * a)%Qc) by qc_nra.
  assert (Hfa1 : (f * a <= 1)%Qc) by qc_nra.
  assert (Hfac : (f * c * a = f * a * c)%Qc) by ring.
  rewrite Hfac.
  split; [|split; [|split; [|split; [|]]]].
  - revert Hfa0 Hfa1. generalize (f * a)%Qc as g'. intros g' Hg0 Hg1. qc_nra.
  - revert Hfa0 Hfa1. generalize (f * a)%Qc as g'. intros g' Hg0 Hg1. qc_nra.
  - intros E. assert (f = 0%Qc) as ->.
    { rewrite Hpart by qc_lra. rewrite E. field. intros E'. qc_lra. }
    ring.
  - intros ->. ring.
  - intros Hle ->. rewrite (Hfull Hle). ring.
Qed.

(** The gauge of a non-negative value with a positive maximum: the
    needle and the value arc stay on the scale between the start angle and
    the end angle, at the start for the value 0 and at the end, at progress
    1, once the value reaches the maximum; the scale itself is a large arc,
    and the value arc is a large arc exactly when it covers more than two
    thirds of the scale. *)
Theorem gauge_needle_stays_on_scale :
  exists sa ea va : Qc,
    startAngle (renderGauge value maxValue strokeWidth size animationProgress) = Fin sa /\
    endAngle (renderGauge value maxValue strokeWidth size animationProgress) = Fin ea /\
    valueAngle (renderGauge value maxValue strokeWidth size animationProgress) = Fin va /\
    (sa <= va)%Qc /\ (va <= ea)%Qc /\
    (v = 0%Qc -> va = sa) /\
    ((mv <= v)%Qc -> a = 1%Qc -> va = ea) /\
    largeArcFlag (renderGauge value maxValue strokeWidth size animationProgress) = true /\
    ((v <= mv)%Qc ->
     (valueLargeArcFlag (renderGauge value maxValue strokeWidth size animationProgress)
      = true <-> (Q2Qc (2 # 3) < v / mv * a)%Qc)) /\
    ((mv <= v)%Qc ->
     (valueLargeArcFlag (renderGauge value maxValue strokeWidth size animationProgress)
      = true <-> (Q2Qc (2 # 3) < a)%Qc)).
Proof.
  destruct (share_capped v mv Hv0 Hmv0) as (f & Hf & Hf0 & Hf1 & Hfull & Hpart).
  unfold renderGauge, percentage.
  cbn [startAngle endAngle valueAngle largeArcFlag valueLargeArcFlag].
  rewrite Hv, Hmv, Hf, Ha, Math_PI_fin. unfold lit. cbn [neg].
  rewrite div_fin by discriminate. cbn [mul sub add neg].
  pose proof pi_pos as Hpi.
  assert (Hk : (pi_value / Q2Qc (180 # 1) * Q2Qc (180 # 1) = pi_value)%Qc)
    by (field; discriminate).
  revert Hk. generalize (pi_value / Q2Qc (180 # 1))%Qc as k. intros k Hk.
  assert (Hk0 : (0 < k)%Qc) by qc_lra.
  assert (Hfa0 : (0 <= f * a)%Qc) by qc_nra.
  assert (Hfa1 : (f * a <= 1)%Qc) by qc_nra.
  set (total := (Q2Qc (45 # 1) * k + - (- Q2Qc (225 # 1) * k))%Qc).
  assert (Hva : (f * total * a = f * a * k * Q2Qc (270 # 1))%Qc).
  { unfold total. apply Qc_is_canon. qc_push. ring. }
  assert (Hflag : forall fa : Qc, fa = (f * a)%Qc ->
            gt (Fin (- Q2Qc (225 # 1) * k + f * total * a + - (- Q2Qc (225 # 1) * k)))
               (Fin pi_value) = true <-> (Q2Qc (2 # 3) < fa)%Qc).
  { intros fa ->. unfold gt. rewrite lt_fin, Hva. clearbody total.
    revert Hfa0 Hfa1. generalize (f * a)%Qc as fa. intros fa Hfa0 Hfa1.
    split; intros Hlt.
    - apply Qcnot_le_lt. intros Hle.
      assert (fa * k <= Q2Qc (2 # 3) * k)%Qc by qc_nra. qc_lra.
    - assert (Q2Qc (2 # 3) * k < fa * k)%Qc by qc_nra. qc_lra. }
  eexists _, _, _.
  split; [reflexivity|]. split; [reflexivity|]. split; [reflexivity|].
  rewrite Hva.
  assert (Hfak0 : (0 <= f * a * k)%Qc) by qc_nra.
  assert (Hfak1 : (f * a * k <= k)%Qc) by qc_nra.
  split; [qc_lra|]. split; [qc_lra|]. split; [|split; [|split; [|split]]].
  - intros E. assert (f = 0%Qc) as ->.
    { rewrite Hpart by qc_lra. rewrite E. field. intros E'. qc_lra. }
    ring.
  - intros Hle ->. rewrite (Hfull Hle). apply Qc_is_canon. qc_push. ring.
  - unfold gt. apply lt_fin. unfold total. qc_lra.
  - intros Hle. rewrite <- Hva. apply Hflag. now rewrite (Hpart Hle).
  - intros Hle. rewrite <- Hva. apply Hflag. rewrite (Hfull Hle). ring.
Qed.

Context (g : Qc).
Hypothesis Hg : gap = Fin g.
Hypothesis Hpitch : (0 <= sw + g)%Qc.
Hypothesis Hvals :
  forall d, d ∈ data -> exists q, Spec.raw d valueKey = Fin q /\ (0 <= q)%Qc.

(** The rings of the multi variant for non-negative values and a
    positive maximum: ring [i] has the radius size/2 - strokeWidth/2 - i *
    (strokeWidth + gap) - 10; a ring whose radius is not positive is left
    out, and so is every ring after it; the dash offset of a drawn ring
    stays between 0 and its circumference. *)
Theorem multi_rings_are_nested :
  forall (i : nat) o,
    renderMultiRadial maxValue data valueKey color_name strokeWidth gap size
      animationProgress !! i = Some o ->
    let r := (s / Q2Qc (2 # 1) - sw / Q2Qc (2 # 1)
              - Q2Qc (inject_Z (Z.of_nat i)) * (sw + g) - Q2Qc (10 # 1))%Qc in
    ((r <= 0)%Qc ->
       o = None /\
       forall (j : nat) o', (i <= j)%nat ->
         renderMultiRadial maxValue data valueKey color_name strokeWidth gap size
           animationProgress !! j = Some o' -> o' = None) /\
    ((0 < r)%Qc ->
       exists ring c off,
         o = Some ring /\ ring_radius ring = Fin r /\
         ring_color ring = getBarColor data color_name i /\
         circumference ring = Fin c /\ strokeDashoffset ring = Fin off /\
         (0 <= off)%Qc /\ (off <= c)%Qc).
Proof.
  clear Hv Hv0.
  assert (Hradius : forall i : nat,
            center size - strokeWidth / lit 2 1 - of_nat i * (strokeWidth + gap) - lit 10 1
            = Fin (s / Q2Qc (2 # 1) - sw / Q2Qc (2 # 1)
                   - Q2Qc (inject_Z (Z.of_nat i)) * (sw + g) - Q2Qc (10 # 1))).
  { intros i. unfold center. rewrite Hs, Hsw, Hg. unfold lit, of_nat, of_Z.
    rewrite !div_fin by discriminate. reflexivity. }
  assert (Hlook : forall (i : nat) o,
            renderMultiRadial maxValue data valueKey color_name strokeWidth gap size
              animationProgress !! i = Some o ->
            exists d, data !! i = Some d /\
              ((s / Q2Qc (2 # 1) - sw / Q2Qc (2 # 1)
                - Q2Qc (inject_Z (Z.of_nat i)) * (sw + g) - Q2Qc (10 # 1) <= 0)%Qc ->
               o = None)).
  { intros i o. unfold renderMultiRadial. rewrite list_lookup_imap.
    destruct (data !! i) as [d|]; [|discriminate].
    cbn [fmap option_fmap option_map]. rewrite Hradius. intros E.
    apply (inj Some) in E. subst o. exists d. split; [reflexivity|].
    intros Hle. apply le_fin in Hle. unfold zero. now rewrite Hle. }
  intros i o Ho r. split.
  - intros Hr. destruct (Hlook i o Ho) as (d & _ & Hnone).
    split; [now apply Hnone|].
    intros j o' Hij Ho'. destruct (Hlook j o' Ho') as (d' & _ & Hnone').
    apply Hnone'. 
    assert (Hji : (Q2Qc (inject_Z (Z.of_nat i)) <= Q2Qc (inject_Z (Z.of_nat j)))%Qc).
    { unfold Qcle. qc_push. rewrite <- Zle_Qle. lia. }
    unfold r in Hr. clear Hnone Hnone' Hlook Hradius.
    revert Hji Hr. generalize (Q2Qc (inject_Z (Z.of_nat i))) as qi.
    generalize (Q2Qc (inject_Z (Z.of_nat j))) as qj. intros qj qi Hji Hr.
    assert (Hprod : (0 <= (qj - qi) * (sw + g))%Qc) by qc_nra.
    qc_nra.
  - intros Hr. unfold renderMultiRadial in Ho. rewrite list_lookup_imap in Ho.
    destruct (data !! i) as [d|] eqn:Hd; [|discriminate].
    cbn [fmap option_fmap option_map] in Ho. rewrite Hradius in Ho. fold r in Ho.
    replace (le (Fin r) zero) with false in Ho
      by (symmetry; apply le_fin_false; exact Hr).
    apply (inj Some) in Ho. subst o.
    assert (Hin : d ∈ data) by (now apply list_elem_of_lookup_2 in Hd).
    destruct (Hvals d Hin) as (q & Hq & Hq0).
    set (vals := maxValue :: map (fun d => or0 (get d valueKey)) data).
    assert (Hfin : Forall Spec.finite vals).
    { unfold vals. constructor; [now rewrite Hmv|].
      apply Forall_forall. intros x Hx. apply list_elem_of_fmap in Hx as (d' & -> & Hd').
      destruct (Hvals d' Hd') as (q' & Hq' & _).
      change (or0 (get d' valueKey)) with (Spec.raw d' valueKey). now rewrite Hq'. }
    pose proof (Math_max_finite vals ltac:(discriminate) Hfin) as HM.
    unfold totalMax. fold vals.
    destruct (Math_max vals) as [M| | |] eqn:EM; try discriminate.
    assert (HmvM : (mv <= M)%Qc).
    { apply le_fin. apply (Math_max_ub vals M); [exact EM|].
      unfold vals. rewrite Hmv. apply list_elem_of_here. }
    assert (HqM : (q <= M)%Qc).
    { apply le_fin. apply (Math_max_ub vals M); [exact EM|].
      unfold vals. apply list_elem_of_further, list_elem_of_fmap. exists d.
      split; [|exact Hin]. symmetry. exact Hq. }
    assert (HM0 : (0 < M)%Qc) by qc_lra.
    destruct (share_capped q M Hq0 HM0) as (f & Hf & Hf0 & Hf1 & _ & _).
    change (or0 (get d valueKey)) with (Spec.raw d valueKey). rewrite Hq, Hf, Ha.
    rewrite Math_PI_fin. unfold lit. cbn [mul sub add neg].
    eexists _, _, _. split; [reflexivity|].
    cbn [ring_radius ring_color circumference strokeDashoffset].
    split; [reflexivity|]. split; [reflexivity|]. split; [reflexivity|].
    split; [reflexivity|].
    pose proof pi_pos as Hpi.
    assert (Hc0 : (0 <= Q2Qc (2 # 1) * pi_value * r)%Qc) by (clearbody r; qc_nra).
    revert Hc0. generalize (Q2Qc (2 # 1) * pi_value * r)%Qc as c. intros c Hc0.
    assert (Hfa0 : (0 <= f * a)%Qc) by qc_nra.
    assert (Hfa1 : (f * a <= 1)%Qc) by qc_nra.
    assert (Hfac : (f * c * a = f * a * c)%Qc) by ring.
    rewrite Hfac. revert Hfa0 Hfa1. generalize (f * a)%Qc as fa. intros fa Hfa0 Hfa1.
    split; qc_nra.
Qed.

(** The component draws exactly one of its three charts: the rings of
    the multi variant when there is data, the gauge of the gauge variant,
    and the single ring otherwise, which is also what the multi variant
    falls back to without data. *)
Theorem radial_renders_one_chart :
  exists chart,
    render value maxValue data valueKey variant color_name strokeWidth gap size
      animationProgress = [chart] /\
    match chart with
    | Multi _ => variant = multi /\ data <> []
    | Gauge _ => variant = gauge
    | Single _ => variant <> gauge /\ (variant = multi -> data = [])
    end.
Proof.
  clear. unfold render, isMulti, isGauge.
  destruct variant; cbn [bool_decide decide_rel andb negb app];
    try (eexists; split; [reflexivity|]; cbn; split; [discriminate | discriminate]);
    try (eexists; split; [reflexivity|]; reflexivity).
  destruct data as [|d l]; cbn; eexists; (split; [reflexivity|]); cbn.
  - split; [discriminate | reflexivity].
  - split; [reflexivity | discriminate].
Qed.

End Radial.

Lemma ring_offset_witness :
  exists c off : Qc,
    RadialChart.circumference
      (RadialChart.renderSingleRadial (of_nat 75) (of_nat 100) RadialChart.default
         ChartUtils.violet (of_nat 12) (of_nat 120) one) = Fin c /\
    RadialChart.strokeDashoffset
      (RadialChart.renderSingleRadial (of_nat 75) (of_nat 100) RadialChart.default
         ChartUtils.violet (of_nat 12) (of_nat 120) one) = Fin off /\
    (0 <= off)%Qc /\ (off <= c)%Qc /\
    (Q2Qc (inject_Z 75) = 0%Qc -> off = c) /\ (1%Qc = 0%Qc -> off = c) /\
    ((Q2Qc (inject_Z 100) <= Q2Qc (inject_Z 75))%Qc -> 1%Qc = 1%Qc -> off = 0%Qc).
Proof.
  apply (ring_offset_within_circumference (of_nat 75) (of_nat 100) RadialChart.default
           ChartUtils.violet (of_nat 12) (of_nat 120) one
           (Q2Qc (inject_Z 75)) (Q2Qc (inject_Z 100)) 1%Qc
           (Q2Qc (inject_Z 120)) (Q2Qc (inject_Z 12))).
  - reflexivity.
  - vm_compute. discriminate.
  - reflexivity.
  - vm_compute. reflexivity.
  - reflexivity.
  - vm_compute. discriminate.
  - vm_compute. discriminate.
  - reflexivity.
  - reflexivity.
  - vm_compute. discriminate.
Defined.

Lemma gauge_needle_witness :
  exists sa ea va : Qc,
    RadialChart.startAngle
      (RadialChart.renderGauge (of_nat 75) (of_nat 100) (of_nat 12) (of_nat 120) one)
    = Fin sa /\
    RadialChart.endAngle
      (RadialChart.renderGauge (of_nat 75) (of_nat 100) (of_nat 12) (of_nat 120) one)
    = Fin ea /\
    RadialChart.valueAngle
      (RadialChart.renderGauge (of_nat 75) (of_nat 100) (of_nat 12) (of_nat 120) one)
    = Fin va /\
    (sa <= va)%Qc /\ (va <= ea)%Qc.
Proof.
  destruct (gauge_needle_stays_on_scale (of_nat 75) (of_nat 100) (of_nat 12) (of_nat 120)
              one (Q2Qc (inject_Z 75)) (Q2Qc (inject_Z 100)) 1%Qc)
    as (sa & ea & va & Hsa & Hea & Hva & Hlo & Hhi & _).
  - reflexivity.
  - vm_compute. discriminate.
  - reflexivity.
  - vm_compute. reflexivity.
  - reflexivity.
  - vm_compute. discriminate.
  - vm_compute. discriminate.
  - exists sa, ea, va. repeat split; assumption.
Defined.

Lemma multi_rings_witness :
  (0 < Q2Qc (inject_Z 100))%Qc /\
  forall (i : nat) o,
    RadialChart.renderMultiRadial (of_nat 100) Examples.months "value" ChartUtils.violet
      (of_nat 12) (of_nat 4) (of_nat 120) one !! i = Some o ->
    let r := (Q2Qc (inject_Z 120) / Q2Qc (2 # 1) - Q2Qc (inject_Z 12) / Q2Qc (2 # 1)
              - Q2Qc (inject_Z (Z.of_nat i)) * (Q2Qc (inject_Z 12) + Q2Qc (inject_Z 4))
              - Q2Qc (10 # 1))%Qc in
    ((r <= 0)%Qc ->
       o = None /\
       forall (j : nat) o', (i <= j)%nat ->
         RadialChart.renderMultiRadial (of_nat 100) Examples.months "value"
           ChartUtils.violet (of_nat 12) (of_nat 4) (of_nat 120) one !! j = Some o' ->
         o' = None) /\
    ((0 < r)%Qc ->
       exists ring c off,
         o = Some ring /\ RadialChart.ring_radius ring = Fin r /\
         RadialChart.ring_color ring
         = RadialChart.getBarColor Examples.months ChartUtils.violet i /\
         RadialChart.circumference ring = Fin c /\
         RadialChart.strokeDashoffset ring = Fin off /\
         (0 <= off)%Qc /\ (off <= c)%Qc).
Proof.
  split; [vm_compute; reflexivity|].
  apply (multi_rings_are_nested (of_nat 100) Examples.months "value" ChartUtils.violet
           (of_nat 12) (of_nat 4) (of_nat 120) one
           (Q2Qc (inject_Z 100)) 1%Qc (Q2Qc (inject_Z 120)) (Q2Qc (inject_Z 12))
           eq_refl).
  - vm_compute. reflexivity.
  - reflexivity.
  - vm_compute. discriminate.
  - vm_compute. discriminate.
  - reflexivity.
  - reflexivity.
  - reflexivity.
  - vm_compute. discriminate.
  - intros d Hd. apply list_elem_of_In in Hd. cbn in Hd.
    destruct Hd as [<- | [<- | [<- | []]]]; eexists;
      (split; [vm_compute; reflexivity | vm_compute; discriminate]).
Defined.

(** ** The reference line (SparklineChart) *)

Section SparkReference.

Import SparklineChart.

Context (data : list num) (height : num) (h : Qc).
Hypothesis Hfin : Forall Spec.finite data.
Hypothesis Hne : data <> [].
Hypothesis Hh : height = Fin h.
Hypothesis Hh0 : (0 < h)%Qc.

(** The reference line of a sparkline of finite values with several
    distinct values is drawn inside the band between the paddings exactly
    when the reference value lies in the range of the data: above the band
    for a larger value and below it for a smaller one.  Without
    [showReference] or with a [null] reference value no line is drawn. *)
Theorem reference_line_follows_range (rv : Qc) :
  exists mn mx yq : Qc,
    minValue data = Fin mn /\ maxValue data = Fin mx /\ (mn <= mx)%Qc /\
    referenceLine data height true (Some (Fin rv)) = Some (Fin yq) /\
    ((mn <= rv)%Qc -> (rv <= mx)%Qc ->
       (h * Q2Qc (1 # 10) <= yq)%Qc /\ (yq <= h - h * Q2Qc (1 # 10))%Qc) /\
    ((mn < mx)%Qc -> (mx < rv)%Qc -> (yq < h * Q2Qc (1 # 10))%Qc) /\
    ((mn < mx)%Qc -> (rv < mn)%Qc -> (h - h * Q2Qc (1 # 10) < yq)%Qc) /\
    referenceLine data height true None = None /\
    referenceLine data height false (Some (Fin rv)) = None.
Proof.
  pose proof (Math_min_finite data Hne Hfin) as Hmn.
  pose proof (Math_max_finite data Hne Hfin) as Hmx.
  change (Math_min data) with (minValue data) in Hmn.
  change (Math_max data) with (maxValue data) in Hmx.
  destruct (minValue data) as [mn| | |] eqn:Emn; try discriminate.
  destruct (maxValue data) as [mx| | |] eqn:Emx; try discriminate.
  assert (Hle : (mn <= mx)%Qc).
  { pose proof (Math_min_attained data mn Emn) as Hin.
    apply le_fin. exact (Math_max_ub data mx (Fin mn) Emx Hin). }
  exists mn, mx.
  unfold referenceLine, getY, padding, range. rewrite Emn, Emx, Hh.
  unfold or_else. cbn [sub add neg truthy].
  set (r := (mx + - mn)%Qc).
  assert (Hrange : exists rg : Qc,
            (if negb (qeqb r 0) then Fin r else one) = Fin rg /\ (0 < rg)%Qc /\
            ((mn < mx)%Qc -> rg = (mx - mn)%Qc) /\ (mn = mx -> rg = 1%Qc)).
  { destruct (qeqb r 0) eqn:E; cbn [negb].
    - apply qeqb_true in E. unfold r in E. exists 1%Qc.
      split; [reflexivity|]. split; [reflexivity|]. split; [|reflexivity].
      intros Hlt. exfalso. qc_lra.
    - apply qeqb_false in E. unfold r in *. exists (mx + - mn)%Qc.
      split; [reflexivity|].
      assert (Hpos : (0 < mx + - mn)%Qc).
      { apply Qcnot_le_lt. intros Hle'. apply E. qc_lra. }
      split; [exact Hpos|]. split; [reflexivity|]. intros ->. exfalso. apply E. ring. }
  destruct Hrange as (rg & -> & Hrg & Hrg1 & Hrg2).
  rewrite div_fin by (intros E; rewrite E in Hrg; discriminate Hrg).
  unfold lit. cbn [mul add neg].
  eexists. split; [reflexivity|]. split; [reflexivity|]. split; [exact Hle|].
  split; [reflexivity|].
  assert (Ht : ((rv + - mn) / rg * rg = rv - mn)%Qc) by (field; intros E; qc_lra).
  revert Ht. generalize ((rv + - mn) / rg)%Qc as t. intros t Ht.
  split; [|split; [|split; [|split]]]; try reflexivity.
  - intros Hlo Hhi.
    assert (Ht0 : (0 <= t)%Qc).
    { unfold Qcle. apply (Qmul_le_cancel _ _ (this rg)); qc_lra. }
    assert (Ht1 : (t <= 1)%Qc).
    { destruct (Qc_eq_dec mn mx) as [E | E].
      - rewrite (Hrg2 E) in Ht. qc_lra.
      - assert (Hlt : (mn < mx)%Qc).
        { apply Qcnot_le_lt. intros Hge. apply E. apply Qcle_antisym; assumption. }
        rewrite (Hrg1 Hlt) in Ht, Hrg.
        unfold Qcle. apply (Qmul_le_cancel _ _ (this (mx - mn)%Qc)); qc_lra. }
    assert (Hth0 : (0 <= t * h)%Qc) by qc_nra.
    assert (Hth1 : (t * h <= h)%Qc) by qc_nra.
    split; qc_nra.
  - intros Hlt Hgt. rewrite (Hrg1 Hlt) in Ht, Hrg.
    assert (Ht1 : (1 < t)%Qc).
    { unfold Qclt. apply (Qmul_lt_cancel _ _ (this (mx - mn)%Qc)); qc_lra. }
    assert (Hth : (h < t * h)%Qc) by qc_nra.
    qc_nra.
  - intros Hlt Hgt. rewrite (Hrg1 Hlt) in Ht, Hrg.
    assert (Ht1 : (t < 0)%Qc).
    { unfold Qclt. apply (Qmul_lt_cancel _ _ (this (mx - mn)%Qc)); qc_lra. }
    assert (Hth : (t * h < 0)%Qc) by qc_nra.
    qc_nra.
Qed.

End SparkReference.

Lemma reference_line_witness :
  exists mn mx yq : Qc,
    SparklineChart.minValue [of_nat 3; of_nat 1; of_nat 2] = Fin mn /\
    SparklineChart.maxValue [of_nat 3; of_nat 1; of_nat 2] = Fin mx /\ (mn <= mx)%Qc /\
    SparklineChart.referenceLine [of_nat 3; of_nat 1; of_nat 2] (of_nat 30) true
      (Some (of_nat 2)) = Some (Fin yq) /\
    ((mn <= Q2Qc (inject_Z 2))%Qc -> (Q2Qc (inject_Z 2) <= mx)%Qc ->
       (Q2Qc (inject_Z 30) * Q2Qc (1 # 10) <= yq)%Qc /\
       (yq <= Q2Qc (inject_Z 30) - Q2Qc (inject_Z 30) * Q2Qc (1 # 10))%Qc).
Proof.
  destruct (reference_line_follows_range [of_nat 3; of_nat 1; of_nat 2] (of_nat 30)
              (Q2Qc (inject_Z 30))) with (rv := Q2Qc (inject_Z 2))
    as (mn & mx & yq & Hmn & Hmx & Hle & Hy & Hin & _).
  - repeat constructor.
  - discriminate.
  - reflexivity.
  - vm_compute. reflexivity.
  - exists mn, mx, yq. repeat split; try assumption; now apply Hin.
Defined.

(** ** The labels of the x axis (AreaChart.renderXAxis) *)

Section AreaXAxis.

Import AreaChart Spec.

Lemma filter_index_snoc {A} (f : nat -> bool) (l : list A) (a : A) :
  filter_index f (l ++ [a]) = filter_index f l ++ (if f (length l) then [a] else []).
Proof.
  unfold filter_index. rewrite filter_index_from_app. cbn [filter_index_from].
  now rewrite Nat.add_0_l.
Qed.

(** Keeping every [s]-th item of [n] items keeps ceil(n / s) items. *)
Lemma every_nth_count {A} (s : nat) (l : list A) :
  (0 < s)%nat ->
  let c := length (filter_index (fun i => (Z.of_nat i mod Z.of_nat s =? 0)%Z) l) in
  (l = [] /\ c = 0%nat) \/
  ((1 <= c)%nat /\ ((c - 1) * s < length l)%nat /\ (length l <= c * s)%nat).
Proof.
  intros Hs. induction l as [|a l IH] using rev_ind; [now left|].
  right. cbv zeta in *. rewrite filter_index_snoc, !length_app. cbn [length].
  set (c := length (filter_index (fun i => (Z.of_nat i mod Z.of_nat s =? 0)%Z) l)) in *.
  destruct (Z.eqb_spec (Z.of_nat (length l) mod Z.of_nat s) 0) as [E | E]; cbn [length].
  - apply Z.mod_divide in E; [|lia]. destruct E as [k Hk].
    destruct IH as [[-> ->] | (Hc & Hlo & Hhi)]; [cbn; lia|].
    assert (k = Z.of_nat c) by nia. nia.
  - destruct IH as [[-> ->] | (Hc & Hlo & Hhi)].
    + cbn [length] in E. rewrite Z.mod_0_l in E by lia. congruence.
    + assert (length l <> c * s)%nat.
      { intros Heq. apply E. rewrite Heq, Nat2Z.inj_mul. apply Z.mod_mul. lia. }
      nia.
Qed.

Lemma Qceiling_sixth (n : nat) :
  Qceiling (Q2Qc (inject_Z (Z.of_nat n)) / Q2Qc (6 # 1))%Qc = Z.of_nat ((n + 5) / 6).
Proof.
  set (q := (Q2Qc (inject_Z (Z.of_nat n)) / Q2Qc (6 # 1))%Qc).
  assert (Hq : (q * Q2Qc (6 # 1) = Q2Qc (inject_Z (Z.of_nat n)))%Qc).
  { unfold q. field. discriminate. }
  pose proof (Qle_ceiling q) as Hup. pose proof (Qceiling_lt q) as Hlo.
  clearbody q. apply Qc_eq_this in Hq. revert Hq. qc_push. intros Hq.
  assert (H1 : (inject_Z (Z.of_nat n) <= inject_Z (6 * Qceiling q))%Q).
  { rewrite inject_Z_mult. change (inject_Z 6) with (6 # 1)%Q. lra. }
  assert (H2 : (inject_Z (6 * (Qceiling q - 1)) < inject_Z (Z.of_nat n))%Q).
  { rewrite inject_Z_mult. change (inject_Z 6) with (6 # 1)%Q. lra. }
  rewrite <- Zle_Qle in H1. rewrite <- Zlt_Qlt in H2.
  rewrite Nat2Z.inj_div, Nat2Z.inj_add. change (Z.of_nat 5) with 5%Z.
  change (Z.of_nat 6) with 6%Z. 
  apply Z.div_unique with (r := (Z.of_nat n + 5 - 6 * Qceiling q)%Z); lia.
Qed.

Context (data : list item) (yKey : ykey) (variant : variant_t)
  (showXAxis showYAxis : bool)
  (width height yAxisWidth xAxisHeight : num)
  (hiddenSeries : gset nat).

(** The x axis shows at most six labels, one for every [step]-th data
    item where [step] is the number of items divided by six and rounded up,
    and every label is centred on the x of the point of its data item. *)
Theorem x_axis_labels_sit_on_points (key : string) (sv : option (list num)) :
  showXAxis = true -> data <> [] ->
  let step := ((length data + 5) / 6)%nat in
  exists xs,
    renderXAxis data showXAxis showYAxis width yAxisWidth = Some xs /\
    (1 <= length xs <= 6)%nat /\
    ((length xs - 1) * step < length data <= length xs * step)%nat /\
    forall idx lx, xs !! idx = Some lx ->
      exists p,
        getPoints data yKey variant showXAxis showYAxis width height yAxisWidth xAxisHeight
          hiddenSeries key sv !! (idx * step)%nat = Some p /\
        x p = lx.
Proof.
  intros Hx Hne step.
  assert (Hn : (0 < length data)%nat) by (destruct data; [congruence | cbn; lia]).
  assert (Hstep : (0 < step)%nat).
  { unfold step. apply Nat.div_str_pos. lia. }
  unfold renderXAxis. rewrite Hx.
  assert (Hceil : Math_ceil (of_nat (length data) / lit 6 1) = of_Z (Z.of_nat step)).
  { unfold of_nat, of_Z at 1, lit. rewrite div_fin by discriminate.
    cbn [Math_ceil]. now rewrite Qceiling_sixth. }
  rewrite Hceil. unfold of_Z at 2. rewrite this_of_Z. cbn [Qnum inject_Z].
  replace (negb (Z.of_nat step =? 0)%Z) with true
    by (symmetry; apply negb_true_iff, Z.eqb_neq; lia).
  cbn [andb].
  eexists. split; [reflexivity|]. rewrite length_imap.
  pose proof (every_nth_count step data Hstep) as Hcount. cbv zeta in Hcount.
  set (kept := filter_index (fun i => (Z.of_nat i mod Z.of_nat step =? 0)%Z) data) in *.
  destruct Hcount as [[E _] | (Hc & Hlo & Hhi)]; [congruence|].
  assert (H6 : (length data <= 6 * step)%nat).
  { unfold step. pose proof (Nat.div_mod_eq (length data + 5) 6) as Hd.
    pose proof (Nat.mod_upper_bound (length data + 5) 6). lia. }
  split; [split; [lia | nia]|]. split; [lia|].
  intros idx lx. rewrite list_lookup_imap.
  destruct (kept !! idx) as [d|] eqn:Hk; [|discriminate].
  cbn [fmap option_fmap option_map]. intros E. apply (inj Some) in E. subst lx.
  apply lookup_lt_Some in Hk.
  assert (Hidx : (idx * step < length data)%nat) by nia.
  destruct (lookup_lt_is_Some_2 data (idx * step)%nat Hidx) as [item Hitem].
  unfold getPoints. rewrite list_lookup_imap, Hitem.
  cbn [fmap option_fmap option_map]. eexists. split; [reflexivity|]. cbn [x].
  unfold of_nat. rewrite of_Z_mul, Nat2Z.inj_mul. reflexivity.
Qed.

End AreaXAxis.

Lemma x_axis_labels_witness :
  exists xs,
    AreaChart.renderXAxis Examples.months true true (of_nat 300) (of_nat 50) = Some xs /\
    (1 <= length xs <= 6)%nat /\
    ((length xs - 1) * ((length Examples.months + 5) / 6) < length Examples.months
     <= length xs * ((length Examples.months + 5) / 6))%nat /\
    forall idx lx, xs !! idx = Some lx ->
      exists p,
        AreaChart.getPoints Examples.months (YString "value") AreaChart.curved true true
          (of_nat 300) (of_nat 150) (of_nat 50) (of_nat 30) ∅ "value" None
          !! (idx * ((length Examples.months + 5) / 6))%nat = Some p /\
        AreaChart.x p = lx.
Proof.
  apply (x_axis_labels_sit_on_points Examples.months (YString "value") AreaChart.curved
           true true (of_nat 300) (of_nat 150) (of_nat 50) (of_nat 30) ∅ "value" None).
  - reflexivity.
  - discriminate.
Defined.

(** ** The ticks of the y axis (AreaChart.renderYAxis) *)

Section AreaYAxis.

Import AreaChart Spec.

Context (data : list item) (yKey : ykey) (variant : variant_t)
  (showGrid showXAxis showYAxis : bool)
  (height xAxisHeight : num)
  (hiddenSeries : gset nat).

Context (m ch : Qc).
Hypothesis Hshow : showYAxis = true.
Hypothesis Hm : maxValue data yKey variant hiddenSeries = Fin m.
Hypothesis Hm0 : (0 < m)%Qc.
Hypothesis Hch : chartHeight showXAxis height xAxisHeight = Fin ch.

(** With a positive maximum the y axis has five ticks in equal steps
    from 0 on the bottom edge of the plot to the maximum of the value scale
    on its top edge; each label is set 4 pixels below its tick and the grid
    lines, when shown, run through the ticks. *)
Theorem y_axis_ticks_span_the_plot :
  exists ticks,
    renderYAxis data yKey variant showGrid showXAxis showYAxis height xAxisHeight
      hiddenSeries = Some ticks /\
    length ticks = 5%nat /\
    (forall (i : nat) t, ticks !! i = Some t ->
       let ty := (Q2Qc (15 # 1) + ch - Q2Qc (inject_Z (Z.of_nat i)) / Q2Qc (4 # 1) * ch)%Qc in
       tick_value t = Fin (m * Q2Qc (inject_Z (Z.of_nat i)) / Q2Qc (4 # 1)) /\
       text_y t = Fin (ty + Q2Qc (4 # 1)) /\
       line_y t = (if showGrid then Some (Fin ty) else None)) /\
    (forall t, ticks !! 0%nat = Some t ->
       tick_value t = zero /\ text_y t = Fin (Q2Qc (15 # 1) + ch + Q2Qc (4 # 1))) /\
    (forall t, ticks !! 4%nat = Some t ->
       tick_value t = Fin m /\ text_y t = Fin (Q2Qc (15 # 1) + Q2Qc (4 # 1))).
Proof.
  assert (Hne : m <> 0%Qc) by (intros E; rewrite E in Hm0; discriminate Hm0).
  assert (Htick : forall (i : nat) t,
            (map (fun tick =>
                    let ty := chartY + chartHeight showXAxis height xAxisHeight
                              - ((tick - minValue) / valueRange data yKey variant hiddenSeries)
                                * chartHeight showXAxis height xAxisHeight in
                    mkTick tick (ty + lit 4 1) (if showGrid then Some ty else None))
                 (tickValues data yKey variant hiddenSeries)) !! i = Some t ->
            let ty := (Q2Qc (15 # 1) + ch
                       - Q2Qc (inject_Z (Z.of_nat i)) / Q2Qc (4 # 1) * ch)%Qc in
            tick_value t = Fin (m * Q2Qc (inject_Z (Z.of_nat i)) / Q2Qc (4 # 1)) /\
            text_y t = Fin (ty + Q2Qc (4 # 1)) /\
            line_y t = (if showGrid then Some (Fin ty) else None)).
  { intros i t. rewrite list_lookup_fmap. unfold tickValues. rewrite list_lookup_fmap.
    destruct (seq 0 5 !! i) as [j|] eqn:Hj; [|discriminate].
    apply lookup_seq in Hj as [-> _]. rewrite Nat.add_0_l.
    cbn [fmap option_fmap option_map]. intros E. apply (inj Some) in E. subst t.
    cbn [tick_value text_y line_y].
    unfold valueRange, minValue, chartY, topPadding. rewrite Hm, Hch.
    unfold lit, of_nat, of_Z, one, zero. cbn [sub add neg].
    rewrite (div_fin (m + - 0)) by discriminate. cbn [mul add neg sub].
    rewrite div_fin by (intros E; apply Hne; rewrite <- E; ring).
    cbn [mul add neg sub].
    assert (Hv : (0 + (m + - 0) / (Q2Qc (5 # 1) + - 1) * Q2Qc (inject_Z (Z.of_nat i))
                  = m * Q2Qc (inject_Z (Z.of_nat i)) / Q2Qc (4 # 1))%Qc).
    { apply Qc_is_canon. qc_push. field. }
    assert (Hy : (Q2Qc (inject_Z (Z.of_nat 15)) + ch
                  + - ((0 + (m + - 0) / (Q2Qc (5 # 1) + - 1) * Q2Qc (inject_Z (Z.of_nat i))
                        + - 0) / (m + - 0) * ch)
                  = Q2Qc (15 # 1) + ch
                    - Q2Qc (inject_Z (Z.of_nat i)) / Q2Qc (4 # 1) * ch)%Qc).
    { apply Qc_is_canon. qc_push. change (inject_Z (Z.of_nat 15)) with (15 # 1)%Q.
      field. apply Qc_neq_0 in Hne. exact Hne. }
    rewrite Hy. split; [now rewrite Hv|]. split; reflexivity. }
  unfold renderYAxis. rewrite Hshow. eexists. split; [reflexivity|].
  split; [now rewrite length_map; unfold tickValues; rewrite length_map, length_seq|].
  split; [exact Htick|]. split.
  - intros t Ht. destruct (Htick 0%nat t Ht) as (Hv & Hy & _).
    rewrite Hv, Hy. split; unfold zero; f_equal; apply Qc_is_canon; qc_push;
      change (inject_Z (Z.of_nat 0)) with 0%Q; field.
  - intros t Ht. destruct (Htick 4%nat t Ht) as (Hv & Hy & _).
    rewrite Hv, Hy. split; f_equal; apply Qc_is_canon; qc_push;
      change (inject_Z (Z.of_nat 4)) with (4 # 1)%Q; field.
Qed.

End AreaYAxis.

Lemma y_axis_ticks_witness :
  exists ticks,
    AreaChart.renderYAxis Examples.months (YString "value") AreaChart.curved true true true
      (of_nat 150) (of_nat 30) ∅ = Some ticks /\
    length ticks = 5%nat /\
    (forall t, ticks !! 0%nat = Some t ->
       AreaChart.tick_value t = zero /\
       AreaChart.text_y t = Fin (Q2Qc (15 # 1) + Q2Qc (inject_Z 105) + Q2Qc (4 # 1))) /\
    (forall t, ticks !! 4%nat = Some t ->
       AreaChart.tick_value t = Fin (Q2Qc (inject_Z 33)) /\
       AreaChart.text_y t = Fin (Q2Qc (15 # 1) + Q2Qc (4 # 1))).
Proof.
  destruct (y_axis_ticks_span_the_plot Examples.months (YString "value") AreaChart.curved
              true true true (of_nat 150) (of_nat 30) ∅
              (Q2Qc (inject_Z 33)) (Q2Qc (inject_Z 105)))
    as (ticks & Hticks & Hlen & _ & Hfirst & Hlast).
  - reflexivity.
  - vm_compute; f_equal; try (apply Qc_is_canon; reflexivity).
  - vm_compute. reflexivity.
  - vm_compute; f_equal; try (apply Qc_is_canon; reflexivity).
  - exists ticks. repeat split; try assumption; try apply Hfirst; try apply Hlast;
      assumption.
Defined.

(** ** The crosshair snap (AreaChart and the useCrosshairSnap hook) *)

Section SnapNearest.

Import Spec.

(** Rounding moves a number by at most one half. *)
Lemma round_half_up_bounds (q : Qc) :
  (q - Q2Qc (1 # 2) <= Q2Qc (inject_Z (round_half_up q)))%Qc /\
  (Q2Qc (inject_Z (round_half_up q)) <= q + Q2Qc (1 # 2))%Qc.
Proof.
  unfold round_half_up.
  pose proof (Qfloor_le (q + Q2Qc (1 # 2))%Qc) as Hfl.
  pose proof (Qlt_floor (q + Q2Qc (1 # 2))%Qc) as Hfu.
  rewrite inject_Z_plus in Hfu. change (inject_Z 1) with 1%Q in Hfu.
  revert Hfl Hfu. generalize (Qfloor (q + Q2Qc (1 # 2))%Qc). intros z Hfl Hfu.
  qc_hyps. split; qc_goal; lra.
Qed.

(** An integer within one half of an integer is that integer, and one
    within one half of a half-integer is one of its two neighbours. *)
Lemma nearest_of_interior (q : Qc) (z j : Z) :
  (q - Q2Qc (1 # 2) <= Q2Qc (inject_Z z))%Qc ->
  (Q2Qc (inject_Z z) <= q + Q2Qc (1 # 2))%Qc ->
  (Q2Qc (inject_Z j) - Q2Qc (1 # 2) < q)%Qc ->
  (q < Q2Qc (inject_Z j) + Q2Qc (1 # 2))%Qc ->
  z = j.
Proof.
  intros Hlo Hhi Hjl Hjh. qc_hyps.
  assert (H1 : (inject_Z z < inject_Z j + 1)%Q) by lra.
  assert (H2 : (inject_Z j < inject_Z z + 1)%Q) by lra.
  change 1%Q with (inject_Z 1) in H1, H2.
  rewrite <- inject_Z_plus, <- Zlt_Qlt in H1, H2. lia.
Qed.

Lemma nearest_of_tie (q : Qc) (z j : Z) :
  (q - Q2Qc (1 # 2) <= Q2Qc (inject_Z z))%Qc ->
  (Q2Qc (inject_Z z) <= q + Q2Qc (1 # 2))%Qc ->
  q = (Q2Qc (inject_Z j) + Q2Qc (1 # 2))%Qc ->
  z = j \/ z = (j + 1)%Z.
Proof.
  intros Hlo Hhi Hq. qc_hyps.
  assert (H1 : (inject_Z j <= inject_Z z)%Q) by lra.
  assert (H2 : (inject_Z z <= inject_Z j + 1)%Q) by lra.
  change 1%Q with (inject_Z 1) in H2.
  rewrite <- inject_Z_plus in H2. rewrite <- Zle_Qle in H1, H2. lia.
Qed.

Lemma nearest_below (q : Qc) (z : Z) :
  (Q2Qc (inject_Z z) <= q + Q2Qc (1 # 2))%Qc -> (q < Q2Qc (1 # 2))%Qc -> (z <= 0)%Z.
Proof.
  intros Hhi Hq. qc_hyps.
  assert (H1 : (inject_Z z < inject_Z 1)%Q) by (change (inject_Z 1) with 1%Q; lra).
  rewrite <- Zlt_Qlt in H1. lia.
Qed.

Lemma nearest_above (q : Qc) (z m : Z) :
  (q - Q2Qc (1 # 2) <= Q2Qc (inject_Z z))%Qc ->
  (Q2Qc (inject_Z m) - Q2Qc (1 # 2) < q)%Qc -> (m <= z)%Z.
Proof.
  intros Hlo Hq. qc_hyps.
  assert (H1 : (inject_Z m < inject_Z z + 1)%Q) by lra.
  change 1%Q with (inject_Z 1) in H1.
  rewrite <- inject_Z_plus, <- Zlt_Qlt in H1. lia.
Qed.

(** The quotient of the handlers at the pixel of an index and halfway to
    the next one. *)
Lemma quotient_at_point cx w n (j : Z) :
  w <> 0%Qc ->
  ((pixel_x cx w n j - cx) / (w / divisor n))%Qc = Q2Qc (inject_Z j).
Proof.
  intros Hw. unfold pixel_x.
  pose proof (divisor_neq_0 n) as Hd. revert Hd. generalize (divisor n). intros d Hd.
  apply Qc_neq_0 in Hw, Hd. apply Qc_is_canon. qc_push. field. tauto.
Qed.

Lemma quotient_halfway cx w n (j : Z) :
  w <> 0%Qc ->
  (((pixel_x cx w n j + pixel_x cx w n (j + 1)) / Q2Qc (2 # 1) - cx)
   / (w / divisor n))%Qc
  = (Q2Qc (inject_Z j) + Q2Qc (1 # 2))%Qc.
Proof.
  intros Hw. unfold pixel_x.
  pose proof (divisor_neq_0 n) as Hd. revert Hd. generalize (divisor n). intros d Hd.
  apply Qc_neq_0 in Hw, Hd. apply Qc_is_canon. qc_push.
  rewrite inject_Z_plus. field. tauto.
Qed.

(** Over a plot of non-zero width the index of the handlers is an index
    of the data. *)
Lemma snap_index_is_Some {A} (l : list A) cx w mx :
  w <> 0%Qc -> l <> [] ->
  let stepWidth := Fin w / max2 (of_nat (length l) - one) one in
  let nearestIndex := Math_round ((Fin mx - Fin cx) / stepWidth) in
  let nearestIndex := max2 zero (min2 nearestIndex (of_nat (length l) - one)) in
  exists a, index_num l nearestIndex = Some a.
Proof.
  intros Hw Hl. cbv zeta.
  destruct (snap_core (length l) cx w mx Hw) as [-> _].
  assert (Hn : (0 < length l)%nat) by (destruct l; [congruence | simpl; lia]).
  pose proof (snap_index_range cx w (length l) mx Hn) as Hk.
  rewrite index_num_of_Z by lia.
  apply lookup_lt_is_Some_2. lia.
Qed.

(** Over a plot of width 0 a pointer on [chartX] gives the quotient 0/0:
    the index and the snap x are NaN. *)
Lemma snap_zero_width n cx :
  let stepWidth := zero / max2 (of_nat n - one) one in
  let nearestIndex := Math_round ((Fin cx - Fin cx) / stepWidth) in
  let nearestIndex := max2 zero (min2 nearestIndex (of_nat n - one)) in
  nearestIndex = NaN /\
  Fin cx + (nearestIndex / max2 (of_nat n - one) one) * zero = NaN.
Proof.
  cbv zeta. rewrite guarded_divisor. unfold zero at 1.
  rewrite (div_fin 0) by apply divisor_neq_0.
  replace (0 / divisor n)%Qc with 0%Qc by (unfold Qcdiv; now rewrite Qcmult_0_l).
  replace (Fin cx - Fin cx) with (Fin 0)
    by (cbn [sub add neg]; now rewrite Qcplus_opp_r).
  split; reflexivity.
Qed.


End SnapNearest.



(** ** The snap tooltip *)

Section SnapTooltipPosition.

Lemma omap_none {A B} (f : A -> option B) (l : list A) :
  (forall a, f a = None) -> omap f l = [].
Proof.
  intros Hf. induction l as [|a l IH]; [reflexivity|].
  cbn [omap list_omap]. now rewrite Hf.
Qed.

(** After the crosshair the handler of AreaChart sets the tooltip, if
    [showTooltip] holds: at the x of the crosshair and at the smallest y of
    the crosshair points, that is on the topmost visible series, or at
    y = 0 when no series has a point there.  The handler of the
    [useCrosshairSnap] hook puts the tooltip 10 pixels above the smallest
    y and has no guard for an empty list of keys, where the y of the
    tooltip is Infinity.  With the default content (no formatter) both
    handlers throw instead when the index of the crosshair is no index of
    the data.  Over non-empty data, a plot of finite width other than 0
    and a finite pointer position the index is one of the data and the
    tooltip is set; over a plot of width 0 (the default of the hook) a
    pointer on [chartX] makes the index NaN and the handler throw. *)
Theorem tooltip_sits_on_topmost_point
    (data : list item) (yKey : ykey) (variant : AreaChart.variant_t)
    (color_name : ChartUtils.palette_name) (showXAxis showYAxis : bool)
    (width height yAxisWidth xAxisHeight : num) (hiddenSeries : gset nat)
    (chartX chartWidth : num) (yKeys : list string)
    (getPointY : option item -> string -> num -> num) (getColorFn : nat -> option string)
    (rect_left : option num) (clientX : num) :
  let area_handler :=
    AreaChart.handleChartMouseMove data yKey variant color_name showXAxis showYAxis
      width height yAxisWidth xAxisHeight hiddenSeries rect_left clientX in
  let area_tooltip showTooltip tooltipFormatter :=
    AreaChart.handleChartMouseMove_tooltip data yKey variant color_name showXAxis
      showYAxis width height yAxisWidth xAxisHeight hiddenSeries showTooltip
      tooltipFormatter rect_left clientX in
  let hook_handler :=
    ChartUtils.handleChartMouseMove data chartX chartWidth yKeys getPointY getColorFn
      rect_left clientX in
  let hook_tooltip showTooltip tooltipFormatter :=
    ChartUtils.handleChartMouseMove_tooltip data chartX chartWidth yKeys getPointY
      getColorFn showTooltip tooltipFormatter rect_left clientX in
  (forall ch, area_handler = Some ch ->
     (forall f, area_tooltip false f = Ignored) /\
     exists ty,
       (AreaChart.ch_points ch = [] -> ty = zero) /\
       (AreaChart.ch_points ch <> [] ->
        Forall (fun p => Spec.finite (AreaChart.cp_y p)) (AreaChart.ch_points ch) ->
        (exists p, p ∈ AreaChart.ch_points ch /\ ty = AreaChart.cp_y p) /\
        (forall p, p ∈ AreaChart.ch_points ch -> le ty (AreaChart.cp_y p) = true)) /\
       area_tooltip true true = Updated (AreaChart.ch_x ch, ty) /\
       (index_num data (AreaChart.ch_index ch) <> None ->
        area_tooltip true false = Updated (AreaChart.ch_x ch, ty)) /\
       (index_num data (AreaChart.ch_index ch) = None ->
        area_tooltip true false = Threw)) /\
  (forall ch, hook_handler = Some ch ->
     (forall f, hook_tooltip false f = Ignored) /\
     exists ty,
       (yKeys = [] -> ty = PInf /\ ty - lit 10 1 = PInf) /\
       (yKeys <> [] ->
        Forall (fun p => Spec.finite p.1) (ChartUtils.ch_points ch) ->
        (exists p, p ∈ ChartUtils.ch_points ch /\ ty = p.1) /\
        (forall p, p ∈ ChartUtils.ch_points ch -> le ty p.1 = true)) /\
       hook_tooltip true true = Updated (ChartUtils.ch_x ch, ty - lit 10 1) /\
       (index_num data (ChartUtils.ch_index ch) <> None ->
        hook_tooltip true false = Updated (ChartUtils.ch_x ch, ty - lit 10 1)) /\
       (index_num data (ChartUtils.ch_index ch) = None ->
        hook_tooltip true false = Threw)) /\
  (area_handler = None -> forall b f, area_tooltip b f = Ignored) /\
  (hook_handler = None -> forall b f, hook_tooltip b f = Ignored) /\
  (forall rleft (cx w mx : Qc),
     rect_left = Some rleft -> data <> [] ->
     AreaChart.chartX showYAxis yAxisWidth = Fin cx ->
     AreaChart.chartWidth showYAxis width yAxisWidth = Fin w -> w <> 0%Qc ->
     clientX - rleft = Fin mx ->
     exists ch it,
       area_handler = Some ch /\
       index_num data (AreaChart.ch_index ch) = Some it /\
       forall f, exists ty, area_tooltip true f = Updated (AreaChart.ch_x ch, ty)) /\
  (forall rleft (cx w mx : Qc),
     rect_left = Some rleft -> data <> [] ->
     chartX = Fin cx -> chartWidth = Fin w -> w <> 0%Qc ->
     clientX - rleft = Fin mx ->
     exists ch it,
       hook_handler = Some ch /\
       index_num data (ChartUtils.ch_index ch) = Some it /\
       forall f, exists ty, hook_tooltip true f = Updated (ChartUtils.ch_x ch, ty)) /\
  (forall rleft (cx : Qc),
     rect_left = Some rleft -> data <> [] ->
     AreaChart.chartX showYAxis yAxisWidth = Fin cx ->
     AreaChart.chartWidth showYAxis width yAxisWidth = zero ->
     clientX - rleft = Fin cx ->
     area_tooltip true false = Threw /\ area_tooltip true true = Updated (NaN, zero)) /\
  (forall rleft (cx : Qc),
     rect_left = Some rleft -> data <> [] ->
     chartX = Fin cx -> chartWidth = zero ->
     clientX - rleft = Fin cx ->
     hook_tooltip true false = Threw).
Proof.
  cbv zeta. split; [|split; [|split; [|split; [|split; [|split; [|split]]]]]].
  - intros ch Hch. unfold AreaChart.handleChartMouseMove_tooltip. rewrite Hch.
    split; [reflexivity|].
    eexists. split; [|split; [|split; [reflexivity|split]]].
    + intros ->. reflexivity.
    + intros Hne Hfin.
      replace (0 <? length (AreaChart.ch_points ch))%nat with true
        by (symmetry; apply Nat.ltb_lt; destruct (AreaChart.ch_points ch);
            [congruence | cbn; lia]).
      destruct (Math_min_spec (map AreaChart.cp_y (AreaChart.ch_points ch)))
        as [Hin Hlb].
      { intros E. destruct (AreaChart.ch_points ch); [congruence | discriminate E]. }
      { now apply Forall_fmap. }
      split.
      * apply list_elem_of_fmap in Hin as (p & Hp & Hpin). eauto.
      * intros p Hp. apply Hlb, list_elem_of_fmap. eauto.
    + intros Hsome. destruct (index_num data (AreaChart.ch_index ch)); [reflexivity|].
      congruence.
    + intros ->. reflexivity.
  - intros ch Hch. unfold ChartUtils.handleChartMouseMove_tooltip. rewrite Hch.
    split; [reflexivity|].
    assert (Hlen : length (ChartUtils.ch_points ch) = length yKeys).
    { unfold ChartUtils.handleChartMouseMove in Hch.
      destruct rect_left; [|discriminate].
      destruct (length data =? 0)%nat; [discriminate|].
      apply (inj Some) in Hch. subst ch. cbn [ChartUtils.ch_points]. apply length_imap. }
    eexists. split; [|split; [|split; [reflexivity|split]]].
    + intros ->. destruct (ChartUtils.ch_points ch); [|discriminate Hlen].
      split; reflexivity.
    + intros Hne Hfin.
      destruct (Math_min_spec (map fst (ChartUtils.ch_points ch))) as [Hin Hlb].
      { intros E. destruct (ChartUtils.ch_points ch); [|discriminate E].
        destruct yKeys; [congruence | discriminate]. }
      { now apply Forall_fmap. }
      split.
      * apply list_elem_of_fmap in Hin as (p & Hp & Hpin). eauto.
      * intros p Hp. apply Hlb, list_elem_of_fmap. eauto.
    + intros Hsome. destruct (index_num data (ChartUtils.ch_index ch)); [reflexivity|].
      congruence.
    + intros ->. reflexivity.
  - intros Hn b f. unfold AreaChart.handleChartMouseMove_tooltip. rewrite Hn. reflexivity.
  - intros Hn b f. unfold ChartUtils.handleChartMouseMove_tooltip. rewrite Hn. reflexivity.
  - intros rleft cx w mx -> Hdata Hcx Hw Hw0 Hmx.
    assert (Hlen : (length data =? 0)%nat = false)
      by (apply Nat.eqb_neq; destruct data; [congruence | simpl; lia]).
    destruct (snap_index_is_Some data cx w mx Hw0 Hdata) as [it Hit].
    unfold AreaChart.handleChartMouseMove_tooltip, AreaChart.handleChartMouseMove.
    rewrite Hlen, Hmx, Hcx, Hw.
    eexists. exists it. split; [reflexivity|]. cbn [AreaChart.ch_index AreaChart.ch_x].
    split; [exact Hit|].
    intros f. rewrite Hit. destruct f; eexists; reflexivity.
  - intros rleft cx w mx -> Hdata -> -> Hw0 Hmx.
    assert (Hlen : (length data =? 0)%nat = false)
      by (apply Nat.eqb_neq; destruct data; [congruence | simpl; lia]).
    destruct (snap_index_is_Some data cx w mx Hw0 Hdata) as [it Hit].
    unfold ChartUtils.handleChartMouseMove_tooltip, ChartUtils.handleChartMouseMove.
    rewrite Hlen, Hmx.
    eexists. exists it. split; [reflexivity|]. cbn [ChartUtils.ch_index ChartUtils.ch_x].
    split; [exact Hit|].
    intros f. rewrite Hit. destruct f; eexists; reflexivity.
  - intros rleft cx -> Hdata Hcx Hw Hmx.
    assert (Hlen : (length data =? 0)%nat = false)
      by (apply Nat.eqb_neq; destruct data; [congruence | simpl; lia]).
    destruct (snap_zero_width (length data) cx) as [Hidx Hx].
    unfold AreaChart.handleChartMouseMove_tooltip, AreaChart.handleChartMouseMove.
    rewrite Hlen, Hmx, Hcx, Hw. cbn [AreaChart.ch_index AreaChart.ch_x AreaChart.ch_points].
    rewrite Hx, Hidx.
    rewrite omap_none by (intros ap; destruct (AreaChart.hidden ap); reflexivity).
    split; reflexivity.
  - intros rleft cx -> Hdata -> -> Hmx.
    assert (Hlen : (length data =? 0)%nat = false)
      by (apply Nat.eqb_neq; destruct data; [congruence | simpl; lia]).
    destruct (snap_zero_width (length data) cx) as [Hidx Hx].
    unfold ChartUtils.handleChartMouseMove_tooltip, ChartUtils.handleChartMouseMove.
    rewrite Hlen, Hmx. cbn [ChartUtils.ch_index].
    rewrite Hidx. reflexivity.
Qed.

End SnapTooltipPosition.

(** ** The slices of the pie do not overlap (PieChart.slices) *)

Section PieNoOverlap.

Import PieChart Spec.

Lemma le_trans a b c : le a b = true -> le b c = true -> le a c = true.
Proof.
  destruct a as [p| | |], b as [q| | |], c as [r| | |]; cbn;
    try discriminate; try reflexivity.
  rewrite !qle_true. apply Qcle_trans.
Qed.

(** Along a chain of slices none of which ends before it starts, the
    angles never go back. *)
Lemma chained_monotone (l : list slice) : forall a,
  finite a -> chained a l ->
  Forall (fun s => finite (endAngle s)) l ->
  (forall s, s ∈ l -> le (startAngle s) (endAngle s) = true) ->
  le a (chain_end a l) = true /\
  (forall s, s ∈ l ->
     le a (startAngle s) = true /\ le (endAngle s) (chain_end a l) = true) /\
  (forall i j s s', (i < j)%nat -> l !! i = Some s -> l !! j = Some s' ->
     le (endAngle s) (startAngle s') = true).
Proof.
  induction l as [|s l IH]; intros a Ha Hc Hf Hpos.
  - split; [|split].
    + rewrite (finite_inv a Ha). apply le_refl_fin.
    + intros s Hs. apply elem_of_nil in Hs. destruct Hs.
    + intros i j s s' _ Hi. discriminate Hi.
  - destruct Hc as [Hs Hc]. apply Forall_cons in Hf as [He Hf].
    assert (Hpos' : forall s', s' ∈ l -> le (startAngle s') (endAngle s') = true).
    { intros s' Hin. apply Hpos. now apply list_elem_of_further. }
    destruct (IH _ He Hc Hf Hpos') as (IH1 & IH2 & IH3).
    assert (Hae : le a (endAngle s) = true).
    { rewrite <- Hs. apply Hpos. apply list_elem_of_here. }
    assert (Haa : le a a = true) by (rewrite (finite_inv a Ha); apply le_refl_fin).
    rewrite chain_end_cons.
    split; [exact (le_trans _ _ _ Hae IH1)|]. split.
    + intros s' Hin. apply elem_of_cons in Hin as [-> | Hin].
      * rewrite Hs. split; [exact Haa | exact IH1].
      * destruct (IH2 s' Hin) as [H1 H2].
        split; [exact (le_trans _ _ _ Hae H1) | exact H2].
    + intros i j s1 s2 Hij Hi Hj.
      destruct j as [|j]; [lia|]. cbn in Hj.
      destruct i as [|i]; cbn in Hi.
      * apply (inj Some) in Hi. subst s1.
        apply (IH2 s2). apply list_elem_of_lookup. eauto.
      * apply (IH3 i j s1 s2); [lia | assumption | assumption].
Qed.

Context (data : list item) (valueKey : string) (variant : variant_t)
  (color_name : ChartUtils.palette_name)
  (donutWidth width height : num)
  (showLegend : bool) (legendPosition : position)
  (hiddenSlices : gset nat) (t : Qc).

Hypothesis Htotal : total data valueKey hiddenSlices = Fin t.
Hypothesis Ht : (0 < t)%Qc.

Local Abbreviation slices' :=
  (slices data valueKey variant color_name donutWidth width height showLegend
     legendPosition one hiddenSlices).
Local Abbreviation drawnSlices' :=
  (drawnSlices data valueKey variant color_name donutWidth width height showLegend
     legendPosition one hiddenSlices).

(** C10.  For a positive (finite) total and a complete animation, the
    slices of the pie are contiguous and exhaustive: a hidden slice has a
    zero span; the first drawn slice starts at -pi/2 (-pi for the semi
    variant); every drawn slice starts where the preceding drawn slice
    ends; the last one ends a full sweep after the start; and the spans of
    the drawn slices add up to 2*pi (pi for semi).  A drawn slice of
    non-negative value ends at or after its start; when no visible value
    is negative, every drawn slice lies within the sweep and a later drawn
    slice starts at or after the end of every earlier one, so the slices
    do not overlap. *)
Theorem pie_slices_contiguous_and_exhaustive :
  let start := if bool_decide (variant = semi) then - Math_PI
               else (- Math_PI) / lit 2 1 in
  let sweep := if bool_decide (variant = semi) then Math_PI
               else lit 2 1 * Math_PI in
  length slices' = length data /\
  (forall i s, slices' !! i = Some s ->
     hidden s = bool_decide (i ∈ hiddenSlices) /\
     (hidden s = true -> endAngle s = startAngle s)) /\
  (forall s, drawnSlices' !! 0%nat = Some s -> startAngle s = start) /\
  (forall j s s', drawnSlices' !! j = Some s -> drawnSlices' !! S j = Some s' ->
     startAngle s' = endAngle s) /\
  (forall s, last drawnSlices' = Some s -> endAngle s = start + sweep) /\
  sum_nums (map span drawnSlices') = sweep /\
  (forall s, s ∈ drawnSlices' -> le zero (value s) = true ->
     le (startAngle s) (endAngle s) = true) /\
  ((forall i d, data !! i = Some d -> i ∉ hiddenSlices ->
      le zero (raw d valueKey) = true) ->
   (forall s, s ∈ drawnSlices' ->
      le start (startAngle s) = true /\
      le (startAngle s) (endAngle s) = true /\
      le (endAngle s) (start + sweep) = true) /\
   (forall i j s s', (i < j)%nat ->
      drawnSlices' !! i = Some s -> drawnSlices' !! j = Some s' ->
      le (endAngle s) (startAngle s') = true)).
Proof.
  intros start sweep.
  destruct (drawn_chained data valueKey variant color_name donutWidth width height
              showLegend legendPosition hiddenSlices t Htotal Ht) as [Hc He].
  pose proof (drawn_ends_finite data valueKey variant color_name donutWidth width height
                showLegend legendPosition hiddenSlices t Htotal Ht) as Hfin.
  destruct (chained_lookup _ _ Hc) as [H0 HS].
  assert (Hnonneg : forall s, s ∈ drawnSlices' -> le zero (value s) = true ->
            le (startAngle s) (endAngle s) = true).
  { intros s Hs Hpos. unfold drawnSlices in Hs.
    apply list_elem_of_filter in Hs as [Hv Hs].
    apply list_elem_of_lookup in Hs as [k Hk].
    exact (span_nonneg data valueKey variant color_name donutWidth width height
             showLegend legendPosition hiddenSlices t Htotal Ht k s Hk Hv Hpos). }
  split; [apply slices_length|].
  split.
  { intros i s Hi. apply slice_angles in Hi as (Hh & _ & _ & Hz & _).
    split; assumption. }
  split; [exact H0|].
  split; [exact HS|].
  split.
  { intros s Hl. unfold chain_end in He. rewrite Hl in He. exact He. }
  split.
  { destruct (chained_span_sum _ _ (startAngle0_finite variant) Hc Hfin) as [Hsum _].
    rewrite Hsum, He.
    change (startAngle0 variant) with start. change (totalAngle variant) with sweep.
    assert (Hfs : finite start) by apply startAngle0_finite.
    assert (Hft : finite sweep) by apply totalAngle_finite.
    destruct start as [c| | |]; try discriminate.
    destruct sweep as [w| | |]; try discriminate.
    cbn. f_equal. ring. }
  split; [exact Hnonneg|].
  intros Hdata.
  assert (Hall : forall s, s ∈ drawnSlices' -> le (startAngle s) (endAngle s) = true).
  { intros s Hs. apply Hnonneg; [exact Hs|].
    unfold drawnSlices in Hs. apply list_elem_of_filter in Hs as [Hv Hs].
    apply list_elem_of_lookup in Hs as [k Hk].
    apply slice_angles in Hk as (Hh & _ & _ & _ & Hvis).
    destruct (Hvis Hv) as (d & Hd & -> & _).
    apply (Hdata k d Hd). rewrite Hv in Hh. unfold has in Hh.
    symmetry in Hh. now apply bool_decide_eq_false in Hh. }
  destruct (chained_monotone _ _ (startAngle0_finite variant) Hc Hfin Hall)
    as (_ & Hin & Hpair).
  rewrite He in Hin.
  split; [|exact Hpair].
  intros s Hs. destruct (Hin s Hs) as [H1 H2].
  split; [exact H1|]. split; [now apply Hall | exact H2].
Qed.

End PieNoOverlap.

(** Witness of C10: the pie of two equal values. *)
Lemma pie_slices_contiguous_witness :
  PieChart.total Examples.pie_5050 "value" ∅ = lit 100 1 /\
  (0 < Q2Qc (100 # 1))%Qc /\
  Spec.sum_nums
    (map Spec.span
       (PieChart.drawnSlices Examples.pie_5050 "value" PieChart.default ChartUtils.violet
          (lit 60 1) (lit 300 1) (lit 300 1) true PieChart.pos_bottom one ∅))
  = lit 2 1 * Math_PI.
Proof.
  assert (H1 : PieChart.total Examples.pie_5050 "value" ∅ = Fin (Q2Qc (100 # 1)))
    by compute_done.
  assert (H2 : (0 < Q2Qc (100 # 1))%Qc) by (vm_compute; reflexivity).
  split; [exact H1|]. split; [exact H2|].
  apply (pie_slices_contiguous_and_exhaustive Examples.pie_5050 "value" PieChart.default
           ChartUtils.violet (lit 60 1) (lit 300 1) (lit 300 1) true PieChart.pos_bottom
           ∅ (Q2Qc (100 # 1)) H1 H2).
Defined.

(** C10, counterexample.  The pie of the values -1 and 5 has the positive
    total 4.  Its slices are contiguous and their spans add up to 2*pi,
    but slice 0 runs backwards, from -pi/2 to -pi, and slice 1 goes from
    -pi to 3*pi/2: it spans 5*pi/2, more than the full circle, and covers
    slice 0. *)
Lemma pie_negative_value_overlaps :
  let drawn :=
    PieChart.drawnSlices Examples.pie_negative "value" PieChart.default
      ChartUtils.violet (lit 60 1) (lit 300 1) (lit 300 1) true PieChart.pos_bottom
      one ∅ in
  PieChart.total Examples.pie_negative "value" ∅ = lit 4 1 /\
  map PieChart.startAngle drawn = [(- Math_PI) / lit 2 1; - Math_PI] /\
  map PieChart.endAngle drawn = [- Math_PI; lit 3 1 * Math_PI / lit 2 1] /\
  map Spec.span drawn = [(- Math_PI) / lit 2 1; lit 5 1 * Math_PI / lit 2 1] /\
  Spec.sum_nums (map Spec.span drawn) = lit 2 1 * Math_PI /\
  lt (lit 2 1 * Math_PI) (lit 5 1 * Math_PI / lit 2 1) = true /\
  lt (- Math_PI) ((- Math_PI) / lit 2 1) = true.
Proof.
  cbv zeta. repeat split; compute_done.
Qed.

(** ** Hidden series and slices: the value range, the render pass and the colours *)

Section HiddenRender.

Import Spec.

Lemma filter_index_from_all {A} (f : nat -> bool) (l : list A) : forall i,
  (forall j, f j = true) -> filter_index_from f i l = l.
Proof.
  induction l as [|a l IH]; intros i Hf; [reflexivity|].
  cbn [filter_index_from]. now rewrite Hf, IH.
Qed.

(** With every series hidden the maximum is the one of no series hidden. *)
Lemma area_maxValue_fallback data yKey variant hiddenSeries :
  AreaChart.visibleYKeys yKey hiddenSeries = [] ->
  AreaChart.maxValue data yKey variant hiddenSeries
  = AreaChart.maxValue data yKey variant ∅.
Proof.
  intros Hnil. unfold AreaChart.maxValue. rewrite Hnil. cbn [length Nat.ltb Nat.leb].
  assert (Hall : AreaChart.visibleYKeys yKey ∅ = AreaChart.yKeys yKey).
  { unfold AreaChart.visibleYKeys, filter_index. apply filter_index_from_all.
    intros j. unfold AreaChart.has. rewrite bool_decide_eq_false_2 by set_solver. reflexivity. }
  rewrite Hall. now destruct (length (AreaChart.yKeys yKey)).
Qed.

Lemma bar_maxValue_fallback data yKey variant hiddenSeries :
  BarChart.visibleYKeys yKey hiddenSeries = [] ->
  BarChart.maxValue data yKey variant hiddenSeries
  = BarChart.maxValue data yKey variant ∅.
Proof.
  intros Hnil. unfold BarChart.maxValue. rewrite Hnil. cbn [length Nat.ltb Nat.leb].
  assert (Hall : BarChart.visibleYKeys yKey ∅ = BarChart.yKeys yKey).
  { unfold BarChart.visibleYKeys, filter_index. apply filter_index_from_all.
    intros j. unfold BarChart.has. rewrite bool_decide_eq_false_2 by set_solver. reflexivity. }
  rewrite Hall. now destruct (length (BarChart.yKeys yKey)).
Qed.

(** When the render pass returns, its groups are those of the series it
    selects, in the same order. *)
Lemma area_groups_series data yKey variant color_name showLine showXAxis showYAxis
    width height yAxisWidth xAxisHeight animationProgress hiddenSeries groups :
  AreaChart.renderAreas data yKey variant color_name showLine showXAxis showYAxis width
    height yAxisWidth xAxisHeight animationProgress hiddenSeries = Some groups ->
  Forall2 (fun ap g => AreaChart.g_index g = AreaChart.index ap /\
                       AreaChart.g_key g = AreaChart.key ap)
    (AreaChart.drawnSeries data yKey variant showXAxis showYAxis width height yAxisWidth
       xAxisHeight hiddenSeries) groups.
Proof.
  unfold AreaChart.renderAreas. intros Hr. apply mapM_Some_1 in Hr.
  eapply Forall2_impl; [exact Hr|].
  intros ap g Hbody. cbv beta in Hbody.
  repeat match type of Hbody with
         | (?m ≫= _) = Some _ =>
             let E := fresh "E" in
             destruct m eqn:E; cbn [mbind option_bind] in Hbody; [|discriminate Hbody]
         end.
  apply (inj Some) in Hbody. subst g. split; reflexivity.
Qed.


End HiddenRender.


(** ** Missing fields are plotted as 0 *)

Section MissingAsZero.

Import Spec.

(** The maximum bounds what every item contributes and is one of the
    contributions. *)
Lemma max_over_keys_spec keys (stackedMode : bool) data M :
  (if stackedMode then
     Math_max (map (fun d => foldl (fun sum key => sum + or0 (get d key)) zero keys) data)
   else Math_max (flat_map (fun d => map (fun key => or0 (get d key)) keys) data))
  = Fin M ->
  (forall d v, d ∈ data -> v ∈ max_inputs keys stackedMode d -> le v (Fin M) = true) /\
  (exists d, d ∈ data /\ Fin M ∈ max_inputs keys stackedMode d).
Proof.
  intros Hmax. unfold max_inputs. destruct stackedMode.
  - split.
    + intros d v Hd Hv. apply list_elem_of_singleton in Hv. subst v.
      apply (Math_max_ub _ _ _ Hmax).
      apply list_elem_of_fmap. exists d. split; [reflexivity | exact Hd].
    + apply Math_max_attained in Hmax.
      apply list_elem_of_fmap in Hmax as (d & Hd & Hin).
      exists d. split; [exact Hin|]. rewrite Hd. apply list_elem_of_singleton. reflexivity.
  - split.
    + intros d v Hd Hv. apply (Math_max_ub _ _ _ Hmax).
      apply list_elem_of_In, in_flat_map. exists d.
      split; apply list_elem_of_In; assumption.
    + apply Math_max_attained in Hmax.
      apply list_elem_of_In, in_flat_map in Hmax as (d & Hd & Hin).
      exists d. split; apply list_elem_of_In; assumption.
Qed.

Lemma mul_fin_l_inv a c m : a * Fin c = Fin m -> exists M, a = Fin M /\ m = (M * c)%Qc.
Proof.
  destruct a as [q| | |]; cbn.
  - intros E. exists q. split; [reflexivity|]. congruence.
  - destruct (c ?= 0)%Qc; discriminate.
  - destruct (c ?= 0)%Qc; discriminate.
  - discriminate.
Qed.

Lemma raw_present d key q :
  get d key = VNum (Fin q) -> q <> 0%Qc -> raw d key = Fin q.
Proof.
  intros Hg Hq. unfold raw. rewrite Hg. cbn [or0]. unfold or_else, truthy.
  apply qeqb_false in Hq. now rewrite Hq.
Qed.

Lemma missing_or_finite_raw v : missing_or_finite v -> finite (or0 v).
Proof.
  intros [Hm | [q ->]].
  - destruct v; [reflexivity | reflexivity | discriminate Hm].
  - cbn [or0]. unfold or_else. now destruct (truthy (Fin q)).
Qed.


End MissingAsZero.

